(** * WordCraft: board engine and multiplayer room coordinator

    A shallow embedding of the word-game engine ([lib/scrabble-engine.ts],
    [lib/game-context.tsx]) and of the authoritative room coordinator
    ([server/game-rooms.ts]) together with the properties the specification
    states about them.

    Conventions of the embedding.
    - JavaScript numbers that hold coordinates, counters and scores are
      integers here ([Z]). The coordinates of a [place_tiles] message can be
      any number; the part "Numbers in a message" reads them as such, up to
      the point where the code has made sure that they are integers.
    - Arrays are lists; [board[r][c]] is a lookup in a list of lists. A read
      through [undefined] raises a [TypeError] in the source: such runs are
      [None] in the option monad.
    - [PREMIUM_MAP] is keyed in the source by the text [`${r},${c}`]; the
      rendering of a pair of integers is injective, so the key is the pair.
    - [Math.random], [Date.now] and socket states are inputs of the
      functions that consult them. *)

From stdpp Require Import gmap strings pretty list fin_maps sorting.
From Stdlib Require Import ZArith Lia Permutation Ascii.

Local Open Scope Z_scope.

(** ** Data model *)

Record Tile := mkTile {
  tid : string;
  letter : string;
  value : Z;
  isBlank : bool
}.

Record PlacedTile := mkPlaced {
  ptile : Tile;
  row : Z;
  col : Z
}.

Inductive PremiumType := PNone | DL | TL | DW | TW | CENTER.

Record BoardCell := mkCell {
  tile : option Tile;
  premium : PremiumType
}.

Abbreviation Board := (list (list BoardCell)).

Global Instance Tile_eq_dec : EqDecision Tile.
Proof. solve_decision. Defined.

Global Instance PlacedTile_eq_dec : EqDecision PlacedTile.
Proof. solve_decision. Defined.

Global Instance PremiumType_eq_dec : EqDecision PremiumType.
Proof. solve_decision. Defined.

Global Instance BoardCell_eq_dec : EqDecision BoardCell.
Proof. solve_decision. Defined.

(** ** Premium layout *)

Definition TW_cells : list (Z * Z) :=
  [(0,0);(0,7);(0,14);(7,0);(7,14);(14,0);(14,7);(14,14)].

Definition DW_cells : list (Z * Z) :=
  [(1,1);(2,2);(3,3);(4,4);(10,10);(11,11);(12,12);(13,13);
   (1,13);(2,12);(3,11);(4,10);(10,4);(11,3);(12,2);(13,1)].

Definition TL_cells : list (Z * Z) :=
  [(1,5);(1,9);(5,1);(5,5);(5,9);(5,13);
   (9,1);(9,5);(9,9);(9,13);(13,5);(13,9)].

Definition DL_cells : list (Z * Z) :=
  [(0,3);(0,11);(2,6);(2,8);(3,0);(3,7);(3,14);
   (6,2);(6,6);(6,8);(6,12);
   (7,3);(7,11);
   (8,2);(8,6);(8,8);(8,12);
   (11,0);(11,7);(11,14);(12,6);(12,8);(14,3);(14,11)].

(** [cells.forEach(([r, c]) => { PREMIUM_MAP[`${r},${c}`] = kind; })] *)
Definition assignAll (kind : PremiumType) (cells : list (Z * Z))
    (m : gmap (Z * Z) PremiumType) : gmap (Z * Z) PremiumType :=
  foldl (fun acc rc => <[rc := kind]> acc) m cells.

(** [initPremiumMap()] run on the empty [PREMIUM_MAP]. *)
Definition initPremiumMap : gmap (Z * Z) PremiumType :=
  <[(7,7) := CENTER]>
    (assignAll DL DL_cells
      (assignAll TL TL_cells
        (assignAll DW DW_cells
          (assignAll TW TW_cells ∅)))).

Definition PREMIUM_MAP : gmap (Z * Z) PremiumType := initPremiumMap.

(** [PREMIUM_MAP[`${row},${col}`] || 'none'] *)
Definition getPremiumType (r c : Z) : PremiumType :=
  default PNone (PREMIUM_MAP !! (r, c)).

(** The two nested loops of [createEmptyBoard]. *)
Definition createEmptyBoard : Board :=
  map (fun r => map (fun c => mkCell None (getPremiumType r c))
                    (map Z.of_nat (seq 0 15)))
      (map Z.of_nat (seq 0 15)).

(** Board reads. [board[r][c]] with either index outside the array reads
    through [undefined], which throws once a field is taken. *)
Definition getCell (b : Board) (r c : Z) : option BoardCell :=
  if bool_decide (0 <= r) && bool_decide (0 <= c)
  then b !! Z.to_nat r ≫= fun line => line !! Z.to_nat c
  else None.

(** [board[r][c].tile !== null], also the truthiness test of
    [tempBoard[r][c].tile]. *)
Definition occupied (b : Board) (r c : Z) : option bool :=
  cell ← getCell b r c; Some (bool_decide (is_Some (tile cell))).

(** The shape every board of the program has: 15 rows of 15 cells. *)
Definition wf_board (b : Board) : Prop :=
  length b = 15%nat ∧ Forall (fun line => length line = 15%nat) b.

(** All coordinates of the grid, row by row. *)
Definition allCells : list (Z * Z) :=
  r ← map Z.of_nat (seq 0 15); c ← map Z.of_nat (seq 0 15); [(r, c)].

(** Number of grid cells whose premium classification is [k]. *)
Definition countPremium (k : PremiumType) : nat :=
  length (filter (fun rc => getPremiumType rc.1 rc.2 = k) allCells).

(** ** Placement validation ([validatePlacement]) *)

(** The reasons [validatePlacement] gives, in the order it tests them. *)
Inductive PlacementError :=
  | NoTilesPlaced
  | NotSingleLine
  | OutOfBounds
  | CellOccupied
  | MustCoverCenter
  | FirstWordTooShort
  | MustConnect
  | GapsInPlacement.

(** The [error] text of the room coordinator's copy. *)
Definition serverErrorText (e : PlacementError) : string :=
  match e with
  | NoTilesPlaced => "No tiles placed"
  | NotSingleLine => "Tiles must be in a single row or column"
  | OutOfBounds => "Tile out of bounds"
  | CellOccupied => "Cell already occupied"
  | MustCoverCenter => "First word must cover center"
  | FirstWordTooShort => "First word must be at least 2 letters"
  | MustConnect => "Word must connect to existing tiles"
  | GapsInPlacement => "Gaps in placement"
  end.

(** The [error] text of the client engine's copy. *)
Definition engineErrorText (e : PlacementError) : string :=
  match e with
  | MustCoverCenter => "First word must cover the center square"
  | GapsInPlacement => "Gaps in word placement"
  | _ => serverErrorText e
  end.

(** [{ valid: true }] or [{ valid: false, error }]. *)
Inductive Validation :=
  | Valid
  | Invalid (e : PlacementError).

Global Instance PlacementError_eq_dec : EqDecision PlacementError.
Proof. solve_decision. Defined.

Global Instance Validation_eq_dec : EqDecision Validation.
Proof. solve_decision. Defined.

(** [placedTiles.every(t => t.row === placedTiles[0].row)] *)
Definition sameRowOf (placedTiles : list PlacedTile) : bool :=
  match placedTiles with
  | [] => true
  | p0 :: _ => forallb (fun t => bool_decide (row t = row p0)) placedTiles
  end.

(** [placedTiles.every(t => t.col === placedTiles[0].col)] *)
Definition sameColOf (placedTiles : list PlacedTile) : bool :=
  match placedTiles with
  | [] => true
  | p0 :: _ => forallb (fun t => bool_decide (col t = col p0)) placedTiles
  end.

(** The loop over the tiles that tests bounds, then occupancy, tile by
    tile; [Some e] is the first failure. *)
Fixpoint checkCells (board : Board) (placedTiles : list PlacedTile)
    : option (option PlacementError) :=
  match placedTiles with
  | [] => Some None
  | t :: rest =>
      if bool_decide (row t < 0) || bool_decide (row t > 14)
         || bool_decide (col t < 0) || bool_decide (col t > 14)
      then Some (Some OutOfBounds)
      else
        occ ← occupied board (row t) (col t);
        if occ : bool then Some (Some CellOccupied) else checkCells board rest
  end.

(** [[t.row-1,t.col],[t.row+1,t.col],[t.row,t.col-1],[t.row,t.col+1]] *)
Definition neighbours (t : PlacedTile) : list (Z * Z) :=
  [(row t - 1, col t); (row t + 1, col t); (row t, col t - 1); (row t, col t + 1)].

(** Inner loop of the connection test: does one of [adj] lie on the grid
    and hold a tile? *)
Fixpoint touchesAny (board : Board) (adj : list (Z * Z)) : option bool :=
  match adj with
  | [] => Some false
  | (nr, nc) :: rest =>
      if bool_decide (nr >= 0) && bool_decide (nr < 15)
         && bool_decide (nc >= 0) && bool_decide (nc < 15)
      then
        occ ← occupied board nr nc;
        if occ : bool then Some true else touchesAny board rest
      else touchesAny board rest
  end.

(** Outer loop of the connection test. *)
Fixpoint touchesExisting (board : Board) (placedTiles : list PlacedTile)
    : option bool :=
  match placedTiles with
  | [] => Some false
  | t :: rest =>
      touches ← touchesAny board (neighbours t);
      if touches : bool then Some true else touchesExisting board rest
  end.

(** [xs.sort((a, b) => a - b)]: the ascending arrangement. *)
Definition sortNumeric (xs : list Z) : list Z := merge_sort Z.le xs.

(** The scan [for (let k = lo; k <= hi; k++)] of the gap test, run for the
    [hi - lo + 1] iterations the loop has. [placedAt k] is
    [placedTiles.some(t => t.col === k)] (or [t.row]); [occAt k] reads the
    board on the line. The answer [true] is the early return. *)
Fixpoint gapScan (iterations : nat) (placedAt : Z -> bool)
    (occAt : Z -> option bool) (k : Z) : option bool :=
  match iterations with
  | O => Some false
  | S n =>
      if placedAt k then gapScan n placedAt occAt (k + 1)
      else
        occ ← occAt k;
        if occ : bool then gapScan n placedAt occAt (k + 1) else Some true
  end.

Definition gapSpan (coords : list Z) (placedAt : Z -> bool)
    (occAt : Z -> option bool) : option bool :=
  let sorted := sortNumeric coords in
  let lo := default 0 (head sorted) in
  let hi := default 0 (last sorted) in
  gapScan (Z.to_nat (hi - lo + 1)) placedAt occAt lo.

Definition validatePlacement (board : Board) (placedTiles : list PlacedTile)
    (isFirstMove : bool) : option Validation :=
  match placedTiles with
  | [] => Some (Invalid NoTilesPlaced)
  | p0 :: _ =>
      let sameRow := sameRowOf placedTiles in
      let sameCol := sameColOf placedTiles in
      if negb sameRow && negb sameCol then Some (Invalid NotSingleLine)
      else
        cells ← checkCells board placedTiles;
        match cells with
        | Some e => Some (Invalid e)
        | None =>
            if isFirstMove
               && negb (existsb (fun t => bool_decide (row t = 7)
                                          && bool_decide (col t = 7)) placedTiles)
            then Some (Invalid MustCoverCenter)
            else if isFirstMove && bool_decide (length placedTiles < 2)%nat
            then Some (Invalid FirstWordTooShort)
            else
              touches ← (if isFirstMove then Some true
                         else touchesExisting board placedTiles);
              if negb touches then Some (Invalid MustConnect)
              else
                gap ← (if sameRow
                       then gapSpan (map col placedTiles)
                              (fun c => existsb (fun t => bool_decide (col t = c)) placedTiles)
                              (fun c => occupied board (row p0) c)
                       else gapSpan (map row placedTiles)
                              (fun r => existsb (fun t => bool_decide (row t = r)) placedTiles)
                              (fun r => occupied board r (col p0)));
                if gap : bool then Some (Invalid GapsInPlacement) else Some Valid
        end
  end.

(** ** Word formation ([getFormedWords]) *)

(** One letter of a formed word: [{ row, col, letter, value, isNew }]. The
    coordinate and letter fields carry the prefix [lt_] because [row], [col],
    [letter] and [value] already name the fields of the tile records. *)
Record LetterTile := mkLetter {
  lt_row : Z;
  lt_col : Z;
  lt_letter : string;
  lt_value : Z;
  isNew : bool
}.

(** [{ word, tiles }] *)
Record FormedWord := mkWord {
  word : string;
  tiles : list LetterTile
}.

Global Instance LetterTile_eq_dec : EqDecision LetterTile.
Proof. solve_decision. Defined.

Global Instance FormedWord_eq_dec : EqDecision FormedWord.
Proof. solve_decision. Defined.

(** [b[r][c] = cell] for indices inside the board. *)
Definition setCell (b : Board) (r c : Z) (cell : BoardCell) : Board :=
  alter (fun line => <[Z.to_nat c := cell]> line) (Z.to_nat r) b.

(** [tempBoard[t.row][t.col] = { ...tempBoard[t.row][t.col], tile: t }].
    The stored object is the placed tile itself; its [row] and [col] are
    never read back from a cell, so the cell keeps the tile part. A row
    outside the board throws; a column outside a row would grow the row or
    add a property to it, which lists do not represent: both are [None]. *)
Definition placeTile (b : Board) (t : PlacedTile) : option Board :=
  cell ← getCell b (row t) (col t);
  Some (setCell b (row t) (col t) (mkCell (Some (ptile t)) (premium cell))).

(** [for (const t of placedTiles) ...] over [placeTile]. *)
Fixpoint placeAll (b : Board) (placedTiles : list PlacedTile) : option Board :=
  match placedTiles with
  | [] => Some b
  | t :: rest => b' ← placeTile b t; placeAll b' rest
  end.

(** [new Set(placedTiles.map(t => `${t.row},${t.col}`))] *)
Definition placedSetOf (placedTiles : list PlacedTile) : gset (Z * Z) :=
  list_to_set (map (fun t => (row t, col t)) placedTiles).

(** First loop of [getWordAt]: step back along the line while the previous
    cell holds a tile. The loop variable decreases and the loop stops at 0,
    so it runs at most [max 0 c] (or [r]) times; that is the fuel, and with
    it the case [O] is the exit of the loop. *)
Fixpoint walkBack (fuel : nat) (tempBoard : Board) (horizontal : bool)
    (r c : Z) : option (Z * Z) :=
  match fuel with
  | O => Some (r, c)
  | S n =>
      if bool_decide ((if horizontal then c else r) > 0) then
        let nr := if horizontal then r else r - 1 in
        let nc := if horizontal then c - 1 else c in
        occ ← occupied tempBoard nr nc;
        if occ : bool then walkBack n tempBoard horizontal nr nc
        else Some (r, c)
      else Some (r, c)
  end.

(** [tile.letter || '?'] *)
Definition shownLetter (t : Tile) : string :=
  if decide (letter t = "") then "?" else letter t.

(** Second loop of [getWordAt]: collect the letters forward while cells are
    on the grid and hold a tile. The loop variable increases and the loop
    stops at 15: fuel [max 0 (15 - c)] (or [r]). *)
Fixpoint collect (fuel : nat) (tempBoard : Board) (placedSet : gset (Z * Z))
    (horizontal : bool) (r c : Z) : option (list LetterTile) :=
  match fuel with
  | O => Some []
  | S n =>
      if bool_decide ((if horizontal then c else r) < 15) then
        cell ← getCell tempBoard r c;
        match tile cell with
        | Some t =>
            rest ← collect n tempBoard placedSet horizontal
                     (if horizontal then r else r + 1)
                     (if horizontal then c + 1 else c);
            Some (mkLetter r c (shownLetter t) (value t)
                    (bool_decide ((r, c) ∈ placedSet)) :: rest)
        | None => Some []
        end
      else Some []
  end.

(** [word += tile.letter || '?'] over the collected letters. *)
Definition wordOf (ts : list LetterTile) : string :=
  foldr (fun t acc => lt_letter t +:+ acc) "" ts.

(** [getWordAt(startRow, startCol, horizontal)]; the result is what the call
    pushes on [words]: nothing, or one word. *)
Definition getWordAt (tempBoard : Board) (placedSet : gset (Z * Z))
    (startRow startCol : Z) (horizontal : bool) : option (list FormedWord) :=
  '(r, c) ← walkBack (Z.to_nat (if horizontal then startCol else startRow))
              tempBoard horizontal startRow startCol;
  ts ← collect (Z.to_nat (15 - (if horizontal then c else r)))
         tempBoard placedSet horizontal r c;
  Some (if bool_decide (2 <= String.length (wordOf ts))%nat
        then [mkWord (wordOf ts) ts] else []).

(** The loop [for (const t of placedTiles)] that looks for the words across
    the line of play. *)
Fixpoint crossWords (tempBoard : Board) (placedSet : gset (Z * Z))
    (sameRow single : bool) (placedTiles : list PlacedTile)
    : option (list FormedWord) :=
  match placedTiles with
  | [] => Some []
  | t :: rest =>
      down ← (if sameRow || single
              then getWordAt tempBoard placedSet (row t) (col t) false
              else Some []);
      across ← (if negb sameRow || single
                then getWordAt tempBoard placedSet (row t) (col t) true
                else Some []);
      more ← crossWords tempBoard placedSet sameRow single rest;
      Some (down ++ across ++ more)
  end.

(** The key of a word in the map of unique words: the coordinates of its
    first and of its last letter. A word without letters has no first
    letter ([w.tiles[0]] is [undefined]). *)
Definition wordKey (w : FormedWord) : option ((Z * Z) * (Z * Z)) :=
  a ← head (tiles w);
  z ← last (tiles w);
  Some ((lt_row a, lt_col a), (lt_row z, lt_col z)).

(** [if (!unique.has(key)) unique.set(key, w)] for each word; the map keeps
    its entries in the order they were first set. *)
Fixpoint uniqueWords (unique : list (((Z * Z) * (Z * Z)) * FormedWord))
    (words : list FormedWord)
    : option (list (((Z * Z) * (Z * Z)) * FormedWord)) :=
  match words with
  | [] => Some unique
  | w :: rest =>
      key ← wordKey w;
      if bool_decide (key ∈ map fst unique) then uniqueWords unique rest
      else uniqueWords (unique ++ [(key, w)]) rest
  end.

Definition getFormedWords (board : Board) (placedTiles : list PlacedTile)
    : option (list FormedWord) :=
  tempBoard ← placeAll board placedTiles;
  match placedTiles with
  | [] => None
  | p0 :: _ =>
      let placedSet := placedSetOf placedTiles in
      let sameRow := sameRowOf placedTiles in
      let single := bool_decide (length placedTiles = 1%nat) in
      main1 ← (if sameRow || single
               then getWordAt tempBoard placedSet (row p0) (col p0) true
               else Some []);
      main2 ← (if negb sameRow || single
               then getWordAt tempBoard placedSet (row p0) (col p0) false
               else Some []);
      cross ← crossWords tempBoard placedSet sameRow single placedTiles;
      unique ← uniqueWords [] (main1 ++ main2 ++ cross);
      Some (map snd unique)
  end.

(** ** Scoring ([calculateScore], [calculateMoveScore]) *)

(** Body of the loop over the letters of one word; the state is
    [(wordScore, wordMult)]. *)
Definition scoreLetter (board : Board) (acc : Z * Z) (t : LetterTile)
    : option (Z * Z) :=
  let '(wordScore, wordMult) := acc in
  if isNew t then
    cell ← getCell board (lt_row t) (lt_col t);
    Some (match premium cell with
          | DL => (wordScore + lt_value t * 2, wordMult)
          | TL => (wordScore + lt_value t * 3, wordMult)
          | DW | CENTER => (wordScore + lt_value t, wordMult * 2)
          | TW => (wordScore + lt_value t, wordMult * 3)
          | PNone => (wordScore + lt_value t, wordMult)
          end)
  else Some (wordScore + lt_value t, wordMult).

Fixpoint scoreLetters (board : Board) (acc : Z * Z) (ts : list LetterTile)
    : option (Z * Z) :=
  match ts with
  | [] => Some acc
  | t :: rest => acc' ← scoreLetter board acc t; scoreLetters board acc' rest
  end.

(** [wordScore * wordMult] of one formed word. *)
Definition wordScoreOf (board : Board) (w : FormedWord) : option Z :=
  '(wordScore, wordMult) ← scoreLetters board (0, 1) (tiles w);
  Some (wordScore * wordMult).

(** [total += wordScore * wordMult] over the formed words. *)
Fixpoint sumWords (board : Board) (total : Z) (ws : list FormedWord)
    : option Z :=
  match ws with
  | [] => Some total
  | w :: rest => s ← wordScoreOf board w; sumWords board (total + s) rest
  end.

Definition calculateScore (board : Board) (placedTiles : list PlacedTile)
    : option Z :=
  formedWords ← getFormedWords board placedTiles;
  total ← sumWords board 0 formedWords;
  Some (if bool_decide (length placedTiles = 7%nat) then total + 50 else total).

(** ** Lexicon *)

Definition COMMON_WORDS_entries : list string :=
  ["AA";"AB";"AD";"AE";"AG";"AH";"AI";"AL";"AM";"AN";"AR";"AS";"AT";"AW";
   "AX";"AY";"BA";"BE";"BI";"BO";"BY";"DA";"DE";"DO";"ED";"EF";"EH";"EL";
   "EM";"EN";"ER";"ES";"ET";"EW";"EX";"FA";"FE";"GI";"GO";"HA";"HE";"HI";
   "HM";"HO";"ID";"IF";"IN";"IS";"IT";"JO";"KA";"KI";"LA";"LI";"LO";"MA";
   "ME";"MI";"MM";"MO";"MU";"MY";"NA";"NE";"NO";"NU";"OD";"OE";"OF";"OH";
   "OI";"OK";"OM";"ON";"OP";"OR";"OS";"OW";"OX";"OY";"PA";"PE";"PI";"PO";
   "QI";"RE";"SH";"SI";"SO";"TA";"TI";"TO";"UH";"UM";"UN";"UP";"US";"UT";
   "WE";"WO";"XI";"XU";"YA";"YE";"ZA";"THE";"AND";"FOR";"ARE";"BUT";"NOT";
   "YOU";"ALL";"CAN";"HER";"WAS";"ONE";"OUR";"OUT";"DAY";"HAD";"HAS";"HIS";
   "HOW";"MAN";"NEW";"NOW";"OLD";"SEE";"WAY";"WHO";"BOY";"DID";"GET";"HIM";
   "HIT";"HOT";"LET";"MAY";"RUN";"SAY";"SHE";"TOO";"USE";"DAD";"MOM";"SET";
   "TEN";"TOP";"RED";"BIG";"BAD";"END";"FAR";"PUT";"RAN";"SIT";"TRY";"ASK";
   "CAR";"EAT";"FUN";"GOD";"HAT";"JAR";"KEY";"LAP";"MAP";"NET";"OWL";"PEN";
   "RAG";"SAT";"TAP";"VAN";"WAR";"YAM";"ZAP";"ACE";"AGE";"AID";"AIM";"AIR";
   "ALE";"ANT";"APE";"ARC";"ARK";"ARM";"ART";"ATE";"AWE";"AXE";"BAG";"BAN";
   "BAR";"BAT";"BED";"BET";"BIT";"BOW";"BOX";"BUD";"BUG";"BUS";"BUY";"CAB";
   "CAP";"CAT";"COP";"COT";"COW";"CRY";"CUB";"CUP";"CUT";"DAM";"DEN";"DEW";
   "DIG";"DIM";"DIP";"DOC";"DOG";"DOT";"DRY";"DUB";"DUG";"DUN";"DUO";"EAR";
   "EEL";"EGG";"ELF";"ELK";"ELM";"EMU";"ERA";"EVE";"EWE";"EYE";"FAN";"FAT";
   "FAX";"FED";"FEW";"FIG";"FIN";"FIT";"FIX";"FLY";"FOB";"FOE";"FOG";"FOP";
   "FOX";"FRY";"FUR";"GAB";"GAG";"GAP";"GAS";"GEL";"GEM";"GNU";"GOB";"GOT";
   "GUM";"GUN";"GUT";"GUY";"GYM";"ABLE";"ALSO";"AREA";"ARMY";"AWAY";"BACK";
   "BALL";"BAND";"BANK";"BASE";"BATH";"BEAN";"BEAR";"BEAT";"BEEN";"BEER";
   "BELL";"BELT";"BEND";"BEST";"BILL";"BIRD";"BITE";"BLOW";"BLUE";"BOAT";
   "BODY";"BOLD";"BOMB";"BOND";"BONE";"BOOK";"BOOT";"BORE";"BORN";"BOSS";
   "BOTH";"BOWL";"BULK";"BURN";"BUSY";"CAKE";"CALL";"CALM";"CAME";"CAMP";
   "CARD";"CARE";"CART";"CASE";"CASH";"CAST";"CAVE";"CHIP";"CITY";"CLAD";
   "CLAY";"CLIP";"CLUB";"CLUE";"COAL";"COAT";"CODE";"COIN";"COLD";"COLE";
   "COME";"COOK";"COOL";"COPE";"COPY";"CORD";"CORE";"CORN";"COST";"CREW";
   "CROP";"CROW";"CURE";"CURL";"CUTE";"DALE";"DAME";"DAMN";"DARE";"DARK";
   "DASH";"DATA";"DATE";"DAWN";"DEAD";"DEAF";"DEAL";"DEAN";"DEAR";"DEBT";
   "DECK";"DEED";"DEEM";"DEEP";"DEER";"DENY";"DESK";"DIAL";"DICE";"DIET";
   "DIRE";"DIRT";"DISH";"DISK";"DOCK";"DOES";"DONE";"DOOM";"DOOR";"DOSE";
   "DOWN";"DRAG";"DRAW";"DREW";"DROP";"DRUM";"DUAL";"DUEL";"DUKE";"DULL";
   "DUMB";"DUMP";"DUNE";"DUST";"DUTY";"EACH";"EARL";"EARN";"EASE";"EAST";
   "EASY";"EDGE";"EDIT";"ELSE";"EVEN";"EVER";"EVIL";"EXAM";"EXEC";"FACE";
   "FACT";"FADE";"FAIL";"FAIR";"FAKE";"FALL";"FAME";"FANG";"FARE";"FARM";
   "FAST";"FATE";"FEAR";"FEAT";"FEED";"FEEL";"FEET";"FELL";"FELT";"FILE";
   "FILL";"FILM";"FIND";"FINE";"FIRE";"FIRM";"FISH";"FIST";"FLAG";"FLAT";
   "FLED";"FLEW";"FLIP";"FLOW";"FOAM";"FOLD";"FOLK";"FOND";"FONT";"FOOD";
   "FOOL";"FOOT";"FORD";"FORE";"FORK";"FORM";"FORT";"FOUL";"FOUR";"FREE";
   "FROM";"FUEL";"FULL";"FUND";"FURY";"FUSE";"GAIN";"GALE";"GAME";"GANG";
   "GAPE";"GATE";"GAVE";"GAZE";"GEAR";"GENE";"GIFT";"GIRL";"GIVE";"GLAD";
   "GLEN";"GLOW";"GLUE";"GOAT";"GOES";"GOLD";"GOLF";"GONE";"GOOD";"GRAB";
   "GRAY";"GREW";"GRID";"GRIM";"GRIN";"GRIP";"GROW";"GULF";"GURU";"GUST";
   "QUIZ";"QUAG";"QUAD";"QOPH";"JAZZ";"BUZZ";"FIZZ";"FUZZ";"RAZZ";"TIZZ";
   "ZEAL";"ZERO";"ZINC";"ZONE";"ZOOM";"JINX";"JIVE";"JOKE";"JUMP";"JURY";
   "JUST";"TAXI";"TEXT";"NEXT";"EXIT";"APEX";"OXEN";"KNOB";"KNEE";"KNEW";
   "KNIT";"KNOT";"KNOW";"WREN";"WRAP";"WRIT";"WAKE";"WAGE";"WADE";"WAIT";
   "WALK";"WALL";"WANT";"WARD";"WARM";"WARN";"WARP";"WASH";"WAVE";"WEAK";
   "WEAR";"WEED";"WEEK";"WELL";"WENT";"WERE";"WEST";"WHAT";"WHEN";"WHOM";
   "WIDE";"WIFE";"WILD";"WILL";"WIND";"WINE";"WING";"WIRE";"WISE";"WISH";
   "WITH";"WOKE";"WOLF";"WOMB";"WOOD";"WOOL";"WORD";"WORE";"WORK";"WORM";
   "WORN";"WORLD";"WOULD";"WRITE";"WRONG";"ABOUT";"ABOVE";"AFTER";"AGAIN";
   "BEING";"BELOW";"BLACK";"BOARD";"BRAIN";"BREAD";"BREAK";"BRING";"BROAD";
   "BROWN";"BUILD";"CARRY";"CATCH";"CAUSE";"CHAIN";"CHAIR";"CHEAP";"CHECK";
   "CHIEF";"CHILD";"CHINA";"CLAIM";"CLASS";"CLEAN";"CLEAR";"CLIMB";"CLOCK";
   "CLOSE";"CLOUD";"COACH";"COAST";"COLOR";"COMES";"COULD";"COUNT";"COURT";
   "COVER";"CRAFT";"CRASH";"CRAZY";"CREAM";"CRIME";"CROSS";"CROWD";"CROWN";
   "CURVE";"CYCLE";"DANCE";"DEATH";"DEPTH";"DOUBT";"DRAFT";"DRAIN";"DRAMA";
   "DRAWN";"DREAM";"DRESS";"DRIED";"DRINK";"DRIVE";"DROVE";"DYING";"EAGER";
   "EARLY";"EARTH";"EIGHT";"ELECT";"ELITE";"EMPTY";"ENEMY";"ENJOY";"ENTER";
   "ENTRY";"EQUAL";"ERROR";"EVENT";"EVERY";"EXACT";"EXTRA";"FAITH";"FALSE";
   "FAULT";"FEAST";"FENCE";"FEWER";"FIBER";"FIELD";"FIFTH";"FIFTY";"FIGHT";
   "FINAL";"FINDS";"FIRST";"FIXED";"FLAME";"FLASH";"FLEET";"FLESH";"FLIES";
   "FLOAT";"FLOOD";"FLOOR";"FLOUR";"FLUID";"FLUSH";"FOCUS";"FORCE";"FORTH";
   "FOUND";"FRAME";"FRANK";"FRAUD";"FRESH";"FRONT";"FROST";"FRUIT";"FULLY";
   "FUNNY"].

(** [new Set([...])], built once: the set is kept in evaluated form. *)
Definition COMMON_WORDS : gset string :=
  Eval vm_compute in list_to_set COMMON_WORDS_entries.

(** [toUpperCase] on the letters a to z; other characters are kept. *)
Definition upperChar (a : ascii) : ascii :=
  let n := nat_of_ascii a in
  if (97 <=? n)%nat && (n <=? 122)%nat then ascii_of_nat (n - 32) else a.

Fixpoint toUpperCase (s : string) : string :=
  match s with
  | EmptyString => EmptyString
  | String a rest => String (upperChar a) (toUpperCase rest)
  end.

(** [set.has(x)] *)
Definition setHas (set : gset string) (x : string) : bool :=
  bool_decide (x ∈ set).

Definition isValidWord (w : string) : bool :=
  setHas COMMON_WORDS (toUpperCase w).

(** ** Tile bag *)

(** [TILE_DISTRIBUTION], in the order of its keys: letter, count, value. *)
Definition TILE_DISTRIBUTION : list (string * (nat * Z)) :=
  [("A", (9%nat, 1)); ("B", (2%nat, 3)); ("C", (2%nat, 3));
   ("D", (4%nat, 2)); ("E", (12%nat, 1)); ("F", (2%nat, 4));
   ("G", (3%nat, 2)); ("H", (2%nat, 4)); ("I", (9%nat, 1));
   ("J", (1%nat, 8)); ("K", (1%nat, 5)); ("L", (4%nat, 1));
   ("M", (2%nat, 3)); ("N", (6%nat, 1)); ("O", (8%nat, 1));
   ("P", (2%nat, 3)); ("Q", (1%nat, 10)); ("R", (6%nat, 1));
   ("S", (4%nat, 1)); ("T", (6%nat, 1)); ("U", (4%nat, 1));
   ("V", (2%nat, 4)); ("W", (2%nat, 4)); ("X", (1%nat, 8));
   ("Y", (2%nat, 4)); ("Z", (1%nat, 10));
   ("?", (2%nat, 0))].

(** [[xs[i], xs[j]] = [xs[j], xs[i]]] for indices inside the array. *)
Definition swapAt {A} (xs : list A) (i j : nat) : list A :=
  match xs !! i, xs !! j with
  | Some a, Some b => <[i := b]> (<[j := a]> xs)
  | _, _ => xs
  end.

(** The Fisher-Yates loop [for (let i = n - 1; i > 0; i--)]. [draws] are the
    successive values of [Math.random()], taken here as naturals and reduced
    to the range [0..i] that [Math.floor(Math.random() * (i + 1))] has; a
    missing draw counts as 0. *)
Fixpoint shuffleFrom {A} (i : nat) (draws : list nat) (xs : list A) : list A :=
  match i with
  | O => xs
  | S i' =>
      let j := (hd 0%nat draws `mod` (i + 1))%nat in
      shuffleFrom i' (tl draws) (swapAt xs i j)
  end.

Definition shuffleArray {A} (draws : list nat) (xs : list A) : list A :=
  shuffleFrom (length xs - 1) draws xs.

(** [arr.slice(0, e)] *)
Definition sliceTo {A} (xs : list A) (e : Z) : list A :=
  if bool_decide (e < 0) then take (Z.to_nat (Z.of_nat (length xs) + e)) xs
  else take (Z.to_nat e) xs.

(** [drawTiles(bag, count)]: the pair [(drawn, remaining)]. *)
Definition drawTiles (bag : list Tile) (count : Z) : list Tile * list Tile :=
  let drawn := sliceTo bag (Z.min count (Z.of_nat (length bag))) in
  (drawn, drop (length drawn) bag).

(** [rack.reduce((s, t) => s + t.value, 0)], also
    [calculateEndgameDeductions]. *)
Definition calculateEndgameDeductions (rack : list Tile) : Z :=
  foldl (fun s t => s + value t) 0 rack.

(** The text [""] made of one double quote. *)
Definition dquote : string := String (ascii_of_nat 34) EmptyString.

Section Coordinator.

(** [genTileId()] when [tileIdCounter] has just become [n]: the clock and
    the random suffix that enter the text are part of this function. *)
Variable genTileId : nat -> string.

(** [ws.readyState === WebSocket.OPEN] while a message is handled; a socket
    is named by a number. *)
Variable wsOpen : nat -> bool.

(** The tiles of one letter: [for (let i = 0; i < info.count; i++)]. *)
Fixpoint tilesOfLetter (counter : nat) (l : string) (count : nat) (v : Z)
    : list Tile :=
  match count with
  | O => []
  | S n =>
      mkTile (genTileId (S counter)) (if decide (l = "?") then "" else l) v
             (bool_decide (l = "?"))
        :: tilesOfLetter (S counter) l n v
  end.

(** The loop over [Object.entries(TILE_DISTRIBUTION)]. *)
Fixpoint unshuffledBag (counter : nat) (dist : list (string * (nat * Z)))
    : list Tile :=
  match dist with
  | [] => []
  | (l, (count, v)) :: rest =>
      tilesOfLetter counter l count v ++ unshuffledBag (counter + count) rest
  end.

(** [createTileBag()] started with [tileIdCounter = counter]. *)
Definition createTileBag (counter : nat) (draws : list nat) : list Tile :=
  shuffleArray draws (unshuffledBag counter TILE_DISTRIBUTION).

(** ** Rooms *)

Record Player := mkPlayer {
  ws : nat;
  pid : string;
  name : string;
  rack : list Tile;
  score : Z;
  connected : bool
}.

Inductive MoveType := Play | Exchange | Pass.

(** An entry of [room.moveHistory]: [{ player, word, score, type }]. *)
Record MoveRecord := mkMove {
  mv_player : string;
  mv_word : string;
  mv_score : Z;
  mv_type : MoveType
}.

Record GameRoom := mkRoom {
  code : string;
  players : list Player;
  board : Board;
  tileBag : list Tile;
  currentTurnIndex : Z;
  isFirstMove : bool;
  consecutivePasses : Z;
  gameOver : bool;
  winner : option string;
  moveHistory : list MoveRecord;
  createdAt : Z;
  started : bool
}.

(** The snapshot [getRoomState(room, forPlayerId)]; the board is the public
    one, with [{ letter, value }] for a tile. *)
Record RoomView := mkView {
  v_code : string;
  v_board : list (list (option (string * Z) * PremiumType));
  v_yourRack : list Tile;
  v_yourScore : Z;
  v_opponentScore : Z;
  v_opponentName : string;
  v_opponentRackCount : nat;
  v_isYourTurn : bool;
  v_isFirstMove : bool;
  v_tilesLeft : nat;
  v_gameOver : bool;
  v_winner : option string;
  v_moveHistory : list MoveRecord;
  v_started : bool;
  v_playerCount : nat;
  v_yourName : string
}.

(** Messages from the server to a client. *)
Inductive ServerMsg :=
  | RoomCreated (roomCode playerId : string)
  | RoomJoined (roomCode playerId : string)
  | Reconnected (playerId : string)
  | GameStarted
  | GameStateMsg (view : RoomView)
  | MoveMade (player wordPlayed : string) (points : Z)
  | MoveRejected (error : string)
  | OpponentDisconnected
  | ErrorMsg (message : string).

(** What a handler sent: socket and message, in order. *)
Abbreviation Outbox := (list (nat * ServerMsg)).

Definition sendToPlayer (p : Player) (data : ServerMsg) : Outbox :=
  if wsOpen (ws p) then [(ws p, data)] else [].

Definition broadcastRoom (room : GameRoom) (data : ServerMsg) : Outbox :=
  flat_map (fun p => sendToPlayer p data) (players room).

Definition getPublicBoard (b : Board)
    : list (list (option (string * Z) * PremiumType)) :=
  map (map (fun cell =>
              (match tile cell with
               | Some t => Some (letter t, value t)
               | None => None
               end, premium cell))) b.

(** [room.players[i]] for a number [i]. *)
Definition playerAt (room : GameRoom) (i : Z) : option Player :=
  if bool_decide (0 <= i) then players room !! Z.to_nat i else None.

Definition getRoomState (room : GameRoom) (forPlayerId : string) : RoomView :=
  let player := snd <$> list_find (fun p => pid p = forPlayerId) (players room) in
  let opponent := snd <$> list_find (fun p => pid p ≠ forPlayerId) (players room) in
  mkView (code room)
    (getPublicBoard (board room))
    (from_option rack [] player)
    (from_option score 0 player)
    (from_option score 0 opponent)
    (match opponent with
     | Some o => if decide (name o = "") then "Waiting..." else name o
     | None => "Waiting..."
     end)
    (from_option (fun o => length (rack o)) 0%nat opponent)
    (started room
     && bool_decide (pid <$> playerAt room (currentTurnIndex room) = Some forPlayerId))
    (isFirstMove room)
    (length (tileBag room))
    (gameOver room)
    (winner room)
    (moveHistory room)
    (started room)
    (length (players room))
    (from_option name "" player).

(** [for (const p of room.players) sendToPlayer(p, getRoomState(room, p.id))] *)
Definition sendStates (room : GameRoom) : Outbox :=
  flat_map (fun p => sendToPlayer p (GameStateMsg (getRoomState room (pid p))))
           (players room).

(** [room.players.findIndex(p => p.id === playerId)], -1 when absent. *)
Definition findIndexById (room : GameRoom) (playerId : string) : Z :=
  match list_find (fun p => pid p = playerId) (players room) with
  | Some (i, _) => Z.of_nat i
  | None => -1
  end.

(** [a > b ? na : b > a ? nb : "Tie"] *)
Definition decideWinner (a : Z) (na : string) (b : Z) (nb : string) : string :=
  if bool_decide (a > b) then na else if bool_decide (b > a) then nb else "Tie".

Definition setPlayers (room : GameRoom) (ps : list Player) : GameRoom :=
  mkRoom (code room) ps (board room) (tileBag room) (currentTurnIndex room)
    (isFirstMove room) (consecutivePasses room) (gameOver room) (winner room)
    (moveHistory room) (createdAt room) (started room).

Definition setScore (p : Player) (s : Z) : Player :=
  mkPlayer (ws p) (pid p) (name p) (rack p) s (connected p).

Definition setRack (p : Player) (r : list Tile) : Player :=
  mkPlayer (ws p) (pid p) (name p) r (score p) (connected p).

(** ** Message handlers of a room

    Each handler is the body of one [case] of [handleWebSocket], for the room
    [rooms.get(currentRoomCode)] and the [playerId] of the connection. The
    source updates the room object in place; a handler here returns the room
    after the message and what was sent. [None] is a [TypeError] raised in the
    handler. *)

(** The part of [place_tiles] after every check has passed. *)
Definition commitMove (room : GameRoom) (playerId : string) (playerIndex : Z)
    (player : Player) (placedTiles : list PlacedTile)
    (formedWords : list FormedWord) : option (GameRoom * Outbox) :=
  points ← calculateScore (board room) placedTiles;
  board' ← placeAll (board room) placedTiles;
  let kept := filter (fun t => ¬ Exists (fun pt => tid (ptile pt) = tid t) placedTiles)
                     (rack player) in
  let needed := 7 - Z.of_nat (length kept) in
  let '(drawn, remaining) := drawTiles (tileBag room) (Z.max 0 needed) in
  let mover := mkPlayer (ws player) (pid player) (name player) (kept ++ drawn)
                 (score player + points) (connected player) in
  let players1 := <[Z.to_nat playerIndex := mover]> (players room) in
  let mainWord := match formedWords with w :: _ => word w | [] => "" end in
  let history := moveHistory room ++ [mkMove (name player) mainWord points Play] in
  let isGameOver := bool_decide (length remaining = 0%nat)
                    && bool_decide (length (rack mover) = 0%nat) in
  '(players', over, win) ←
    (if isGameOver then
       '(j, opponent) ← list_find (fun p => pid p ≠ playerId) players1;
       let deduction := calculateEndgameDeductions (rack opponent) in
       let opponent' := setScore opponent (score opponent - deduction) in
       let players2 := <[j := opponent']> players1 in
       mover2 ← players2 !! Z.to_nat playerIndex;
       let mover' := setScore mover2 (score mover2 + deduction) in
       let players3 := <[Z.to_nat playerIndex := mover']> players2 in
       opponent3 ← players3 !! j;
       Some (players3, true,
             Some (decideWinner (score mover') (name mover')
                                (score opponent3) (name opponent3)))
     else Some (players1, gameOver room, winner room));
  let room' := mkRoom (code room) players' board' remaining
                 (Z.rem (currentTurnIndex room + 1) 2) false 0 over win
                 history (createdAt room) (started room) in
  Some (room', broadcastRoom room' (MoveMade (name player) mainWord points)
               ++ sendStates room').

(** [case "place_tiles"] *)
Definition handlePlaceTiles (room : GameRoom) (playerId : string)
    (placedTiles : list PlacedTile) : option (GameRoom * Outbox) :=
  if negb (started room) || gameOver room then Some (room, [])
  else
    let playerIndex := findIndexById room playerId in
    if bool_decide (playerIndex ≠ currentTurnIndex room) then
      sender ← playerAt room playerIndex;
      Some (room, sendToPlayer sender (ErrorMsg "Not your turn"))
    else
      player ← playerAt room playerIndex;
      if bool_decide (length placedTiles = 0%nat) then
        Some (room, sendToPlayer player (ErrorMsg "No tiles placed"))
      else
        let rackIds : gset string := list_to_set (map tid (rack player)) in
        if existsb (fun pt => negb (bool_decide (tid (ptile pt) ∈ rackIds))) placedTiles
        then Some (room, sendToPlayer player (ErrorMsg "Invalid tile"))
        else
          validation ← validatePlacement (board room) placedTiles (isFirstMove room);
          match validation with
          | Invalid e =>
              Some (room, sendToPlayer player (MoveRejected (serverErrorText e)))
          | Valid =>
              formedWords ← getFormedWords (board room) placedTiles;
              match filter (fun w => isValidWord (word w) = false) formedWords with
              | bad :: _ =>
                  Some (room, sendToPlayer player
                          (MoveRejected (dquote +:+ word bad +:+ dquote
                                         +:+ " is not a valid word")))
              | [] => commitMove room playerId playerIndex player placedTiles formedWords
              end
          end.

(** [case "pass_turn"] *)
Definition handlePassTurn (room : GameRoom) (playerId : string)
    : option (GameRoom * Outbox) :=
  if negb (started room) || gameOver room then Some (room, [])
  else
    let playerIndex := findIndexById room playerId in
    if bool_decide (playerIndex ≠ currentTurnIndex room) then Some (room, [])
    else
      player ← playerAt room playerIndex;
      let passes := consecutivePasses room + 1 in
      let history := moveHistory room ++ [mkMove (name player) "" 0 Pass] in
      '(players', over, win) ←
        (if bool_decide (passes >= 4) then
           let settled :=
             map (fun p => setScore p (score p - calculateEndgameDeductions (rack p)))
                 (players room) in
           p0 ← settled !! 0%nat;
           p1 ← settled !! 1%nat;
           Some (settled, true,
                 Some (decideWinner (score p0) (name p0) (score p1) (name p1)))
         else Some (players room, gameOver room, winner room));
      let room' := mkRoom (code room) players' (board room) (tileBag room)
                     (Z.rem (currentTurnIndex room + 1) 2) (isFirstMove room)
                     passes over win history (createdAt room) (started room) in
      Some (room', sendStates room').

(** [case "exchange_tiles"]; [draws] feed the shuffle of the bag. *)
Definition handleExchangeTiles (room : GameRoom) (playerId : string)
    (tileIds : list string) (draws : list nat) : option (GameRoom * Outbox) :=
  if negb (started room) || gameOver room then Some (room, [])
  else if bool_decide (length (tileBag room) < 7)%nat then
    '(_, sender) ← list_find (fun p => pid p = playerId) (players room);
    Some (room, sendToPlayer sender (ErrorMsg "Not enough tiles to exchange"))
  else
    let playerIndex := findIndexById room playerId in
    if bool_decide (playerIndex ≠ currentTurnIndex room) then Some (room, [])
    else
      player ← playerAt room playerIndex;
      let tilesToExchange := filter (fun t => tid t ∈ tileIds) (rack player) in
      let kept := filter (fun t => tid t ∉ tileIds) (rack player) in
      let '(drawn, remaining) :=
        drawTiles (tileBag room) (Z.of_nat (length tilesToExchange)) in
      let player' := setRack player (kept ++ drawn) in
      let bag' := shuffleArray draws (remaining ++ tilesToExchange) in
      let history := moveHistory room ++ [mkMove (name player) "" 0 Exchange] in
      let room' := mkRoom (code room)
                     (<[Z.to_nat playerIndex := player']> (players room))
                     (board room) bag'
                     (Z.rem (currentTurnIndex room + 1) 2) (isFirstMove room)
                     0 (gameOver room) (winner room) history
                     (createdAt room) (started room) in
      Some (room', sendStates room').

(** [(msg.name || fallback).slice(0, 20)] *)
Definition playerNameOf (given fallback : string) : string :=
  String.substring 0 20 (if decide (given = "") then fallback else given).

(** [case "create_room"], after [generateCode] has produced [roomCode], a
    code that is not in [rooms]: the new room, the id of its first player and
    what is sent. [counter] is [tileIdCounter] before the message. *)
Definition handleCreateRoom (roomCode : string) (sock : nat) (given : string)
    (counter : nat) (draws : list nat) (now : Z)
    : GameRoom * string * Outbox :=
  let playerId := genTileId (S counter) in
  let bag := createTileBag (S counter) draws in
  let '(drawn, remaining) := drawTiles bag 7 in
  let creator := mkPlayer sock playerId (playerNameOf given "Player 1") drawn 0 true in
  let room := mkRoom roomCode [creator] createEmptyBoard remaining 0 true 0
                false None [] now false in
  (room, playerId,
   sendToPlayer creator (RoomCreated roomCode playerId)
   ++ sendToPlayer creator (GameStateMsg (getRoomState room playerId))).

(** [case "join_room"] for a room that exists: the room after the message,
    the [playerId] the connection has afterwards when it changes, and what is
    sent. *)
Definition handleJoinRoom (room : GameRoom) (sock : nat) (given : string)
    (counter : nat) : option (GameRoom * option string * Outbox) :=
  if bool_decide (2 <= length (players room))%nat then
    match list_find (fun p => connected p = false) (players room) with
    | Some (i, slot) =>
        let slot' := mkPlayer sock (pid slot) (name slot) (rack slot)
                       (score slot) true in
        let room' := setPlayers room (<[i := slot']> (players room)) in
        Some (room', Some (pid slot),
              sendToPlayer slot' (Reconnected (pid slot))
              ++ sendToPlayer slot' (GameStateMsg (getRoomState room' (pid slot)))
              ++ match list_find (fun p => pid p ≠ pid slot) (players room') with
                 | Some (_, other) =>
                     sendToPlayer other (GameStateMsg (getRoomState room' (pid other)))
                 | None => []
                 end)
    | None => Some (room, None, [(sock, ErrorMsg "Room is full")])
    end
  else
    let playerId := genTileId (S counter) in
    let '(drawn, remaining) := drawTiles (tileBag room) 7 in
    let joiner := mkPlayer sock playerId (playerNameOf given "Player 2") drawn 0 true in
    let room' := mkRoom (code room) (players room ++ [joiner]) (board room)
                   remaining (currentTurnIndex room) (isFirstMove room)
                   (consecutivePasses room) (gameOver room) (winner room)
                   (moveHistory room) (createdAt room) true in
    second ← players room' !! 1%nat;
    Some (room', Some playerId,
          sendToPlayer second (RoomJoined (code room) playerId)
          ++ sendStates room'
          ++ broadcastRoom room' GameStarted).

(** The three messages of a game in progress. *)
Inductive ClientMsg :=
  | PlaceTiles (placedTiles : list PlacedTile)
  | PassTurn
  | ExchangeTiles (tileIds : list string) (draws : list nat).

Definition handleGameMsg (room : GameRoom) (playerId : string) (msg : ClientMsg)
    : option (GameRoom * Outbox) :=
  match msg with
  | PlaceTiles placedTiles => handlePlaceTiles room playerId placedTiles
  | PassTurn => handlePassTurn room playerId
  | ExchangeTiles tileIds draws => handleExchangeTiles room playerId tileIds draws
  end.

(** The same with the lookup [rooms.get(currentRoomCode)] in front; the room
    object is shared with the table, so its new state is the table's. *)
Definition onGameMsg (rooms : gmap string GameRoom)
    (currentRoomCode playerId : string) (msg : ClientMsg)
    : option (gmap string GameRoom * Outbox) :=
  match rooms !! currentRoomCode with
  | None => Some (rooms, [])
  | Some room =>
      '(room', out) ← handleGameMsg room playerId msg;
      Some (<[currentRoomCode := room']> rooms, out)
  end.

(** A sequence of such messages, each with the [playerId] of its
    connection, handled one after the other. *)
Fixpoint runGameMsgs (room : GameRoom) (msgs : list (string * ClientMsg))
    : option GameRoom :=
  match msgs with
  | [] => Some room
  | (playerId, msg) :: rest =>
      '(room', _) ← handleGameMsg room playerId msg;
      runGameMsgs room' rest
  end.

End Coordinator.

(** ** Single-player game ([lib/game-context.tsx]) *)

Inductive Side := SidePlayer | SideAi.

(** [winner]: ['player' | 'ai' | 'tie'] *)
Inductive Outcome := WinPlayer | WinAi | WinTie.

(** An entry of the single-player [moveHistory]; fields carry the prefix
    [sm_]. *)
Record SoloMove := mkSoloMove {
  sm_player : Side;
  sm_word : string;
  sm_score : Z;
  sm_tiles : list PlacedTile;
  sm_type : MoveType
}.

(** [GameState]; the fields carry the prefix [gs_] because the room record
    has fields of the same names. *)
Record GameState := mkGame {
  gs_board : Board;
  gs_playerRack : list Tile;
  gs_aiRack : list Tile;
  gs_tileBag : list Tile;
  gs_playerScore : Z;
  gs_aiScore : Z;
  gs_currentTurn : Side;
  gs_moveHistory : list SoloMove;
  gs_isFirstMove : bool;
  gs_consecutivePasses : Z;
  gs_gameOver : bool;
  gs_winner : option Outcome
}.

(** [{ success, error?, score? }] *)
Inductive SubmitResult :=
  | SubmitOk (points : Z)
  | SubmitError (error : string).

(** [p > a ? 'player' : a > p ? 'ai' : 'tie'] *)
Definition soloWinner (playerScore aiScore : Z) : Outcome :=
  if bool_decide (playerScore > aiScore) then WinPlayer
  else if bool_decide (aiScore > playerScore) then WinAi else WinTie.

(** [calculateMoveScore] of the engine is the same computation as the
    coordinator's [calculateScore]. *)
Definition calculateMoveScore (b : Board) (placedTiles : list PlacedTile)
    : option Z := calculateScore b placedTiles.

(** [submitMove] for a game in progress: the state it sets and its result.
    The pending tiles have left [playerRack] when they were put on the board
    ([placeTileOnBoard]), so the rack holds the tiles not played. The AI turn
    that the function schedules afterwards is not part of it. *)
Definition submitMove (gameState : GameState) (pendingTiles : list PlacedTile)
    : option (GameState * SubmitResult) :=
  if bool_decide (length pendingTiles = 0%nat)
  then Some (gameState, SubmitError "No tiles placed")
  else
    validation ← validatePlacement (gs_board gameState) pendingTiles
                   (gs_isFirstMove gameState);
    match validation with
    | Invalid e => Some (gameState, SubmitError (engineErrorText e))
    | Valid =>
        formedWords ← getFormedWords (gs_board gameState) pendingTiles;
        match filter (fun w => isValidWord (word w) = false) formedWords with
        | bad :: _ =>
            Some (gameState,
                  SubmitError (dquote +:+ word bad +:+ dquote
                               +:+ " is not a valid word"))
        | [] =>
            points ← calculateMoveScore (gs_board gameState) pendingTiles;
            let mainWord := match formedWords with w :: _ => word w | [] => "" end in
            newBoard ← placeAll (gs_board gameState) pendingTiles;
            let tilesNeeded := 7 - Z.of_nat (length (gs_playerRack gameState)) in
            let '(drawn, remaining) :=
              drawTiles (gs_tileBag gameState) (Z.max 0 tilesNeeded) in
            let isGameOver :=
              bool_decide (length remaining = 0%nat)
              && bool_decide ((length (gs_playerRack gameState) + length drawn)%nat
                              = 0%nat) in
            let aiDeduction := calculateEndgameDeductions (gs_aiRack gameState) in
            let finalPlayerScore :=
              if isGameOver then gs_playerScore gameState + points + aiDeduction
              else gs_playerScore gameState + points in
            let finalAiScore :=
              if isGameOver then gs_aiScore gameState - aiDeduction
              else gs_aiScore gameState in
            Some (mkGame newBoard
                    (gs_playerRack gameState ++ drawn)
                    (gs_aiRack gameState)
                    remaining
                    finalPlayerScore
                    finalAiScore
                    SideAi
                    (gs_moveHistory gameState
                     ++ [mkSoloMove SidePlayer mainWord points pendingTiles Play])
                    false
                    0
                    isGameOver
                    (if isGameOver
                     then Some (soloWinner finalPlayerScore finalAiScore)
                     else None),
                  SubmitOk points)
        end
    end.

(** The state update of [doAiTurn] when [generateAIMove] returned the move
    [aiMove]. *)
Definition applyAiMove (prev : GameState) (aiMove : list PlacedTile)
    : option GameState :=
  newBoard ← placeAll (gs_board prev) aiMove;
  points ← calculateMoveScore (gs_board prev) aiMove;
  words ← getFormedWords (gs_board prev) aiMove;
  let mainWord := match words with w :: _ => word w | [] => "" end in
  let tilesNeeded :=
    7 - (Z.of_nat (length (gs_aiRack prev)) - Z.of_nat (length aiMove)) in
  let '(drawn, remaining) := drawTiles (gs_tileBag prev) (Z.max 0 tilesNeeded) in
  let newRack :=
    filter (fun t => ¬ Exists (fun a => tid (ptile a) = tid t) aiMove)
           (gs_aiRack prev) in
  let isGameOver := bool_decide (length remaining = 0%nat)
                    && bool_decide (length newRack = 0%nat) in
  let playerDeduction := calculateEndgameDeductions (gs_playerRack prev) in
  let finalPlayerScore :=
    if isGameOver then gs_playerScore prev - playerDeduction
    else gs_playerScore prev in
  let finalAiScore :=
    if isGameOver then gs_aiScore prev + points + playerDeduction
    else gs_aiScore prev + points in
  Some (mkGame newBoard
          (gs_playerRack prev)
          (newRack ++ drawn)
          remaining
          finalPlayerScore
          finalAiScore
          SidePlayer
          (gs_moveHistory prev ++ [mkSoloMove SideAi mainWord points aiMove Play])
          false
          0
          isGameOver
          (if isGameOver then Some (soloWinner finalPlayerScore finalAiScore)
           else None)).

(** ** Measures used by the properties *)

(** Number of board cells that hold a tile. *)
Definition tilesOnBoard (b : Board) : nat :=
  length (filter (fun cell => is_Some (tile cell)) (concat b)).

(** [bag.length + sum of rack lengths + occupied cells]. *)
Definition totalTiles (room : GameRoom) : nat :=
  (length (tileBag room)
   + foldr (fun p n => length (rack p) + n) 0 (players room)
   + tilesOnBoard (board room))%nat.

(** ** Vocabulary of the placement rules, in the specification's words *)

(** Some placed tile sits on cell [(r, c)]. *)
Definition placedAtCell (placedTiles : list PlacedTile) (r c : Z) : Prop :=
  ∃ t, t ∈ placedTiles ∧ row t = r ∧ col t = c.

(** The same as a test. *)
Definition placedAtB (placedTiles : list PlacedTile) (r c : Z) : bool :=
  existsb (fun t => bool_decide (row t = r) && bool_decide (col t = c)) placedTiles.

(** Cell [(r, c)] of the board holds a tile. *)
Definition occupiedOn (b : Board) (r c : Z) : Prop :=
  ∃ cell t, getCell b r c = Some cell ∧ tile cell = Some t.

Definition allInRow (placedTiles : list PlacedTile) (r : Z) : Prop :=
  ∀ t, t ∈ placedTiles → row t = r.

Definition allInCol (placedTiles : list PlacedTile) (c : Z) : Prop :=
  ∀ t, t ∈ placedTiles → col t = c.

(** Minimum and maximum of a list of coordinates. *)
Definition spanMin (xs : list Z) : Z := foldr Z.min (default 0 (head xs)) xs.
Definition spanMax (xs : list Z) : Z := foldr Z.max (default 0 (head xs)) xs.

(** Cell [(r, c)] lies in the span from the minimum to the maximum
    coordinate along the placement axis: the row of the tiles when they
    share one, the column when they share one. *)
Definition spanCell (placedTiles : list PlacedTile) (r c : Z) : Prop :=
  (allInRow placedTiles r
   ∧ spanMin (map col placedTiles) <= c <= spanMax (map col placedTiles))
  ∨ (allInCol placedTiles c
     ∧ spanMin (map row placedTiles) <= r <= spanMax (map row placedTiles)).

(** A cell of the span that is neither newly placed nor occupied. *)
Definition hasGap (b : Board) (placedTiles : list PlacedTile) : Prop :=
  ∃ r c, spanCell placedTiles r c
         ∧ ¬ placedAtCell placedTiles r c ∧ ¬ occupiedOn b r c.

(** The rules tested before the gap rule: at least one tile; one row or one
    column; every tile on the grid and on an empty cell; the first move
    covers the center with two tiles or more; a later move touches a tile of
    the board. *)
Definition passesEarlierRules (b : Board) (placedTiles : list PlacedTile)
    (isFirstMove : bool) : Prop :=
  placedTiles ≠ []
  ∧ ((∃ r, allInRow placedTiles r) ∨ (∃ c, allInCol placedTiles c))
  ∧ (∀ t, t ∈ placedTiles →
       0 <= row t <= 14 ∧ 0 <= col t <= 14 ∧ ¬ occupiedOn b (row t) (col t))
  ∧ (if isFirstMove
     then placedAtCell placedTiles 7 7 ∧ (2 <= length placedTiles)%nat
     else ∃ t nr nc, t ∈ placedTiles ∧ (nr, nc) ∈ neighbours t
                     ∧ occupiedOn b nr nc).

(** ** Vocabulary of the scoring properties *)

(** The letter [t] of a formed word was read from cell
    [(lt_row t, lt_col t)] of the scratch board: its letter and value are the
    tile's, and [isNew] says whether the cell is in the set of placed
    cells. *)
Definition readsCell (tempBoard : Board) (placedSet : gset (Z * Z))
    (t : LetterTile) : Prop :=
  ∃ cell tl,
    getCell tempBoard (lt_row t) (lt_col t) = Some cell
    ∧ tile cell = Some tl
    ∧ lt_letter t = shownLetter tl ∧ lt_value t = value tl
    ∧ isNew t = bool_decide ((lt_row t, lt_col t) ∈ placedSet).

(** Premium classification of a cell of the board ([none] off the board). *)
Definition premiumAt (b : Board) (r c : Z) : PremiumType :=
  from_option premium PNone (getCell b r c).

(** Effect of a premium on the letter that covers it, and on its word. *)
Definition letterFactor (p : PremiumType) : Z :=
  match p with DL => 2 | TL => 3 | _ => 1 end.

Definition wordFactor (p : PremiumType) : Z :=
  match p with DW | CENTER => 2 | TW => 3 | _ => 1 end.

(** What a letter of a word brings to the word's letter sum in the move
    [placedTiles]: its value, multiplied by the letter premium of its cell
    only when the cell is newly placed in this move. *)
Definition letterShare (b : Board) (placedTiles : list PlacedTile)
    (t : LetterTile) : Z :=
  lt_value t * (if placedAtB placedTiles (lt_row t) (lt_col t)
                then letterFactor (premiumAt b (lt_row t) (lt_col t)) else 1).

(** What it brings to the word multiplier. *)
Definition wordShare (b : Board) (placedTiles : list PlacedTile)
    (t : LetterTile) : Z :=
  if placedAtB placedTiles (lt_row t) (lt_col t)
  then wordFactor (premiumAt b (lt_row t) (lt_col t)) else 1.

Definition sumZ (xs : list Z) : Z := foldr Z.add 0 xs.
Definition prodZ (xs : list Z) : Z := foldr Z.mul 1 xs.

(** The score of a move in the words of the specification: a formed word
    counts the sum of its letters' shares times the product of their word
    shares, the move is the sum of its words, and a move of seven tiles adds
    50. *)
Definition wordValue (b : Board) (placedTiles : list PlacedTile)
    (w : FormedWord) : Z :=
  sumZ (map (letterShare b placedTiles) (tiles w))
  * prodZ (map (wordShare b placedTiles) (tiles w)).

Definition moveValue (b : Board) (placedTiles : list PlacedTile)
    (ws : list FormedWord) : Z :=
  sumZ (map (wordValue b placedTiles) ws)
  + (if bool_decide (length placedTiles = 7%nat) then 50 else 0).

(** ** Vocabulary of the room properties *)

(** The ways the server turns down a [place_tiles] message of a seated
    player in a running game, in the order it tests them. *)
Inductive Rejection :=
  | OutOfTurn
  | NothingPlaced
  | UnownedTile
  | BadGeometry (e : PlacementError)
  | BadWord (w : string).

(** The response that names the reason. *)
Definition rejectionMsg (r : Rejection) : ServerMsg :=
  match r with
  | OutOfTurn => ErrorMsg "Not your turn"
  | NothingPlaced => ErrorMsg "No tiles placed"
  | UnownedTile => ErrorMsg "Invalid tile"
  | BadGeometry e => MoveRejected (serverErrorText e)
  | BadWord w => MoveRejected (dquote +:+ w +:+ dquote +:+ " is not a valid word")
  end.

(** Every id of the message names a tile of the rack. *)
Definition tilesOwned (rack : list Tile) (placedTiles : list PlacedTile) : Prop :=
  ∀ pt, pt ∈ placedTiles → tid (ptile pt) ∈ map tid rack.

(** The message [placedTiles] of the seated player [sender] is turned down
    for reason [r]: it fails the test of [r] and passes the tests before
    it. For a word, [w] is the first formed word that the lexicon lacks. *)
Definition rejectedFor (room : GameRoom) (playerId : string) (sender : Player)
    (placedTiles : list PlacedTile) (r : Rejection) : Prop :=
  match r with
  | OutOfTurn => findIndexById room playerId ≠ currentTurnIndex room
  | NothingPlaced =>
      findIndexById room playerId = currentTurnIndex room ∧ placedTiles = []
  | UnownedTile =>
      findIndexById room playerId = currentTurnIndex room ∧ placedTiles ≠ []
      ∧ ¬ tilesOwned (rack sender) placedTiles
  | BadGeometry e =>
      findIndexById room playerId = currentTurnIndex room ∧ placedTiles ≠ []
      ∧ tilesOwned (rack sender) placedTiles
      ∧ validatePlacement (board room) placedTiles (isFirstMove room)
        = Some (Invalid e)
  | BadWord w =>
      findIndexById room playerId = currentTurnIndex room ∧ placedTiles ≠ []
      ∧ tilesOwned (rack sender) placedTiles
      ∧ validatePlacement (board room) placedTiles (isFirstMove room) = Some Valid
      ∧ ∃ before bad after,
          getFormedWords (board room) placedTiles = Some (before ++ bad :: after)
          ∧ Forall (fun v => isValidWord (word v) = true) before
          ∧ isValidWord (word bad) = false ∧ w = word bad
  end.

(** The message passes every test of [place_tiles]. *)
Definition moveAccepted (room : GameRoom) (playerId : string) (sender : Player)
    (placedTiles : list PlacedTile) : Prop :=
  started room = true ∧ gameOver room = false
  ∧ findIndexById room playerId = currentTurnIndex room
  ∧ playerAt room (findIndexById room playerId) = Some sender
  ∧ placedTiles ≠ []
  ∧ tilesOwned (rack sender) placedTiles
  ∧ validatePlacement (board room) placedTiles (isFirstMove room) = Some Valid
  ∧ ∃ ws, getFormedWords (board room) placedTiles = Some ws
          ∧ Forall (fun v => isValidWord (word v) = true) ws.

(** ** Concrete positions used in the examples *)

Definition letterTile (i l : string) (v : Z) : Tile := mkTile i l v false.

(** Two tiles on the center row with an empty cell between them. *)
Definition spacedPair : list PlacedTile :=
  [mkPlaced (letterTile "a1" "A" 1) 7 7; mkPlaced (letterTile "t1" "T" 1) 7 9].

(** Two tiles put on the same cell, the center. *)
Definition stackedPair : list PlacedTile :=
  [mkPlaced (letterTile "a1" "A" 1) 7 7; mkPlaced (letterTile "t1" "T" 1) 7 7].

(** The first move CAT through the center, and the board after it. *)
Definition catTiles : list PlacedTile :=
  [mkPlaced (letterTile "c1" "C" 3) 7 6; mkPlaced (letterTile "a1" "A" 1) 7 7;
   mkPlaced (letterTile "t1" "T" 1) 7 8].

Definition boardWithCat : Board :=
  default createEmptyBoard (placeAll createEmptyBoard catTiles).

(** A later move: one T under the A of CAT, which spells AT downwards. *)
Definition hookTiles : list PlacedTile :=
  [mkPlaced (letterTile "t2" "T" 1) 8 7].

Definition wordAT : FormedWord :=
  mkWord "AT" [mkLetter 7 7 "A" 1 false; mkLetter 8 7 "T" 1 true].

(** An endgame: the bag is empty, Ann holds one T and is to move, Bob holds
    Q and Z, CAT lies on the board. *)
Definition ann : Player :=
  mkPlayer 1 "ann" "Ann" [letterTile "t2" "T" 1] 12 true.

Definition bob : Player :=
  mkPlayer 2 "bob" "Bob" [letterTile "q1" "Q" 10; letterTile "z1" "Z" 10] 30 true.

Definition endgameRoom : GameRoom :=
  mkRoom "ABCDEF" [ann; bob] boardWithCat [] 0 false 0 false None [] 0 true.

(** The same position in a single-player game, the player having put the T
    on the board, and with the AI holding the T. *)
Definition endgameSolo : GameState :=
  mkGame boardWithCat [] (rack bob) [] 12 30 SidePlayer [] false 0 false None.

Definition endgameAi : GameState :=
  mkGame boardWithCat (rack bob) (rack ann) [] 30 12 SideAi [] false 0 false None.

(** The same room after three consecutive passes, Ann to move. *)
Definition stalledRoom : GameRoom :=
  mkRoom "ABCDEF" [ann; bob] boardWithCat [] 0 false 3 false None [] 0 true.

(** ** A room from its creation

    Ids ["t1"], ["t2"], ... for [genTileId]; every socket open; the draws
    [99, 98, ..., 1] make each step of the shuffle exchange a tile with
    itself, so the bag keeps the order of the distribution table and the
    first rack is made of seven A. *)
Definition demoIds (n : nat) : string := "t" +:+ pretty n.

Definition allOpen (sock : nat) : bool := true.

Definition stillDraws : list nat := rev (seq 1 99).

(** Ann creates the room on socket 1. *)
Definition createdRoom : GameRoom :=
  (handleCreateRoom demoIds allOpen "ABCDEF" 1 "Ann" 0 stillDraws 0).1.1.

(** Bob joins it on socket 2; [tileIdCounter] is 101 by then. *)
Definition openingRoom : GameRoom :=
  default createdRoom
    ((fun res => res.1.1) <$> handleJoinRoom demoIds allOpen createdRoom 2 "Bob" 101).

(** Ann's first message names the tile ["t2"] twice, on (7,7) and on (7,8). *)
Definition doubledTile : list PlacedTile :=
  [mkPlaced (mkTile "t2" "A" 1 false) 7 7; mkPlaced (mkTile "t2" "A" 1 false) 7 8].

(** Or it puts the tiles ["t2"] and ["t3"] on the same cell. *)
Definition stackedTiles : list PlacedTile :=
  [mkPlaced (mkTile "t2" "A" 1 false) 7 7; mkPlaced (mkTile "t3" "A" 1 false) 7 7].

(** Or it names the tiles ["t2"] and ["t3"], both an A worth 1 in her rack,
    and says that the first is a Z worth 10. *)
Definition forgedTiles : list PlacedTile :=
  [mkPlaced (mkTile "t2" "Z" 10 false) 7 7; mkPlaced (mkTile "t3" "A" 1 false) 7 8].

(** ** More of the engine's tile table *)

(** [TILE_DISTRIBUTION[key]] *)
Definition distributionEntry (key : string) : option (nat * Z) :=
  (fun found : nat * (string * (nat * Z)) => found.2.2)
    <$> list_find (fun kv : string * (nat * Z) => kv.1 = key) TILE_DISTRIBUTION.

(** [getLetterValue(letter)] *)
Definition getLetterValue (l : string) : Z :=
  match distributionEntry (toUpperCase l) with
  | Some (_, v) => v
  | None => 0
  end.

(** [getTileCount(letter)] *)
Definition getTileCount (l : string) : nat :=
  match distributionEntry (toUpperCase l) with
  | Some (n, _) => n
  | None => 0%nat
  end.

(** [getRemainingTileCount(bag)] *)
Definition getRemainingTileCount (bag : list Tile) : nat := length bag.

(** What a tile is apart from its id. *)
Definition tileContent (t : Tile) : string * Z * bool :=
  (letter t, value t, isBlank t).

(** The contents that the table asks for: [count] times each entry, the
    blank with an empty letter. *)
Definition tableContent (dist : list (string * (nat * Z)))
    : list (string * Z * bool) :=
  flat_map (fun '(l, (count, v)) =>
              replicate count (if decide (l = "?") then "" else l, v,
                               bool_decide (l = "?")))
           dist.

(** Number of tiles that the table asks for. *)
Definition tableSize (dist : list (string * (nat * Z))) : nat :=
  foldr (fun '(_, (count, _)) n => (count + n)%nat) 0%nat dist.

(** The tile content [c] belongs to the key [l] of the table: a blank for
    ["?"], the letter otherwise. *)
Definition contentOfKey (l : string) (c : string * Z * bool) : bool :=
  if decide (l = "?") then c.2 else bool_decide (c.1.1 = l) && negb c.2.

(** Number of tiles of a bag that belong to the key [l]. *)
Definition countOfKey (l : string) (bag : list Tile) : nat :=
  length (filter (fun c => contentOfKey l c = true) (map tileContent bag)).

(** ** Disconnection and the life of a room *)

(** The [close] handler for the room of the connection: the player's slot
    is marked disconnected and the other player is told. The last component
    says whether the deletion of the room is scheduled (every slot
    disconnected). *)
Definition handleClose (wsOpen : nat -> bool) (room : GameRoom)
    (playerId : string) : GameRoom * list (nat * ServerMsg) * bool :=
  let '(room', out) :=
    match list_find (fun p => pid p = playerId) (players room) with
    | Some (i, player) =>
        let player' := mkPlayer (ws player) (pid player) (name player)
                         (rack player) (score player) false in
        let room' := setPlayers room (<[i := player']> (players room)) in
        (room',
         match list_find (fun p => pid p ≠ playerId) (players room') with
         | Some (_, other) => sendToPlayer wsOpen other OpponentDisconnected
         | None => []
         end)
    | None => (room, [])
    end in
  (room', out, forallb (fun p => negb (connected p)) (players room')).

(** The rooms that the server can hold: a room as [create_room] makes it,
    and what [join_room], the three game messages and [close] make of such a
    room. The first index is the bag that was shuffled at creation. *)
Inductive reachable : list Tile -> GameRoom -> Prop :=
  | reach_create genTileId wsOpen roomCode sock given counter draws now :
      reachable (createTileBag genTileId (S counter) draws)
        (handleCreateRoom genTileId wsOpen roomCode sock given counter draws now).1.1
  | reach_join bag0 room genTileId wsOpen sock given counter room' newId out :
      reachable bag0 room ->
      handleJoinRoom genTileId wsOpen room sock given counter
      = Some (room', newId, out) ->
      reachable bag0 room'
  | reach_game bag0 room wsOpen playerId msg room' out :
      reachable bag0 room ->
      handleGameMsg wsOpen room playerId msg = Some (room', out) ->
      reachable bag0 room'
  | reach_close bag0 room wsOpen playerId :
      reachable bag0 room ->
      reachable bag0 (handleClose wsOpen room playerId).1.1.

(** All the tiles on the racks of a room. *)
Definition rackTiles (room : GameRoom) : list Tile :=
  flat_map rack (players room).

(** What every room of the server satisfies. *)
Definition roomInvariant (bag0 : list Tile) (room : GameRoom) : Prop :=
  (1 <= length (players room) <= 2)%nat
  ∧ (started room = true ↔ length (players room) = 2%nat)
  ∧ wf_board (board room)
  ∧ (∀ r c, premiumAt (board room) r c = premiumAt createEmptyBoard r c)
  ∧ Forall (fun p => (length (rack p) <= 7)%nat) (players room)
  ∧ (currentTurnIndex room = 0 ∨ currentTurnIndex room = 1)
  ∧ 0 <= consecutivePasses room <= 4
  ∧ (gameOver room = false → consecutivePasses room < 4)
  ∧ (isFirstMove room = true → board room = createEmptyBoard)
  ∧ rackTiles room ++ tileBag room ⊆+ bag0.

(** Two player records that differ at most by the score. *)
Definition sameSeat (p q : Player) : Prop :=
  ws p = ws q ∧ pid p = pid q ∧ name p = name q ∧ rack p = rack q
  ∧ connected p = connected q.

(** The tiles of the rack that the message does not name: what
    [place_tiles] keeps on the rack. *)
Definition keptTiles (rack : list Tile) (placedTiles : list PlacedTile)
    : list Tile :=
  filter (fun t => ¬ Exists (fun pt => tid (ptile pt) = tid t) placedTiles) rack.

(** Ann's first move as her client sends it: her tiles ["t2"] and ["t3"] on
    (7,7) and (7,8), the word AA. *)
Definition honestTiles : list PlacedTile :=
  [mkPlaced (mkTile "t2" "A" 1 false) 7 7; mkPlaced (mkTile "t3" "A" 1 false) 7 8].

(** ** Lines of tiles on the scratch board *)

(** Cell number [k] of the line through [(r, c)]: of row [r] when
    [horizontal], of column [c] otherwise. *)
Definition lineCell (horizontal : bool) (r c k : Z) : Z * Z :=
  if horizontal then (r, k) else (k, c).

(** Position of [(r, c)] on that line. *)
Definition linePos (horizontal : bool) (r c : Z) : Z :=
  if horizontal then c else r.

(** The cell holds a tile. *)
Definition occAt (b : Board) (rc : Z * Z) : Prop := occupiedOn b rc.1 rc.2.

(** The entry that [getWordAt] pushes for the tile of a cell. *)
Definition letterAt (tempBoard : Board) (placedSet : gset (Z * Z))
    (rc : Z * Z) : option LetterTile :=
  cell ← getCell tempBoard rc.1 rc.2;
  t ← tile cell;
  Some (mkLetter rc.1 rc.2 (shownLetter t) (value t)
          (bool_decide (rc ∈ placedSet))).

(** [ts] are the entries of the cells [lo .. hi] of the line through
    [(r, c)]; each of these cells holds a tile, and the cell before [lo] and
    the cell after [hi] do not, or are off the grid. *)
Definition runOn (tempBoard : Board) (placedSet : gset (Z * Z))
    (horizontal : bool) (r c lo hi : Z) (ts : list LetterTile) : Prop :=
  0 <= lo ∧ lo <= hi ∧ hi <= 14
  ∧ Forall2 (fun k t => letterAt tempBoard placedSet
                          (lineCell horizontal r c k) = Some t)
            (seqZ lo (hi - lo + 1)) ts
  ∧ (lo = 0 ∨ ¬ occAt tempBoard (lineCell horizontal r c (lo - 1)))
  ∧ (hi = 14 ∨ ¬ occAt tempBoard (lineCell horizontal r c (hi + 1))).

(** [w] is a word that [getWordAt] reads through the cell of a placed
    tile: the letters of a run of tiles that cannot be extended, across or
    down, at least two characters long. *)
Definition wordThrough (tempBoard : Board) (placedTiles : list PlacedTile)
    (w : FormedWord) : Prop :=
  ∃ t horizontal lo hi,
    t ∈ placedTiles
    ∧ runOn tempBoard (placedSetOf placedTiles) horizontal (row t) (col t)
        lo hi (tiles w)
    ∧ lo <= linePos horizontal (row t) (col t) <= hi
    ∧ word w = wordOf (tiles w)
    ∧ (2 <= String.length (word w))%nat.

(** The words that [getFormedWords] pushes on [words] before it removes
    the repeated spans, read from the scratch board. *)
Definition candidateWords (tempBoard : Board) (placedTiles : list PlacedTile)
    : option (list FormedWord) :=
  match placedTiles with
  | [] => None
  | p0 :: _ =>
      let placedSet := placedSetOf placedTiles in
      let sameRow := sameRowOf placedTiles in
      let single := bool_decide (length placedTiles = 1%nat) in
      main1 ← (if sameRow || single
               then getWordAt tempBoard placedSet (row p0) (col p0) true
               else Some []);
      main2 ← (if negb sameRow || single
               then getWordAt tempBoard placedSet (row p0) (col p0) false
               else Some []);
      cross ← crossWords tempBoard placedSet sameRow single placedTiles;
      Some (main1 ++ main2 ++ cross)
  end.


(** ** What connections and views leave alone *)

(** Two player records with the same id, name, rack and score: they differ
    at most by the socket and the connection flag. *)
Definition sameHand (p q : Player) : Prop :=
  pid p = pid q ∧ name p = name q ∧ rack p = rack q ∧ score p = score q.

(** Two rooms with the same game: the same seats with the same hands, and
    the same board, bag, turn, counters, result and history. *)
Definition sameGame (room room' : GameRoom) : Prop :=
  Forall2 sameHand (players room) (players room')
  ∧ code room = code room' ∧ board room = board room'
  ∧ tileBag room = tileBag room'
  ∧ currentTurnIndex room = currentTurnIndex room'
  ∧ isFirstMove room = isFirstMove room'
  ∧ consecutivePasses room = consecutivePasses room'
  ∧ gameOver room = gameOver room' ∧ winner room = winner room'
  ∧ moveHistory room = moveHistory room'
  ∧ createdAt room = createdAt room' ∧ started room = started room'.

(** Two player records that look the same to the player [forPlayerId]:
    the same id, name and score, racks of the same size, and the same rack
    when the record is that player's own. *)
Definition sameSeatFor (forPlayerId : string) (p q : Player) : Prop :=
  pid p = pid q ∧ name p = name q ∧ score p = score q
  ∧ length (rack p) = length (rack q)
  ∧ (pid p = forPlayerId → rack p = rack q).

(** Two rooms that differ at most in what [forPlayerId] must not see: the
    tiles of the other racks, the tiles of the bag, and the ids and blank
    flags of the tiles on the board. *)
Definition sameFor (forPlayerId : string) (room room' : GameRoom) : Prop :=
  Forall2 (sameSeatFor forPlayerId) (players room) (players room')
  ∧ code room = code room'
  ∧ Forall2 (Forall2 (fun cell cell' =>
       premium cell = premium cell'
       ∧ option_Forall2 (fun t t' => letter t = letter t' ∧ value t = value t')
           (tile cell) (tile cell')))
      (board room) (board room')
  ∧ length (tileBag room) = length (tileBag room')
  ∧ currentTurnIndex room = currentTurnIndex room'
  ∧ isFirstMove room = isFirstMove room'
  ∧ gameOver room = gameOver room' ∧ winner room = winner room'
  ∧ moveHistory room = moveHistory room'
  ∧ started room = started room'.

(** Bob's rack, the bag and the ids on the board replaced by other tiles
    in the opening room. *)
Definition maskedRoom : GameRoom :=
  mkRoom (code openingRoom)
    (map (fun p => if decide (pid p = "t1") then p
                   else setRack p (map (fun t => mkTile "hidden" "Q" 10 false) (rack p)))
         (players openingRoom))
    (board openingRoom)
    (map (fun t => mkTile "hidden" "Z" 10 false) (tileBag openingRoom))
    (currentTurnIndex openingRoom) (isFirstMove openingRoom)
    (consecutivePasses openingRoom) (gameOver openingRoom) (winner openingRoom)
    (moveHistory openingRoom) (createdAt openingRoom) (started openingRoom).

(** ** The single-player screen ([lib/game-context.tsx])

    The provider keeps three pieces of state, [gameState], [pendingTiles]
    and [selectedTileId], each behind a [useState] setter. A handler reads
    the values of the render it was made in and calls setters; React applies
    the calls of one handler in the order they were made. *)

(** [initializeGame()], started with [tileIdCounter = counter]. *)
Definition initializeGame (generateTileId : nat -> string) (counter : nat)
    (draws : list nat) : GameState :=
  let tileBag := createTileBag generateTileId counter draws in
  let '(playerTiles, bag1) := drawTiles tileBag 7 in
  let '(aiTiles, bag2) := drawTiles bag1 7 in
  mkGame createEmptyBoard playerTiles aiTiles bag2 0 0 SidePlayer [] true 0
         false None.

(** A call of a setter: with a value, or with an updater function. *)
Inductive StateUpdate (A : Type) :=
  | SetTo (v : A)
  | SetBy (f : A -> A).
Arguments SetTo {A} v.
Arguments SetBy {A} f.

(** The state after the calls queued by one handler: a value replaces the
    state, an updater is applied to what the earlier calls left. *)
Definition runUpdates {A} (updates : list (StateUpdate A)) (s : A) : A :=
  foldl (fun acc u => match u with SetTo v => v | SetBy f => f acc end)
        s updates.

(** The state of the screen while a game exists ([gameState] is not
    [null]). *)
Record SoloState := mkSolo {
  ui_game : GameState;
  ui_pending : list PlacedTile;
  ui_selected : option string
}.

Global Instance Side_eq_dec : EqDecision Side.
Proof. solve_decision. Defined.

(** [{ ...prev, playerRack: r }] *)
Definition withPlayerRack (g : GameState) (r : list Tile) : GameState :=
  mkGame (gs_board g) r (gs_aiRack g) (gs_tileBag g) (gs_playerScore g)
         (gs_aiScore g) (gs_currentTurn g) (gs_moveHistory g) (gs_isFirstMove g)
         (gs_consecutivePasses g) (gs_gameOver g) (gs_winner g).

(** [selectTile(tileId)] *)
Definition selectTile (st : SoloState) (tileId : option string) : SoloState :=
  mkSolo (ui_game st) (ui_pending st) tileId.

(** [placeTileOnBoard(row, col)]. Nothing is selected when
    [selectedTileId] is [null] or the empty string. A cell off the board
    makes the read of [.tile] throw. *)
Definition placeTileOnBoard (st : SoloState) (r c : Z) : option SoloState :=
  match ui_selected st with
  | None => Some st
  | Some selectedTileId =>
      if decide (selectedTileId = "") then Some st
      else if negb (bool_decide (gs_currentTurn (ui_game st) = SidePlayer))
      then Some st
      else
        occ ← occupied (gs_board (ui_game st)) r c;
        if occ : bool then Some st
        else if existsb (fun t => bool_decide (row t = r) && bool_decide (col t = c))
                        (ui_pending st)
        then Some st
        else
          match list_find (fun t => tid t = selectedTileId)
                          (gs_playerRack (ui_game st)) with
          | None => Some st
          | Some (_, tile) =>
              let pending := runUpdates
                [SetBy (fun prev => prev ++ [mkPlaced tile r c])] (ui_pending st) in
              let game := runUpdates
                [SetBy (fun prev =>
                   withPlayerRack prev
                     (filter (fun t => tid t ≠ selectedTileId) (gs_playerRack prev)))]
                (ui_game st) in
              Some (mkSolo game pending None)
          end
  end.

(** The call [setGameState(prev => ...)] of [recallTiles]. *)
Definition recallUpdate (pendingTiles : list PlacedTile) : StateUpdate GameState :=
  SetBy (fun prev =>
           withPlayerRack prev (gs_playerRack prev ++ map ptile pendingTiles)).

(** [recallTiles()] *)
Definition recallTiles (st : SoloState) : SoloState :=
  mkSolo (runUpdates [recallUpdate (ui_pending st)] (ui_game st)) [] None.

(** [shuffleRack()]; [draws] feed the shuffle. *)
Definition shuffleRack (st : SoloState) (draws : list nat) : SoloState :=
  mkSolo (runUpdates
            [SetBy (fun prev => withPlayerRack prev
                                  (shuffleArray draws (gs_playerRack prev)))]
            (ui_game st))
         (ui_pending st) (ui_selected st).

(** [{ player: 'player', word: '', score: 0, tiles: [], type }] *)
Definition idleMove (side : Side) (type : MoveType) : SoloMove :=
  mkSoloMove side "" 0 [] type.

(** [passTurn()]: the screen after the call. [recallTiles()] runs first;
    the state the function then sets is built from the [gameState] of the
    render, except when the pass is the fourth, where it is built from the
    state the earlier calls left. The AI turn it schedules is not part of
    it. *)
Definition passTurn (st : SoloState) : SoloState :=
  let gameState := ui_game st in
  let newPasses := gs_consecutivePasses gameState + 1 in
  let history prev := gs_moveHistory prev ++ [idleMove SidePlayer Pass] in
  let last :=
    if bool_decide (newPasses >= 4) then
      let playerDeduction := calculateEndgameDeductions (gs_playerRack gameState) in
      let aiDeduction := calculateEndgameDeductions (gs_aiRack gameState) in
      let finalPlayerScore := gs_playerScore gameState - playerDeduction in
      let finalAiScore := gs_aiScore gameState - aiDeduction in
      SetBy (fun prev =>
               mkGame (gs_board prev) (gs_playerRack prev) (gs_aiRack prev)
                 (gs_tileBag prev) finalPlayerScore finalAiScore
                 (gs_currentTurn prev) (history prev) (gs_isFirstMove prev)
                 newPasses true (Some (soloWinner finalPlayerScore finalAiScore)))
    else
      SetTo (mkGame (gs_board gameState) (gs_playerRack gameState)
               (gs_aiRack gameState) (gs_tileBag gameState)
               (gs_playerScore gameState) (gs_aiScore gameState) SideAi
               (history gameState) (gs_isFirstMove gameState) newPasses
               (gs_gameOver gameState) (gs_winner gameState)) in
  mkSolo (runUpdates [recallUpdate (ui_pending st); last] gameState) [] None.

(** [exchangeTiles(tileIds)]; [draws] feed the shuffle of the bag. *)
Definition exchangeTiles (st : SoloState) (tileIds : list string)
    (draws : list nat) : SoloState :=
  let gameState := ui_game st in
  if bool_decide (length (gs_tileBag gameState) < 7)%nat then st
  else
    let tilesToExchange := filter (fun t => tid t ∈ tileIds) (gs_playerRack gameState) in
    let remainingRack := filter (fun t => tid t ∉ tileIds) (gs_playerRack gameState) in
    let '(drawn, remaining) :=
      drawTiles (gs_tileBag gameState) (Z.of_nat (length tilesToExchange)) in
    let newBag := shuffleArray draws (remaining ++ tilesToExchange) in
    let newState :=
      mkGame (gs_board gameState) (remainingRack ++ drawn) (gs_aiRack gameState)
        newBag (gs_playerScore gameState) (gs_aiScore gameState) SideAi
        (gs_moveHistory gameState ++ [idleMove SidePlayer Exchange])
        (gs_isFirstMove gameState) 0 (gs_gameOver gameState)
        (gs_winner gameState) in
    mkSolo (runUpdates [recallUpdate (ui_pending st); SetTo newState] gameState)
           [] None.

(** [submitMove()] on the screen: a refused move changes nothing; an
    accepted one sets the new game and clears the pending tiles. *)
Definition submitPending (st : SoloState) : option (SoloState * SubmitResult) :=
  '(game, result) ← submitMove (ui_game st) (ui_pending st);
  match result with
  | SubmitOk _ => Some (mkSolo game [] None, result)
  | SubmitError _ => Some (st, result)
  end.

(** The tiles the player holds: on the rack, or pending on the board. *)
Definition hand (st : SoloState) : list Tile :=
  gs_playerRack (ui_game st) ++ map ptile (ui_pending st).

(** All the tiles of the single-player game, counted. *)
Definition soloTotal (st : SoloState) : nat :=
  (tilesOnBoard (gs_board (ui_game st)) + length (gs_playerRack (ui_game st))
   + length (gs_aiRack (ui_game st)) + length (gs_tileBag (ui_game st))
   + length (ui_pending st))%nat.

(** The pending tiles lie on pairwise distinct cells of the grid that hold
    no tile. *)
Definition pendingApart (st : SoloState) : Prop :=
  NoDup (map (fun t => (row t, col t)) (ui_pending st))
  ∧ ∀ t, t ∈ ui_pending st →
      0 <= row t <= 14 ∧ 0 <= col t <= 14
      ∧ ¬ occupiedOn (gs_board (ui_game st)) (row t) (col t).

(** What the player does with the tiles before a move is sent. *)
Inductive Arrange :=
  | DoSelect (tileId : option string)
  | DoPlace (r c : Z)
  | DoRecall
  | DoShuffle (draws : list nat).

Definition arrange (st : SoloState) (a : Arrange) : option SoloState :=
  match a with
  | DoSelect tileId => Some (selectTile st tileId)
  | DoPlace r c => placeTileOnBoard st r c
  | DoRecall => Some (recallTiles st)
  | DoShuffle draws => Some (shuffleRack st draws)
  end.

Fixpoint arrangeAll (st : SoloState) (steps : list Arrange) : option SoloState :=
  match steps with
  | [] => Some st
  | a :: rest => st' ← arrange st a; arrangeAll st' rest
  end.

(** A new game on the screen, with the ids and the shuffle of the opening
    room. *)
Definition freshSolo : SoloState :=
  mkSolo (initializeGame demoIds 0 stillDraws) [] None.

(** The player has put two tiles of the first rack on (7,7) and (7,8). *)
Definition placedSolo : SoloState :=
  default freshSolo
    (arrangeAll freshSolo
       [DoSelect (Some "t1"); DoPlace 7 7; DoSelect (Some "t2"); DoPlace 7 8]).

(** ** The move of the AI ([generateAIMove])

    The engine's own [validatePlacement] tests the rules of the
    coordinator's in the same order; its gap loop reads [board[row][c]] for
    the placed cells of the span as well, which are cells of the grid. *)

Inductive Difficulty := Easy | Medium | Hard.

(** An entry of [possibleMoves]: [{ tiles, score }]. *)
Abbreviation Candidate := (list PlacedTile * Z)%type.

(** [for (const ch of word)]: the characters of a word, each as a string. *)
Fixpoint charsOf (s : string) : list string :=
  match s with
  | EmptyString => []
  | String a rest => String a EmptyString :: charsOf rest
  end.

(** [xs.indexOf(x)], [None] for -1. *)
Definition indexOf (xs : list string) (x : string) : option nat :=
  fst <$> list_find (fun y => y = x) xs.

(** [usedTiles.some(ut => ut.id === t.id)] *)
Definition usedId (usedTiles : list Tile) (t : Tile) : Prop :=
  Exists (fun ut => tid ut = tid t) usedTiles.

(** One round of the loop over the characters of a word in
    [findWordsFromRack]; the state is [(available, usedTiles)], and [None]
    is [canForm = false]. *)
Definition useLetter (rack : list Tile) (st : list string * list Tile)
    (ch : string) : option (list string * list Tile) :=
  let '(available, usedTiles) := st in
  match indexOf available ch with
  | Some idx =>
      match list_find (fun t => toUpperCase (letter t) = ch ∧ ¬ usedId usedTiles t)
                      rack with
      | Some (_, t) => Some (delete idx available, usedTiles ++ [t])
      | None => None
      end
  | None =>
      match indexOf available "" with
      | Some blankIdx =>
          match list_find (fun t => isBlank t = true ∧ ¬ usedId usedTiles t) rack with
          | Some (_, blankTile) =>
              Some (delete blankIdx available,
                    usedTiles ++ [mkTile (tid blankTile) ch (value blankTile)
                                         (isBlank blankTile)])
          | None => None
          end
      | None => None
      end
  end.

(** The loop over the characters, with its [break]. *)
Fixpoint useLetters (rack : list Tile) (st : list string * list Tile)
    (chs : list string) : option (list string * list Tile) :=
  match chs with
  | [] => Some st
  | ch :: rest => st' ← useLetter rack st ch; useLetters rack st' rest
  end.

(** The body of the loop over the lexicon: the tiles that spell [w], when
    the rack has them. *)
Definition spellWord (rack : list Tile) (minLen maxLen : nat) (w : string)
    : option (list Tile) :=
  if bool_decide (String.length w < minLen)%nat
     || bool_decide (maxLen < String.length w)%nat
  then None
  else
    '(_, usedTiles) ←
      useLetters rack (map (fun t => toUpperCase (letter t)) rack, []) (charsOf w);
    if bool_decide (length usedTiles = String.length w) then Some usedTiles
    else None.

(** The loop [for (const word of ...)] of [findWordsFromRack] over the
    words [entries]. *)
Definition findWordsIn (entries : list string) (rack : list Tile)
    (minLen maxLen : nat) : list (list Tile) :=
  omap (spellWord rack minLen maxLen) entries.

(** [findWordsFromRack(rack, minLen, maxLen)]. The set of the engine is
    built from a list that names one word twice; a set keeps the first
    insertion, so it is iterated in the order of [COMMON_WORDS_entries]. *)
Definition findWordsFromRack (rack : list Tile) (minLen maxLen : nat)
    : list (list Tile) :=
  findWordsIn COMMON_WORDS_entries rack minLen maxLen.

(** [word.map((tile, i) => ({ ...tile, row: 7, col: 7 -
    Math.floor(word.length / 2) + i }))] *)
Definition centerTiles (w : list Tile) : list PlacedTile :=
  imap (fun i tile =>
          mkPlaced tile 7 (7 - Z.of_nat (length w / 2) + Z.of_nat i)) w.

(** The loop over the words of the first move; [None] is an exception. *)
Fixpoint firstMoves (b : Board) (words : list (list Tile))
    : option (list Candidate) :=
  match words with
  | [] => Some []
  | w :: rest =>
      let tiles := centerTiles w in
      validation ← validatePlacement b tiles true;
      found ← match validation with
              | Valid => points ← calculateMoveScore b tiles; Some [(tiles, points)]
              | Invalid _ => Some []
              end;
      more ← firstMoves b rest;
      Some (found ++ more)
  end.

(** The innermost loop of [tryExtendFromPosition], from round [i] on:
    [n] rounds are left, [tiles] and [usedRackIndices] are what the earlier
    rounds pushed. [Some None] is [valid = false]. *)
Fixpoint layTiles (b : Board) (rack : list Tile) (horizontal : bool)
    (r0 c0 offset : Z) (n : nat) (i : Z) (tiles : list PlacedTile)
    (usedRackIndices : list nat) : option (option (list PlacedTile)) :=
  match n with
  | O => Some (Some tiles)
  | S n' =>
      let r := if horizontal then r0 else r0 + offset + i in
      let c := if horizontal then c0 + offset + i else c0 in
      if bool_decide (r < 0) || bool_decide (r >= 15)
         || bool_decide (c < 0) || bool_decide (c >= 15)
      then Some None
      else
        occ ← occupied b r c;
        if occ : bool then Some None
        else
          match list_find (fun idx => idx ∉ usedRackIndices)
                          (seq 0 (length rack)) with
          | None => Some None
          | Some (_, rackIdx) =>
              tile ← rack !! rackIdx;
              layTiles b rack horizontal r0 c0 offset n' (i + 1)
                (tiles ++ [mkPlaced tile r c]) (usedRackIndices ++ [rackIdx])
          end
  end.

(** One round of the loop over the offsets: what it pushes on [moves]. *)
Definition tryOffset (b : Board) (rack : list Tile) (r0 c0 : Z) (len : nat)
    (horizontal : bool) (offset : Z) : option (list Candidate) :=
  laid ← layTiles b rack horizontal r0 c0 offset len 0 [] [];
  match laid with
  | None => Some []
  | Some tiles =>
      if bool_decide (length tiles = 0%nat) then Some []
      else
        validation ← validatePlacement b tiles false;
        match validation with
        | Invalid _ => Some []
        | Valid =>
            formedWords ← getFormedWords b tiles;
            if forallb (fun w => isValidWord (word w)) formedWords
               && bool_decide (0 < length formedWords)%nat
            then points ← calculateMoveScore b tiles; Some [(tiles, points)]
            else Some []
        end
  end.

(** Loops that push on one array, in order. *)
Fixpoint pushAll {A B} (f : A -> option (list B)) (xs : list A)
    : option (list B) :=
  match xs with
  | [] => Some []
  | x :: rest => found ← f x; more ← pushAll f rest; Some (found ++ more)
  end.

(** [tryExtendFromPosition(board, rack, row, col, moves)]: the moves it
    pushes. The lengths are 1 to [Math.min(rack.length, 4)], the directions
    [true, false], the offsets [-len] to 0. *)
Definition tryExtendFromPosition (b : Board) (rack : list Tile) (r0 c0 : Z)
    : option (list Candidate) :=
  pushAll (fun len =>
    pushAll (fun horizontal =>
      pushAll (fun offset => tryOffset b rack r0 c0 len horizontal offset)
              (seqZ (- Z.of_nat len) (Z.of_nat len + 1)))
      [true; false])
    (seq 1 (Nat.min (length rack) 4)).

(** The two loops over the board of a later move. *)
Definition laterMoves (b : Board) (rack : list Tile) : option (list Candidate) :=
  pushAll (fun rc : Z * Z =>
             occ ← occupied b rc.1 rc.2;
             if occ : bool then tryExtendFromPosition b rack rc.1 rc.2
             else Some [])
          allCells.

(** [possibleMoves.sort((a, b) => b.score - a.score)]: by falling score,
    moves of equal score in the order they had (the sort is stable). *)
Fixpoint insertByScore (m : Candidate) (sorted : list Candidate) : list Candidate :=
  match sorted with
  | [] => [m]
  | x :: rest =>
      if bool_decide (x.2 > m.2) then x :: insertByScore m rest
      else m :: x :: rest
  end.

Definition sortByScore (moves : list Candidate) : list Candidate :=
  foldr insertByScore [] moves.

(** The index of the move that is played; [rnd] stands for
    [Math.random()], a natural reduced to the range the product has. *)
Definition moveIndex (difficulty : Difficulty) (n rnd : nat) : nat :=
  match difficulty with
  | Easy => Nat.min (n - 1) (rnd `mod` Nat.min n 5 + n / 2)
  | Medium => rnd `mod` Nat.min n 3
  | Hard => 0
  end.

(** [generateAIMove(board, aiRack, difficulty, isFirstMove)]: [Some None]
    is [null], [None] an exception. *)
Definition generateAIMove (b : Board) (aiRack : list Tile)
    (difficulty : Difficulty) (isFirstMove : bool) (rnd : nat)
    : option (option (list PlacedTile)) :=
  possibleMoves ← (if isFirstMove
                   then firstMoves b (findWordsFromRack aiRack 2 7)
                   else laterMoves b aiRack);
  if bool_decide (length possibleMoves = 0%nat) then Some None
  else
    let sorted := sortByScore possibleMoves in
    Some (fst <$> sorted !! moveIndex difficulty (length possibleMoves) rnd).

(** The state update of [doAiTurn] when [generateAIMove] returned
    [null]. *)
Definition applyAiPass (prev : GameState) : GameState :=
  let newPasses := gs_consecutivePasses prev + 1 in
  let history := gs_moveHistory prev ++ [idleMove SideAi Pass] in
  if bool_decide (newPasses >= 4) then
    let playerDeduction := calculateEndgameDeductions (gs_playerRack prev) in
    let aiDeduction := calculateEndgameDeductions (gs_aiRack prev) in
    let finalPlayerScore := gs_playerScore prev - playerDeduction in
    let finalAiScore := gs_aiScore prev - aiDeduction in
    mkGame (gs_board prev) (gs_playerRack prev) (gs_aiRack prev) (gs_tileBag prev)
      finalPlayerScore finalAiScore SidePlayer history (gs_isFirstMove prev)
      newPasses true (Some (soloWinner finalPlayerScore finalAiScore))
  else
    mkGame (gs_board prev) (gs_playerRack prev) (gs_aiRack prev) (gs_tileBag prev)
      (gs_playerScore prev) (gs_aiScore prev) SidePlayer history
      (gs_isFirstMove prev) newPasses (gs_gameOver prev) (gs_winner prev).

(** [doAiTurn(state)] when its timer fires with the game still in [state]:
    the move is computed from [state] and applied to it. *)
Definition doAiTurn (state : GameState) (difficulty : Difficulty) (rnd : nat)
    : option GameState :=
  aiMove ← generateAIMove (gs_board state) (gs_aiRack state) difficulty
             (gs_isFirstMove state) rnd;
  match aiMove with
  | None => Some (applyAiPass state)
  | Some tiles => applyAiMove state tiles
  end.

(** The cell of round [i] of the innermost loop of
    [tryExtendFromPosition]. *)
Definition extendCell (horizontal : bool) (r0 c0 offset i : Z) : Z * Z :=
  (if horizontal then r0 else r0 + offset + i,
   if horizontal then c0 + offset + i else c0).

(** A rack and a board for a later move of the AI. *)
Definition aiSampleRack : list Tile :=
  [mkTile "a" "T" 1 false; mkTile "b" "O" 1 false; mkTile "c" "" 0 true;
   mkTile "d" "E" 1 false; mkTile "e" "N" 1 false].

Definition aiSampleGame : GameState :=
  mkGame boardWithCat [] aiSampleRack [] 0 0 SideAi [] false 0 false None.

(** * Numbers in a message

    [row] and [col] of a placed tile have the type [number]. The clients send
    integers, and every definition above reads the coordinates as integers;
    a [place_tiles] message can carry any number, [7.5] for one. The code
    compares the coordinates with [===], [<] and [>] and indexes the board
    with them in the first lines of [validatePlacement]; this part reads
    those lines, and the handler in front of them, on numbers. *)

(** A value of type [number]: a finite number, an infinity, or NaN. A
    finite number is a rational in lowest terms; [-0] is [0], which it
    equals under [===] and as a property key. *)
Inductive JsNumber :=
  | Finite (q : Qcanon.Qc)
  | Infinity (negative : bool)
  | NaN.

Definition ofInteger (z : Z) : JsNumber := Finite (Qc_of_Z z).

(** [{ ...tile, row, col }] with its coordinates as numbers. *)
Record JsPlacedTile := mkJsPlaced {
  jtile : Tile;
  jrow : JsNumber;
  jcol : JsNumber
}.

(** [a === b] on numbers: NaN equals nothing, itself included. *)
Definition strictEq (a b : JsNumber) : bool :=
  match a, b with
  | Finite p, Finite q => bool_decide (p = q)
  | Infinity s, Infinity s' => bool_decide (s = s')
  | _, _ => false
  end.

(** [a < k] and [a > k] for an integer [k]; both are false of NaN. *)
Definition lessThan (a : JsNumber) (k : Z) : bool :=
  match a with
  | Finite q => bool_decide (Qcanon.Qclt q (Qc_of_Z k))
  | Infinity negative => negative
  | NaN => false
  end.

Definition greaterThan (a : JsNumber) (k : Z) : bool :=
  match a with
  | Finite q => bool_decide (Qcanon.Qclt (Qc_of_Z k) q)
  | Infinity negative => negb negative
  | NaN => false
  end.

(** The element that [array[a]] names: the property [String(a)] is an
    element of an array only for an integer [a]; any other number reads
    [undefined]. (An integer outside the array reads [undefined] as well,
    which is [getCell]'s [None].) *)
Definition asIndex (a : JsNumber) : option Z :=
  match a with
  | Finite q =>
      if bool_decide (QArith_base.Qden (Qcanon.this q) = 1%positive)
      then Some (QArith_base.Qnum (Qcanon.this q))
      else None
  | _ => None
  end.

(** [board[r][c].tile !== null] with numbers for [r] and [c]: [board[r]] or
    [board[r][c]] is [undefined] unless both are integers of the grid, and
    the next property access throws. *)
Definition occupiedJs (b : Board) (r c : JsNumber) : option bool :=
  r' ← asIndex r; c' ← asIndex c; occupied b r' c'.

(** A placed tile of the model as the message carries it, and back. *)
Definition ofPlaced (t : PlacedTile) : JsPlacedTile :=
  mkJsPlaced (ptile t) (ofInteger (row t)) (ofInteger (col t)).

Definition integerTile (t : JsPlacedTile) : option PlacedTile :=
  r ← asIndex (jrow t); c ← asIndex (jcol t); Some (mkPlaced (jtile t) r c).

(** [placedTiles.every(t => t.row === placedTiles[0].row)] *)
Definition sameRowJs (tiles : list JsPlacedTile) : bool :=
  match tiles with
  | [] => true
  | p0 :: _ => forallb (fun t => strictEq (jrow t) (jrow p0)) tiles
  end.

(** [placedTiles.every(t => t.col === placedTiles[0].col)] *)
Definition sameColJs (tiles : list JsPlacedTile) : bool :=
  match tiles with
  | [] => true
  | p0 :: _ => forallb (fun t => strictEq (jcol t) (jcol p0)) tiles
  end.

(** The loop over the tiles that tests bounds, then occupancy, on
    numbers. *)
Fixpoint checkCellsJs (board : Board) (tiles : list JsPlacedTile)
    : option (option PlacementError) :=
  match tiles with
  | [] => Some None
  | t :: rest =>
      if lessThan (jrow t) 0 || greaterThan (jrow t) 14
         || lessThan (jcol t) 0 || greaterThan (jcol t) 14
      then Some (Some OutOfBounds)
      else
        occ ← occupiedJs board (jrow t) (jcol t);
        if occ : bool then Some (Some CellOccupied) else checkCellsJs board rest
  end.

(** [validatePlacement] on the numbers of the message. Where the loop over
    the tiles ends without a return, every coordinate has indexed the board,
    so it is an integer, and the rest of the function computes with these
    integers: it is the rest of [validatePlacement] above, whose first
    tests, the ones made here, pass again. *)
Definition validatePlacementJs (board : Board) (tiles : list JsPlacedTile)
    (isFirstMove : bool) : option Validation :=
  match tiles with
  | [] => Some (Invalid NoTilesPlaced)
  | _ :: _ =>
      if negb (sameRowJs tiles) && negb (sameColJs tiles)
      then Some (Invalid NotSingleLine)
      else
        cells ← checkCellsJs board tiles;
        match cells with
        | Some e => Some (Invalid e)
        | None =>
            placedTiles ← mapM integerTile tiles;
            validatePlacement board placedTiles isFirstMove
        end
  end.

Section MessagesWithNumbers.

Variable wsOpen : nat -> bool.

(** [case "place_tiles"] on the numbers of the message: the tests in front of
    [validatePlacement] do not look at the coordinates, and an accepted
    placement has integer coordinates. *)
Definition handlePlaceTilesJs (room : GameRoom) (playerId : string)
    (tiles : list JsPlacedTile) : option (GameRoom * list (nat * ServerMsg)) :=
  if negb (started room) || gameOver room then Some (room, [])
  else
    let playerIndex := findIndexById room playerId in
    if bool_decide (playerIndex ≠ currentTurnIndex room) then
      sender ← playerAt room playerIndex;
      Some (room, sendToPlayer wsOpen sender (ErrorMsg "Not your turn"))
    else
      player ← playerAt room playerIndex;
      if bool_decide (length tiles = 0%nat) then
        Some (room, sendToPlayer wsOpen player (ErrorMsg "No tiles placed"))
      else
        let rackIds : gset string := list_to_set (map tid (rack player)) in
        if existsb (fun pt => negb (bool_decide (tid (jtile pt) ∈ rackIds))) tiles
        then Some (room, sendToPlayer wsOpen player (ErrorMsg "Invalid tile"))
        else
          validation ← validatePlacementJs (board room) tiles (isFirstMove room);
          match validation with
          | Invalid e =>
              Some (room, sendToPlayer wsOpen player
                            (MoveRejected (serverErrorText e)))
          | Valid =>
              placedTiles ← mapM integerTile tiles;
              formedWords ← getFormedWords (board room) placedTiles;
              match filter (fun w => isValidWord (word w) = false) formedWords with
              | bad :: _ =>
                  Some (room, sendToPlayer wsOpen player
                          (MoveRejected (dquote +:+ word bad +:+ dquote
                                         +:+ " is not a valid word")))
              | [] => commitMove wsOpen room playerId playerIndex player
                        placedTiles formedWords
              end
          end.

(** The three messages of a game in progress, with numbers for the
    coordinates. *)
Inductive JsClientMsg :=
  | JsPlaceTiles (tiles : list JsPlacedTile)
  | JsPassTurn
  | JsExchangeTiles (tileIds : list string) (draws : list nat).

Definition ofClientMsg (msg : ClientMsg) : JsClientMsg :=
  match msg with
  | PlaceTiles placedTiles => JsPlaceTiles (map ofPlaced placedTiles)
  | PassTurn => JsPassTurn
  | ExchangeTiles tileIds draws => JsExchangeTiles tileIds draws
  end.

Definition handleGameMsgJs (room : GameRoom) (playerId : string)
    (msg : JsClientMsg) : option (GameRoom * list (nat * ServerMsg)) :=
  match msg with
  | JsPlaceTiles tiles => handlePlaceTilesJs room playerId tiles
  | JsPassTurn => handlePassTurn wsOpen room playerId
  | JsExchangeTiles tileIds draws =>
      handleExchangeTiles wsOpen room playerId tileIds draws
  end.

End MessagesWithNumbers.

(** A number passes the bounds test of [validatePlacement] when it is
    neither below 0 nor above 14: a number from 0 to 14, integer or not, or
    NaN. *)
Definition passesBounds (a : JsNumber) : Prop :=
  lessThan a 0 = false ∧ greaterThan a 14 = false.

(** The tile of the message on which the cell loop of [validatePlacement]
    throws: its coordinates pass the bounds test and one of them is not an
    integer, and every tile listed before it has integer coordinates on the
    grid and lies on an empty cell. *)
Definition throwsAtTile (b : Board) (tiles : list JsPlacedTile) (i : nat)
    : Prop :=
  ∃ t, tiles !! i = Some t
       ∧ passesBounds (jrow t) ∧ passesBounds (jcol t)
       ∧ integerTile t = None
       ∧ ∀ j u, (j < i)%nat → tiles !! j = Some u →
           ∃ p, u = ofPlaced p ∧ 0 <= row p <= 14 ∧ 0 <= col p <= 14
                ∧ ¬ occupiedOn b (row p) (col p).

(** A [place_tiles] message that gets as far as [validatePlacement]: the
    game is running, the sender is the player to move, the message names at
    least one tile, and every tile it names has the id of a tile of the
    sender's rack. *)
Definition reachesValidation (room : GameRoom) (playerId : string)
    (tiles : list JsPlacedTile) : Prop :=
  started room = true ∧ gameOver room = false
  ∧ findIndexById room playerId = currentTurnIndex room
  ∧ tiles ≠ []
  ∧ ∃ player, playerAt room (findIndexById room playerId) = Some player
              ∧ Forall (fun t => tid (jtile t) ∈ map tid (rack player)) tiles.

(** Ann's first move with her tile ["t2"] on row 7.5. *)
Definition halfwayTiles : list JsPlacedTile :=
  [mkJsPlaced (mkTile "t2" "A" 1 false)
     (Finite (Qcanon.Q2Qc (QArith_base.Qmake 15 2))) (ofInteger 7);
   mkJsPlaced (mkTile "t3" "A" 1 false)
     (Finite (Qcanon.Q2Qc (QArith_base.Qmake 15 2))) (ofInteger 8)].

(** * A seat that is free again *)

(** The room that Ann created and Bob joined, after Ann's connection has
    closed. *)
Definition leftRoom : GameRoom := (handleClose allOpen openingRoom "t1").1.1.

(** * Orders of a placement *)





(** * Properties *)

(** ** Premium layout *)

Lemma premium_keys_on_grid (r c : Z) (k : PremiumType) :
  PREMIUM_MAP !! (r, c) = Some k → (r, c) ∈ allCells.
Proof.
  intros Hk. apply elem_of_map_to_list in Hk.
  assert (Hall : forallb (fun kv => bool_decide (kv.1 ∈ allCells))
                   (map_to_list PREMIUM_MAP) = true) by (vm_compute; reflexivity).
  rewrite forallb_forall in Hall.
  apply list_elem_of_In, Hall in Hk. by apply bool_decide_eq_true in Hk.
Qed.

(** ** Board reads *)

Lemma getCell_wf (b : Board) (r c : Z) :
  wf_board b → 0 <= r < 15 → 0 <= c < 15 → is_Some (getCell b r c).
Proof.
  intros [Hlen Hrows] Hr Hc. unfold getCell.
  rewrite !bool_decide_eq_true_2 by lia. simpl.
  destruct (lookup_lt_is_Some_2 b (Z.to_nat r)) as [line Hline]; [lia|].
  rewrite Hline. simpl.
  apply lookup_lt_is_Some_2.
  rewrite Forall_forall in Hrows.
  rewrite (Hrows line) by (eapply list_elem_of_lookup_2; eauto). lia.
Qed.

Lemma getCell_Some_range (b : Board) (r c : Z) (cell : BoardCell) :
  wf_board b → getCell b r c = Some cell → 0 <= r < 15 ∧ 0 <= c < 15.
Proof.
  intros [Hlen Hrows] H. unfold getCell in H.
  destruct (bool_decide (0 <= r)) eqn:Hr; [|done].
  destruct (bool_decide (0 <= c)) eqn:Hc; [|done].
  apply bool_decide_eq_true in Hr. apply bool_decide_eq_true in Hc. simpl in H.
  destruct (b !! Z.to_nat r) as [line|] eqn:Hline; [|done]. simpl in H.
  rewrite Forall_forall in Hrows.
  pose proof (Hrows line (list_elem_of_lookup_2 _ _ _ Hline)) as Hl.
  apply lookup_lt_Some in Hline. apply lookup_lt_Some in H. lia.
Qed.

Lemma occupied_wf (b : Board) (r c : Z) :
  wf_board b → 0 <= r < 15 → 0 <= c < 15 → is_Some (occupied b r c).
Proof.
  intros Hwf Hr Hc. unfold occupied.
  destruct (getCell_wf b r c Hwf Hr Hc) as [cell ->]. by eexists.
Qed.

Lemma occupied_true (b : Board) (r c : Z) :
  occupied b r c = Some true ↔ occupiedOn b r c.
Proof.
  unfold occupied, occupiedOn. split.
  - destruct (getCell b r c) as [cell|]; [|done]. simpl. intros [= H].
    apply bool_decide_eq_true in H as [t Ht]. by exists cell, t.
  - intros (cell & t & -> & Ht). simpl. f_equal.
    apply bool_decide_eq_true. by exists t.
Qed.

Lemma occupied_false (b : Board) (r c : Z) :
  occupied b r c = Some false → ¬ occupiedOn b r c.
Proof. intros H Hocc. apply occupied_true in Hocc. congruence. Qed.

Lemma occupied_cases (b : Board) (r c : Z) :
  wf_board b → 0 <= r < 15 → 0 <= c < 15 →
  (occupied b r c = Some true ∧ occupiedOn b r c)
  ∨ (occupied b r c = Some false ∧ ¬ occupiedOn b r c).
Proof.
  intros Hwf Hr Hc. destruct (occupied_wf b r c Hwf Hr Hc) as [[|] H].
  - left. split; [done|]. by apply occupied_true.
  - right. split; [done|]. by apply occupied_false.
Qed.

Lemma createEmptyBoard_cell (r c : Z) :
  (r, c) ∈ allCells →
  getCell createEmptyBoard r c = Some (mkCell None (getPremiumType r c)).
Proof.
  intros Hin.
  assert (Hall : forallb (fun rc => bool_decide
              (getCell createEmptyBoard rc.1 rc.2
               = Some (mkCell None (getPremiumType rc.1 rc.2)))) allCells = true)
    by (vm_compute; reflexivity).
  rewrite forallb_forall in Hall.
  apply list_elem_of_In, Hall in Hin. by apply bool_decide_eq_true in Hin.
Qed.

Lemma elem_of_grid_index (x : Z) :
  x ∈ map Z.of_nat (seq 0 15) ↔ 0 <= x < 15.
Proof.
  rewrite list_elem_of_In, in_map_iff. split.
  - intros (i & <- & Hi). apply in_seq in Hi. lia.
  - intros Hx. exists (Z.to_nat x). split; [lia|]. apply in_seq. lia.
Qed.

Lemma allCells_spec (r c : Z) :
  (r, c) ∈ allCells ↔ 0 <= r < 15 ∧ 0 <= c < 15.
Proof.
  unfold allCells. rewrite list_elem_of_bind. split.
  - intros (r' & Hc & Hr). apply list_elem_of_bind in Hc as (c' & Heq & Hc).
    apply list_elem_of_singleton in Heq. simplify_eq.
    apply elem_of_grid_index in Hr, Hc. done.
  - intros [Hr Hc]. exists r. split; [|by apply elem_of_grid_index].
    apply list_elem_of_bind. exists c.
    split; [by apply list_elem_of_singleton|by apply elem_of_grid_index].
Qed.

Lemma createEmptyBoard_wf : wf_board createEmptyBoard.
Proof. split; [reflexivity|]. repeat constructor. Qed.

Lemma createEmptyBoard_free (r c : Z) : ¬ occupiedOn createEmptyBoard r c.
Proof.
  intros (cell & t & Hcell & Ht).
  pose proof (getCell_Some_range _ _ _ _ createEmptyBoard_wf Hcell) as Hrange.
  apply allCells_spec, createEmptyBoard_cell in Hrange.
  rewrite Hrange in Hcell. by simplify_eq.
Qed.

(** C3, as the claim states it: the count of double-word cells is not 17.
    The literal list [DW] has 16 coordinates and the center is a kind of its
    own, so the conjunction of the claimed counts fails. *)
Lemma premium_layout_claimed_counts_fail :
  ¬ (countPremium TW = 8%nat ∧ countPremium DW = 17%nat
     ∧ countPremium TL = 12%nat ∧ countPremium DL = 24%nat
     ∧ getPremiumType 7 7 = CENTER).
Proof.
  intros (_ & Hdw & _). vm_compute in Hdw. discriminate.
Qed.

(** C3, amended: the lookup built by [initPremiumMap] gives exactly 8
    triple-word cells, 16 double-word cells, 12 triple-letter cells, 24
    double-letter cells and one center cell, which is (7,7); the 164 other
    cells of the grid and every coordinate off the grid have no premium; the
    cells that double a word, center included, are 17; and the board made by
    [createEmptyBoard] carries this classification on empty cells. *)
Theorem premium_layout_counts :
  countPremium TW = 8%nat ∧ countPremium DW = 16%nat
  ∧ countPremium TL = 12%nat ∧ countPremium DL = 24%nat
  ∧ countPremium CENTER = 1%nat ∧ getPremiumType 7 7 = CENTER
  ∧ countPremium PNone = 164%nat
  ∧ length (filter (fun rc => getPremiumType rc.1 rc.2 = DW
                              ∨ getPremiumType rc.1 rc.2 = CENTER) allCells) = 17%nat
  ∧ (∀ r c, (r, c) ∉ allCells → getPremiumType r c = PNone)
  ∧ (∀ r c, (r, c) ∈ allCells →
       getCell createEmptyBoard r c = Some (mkCell None (getPremiumType r c))).
Proof.
  repeat split; try (vm_compute; reflexivity).
  - intros r c Hout. unfold getPremiumType.
    destruct (PREMIUM_MAP !! (r, c)) as [k|] eqn:Hk; [|done].
    by apply premium_keys_on_grid in Hk.
  - apply createEmptyBoard_cell.
Qed.

(** ** The span of a placement *)

Lemma foldr_min_spec (d : Z) (xs : list Z) :
  (foldr Z.min d xs = d ∨ foldr Z.min d xs ∈ xs)
  ∧ foldr Z.min d xs <= d ∧ ∀ x, x ∈ xs → foldr Z.min d xs <= x.
Proof.
  induction xs as [|a xs (Hin & Hd & Hall)]; simpl.
  - split; [by left|]. split; [lia|]. intros x Hx. by apply elem_of_nil in Hx.
  - split; [|split].
    + destruct (Z.min_spec a (foldr Z.min d xs)) as [[_ ->]|[_ ->]].
      * right. left.
      * destruct Hin as [->|Hin]; [by left|]. right. by right.
    + lia.
    + intros x [->|Hx]%elem_of_cons; [lia|]. specialize (Hall x Hx). lia.
Qed.

Lemma foldr_max_spec (d : Z) (xs : list Z) :
  (foldr Z.max d xs = d ∨ foldr Z.max d xs ∈ xs)
  ∧ d <= foldr Z.max d xs ∧ ∀ x, x ∈ xs → x <= foldr Z.max d xs.
Proof.
  induction xs as [|a xs (Hin & Hd & Hall)]; simpl.
  - split; [by left|]. split; [lia|]. intros x Hx. by apply elem_of_nil in Hx.
  - split; [|split].
    + destruct (Z.max_spec a (foldr Z.max d xs)) as [[_ ->]|[_ ->]].
      * destruct Hin as [->|Hin]; [by left|]. right. by right.
      * right. left.
    + lia.
    + intros x [->|Hx]%elem_of_cons; [lia|]. specialize (Hall x Hx). lia.
Qed.

Lemma spanMin_spec (xs : list Z) :
  xs ≠ [] → spanMin xs ∈ xs ∧ ∀ x, x ∈ xs → spanMin xs <= x.
Proof.
  destruct xs as [|a xs]; [done|]. intros _. unfold spanMin.
  destruct (foldr_min_spec a (a :: xs)) as ([Heq|Hin] & _ & Hall).
  - split; [|done]. simpl head. simpl default. rewrite Heq. left.
  - done.
Qed.

Lemma spanMax_spec (xs : list Z) :
  xs ≠ [] → spanMax xs ∈ xs ∧ ∀ x, x ∈ xs → x <= spanMax xs.
Proof.
  destruct xs as [|a xs]; [done|]. intros _. unfold spanMax.
  destruct (foldr_max_spec a (a :: xs)) as ([Heq|Hin] & _ & Hall).
  - split; [|done]. simpl head. simpl default. rewrite Heq. left.
  - done.
Qed.

Lemma sorted_head_least (xs : list Z) (h : Z) :
  StronglySorted Z.le xs → head xs = Some h → ∀ x, x ∈ xs → h <= x.
Proof.
  intros Hs Hh x Hx. destruct xs as [|a xs]; [done|]. simplify_eq/=.
  apply StronglySorted_inv in Hs as [_ Hall].
  apply elem_of_cons in Hx as [->|Hx]; [lia|].
  rewrite Forall_forall in Hall. by apply Hall.
Qed.

Lemma sorted_last_greatest (xs : list Z) (m : Z) :
  StronglySorted Z.le xs → last xs = Some m → ∀ x, x ∈ xs → x <= m.
Proof.
  induction xs as [|a xs IH]; [done|]. intros Hs Hm x Hx.
  apply StronglySorted_inv in Hs as [Hs Hall].
  destruct xs as [|b xs].
  - simplify_eq/=. apply list_elem_of_singleton in Hx. lia.
  - rewrite last_cons_cons in Hm.
    apply elem_of_cons in Hx as [->|Hx]; [|by apply IH].
    rewrite Forall_forall in Hall.
    apply Hall. eapply last_Some_elem_of. done.
Qed.

Lemma sortNumeric_ends (xs : list Z) :
  xs ≠ [] →
  head (sortNumeric xs) = Some (spanMin xs)
  ∧ last (sortNumeric xs) = Some (spanMax xs).
Proof.
  intros Hne. unfold sortNumeric.
  pose proof (merge_sort_Permutation Z.le xs) as Hperm.
  pose proof (StronglySorted_merge_sort Z.le xs) as Hsorted.
  destruct (spanMin_spec xs Hne) as [Hmin_in Hmin].
  destruct (spanMax_spec xs Hne) as [Hmax_in Hmax].
  set (s := merge_sort Z.le xs) in *.
  assert (Hs_ne : s ≠ []).
  { intros E. rewrite E in Hperm. apply Hne. by apply Permutation_nil. }
  split.
  - destruct (head s) as [h|] eqn:Hh.
    + f_equal. apply Z.le_antisymm.
      * apply (sorted_head_least s h Hsorted Hh). by rewrite Hperm.
      * apply Hmin. rewrite <- Hperm. by apply head_Some_elem_of.
    + apply head_None in Hh. done.
  - destruct (last s) as [m|] eqn:Hm.
    + f_equal. apply Z.le_antisymm.
      * apply Hmax. rewrite <- Hperm. by apply last_Some_elem_of.
      * apply (sorted_last_greatest s m Hsorted Hm). by rewrite Hperm.
    + apply last_None in Hm. done.
Qed.

(** ** The checks of [validatePlacement] *)

Lemma sameRowOf_spec (p0 : PlacedTile) (rest : list PlacedTile) :
  sameRowOf (p0 :: rest) = true ↔ allInRow (p0 :: rest) (row p0).
Proof.
  unfold sameRowOf, allInRow. rewrite forallb_forall. split.
  - intros H t Ht. apply list_elem_of_In, H in Ht.
    by apply bool_decide_eq_true in Ht.
  - intros H t Ht. apply bool_decide_eq_true, H. by apply list_elem_of_In.
Qed.

Lemma sameColOf_spec (p0 : PlacedTile) (rest : list PlacedTile) :
  sameColOf (p0 :: rest) = true ↔ allInCol (p0 :: rest) (col p0).
Proof.
  unfold sameColOf, allInCol. rewrite forallb_forall. split.
  - intros H t Ht. apply list_elem_of_In, H in Ht.
    by apply bool_decide_eq_true in Ht.
  - intros H t Ht. apply bool_decide_eq_true, H. by apply list_elem_of_In.
Qed.

Lemma existsb_placed_col (placedTiles : list PlacedTile) (c : Z) :
  existsb (fun t => bool_decide (col t = c)) placedTiles = true
  ↔ ∃ t, t ∈ placedTiles ∧ col t = c.
Proof.
  rewrite existsb_exists. split.
  - intros (t & Ht & Hc). exists t. split; [by apply list_elem_of_In|].
    by apply bool_decide_eq_true in Hc.
  - intros (t & Ht & Hc). exists t. split; [by apply list_elem_of_In|].
    by apply bool_decide_eq_true.
Qed.

Lemma existsb_placed_row (placedTiles : list PlacedTile) (r : Z) :
  existsb (fun t => bool_decide (row t = r)) placedTiles = true
  ↔ ∃ t, t ∈ placedTiles ∧ row t = r.
Proof.
  rewrite existsb_exists. split.
  - intros (t & Ht & Hc). exists t. split; [by apply list_elem_of_In|].
    by apply bool_decide_eq_true in Hc.
  - intros (t & Ht & Hc). exists t. split; [by apply list_elem_of_In|].
    by apply bool_decide_eq_true.
Qed.

(** The cell loop succeeds exactly on tiles that are on the grid and on
    empty cells. *)
Lemma checkCells_pass (b : Board) (placedTiles : list PlacedTile) :
  wf_board b →
  (∀ t, t ∈ placedTiles →
     0 <= row t <= 14 ∧ 0 <= col t <= 14 ∧ ¬ occupiedOn b (row t) (col t)) →
  checkCells b placedTiles = Some None.
Proof.
  intros Hwf. induction placedTiles as [|t rest IH]; [done|].
  intros H. simpl.
  destruct (H t) as (Hr & Hc & Hfree); [left|].
  rewrite !bool_decide_eq_false_2 by lia. simpl.
  destruct (occupied_cases b (row t) (col t) Hwf) as [[_ Hocc]|[-> _]];
    [lia|lia|done|].
  simpl. apply IH. intros t' Ht'. apply H. by right.
Qed.

Lemma checkCells_inv (b : Board) (placedTiles : list PlacedTile) :
  checkCells b placedTiles = Some None →
  ∀ t, t ∈ placedTiles →
    0 <= row t <= 14 ∧ 0 <= col t <= 14 ∧ ¬ occupiedOn b (row t) (col t).
Proof.
  induction placedTiles as [|t rest IH]; intros H t' Ht'.
  - by apply elem_of_nil in Ht'.
  - simpl in H.
    destruct (bool_decide (row t < 0)) eqn:E1; [done|].
    destruct (bool_decide (row t > 14)) eqn:E2; [done|].
    destruct (bool_decide (col t < 0)) eqn:E3; [done|].
    destruct (bool_decide (col t > 14)) eqn:E4; [done|].
    simpl in H.
    destruct (occupied b (row t) (col t)) as [[|]|] eqn:Hocc; try done.
    simpl in H.
    apply elem_of_cons in Ht' as [->|Ht']; [|by apply IH].
    apply bool_decide_eq_false in E1, E2, E3, E4.
    repeat split; try lia. by apply occupied_false.
Qed.

Lemma touchesAny_spec (b : Board) (adj : list (Z * Z)) :
  wf_board b →
  ∃ bo, touchesAny b adj = Some bo
        ∧ (bo = true ↔ ∃ nr nc, (nr, nc) ∈ adj ∧ occupiedOn b nr nc).
Proof.
  intros Hwf. induction adj as [|[nr nc] rest (bo & Hbo & Hiff)].
  - exists false. split; [done|]. split; [done|].
    intros (nr & nc & Hin & _). by apply elem_of_nil in Hin.
  - simpl.
    destruct (decide (0 <= nr < 15 ∧ 0 <= nc < 15)) as [[Hr Hc]|Hout].
    + rewrite !bool_decide_eq_true_2 by lia. simpl.
      destruct (occupied_cases b nr nc Hwf Hr Hc) as [[-> Hocc]|[-> Hfree]]; simpl.
      * exists true. split; [done|]. split; [|done]. intros _.
        exists nr, nc. split; [left|done].
      * exists bo. split; [done|]. rewrite Hiff. split.
        -- intros (r' & c' & Hin & Hocc). exists r', c'. split; [by right|done].
        -- intros (r' & c' & [Heq|Hin]%elem_of_cons & Hocc).
           ++ simplify_eq. done.
           ++ by exists r', c'.
    + assert (bool_decide (nr >= 0) && bool_decide (nr < 15)
              && bool_decide (nc >= 0) && bool_decide (nc < 15) = false) as ->.
      { apply not_true_is_false. intros Ht.
        repeat (apply andb_prop in Ht as [Ht ?]).
        repeat match goal with
               | H : bool_decide _ = true |- _ => apply bool_decide_eq_true in H
               end.
        apply Hout. lia. }
      exists bo. split; [done|]. rewrite Hiff. split.
      * intros (r' & c' & Hin & Hocc). exists r', c'. split; [by right|done].
      * intros (r' & c' & [Heq|Hin]%elem_of_cons & Hocc).
        -- simplify_eq. destruct Hocc as (cell & t & Hcell & _).
           apply (getCell_Some_range b) in Hcell; [|done]. exfalso. apply Hout. lia.
        -- by exists r', c'.
Qed.

Lemma touchesExisting_spec (b : Board) (placedTiles : list PlacedTile) :
  wf_board b →
  ∃ bo, touchesExisting b placedTiles = Some bo
        ∧ (bo = true ↔ ∃ t nr nc, t ∈ placedTiles ∧ (nr, nc) ∈ neighbours t
                                  ∧ occupiedOn b nr nc).
Proof.
  intros Hwf. induction placedTiles as [|t rest (bo & Hbo & Hiff)].
  - exists false. split; [done|]. split; [done|].
    intros (t & nr & nc & Hin & _). by apply elem_of_nil in Hin.
  - cbn [touchesExisting].
    destruct (touchesAny_spec b (neighbours t) Hwf) as (bt & -> & Ht).
    simpl. destruct bt.
    + exists true. split; [done|]. split; [|done]. intros _.
      destruct Ht as [Ht _]. destruct (Ht eq_refl) as (nr & nc & Hin & Hocc).
      exists t, nr, nc. split; [left|done].
    + exists bo. split; [done|]. rewrite Hiff. split.
      * intros (t' & nr & nc & Hin & Hrest). exists t', nr, nc. split; [by right|done].
      * intros (t' & nr & nc & [->|Hin]%elem_of_cons & Hadj & Hocc).
        -- destruct Ht as [_ Ht]. discriminate Ht. by exists nr, nc.
        -- by exists t', nr, nc.
Qed.

(** The scan answers [true] exactly when one of its [n] positions is neither
    placed nor occupied. *)
Lemma gapScan_spec (n : nat) (placedAt : Z → bool) (occAt : Z → option bool)
    (k : Z) :
  (∀ j, k <= j < k + Z.of_nat n → placedAt j = false → is_Some (occAt j)) →
  ∃ bo, gapScan n placedAt occAt k = Some bo
        ∧ (bo = true ↔ ∃ j, k <= j < k + Z.of_nat n
                            ∧ placedAt j = false ∧ occAt j = Some false).
Proof.
  revert k. induction n as [|n IH]; intros k Hread.
  - exists false. split; [done|]. split; [done|]. intros (j & Hj & _). lia.
  - destruct (IH (k + 1)) as (bo & Hbo & Hiff).
    { intros j Hj. apply Hread. lia. }
    cbn [gapScan]. destruct (placedAt k) eqn:Hp.
    + exists bo. split; [done|]. rewrite Hiff. split.
      * intros (j & Hj & Hrest). exists j. split; [lia|done].
      * intros (j & Hj & Hpj & Hoj). exists j. split; [|done].
        destruct (decide (j = k)) as [->|]; [congruence|lia].
    + destruct (Hread k) as [o Ho]; [lia|done|]. rewrite Ho. simpl.
      destruct o.
      * exists bo. split; [done|]. rewrite Hiff. split.
        -- intros (j & Hj & Hrest). exists j. split; [lia|done].
        -- intros (j & Hj & Hpj & Hoj). exists j. split; [|done].
           destruct (decide (j = k)) as [->|]; [congruence|lia].
      * exists true. split; [done|]. split; [|done]. intros _.
        exists k. split; [lia|done].
Qed.

Lemma gapSpan_spec (coords : list Z) (placedAt : Z → bool)
    (occAt : Z → option bool) :
  coords ≠ [] →
  (∀ j, spanMin coords <= j <= spanMax coords →
        placedAt j = false → is_Some (occAt j)) →
  ∃ bo, gapSpan coords placedAt occAt = Some bo
        ∧ (bo = true ↔ ∃ j, spanMin coords <= j <= spanMax coords
                            ∧ placedAt j = false ∧ occAt j = Some false).
Proof.
  intros Hne Hread. unfold gapSpan.
  destruct (sortNumeric_ends coords Hne) as [-> ->]. simpl default.
  destruct (spanMin_spec coords Hne) as [Hin Hmin].
  destruct (spanMax_spec coords Hne) as [_ Hmax].
  pose proof (Hmax _ Hin) as Hle.
  set (lo := spanMin coords) in *. set (hi := spanMax coords) in *.
  destruct (gapScan_spec (Z.to_nat (hi - lo + 1)) placedAt occAt lo)
    as (bo & Hbo & Hiff).
  { intros j Hj. apply Hread. lia. }
  exists bo. split; [done|]. rewrite Hiff.
  split; intros (j & Hj & Hrest); exists j; (split; [lia|done]).
Qed.

Lemma allInRow_first (p0 : PlacedTile) (rest : list PlacedTile) (r : Z) :
  allInRow (p0 :: rest) r → r = row p0.
Proof. intros H. symmetry. apply H. left. Qed.

Lemma allInCol_first (p0 : PlacedTile) (rest : list PlacedTile) (c : Z) :
  allInCol (p0 :: rest) c → c = col p0.
Proof. intros H. symmetry. apply H. left. Qed.

Lemma span_of_row (placedTiles : list PlacedTile) (r x : Z) :
  placedTiles ≠ [] → allInRow placedTiles r →
  spanMin (map row placedTiles) <= x <= spanMax (map row placedTiles) → x = r.
Proof.
  intros Hne Hrow Hx.
  assert (Hne' : map row placedTiles ≠ []) by (by destruct placedTiles).
  destruct (spanMin_spec _ Hne') as [Hlo _].
  destruct (spanMax_spec _ Hne') as [Hhi _].
  apply list_elem_of_In, in_map_iff in Hlo as (t1 & E1 & H1).
  apply list_elem_of_In, in_map_iff in Hhi as (t2 & E2 & H2).
  apply list_elem_of_In, Hrow in H1. apply list_elem_of_In, Hrow in H2. lia.
Qed.

Lemma span_of_col (placedTiles : list PlacedTile) (c x : Z) :
  placedTiles ≠ [] → allInCol placedTiles c →
  spanMin (map col placedTiles) <= x <= spanMax (map col placedTiles) → x = c.
Proof.
  intros Hne Hcol Hx.
  assert (Hne' : map col placedTiles ≠ []) by (by destruct placedTiles).
  destruct (spanMin_spec _ Hne') as [Hlo _].
  destruct (spanMax_spec _ Hne') as [Hhi _].
  apply list_elem_of_In, in_map_iff in Hlo as (t1 & E1 & H1).
  apply list_elem_of_In, in_map_iff in Hhi as (t2 & E2 & H2).
  apply list_elem_of_In, Hcol in H1. apply list_elem_of_In, Hcol in H2. lia.
Qed.

Lemma span_in_bounds (placedTiles : list PlacedTile) (f : PlacedTile → Z) (x : Z) :
  placedTiles ≠ [] →
  (∀ t, t ∈ placedTiles → 0 <= f t <= 14) →
  spanMin (map f placedTiles) <= x <= spanMax (map f placedTiles) → 0 <= x < 15.
Proof.
  intros Hne Hb Hx.
  assert (Hne' : map f placedTiles ≠ []) by (by destruct placedTiles).
  destruct (spanMin_spec _ Hne') as [Hlo _].
  destruct (spanMax_spec _ Hne') as [Hhi _].
  apply list_elem_of_In, in_map_iff in Hlo as (t1 & E1 & H1).
  apply list_elem_of_In, in_map_iff in Hhi as (t2 & E2 & H2).
  apply list_elem_of_In, Hb in H1. apply list_elem_of_In, Hb in H2. lia.
Qed.

(** What [validatePlacement] computes once the earlier rules pass: the gap
    scan alone decides. *)
Lemma validatePlacement_after_rules (b : Board) (placedTiles : list PlacedTile)
    (isFirstMove : bool) :
  wf_board b → passesEarlierRules b placedTiles isFirstMove →
  ∃ gap : bool,
    validatePlacement b placedTiles isFirstMove
    = Some (if gap then Invalid GapsInPlacement else Valid)
    ∧ (gap = true ↔ hasGap b placedTiles).
Proof.
  intros Hwf (Hne & Hline & Hcells & Hmove).
  destruct placedTiles as [|p0 rest]; [done|].
  unfold validatePlacement.
  set (pts := p0 :: rest) in *.
  assert (Hrows : ∀ t, t ∈ pts → 0 <= row t <= 14) by (intros t Ht; by apply Hcells).
  assert (Hcols : ∀ t, t ∈ pts → 0 <= col t <= 14) by (intros t Ht; by apply Hcells).
  assert (Hp0 : p0 ∈ pts) by left.
  assert (Hnotline : negb (sameRowOf pts) && negb (sameColOf pts) = false).
  { destruct Hline as [[r Hr]|[c Hc]].
    - pose proof (allInRow_first _ _ _ Hr) as ->.
      apply sameRowOf_spec in Hr. fold pts in Hr. by rewrite Hr.
    - pose proof (allInCol_first _ _ _ Hc) as ->.
      apply sameColOf_spec in Hc. fold pts in Hc. rewrite Hc. apply andb_false_r. }
  rewrite Hnotline, (checkCells_pass b pts Hwf Hcells). cbn [mbind option_bind].
  assert (Hfirst :
    (isFirstMove && negb (existsb (fun t => bool_decide (row t = 7)
                                            && bool_decide (col t = 7)) pts) = false)
    ∧ (isFirstMove && bool_decide (length pts < 2)%nat = false)
    ∧ (if isFirstMove then Some true else touchesExisting b pts) = Some true).
  { destruct isFirstMove; rewrite ?andb_true_l, ?andb_false_l.
    - destruct Hmove as [(t & Ht & Hr & Hc) Hlen]. split; [|split; [|done]].
      + apply negb_false_iff, existsb_exists. exists t.
        split; [by apply list_elem_of_In|]. by rewrite !bool_decide_eq_true_2.
      + apply bool_decide_eq_false. lia.
    - split; [done|]. split; [done|].
      destruct (touchesExisting_spec b pts Hwf) as (bo & -> & Hbo).
      f_equal. by apply Hbo. }
  destruct Hfirst as (-> & -> & ->). cbn [mbind option_bind negb].
  destruct (sameRowOf pts) eqn:Hsame.
  - (* the tiles lie in one row: the scan runs along the columns *)
    apply sameRowOf_spec in Hsame. fold pts in Hsame.
    destruct (gapSpan_spec (map col pts)
                (fun c => existsb (fun t => bool_decide (col t = c)) pts)
                (fun c => occupied b (row p0) c)) as (gap & -> & Hgap); [done| |].
    { intros j Hj _. apply occupied_wf; [done|specialize (Hrows p0 Hp0); lia|].
      by apply (span_in_bounds pts col). }
    exists gap. split; [by destruct gap|]. rewrite Hgap. split.
    + intros (j & Hj & Hnot & Hfree). exists (row p0), j. split; [by left|]. split.
      * intros (t & Ht & _ & Hc).
        apply not_true_iff_false in Hnot. apply Hnot, existsb_placed_col. eauto.
      * by apply occupied_false.
    + intros (r & c & [[Hrow Hc]|[Hcol Hr]] & Hnp & Hfree).
      * pose proof (allInRow_first _ _ _ Hrow) as ->. exists c. split; [done|]. split.
        -- apply not_true_iff_false. intros (t & Ht & Htc)%existsb_placed_col.
           apply Hnp. exists t. split; [done|]. split; [by apply Hsame|done].
        -- destruct (occupied_cases b (row p0) c Hwf) as [[_ Hocc]|[Ho _]]; try done.
           ++ specialize (Hrows p0 Hp0). lia.
           ++ by apply (span_in_bounds pts col).
      * exfalso. apply Hnp. exists p0. split; [done|].
        pose proof (allInCol_first _ _ _ Hcol) as ->.
        by rewrite (span_of_row pts (row p0) r).
  - (* otherwise they lie in one column: the scan runs along the rows *)
    assert (Hcol : allInCol pts (col p0)).
    { apply sameColOf_spec. simpl in Hnotline.
      by apply negb_false_iff in Hnotline. }
    assert (Hnorow : ∀ r, ¬ allInRow pts r).
    { intros r Hr. pose proof (allInRow_first _ _ _ Hr) as ->.
      apply sameRowOf_spec in Hr. fold pts in Hr. congruence. }
    destruct (gapSpan_spec (map row pts)
                (fun r => existsb (fun t => bool_decide (row t = r)) pts)
                (fun r => occupied b r (col p0))) as (gap & -> & Hgap); [done| |].
    { intros j Hj _. apply occupied_wf; [done| |specialize (Hcols p0 Hp0); lia].
      by apply (span_in_bounds pts row). }
    exists gap. split; [by destruct gap|]. rewrite Hgap. split.
    + intros (j & Hj & Hnot & Hfree). exists j, (col p0). split; [by right|]. split.
      * intros (t & Ht & Hr & _).
        apply not_true_iff_false in Hnot. apply Hnot, existsb_placed_row. eauto.
      * by apply occupied_false.
    + intros (r & c & [[Hrow _]|[Hcol' Hr]] & Hnp & Hfree); [by apply Hnorow in Hrow|].
      pose proof (allInCol_first _ _ _ Hcol') as ->. exists r. split; [done|]. split.
      * apply not_true_iff_false. intros (t & Ht & Htr)%existsb_placed_row.
        apply Hnp. exists t. split; [done|]. split; [done|by apply Hcol].
      * destruct (occupied_cases b r (col p0) Hwf) as [[_ Hocc]|[Ho _]]; try done.
        -- by apply (span_in_bounds pts row).
        -- specialize (Hcols p0 Hp0). lia.
Qed.

(** C4: for a board and a placement that passes the rules tested before the
    gap rule, [validatePlacement] reports the gap error if and only if some
    cell of the span between the least and the greatest coordinate along the
    placement axis is neither newly placed nor occupied; when there is no such
    cell the placement is valid. *)
Theorem gap_error_iff_gap_in_span (b : Board) (placedTiles : list PlacedTile)
    (isFirstMove : bool) :
  wf_board b → passesEarlierRules b placedTiles isFirstMove →
  (validatePlacement b placedTiles isFirstMove = Some (Invalid GapsInPlacement)
   ↔ hasGap b placedTiles)
  ∧ (validatePlacement b placedTiles isFirstMove = Some Valid
     ↔ ¬ hasGap b placedTiles).
Proof.
  intros Hwf Hrules.
  destruct (validatePlacement_after_rules b placedTiles isFirstMove Hwf Hrules)
    as (gap & -> & Hgap).
  destruct gap; split; split; try done.
  - intros _. by apply Hgap.
  - intros Hno. exfalso. apply Hno. by apply Hgap.
  - intros Hg. apply Hgap in Hg. done.
  - intros _ Hg. apply Hgap in Hg. done.
Qed.

Lemma spacedPair_passes : passesEarlierRules createEmptyBoard spacedPair true.
Proof.
  split; [done|]. split; [|split].
  - left. exists 7. intros t Ht.
    repeat (apply elem_of_cons in Ht as [->|Ht]; [done|]). by apply elem_of_nil in Ht.
  - intros t Ht. split; [|split; [|apply createEmptyBoard_free]];
      repeat (apply elem_of_cons in Ht as [->|Ht]; [simpl; lia|]);
      by apply elem_of_nil in Ht.
  - split; [|simpl; lia]. eexists. split; [left|done].
Qed.

(** Instance of C4 on the empty board: the tiles at (7,7) and (7,9) of a
    first move leave (7,8) empty. *)
Lemma gap_error_iff_gap_in_span_witness :
  wf_board createEmptyBoard
  ∧ passesEarlierRules createEmptyBoard spacedPair true
  ∧ ((validatePlacement createEmptyBoard spacedPair true
      = Some (Invalid GapsInPlacement) ↔ hasGap createEmptyBoard spacedPair)
     ∧ (validatePlacement createEmptyBoard spacedPair true = Some Valid
        ↔ ¬ hasGap createEmptyBoard spacedPair)).
Proof.
  split; [apply createEmptyBoard_wf|]. split; [apply spacedPair_passes|].
  apply (gap_error_iff_gap_in_span createEmptyBoard spacedPair true).
  - apply createEmptyBoard_wf.
  - apply spacedPair_passes.
Defined.

(** ** Accepted placements lie on a line *)

Lemma accepted_on_a_line (b : Board) (placedTiles : list PlacedTile)
    (isFirstMove : bool) :
  validatePlacement b placedTiles isFirstMove = Some Valid →
  (∃ r, allInRow placedTiles r) ∨ (∃ c, allInCol placedTiles c).
Proof.
  destruct placedTiles as [|p0 rest]; [done|]. unfold validatePlacement.
  destruct (sameRowOf (p0 :: rest)) eqn:Hr.
  - intros _. left. exists (row p0). by apply sameRowOf_spec.
  - destruct (sameColOf (p0 :: rest)) eqn:Hc; [|done].
    intros _. right. exists (col p0). by apply sameColOf_spec.
Qed.

(** Tiles on pairwise distinct cells cannot share both a row and a column
    once there are two of them. *)
Lemma distinct_cells_one_axis (placedTiles : list PlacedTile) (r c : Z) :
  NoDup (map (fun t => (row t, col t)) placedTiles) →
  (2 <= length placedTiles)%nat →
  ¬ (allInRow placedTiles r ∧ allInCol placedTiles c).
Proof.
  destruct placedTiles as [|p0 [|p1 rest]]; simpl; [lia|lia|].
  intros Hnd _ [Hr Hc]. apply NoDup_cons in Hnd as [Hnot _].
  apply Hnot.
  assert (Hp0 : p0 ∈ p0 :: p1 :: rest) by left.
  assert (Hp1 : p1 ∈ p0 :: p1 :: rest) by (right; left).
  rewrite (Hr p0 Hp0), (Hc p0 Hp0), (Hr p1 Hp1), (Hc p1 Hp1). left.
Qed.

(** C5, the failing input: on the empty board of a first move two tiles put
    on the same cell (7,7) are accepted by [validatePlacement], and they share
    both their row and their column. *)
Theorem stacked_tiles_accepted :
  validatePlacement createEmptyBoard stackedPair true = Some Valid
  ∧ (2 <= length stackedPair)%nat
  ∧ allInRow stackedPair 7 ∧ allInCol stackedPair 7.
Proof.
  split; [vm_compute; reflexivity|]. split; [simpl; lia|].
  split; intros t Ht;
    repeat (apply elem_of_cons in Ht as [->|Ht]; [done|]);
    by apply elem_of_nil in Ht.
Qed.

(** ** The room after a message *)

Section RoomProperties.

Variable wsOpen : nat → bool.

(** A finished game ignores the three game messages. *)
Lemma game_over_ignores (room : GameRoom) (playerId : string) (msg : ClientMsg) :
  gameOver room = true →
  handleGameMsg wsOpen room playerId msg = Some (room, []).
Proof.
  intros Hover. destruct msg; simpl;
    unfold handlePlaceTiles, handlePassTurn, handleExchangeTiles;
    rewrite Hover; by rewrite orb_true_r.
Qed.

Lemma game_over_stays (room : GameRoom) (msgs : list (string * ClientMsg)) :
  gameOver room = true → runGameMsgs wsOpen room msgs = Some room.
Proof.
  intros Hover. induction msgs as [|[playerId msg] rest IH]; [done|].
  cbn [runGameMsgs]. by rewrite game_over_ignores.
Qed.

Lemma decideWinner_spec (a b : Z) (na nb : string) :
  (a > b → decideWinner a na b nb = na)
  ∧ (b > a → decideWinner a na b nb = nb)
  ∧ (a = b → decideWinner a na b nb = "Tie").
Proof.
  unfold decideWinner. repeat split; intros H;
    repeat case_bool_decide; try done; lia.
Qed.

(** C9: in a running game of two players whose pass counter stands at 3, the
    pass of the player to move ends the game: the counter reaches 4, the
    game-over flag is set, each player's score loses the value of that
    player's rack, the winner is the name of the player with the higher score
    or "Tie" when the scores are equal; and after that every sequence of
    place_tiles, pass_turn and exchange_tiles messages, from any connection,
    leaves the room as it is. *)
Theorem fourth_pass_ends_game (room : GameRoom) (playerId : string)
    (sender p0 p1 : Player) :
  started room = true → gameOver room = false →
  players room = [p0; p1] →
  playerAt room (findIndexById room playerId) = Some sender →
  findIndexById room playerId = currentTurnIndex room →
  consecutivePasses room = 3 →
  ∃ room' out,
    handlePassTurn wsOpen room playerId = Some (room', out)
    ∧ consecutivePasses room' = 4
    ∧ gameOver room' = true
    ∧ (let s0 := score p0 - calculateEndgameDeductions (rack p0) in
       let s1 := score p1 - calculateEndgameDeductions (rack p1) in
       players room' = [setScore p0 s0; setScore p1 s1]
       ∧ (s0 > s1 → winner room' = Some (name p0))
       ∧ (s1 > s0 → winner room' = Some (name p1))
       ∧ (s0 = s1 → winner room' = Some "Tie"))
    ∧ ∀ msgs, runGameMsgs wsOpen room' msgs = Some room'.
Proof.
  intros Hstarted Hover Hplayers Hsender Hturn Hpasses.
  unfold handlePassTurn. rewrite Hstarted, Hover, Hpasses. cbn [negb orb].
  rewrite bool_decide_eq_false_2 by (by intros ?).
  rewrite Hsender, Hplayers. cbn.
  eexists _, _. split; [reflexivity|]. cbn.
  split; [done|]. split; [done|]. split.
  - split; [done|].
    pose proof (decideWinner_spec
                  (score p0 - calculateEndgameDeductions (rack p0))
                  (score p1 - calculateEndgameDeductions (rack p1))
                  (name p0) (name p1)) as (Ha & Hb & Hc).
    repeat split; intros H; f_equal; auto.
  - intros msgs. by apply game_over_stays.
Qed.

Lemma unowned_test (rack : list Tile) (placedTiles : list PlacedTile) :
  existsb (fun pt => negb (bool_decide
             (tid (ptile pt) ∈ (list_to_set (map tid rack) : gset string))))
          placedTiles = false
  ↔ tilesOwned rack placedTiles.
Proof.
  unfold tilesOwned. split.
  - intros H pt Hpt. destruct (decide (tid (ptile pt) ∈ map tid rack)) as [|Hno]; [done|].
    apply not_true_iff_false in H. exfalso. apply H, existsb_exists.
    exists pt. split; [by apply list_elem_of_In|].
    apply negb_true_iff, bool_decide_eq_false. by rewrite elem_of_list_to_set.
  - intros H. apply not_true_iff_false. intros (pt & Hpt & Hneg)%existsb_exists.
    apply negb_true_iff, bool_decide_eq_false in Hneg.
    apply Hneg, elem_of_list_to_set, H. by apply list_elem_of_In.
Qed.

Lemma first_invalid_word (before after : list FormedWord) (bad : FormedWord) :
  Forall (fun v => isValidWord (word v) = true) before →
  isValidWord (word bad) = false →
  filter (fun w => isValidWord (word w) = false) (before ++ bad :: after)
  = bad :: filter (fun w => isValidWord (word w) = false) after.
Proof.
  intros Hbefore Hbad. rewrite filter_app, filter_cons_True by done.
  replace (filter (fun w => isValidWord (word w) = false) before) with (@nil FormedWord);
    [done|].
  induction Hbefore as [|v vs Hv _ IH]; [done|].
  rewrite filter_cons_False by congruence. exact IH.
Qed.

(** C10: in a running game, a place_tiles message of a seated player that is
    turned down (out of turn, nothing placed, a tile id that is not in the
    sender's rack, a placement that [validatePlacement] refuses, or a formed
    word that the lexicon lacks) leaves the room exactly as it was, and the
    only message sent goes to the sender's socket and names the reason. *)
Theorem rejected_move_keeps_room (room : GameRoom) (playerId : string)
    (sender : Player) (placedTiles : list PlacedTile) (r : Rejection) :
  started room = true → gameOver room = false →
  playerAt room (findIndexById room playerId) = Some sender →
  rejectedFor room playerId sender placedTiles r →
  ∃ out,
    handlePlaceTiles wsOpen room playerId placedTiles = Some (room, out)
    ∧ out = sendToPlayer wsOpen sender (rejectionMsg r)
    ∧ ∀ sock m, (sock, m) ∈ out → sock = ws sender ∧ m = rejectionMsg r.
Proof.
  intros Hstarted Hover Hsender Hrej.
  exists (sendToPlayer wsOpen sender (rejectionMsg r)). split; [|split; [done|]].
  - unfold handlePlaceTiles. rewrite Hstarted, Hover. cbn [negb orb].
    destruct r as [| | |e|w]; cbn [rejectedFor] in Hrej.
    + rewrite bool_decide_eq_true_2 by done. by rewrite Hsender.
    + destruct Hrej as [Hturn ->].
      rewrite bool_decide_eq_false_2 by (by intros ?). by rewrite Hsender.
    + destruct Hrej as (Hturn & Hne & Hown).
      rewrite bool_decide_eq_false_2 by (by intros ?). rewrite Hsender.
      cbn [mbind option_bind].
      rewrite bool_decide_eq_false_2 by (by destruct placedTiles).
      destruct (existsb _ placedTiles) eqn:Htest; [done|].
      by apply unowned_test in Htest.
    + destruct Hrej as (Hturn & Hne & Hown & Hval).
      rewrite bool_decide_eq_false_2 by (by intros ?). rewrite Hsender.
      cbn [mbind option_bind].
      rewrite bool_decide_eq_false_2 by (by destruct placedTiles).
      apply unowned_test in Hown. rewrite Hown, Hval. done.
    + destruct Hrej as (Hturn & Hne & Hown & Hval & before & bad & after
                        & Hwords & Hbefore & Hbad & ->).
      rewrite bool_decide_eq_false_2 by (by intros ?). rewrite Hsender.
      cbn [mbind option_bind].
      rewrite bool_decide_eq_false_2 by (by destruct placedTiles).
      apply unowned_test in Hown. rewrite Hown, Hval. cbn [mbind option_bind].
      rewrite Hwords. cbn [mbind option_bind].
      by rewrite first_invalid_word.
  - intros sock m. unfold sendToPlayer. destruct (wsOpen (ws sender)).
    + intros Hin. apply list_elem_of_singleton in Hin. by simplify_eq.
    + intros Hin. by apply elem_of_nil in Hin.
Qed.

End RoomProperties.

(** ** Writing tiles on a board *)

Lemma placedAtB_spec (placedTiles : list PlacedTile) (r c : Z) :
  placedAtB placedTiles r c = true ↔ placedAtCell placedTiles r c.
Proof.
  unfold placedAtB, placedAtCell. rewrite existsb_exists. split.
  - intros (t & Hin & Hrc). apply andb_prop in Hrc as [Hr Hc].
    apply bool_decide_eq_true in Hr, Hc. exists t.
    split; [by apply list_elem_of_In|done].
  - intros (t & Hin & Hr & Hc). exists t. split; [by apply list_elem_of_In|].
    by rewrite !bool_decide_eq_true_2.
Qed.

Lemma placedAtB_cases (placedTiles : list PlacedTile) (r c : Z) :
  placedAtCell placedTiles r c ∨ ¬ placedAtCell placedTiles r c.
Proof.
  destruct (placedAtB placedTiles r c) eqn:H.
  - left. by apply placedAtB_spec.
  - right. intros Hp. apply placedAtB_spec in Hp. congruence.
Qed.

Lemma getCell_setCell_eq (b : Board) (r c : Z) (x old : BoardCell) :
  getCell b r c = Some old → getCell (setCell b r c x) r c = Some x.
Proof.
  unfold getCell, setCell.
  destruct (bool_decide (0 <= r) && bool_decide (0 <= c)); [|done].
  rewrite list_lookup_alter_eq.
  destruct (b !! Z.to_nat r) as [line|]; [|done]. simpl.
  intros H. apply list_lookup_insert_eq. by eapply lookup_lt_Some.
Qed.

Lemma getCell_setCell_ne (b : Board) (r c r' c' : Z) (x : BoardCell) :
  0 <= r → 0 <= c → (r', c') ≠ (r, c) →
  getCell (setCell b r c x) r' c' = getCell b r' c'.
Proof.
  intros Hr Hc Hne. unfold getCell, setCell.
  destruct (bool_decide (0 <= r')) eqn:Hr'; [|done].
  destruct (bool_decide (0 <= c')) eqn:Hc'; [|done]. simpl.
  apply bool_decide_eq_true in Hr', Hc'.
  destruct (decide (r' = r)) as [->|Hrow].
  - rewrite list_lookup_alter_eq.
    destruct (b !! Z.to_nat r) as [line|]; [|done]. simpl.
    apply list_lookup_insert_ne. intros E. apply Hne. f_equal. lia.
  - rewrite list_lookup_alter_ne by lia. done.
Qed.

Lemma getCell_nonneg (b : Board) (r c : Z) (cell : BoardCell) :
  getCell b r c = Some cell → 0 <= r ∧ 0 <= c.
Proof.
  unfold getCell. destruct (bool_decide (0 <= r)) eqn:Hr; [|done].
  destruct (bool_decide (0 <= c)) eqn:Hc; [|done].
  apply bool_decide_eq_true in Hr, Hc. done.
Qed.

Lemma setCell_wf (b : Board) (r c : Z) (x : BoardCell) :
  wf_board b → wf_board (setCell b r c x).
Proof.
  intros [Hlen Hrows]. unfold setCell. split; [by rewrite length_alter|].
  apply Forall_forall. intros line Hin.
  apply list_elem_of_lookup in Hin as [i Hi].
  rewrite Forall_forall in Hrows.
  destruct (decide (i = Z.to_nat r)) as [->|Hne].
  - rewrite list_lookup_alter_eq in Hi.
    destruct (b !! Z.to_nat r) as [old|] eqn:Hold; [|done]. simplify_eq/=.
    rewrite length_insert. apply Hrows. by eapply list_elem_of_lookup_2.
  - rewrite list_lookup_alter_ne in Hi by done.
    apply Hrows. by eapply list_elem_of_lookup_2.
Qed.

(** The cells of the board after one tile is written. *)
Lemma placeTile_lookup (b b' : Board) (t : PlacedTile) (r c : Z) :
  placeTile b t = Some b' →
  getCell b' r c
  = if decide ((r, c) = (row t, col t))
    then (fun cell => mkCell (Some (ptile t)) (premium cell)) <$> getCell b r c
    else getCell b r c.
Proof.
  unfold placeTile. destruct (getCell b (row t) (col t)) as [old|] eqn:Hold; [|done].
  simpl. intros [= <-]. destruct (getCell_nonneg _ _ _ _ Hold) as [Hr Hc].
  case_decide as Hcase.
  - simplify_eq. rewrite Hold. simpl. by eapply getCell_setCell_eq.
  - by apply getCell_setCell_ne.
Qed.

Lemma placeTile_wf (b b' : Board) (t : PlacedTile) :
  wf_board b → placeTile b t = Some b' → wf_board b'.
Proof.
  unfold placeTile. destruct (getCell b (row t) (col t)); [|done].
  simpl. intros Hwf [= <-]. by apply setCell_wf.
Qed.

Lemma placeAll_wf (placedTiles : list PlacedTile) (b b' : Board) :
  wf_board b → placeAll b placedTiles = Some b' → wf_board b'.
Proof.
  revert b. induction placedTiles as [|t rest IH]; intros b Hwf; simpl.
  - by intros [= <-].
  - destruct (placeTile b t) as [b1|] eqn:H1; [|done]. simpl.
    apply IH. by eapply placeTile_wf.
Qed.

(** Writing tiles keeps which cells exist and their premium. *)
Lemma placeAll_premium (placedTiles : list PlacedTile) (b b' : Board) (r c : Z) :
  placeAll b placedTiles = Some b' →
  premium <$> getCell b' r c = premium <$> getCell b r c.
Proof.
  revert b. induction placedTiles as [|t rest IH]; intros b; simpl.
  - by intros [= <-].
  - destruct (placeTile b t) as [b1|] eqn:H1; [|done]. simpl. intros H.
    rewrite (IH _ H), (placeTile_lookup _ _ _ r c H1).
    case_decide; [|done]. by destruct (getCell b r c).
Qed.

(** A cell that no tile of the list is written on keeps its content. *)
Lemma placeAll_elsewhere (placedTiles : list PlacedTile) (b b' : Board) (r c : Z) :
  placeAll b placedTiles = Some b' →
  ¬ placedAtCell placedTiles r c →
  getCell b' r c = getCell b r c.
Proof.
  revert b. induction placedTiles as [|t rest IH]; intros b; simpl.
  - by intros [= <-].
  - destruct (placeTile b t) as [b1|] eqn:H1; [|done]. simpl. intros H Hno.
    rewrite (IH _ H), (placeTile_lookup _ _ _ r c H1).
    + case_decide as Hc; [|done]. simplify_eq.
      exfalso. apply Hno. exists t. split; [left|done].
    + intros (t' & Hin & Hrc). apply Hno. exists t'. split; [by right|done].
Qed.

(** A cell that some tile of the list is written on holds a tile after. *)
Lemma placeAll_written (placedTiles : list PlacedTile) (b b' : Board) (r c : Z) :
  placeAll b placedTiles = Some b' →
  placedAtCell placedTiles r c →
  ∃ cell t, getCell b' r c = Some cell ∧ tile cell = Some (ptile t)
            ∧ t ∈ placedTiles ∧ row t = r ∧ col t = c.
Proof.
  revert b. induction placedTiles as [|t rest IH]; intros b; simpl.
  - intros _ (t & Hin & _). by apply elem_of_nil in Hin.
  - destruct (placeTile b t) as [b1|] eqn:H1; [|done]. simpl. intros H Hat.
    destruct (placedAtB_cases rest r c) as [Hrest|Hrest].
    + destruct (IH _ H Hrest) as (cell & t' & Hcell & Ht & Hin & Hrc).
      exists cell, t'. repeat split; try done; try tauto. by right.
    + rewrite (placeAll_elsewhere _ _ _ r c H Hrest).
      destruct Hat as (t' & [->|Hin]%elem_of_cons & Hr & Hc).
      * rewrite (placeTile_lookup _ _ _ r c H1).
        rewrite decide_True by (by rewrite Hr, Hc).
        unfold placeTile in H1. subst r c.
        destruct (getCell b (row t) (col t)) as [old|]; [|done]. simpl.
        eexists _, t. repeat split. left.
      * exfalso. apply Hrest. by exists t'.
Qed.

(** ** The letters of the formed words *)

Lemma collect_reads (fuel : nat) (tb : Board) (ps : gset (Z * Z))
    (horizontal : bool) (r c : Z) (ts : list LetterTile) :
  collect fuel tb ps horizontal r c = Some ts → Forall (readsCell tb ps) ts.
Proof.
  revert r c ts. induction fuel as [|n IH]; intros r c ts; simpl.
  - by intros [= <-].
  - case_bool_decide; [|by intros [= <-]].
    destruct (getCell tb r c) as [cell|] eqn:Hcell; [|done]. simpl.
    destruct (tile cell) as [tl|] eqn:Htl; [|by intros [= <-]].
    destruct (collect n tb ps horizontal _ _) as [rest|] eqn:Hrest; [|done].
    simpl. intros [= <-]. constructor; [|by eapply IH].
    by exists cell, tl.
Qed.

Lemma getWordAt_reads (tb : Board) (ps : gset (Z * Z)) (r c : Z)
    (horizontal : bool) (ws : list FormedWord) :
  getWordAt tb ps r c horizontal = Some ws →
  Forall (fun w => Forall (readsCell tb ps) (tiles w)) ws.
Proof.
  unfold getWordAt.
  destruct (walkBack _ tb horizontal r c) as [[r0 c0]|]; [|done]. simpl.
  destruct (collect _ tb ps horizontal r0 c0) as [ts|] eqn:Hts; [|done]. simpl.
  intros [= <-]. case_bool_decide; [|done].
  constructor; [|done]. simpl. by eapply collect_reads.
Qed.

Lemma crossWords_reads (tb : Board) (ps : gset (Z * Z)) (sameRow single : bool)
    (placedTiles : list PlacedTile) (ws : list FormedWord) :
  crossWords tb ps sameRow single placedTiles = Some ws →
  Forall (fun w => Forall (readsCell tb ps) (tiles w)) ws.
Proof.
  revert ws. induction placedTiles as [|t rest IH]; intros ws; simpl.
  - by intros [= <-].
  - destruct (if sameRow || single then _ else _) as [down|] eqn:Hdown; [|done].
    simpl.
    destruct (if negb sameRow || single then _ else _) as [across|] eqn:Hacross;
      [|done].
    simpl.
    destruct (crossWords tb ps sameRow single rest) as [more|]; [|done].
    simpl. intros [= <-]. rewrite !Forall_app. repeat split.
    + destruct (sameRow || single); [by eapply getWordAt_reads|by simplify_eq].
    + destruct (negb sameRow || single); [by eapply getWordAt_reads|by simplify_eq].
    + by apply IH.
Qed.

(** The map of unique words only holds words it was given. *)
Lemma uniqueWords_from (words : list FormedWord)
    (unique result : list (((Z * Z) * (Z * Z)) * FormedWord)) :
  uniqueWords unique words = Some result →
  ∀ kw, kw ∈ result → kw ∈ unique ∨ kw.2 ∈ words.
Proof.
  revert unique. induction words as [|w rest IH]; intros unique; simpl.
  - intros [= <-] kw Hkw. by left.
  - destruct (wordKey w) as [key|]; [|done]. simpl.
    case_bool_decide as Hmem.
    + intros Hu kw Hkw. destruct (IH _ Hu kw Hkw); [by left|right; by right].
    + intros Hu kw Hkw. destruct (IH _ Hu kw Hkw) as [Hin|Hin]; [|right; by right].
      apply elem_of_app in Hin as [Hin|Hin]; [by left|].
      apply list_elem_of_singleton in Hin. subst kw. right. left.
Qed.

(** Every letter of every word that [getFormedWords] returns was read from
    the scratch board, the board with the move written on it. *)
Lemma getFormedWords_reads (b : Board) (placedTiles : list PlacedTile)
    (ws : list FormedWord) :
  getFormedWords b placedTiles = Some ws →
  ∃ tb, placeAll b placedTiles = Some tb
        ∧ Forall (fun w => Forall (readsCell tb (placedSetOf placedTiles)) (tiles w)) ws.
Proof.
  unfold getFormedWords. intros H.
  apply bind_Some in H as (tb & Htb & H).
  destruct placedTiles as [|p0 rest]; [done|].
  set (pts := p0 :: rest) in *. set (ps := placedSetOf pts) in *.
  apply bind_Some in H as (main1 & H1 & H).
  apply bind_Some in H as (main2 & H2 & H).
  apply bind_Some in H as (cross & Hcross & H).
  apply bind_Some in H as (unique & Hu & H).
  injection H as <-. exists tb. split; [done|].
  assert (Hall : Forall (fun w => Forall (readsCell tb ps) (tiles w))
                   (main1 ++ main2 ++ cross)).
  { rewrite !Forall_app. repeat split.
    - destruct (sameRowOf pts || _); [by eapply getWordAt_reads|by simplify_eq].
    - destruct (negb (sameRowOf pts) || _); [by eapply getWordAt_reads|by simplify_eq].
    - by eapply crossWords_reads. }
  rewrite Forall_forall in Hall. apply Forall_forall. intros w Hw.
  apply list_elem_of_In, in_map_iff in Hw as ([k w'] & <- & Hkw).
  apply list_elem_of_In in Hkw.
  destruct (uniqueWords_from _ _ _ Hu _ Hkw) as [Hnil|Hin].
  - by apply elem_of_nil in Hnil.
  - by apply Hall.
Qed.

Lemma elem_of_placedSetOf (placedTiles : list PlacedTile) (r c : Z) :
  (r, c) ∈ placedSetOf placedTiles ↔ placedAtCell placedTiles r c.
Proof.
  unfold placedSetOf, placedAtCell. rewrite elem_of_list_to_set.
  rewrite list_elem_of_In, in_map_iff. split.
  - intros (t & Heq & Hin). exists t. split; [by apply list_elem_of_In|].
    by simplify_eq.
  - intros (t & Hin & <- & <-). exists t. split; [done|by apply list_elem_of_In].
Qed.

(** ** Premiums count for new tiles only *)

Lemma reads_isNew (tb : Board) (placedTiles : list PlacedTile) (t : LetterTile) :
  readsCell tb (placedSetOf placedTiles) t →
  isNew t = placedAtB placedTiles (lt_row t) (lt_col t).
Proof.
  intros (cell & tl & _ & _ & _ & _ & ->).
  destruct (placedAtB placedTiles (lt_row t) (lt_col t)) eqn:Hp.
  - apply bool_decide_eq_true, elem_of_placedSetOf. by apply placedAtB_spec.
  - apply bool_decide_eq_false. rewrite elem_of_placedSetOf, <- placedAtB_spec.
    congruence.
Qed.

Lemma reads_on_board (b tb : Board) (placedTiles : list PlacedTile)
    (ps : gset (Z * Z)) (t : LetterTile) :
  placeAll b placedTiles = Some tb → readsCell tb ps t →
  ∃ cell, getCell b (lt_row t) (lt_col t) = Some cell.
Proof.
  intros Htb (cell & tl & Hcell & _).
  pose proof (placeAll_premium _ _ _ (lt_row t) (lt_col t) Htb) as Hp.
  rewrite Hcell in Hp. destruct (getCell b (lt_row t) (lt_col t)); [by eexists|done].
Qed.

(** One step of the scoring loop adds the letter's share and multiplies by
    its word share. *)
Lemma scoreLetter_share (b tb : Board) (placedTiles : list PlacedTile)
    (t : LetterTile) (wordScore wordMult : Z) :
  placeAll b placedTiles = Some tb →
  readsCell tb (placedSetOf placedTiles) t →
  scoreLetter b (wordScore, wordMult) t
  = Some (wordScore + letterShare b placedTiles t,
          wordMult * wordShare b placedTiles t).
Proof.
  intros Htb Hreads. unfold scoreLetter, letterShare, wordShare, premiumAt.
  rewrite <- (reads_isNew tb placedTiles t Hreads).
  destruct (reads_on_board _ _ _ _ _ Htb Hreads) as [cell ->].
  destruct (isNew t); cbn [mbind option_bind from_option].
  - destruct (premium cell); cbn [letterFactor wordFactor]; f_equal; f_equal; lia.
  - f_equal; f_equal; lia.
Qed.

Lemma scoreLetters_share (b tb : Board) (placedTiles : list PlacedTile)
    (ts : list LetterTile) (wordScore wordMult : Z) :
  placeAll b placedTiles = Some tb →
  Forall (readsCell tb (placedSetOf placedTiles)) ts →
  scoreLetters b (wordScore, wordMult) ts
  = Some (wordScore + sumZ (map (letterShare b placedTiles) ts),
          wordMult * prodZ (map (wordShare b placedTiles) ts)).
Proof.
  intros Htb Hall. revert wordScore wordMult.
  induction Hall as [|t ts Ht _ IH]; intros wordScore wordMult.
  - cbn. f_equal. f_equal; lia.
  - cbn [scoreLetters]. rewrite (scoreLetter_share b tb placedTiles t _ _ Htb Ht).
    cbn [mbind option_bind]. rewrite IH. cbn [map sumZ prodZ foldr].
    f_equal. f_equal; [|fold (prodZ (map (wordShare b placedTiles) ts))];
      unfold sumZ, prodZ; lia.
Qed.

Lemma wordScoreOf_share (b tb : Board) (placedTiles : list PlacedTile)
    (w : FormedWord) :
  placeAll b placedTiles = Some tb →
  Forall (readsCell tb (placedSetOf placedTiles)) (tiles w) →
  wordScoreOf b w
  = Some (sumZ (map (letterShare b placedTiles) (tiles w))
          * prodZ (map (wordShare b placedTiles) (tiles w))).
Proof.
  intros Htb Hall. unfold wordScoreOf.
  rewrite (scoreLetters_share b tb placedTiles _ 0 1 Htb Hall).
  cbn [mbind option_bind]. f_equal. lia.
Qed.

(** A tile that the board already holds is not a cell of an accepted move. *)
Lemma accepted_cells_were_free (b : Board) (placedTiles : list PlacedTile)
    (isFirstMove : bool) (r c : Z) :
  validatePlacement b placedTiles isFirstMove = Some Valid →
  occupiedOn b r c → ¬ placedAtCell placedTiles r c.
Proof.
  intros Hvalid Hocc (t & Hin & <- & <-).
  destruct placedTiles as [|p0 rest]; [done|].
  unfold validatePlacement in Hvalid.
  destruct (negb _ && negb _); [done|].
  apply bind_Some in Hvalid as (cells & Hcells & Hvalid).
  destruct cells as [e|]; [done|].
  by destruct (checkCells_inv _ _ Hcells t Hin) as (_ & _ & Hfree).
Qed.

(** The loop over the formed words adds up their values. *)
Lemma sumWords_share (b tb : Board) (placedTiles : list PlacedTile)
    (ws : list FormedWord) (total : Z) :
  placeAll b placedTiles = Some tb →
  Forall (fun w => Forall (readsCell tb (placedSetOf placedTiles)) (tiles w)) ws →
  sumWords b total ws = Some (total + sumZ (map (wordValue b placedTiles) ws)).
Proof.
  intros Htb Hall. revert total.
  induction Hall as [|w ws Hw _ IH]; intros total.
  - cbn. f_equal. lia.
  - cbn [sumWords]. rewrite (wordScoreOf_share b tb placedTiles w Htb Hw).
    cbn [mbind option_bind]. rewrite IH. cbn [map sumZ foldr].
    fold (wordValue b placedTiles w). f_equal. unfold sumZ. lia.
Qed.

(** C6: the score of a move, as [calculateScore] of the coordinator and
    [calculateMoveScore] of the engine compute it, is the sum over the formed
    words of (the sum of the letters' shares) times (the product of their
    word shares), plus 50 for a move of seven tiles. A letter on a cell newly
    placed in this move has its value times the letter premium of the cell
    (2 for DL, 3 for TL) as its share and gives the word premium of the cell
    (2 for DW and for the center, 3 for TW); a letter on any other cell has
    its plain value and leaves the multiplier alone. The letter is marked new
    exactly when its cell is placed in this move; in a move that
    [validatePlacement] accepts, a cell that held a tile before the move is
    never such a cell, so in the score of the move it counts its plain value
    and never contributes a multiplier. *)
Theorem premium_applies_to_new_tiles_only (b : Board)
    (placedTiles : list PlacedTile) (ws : list FormedWord) :
  getFormedWords b placedTiles = Some ws →
  calculateScore b placedTiles = Some (moveValue b placedTiles ws)
  ∧ calculateMoveScore b placedTiles = Some (moveValue b placedTiles ws)
  ∧ ∀ w, w ∈ ws →
      wordScoreOf b w = Some (wordValue b placedTiles w)
      ∧ ∀ t, t ∈ tiles w →
          (isNew t = true ↔ placedAtCell placedTiles (lt_row t) (lt_col t))
          ∧ (placedAtCell placedTiles (lt_row t) (lt_col t) →
               letterShare b placedTiles t
               = lt_value t * letterFactor (premiumAt b (lt_row t) (lt_col t))
               ∧ wordShare b placedTiles t
                 = wordFactor (premiumAt b (lt_row t) (lt_col t)))
          ∧ (¬ placedAtCell placedTiles (lt_row t) (lt_col t) →
               letterShare b placedTiles t = lt_value t
               ∧ wordShare b placedTiles t = 1)
          ∧ (∀ isFirstMove,
               validatePlacement b placedTiles isFirstMove = Some Valid →
               occupiedOn b (lt_row t) (lt_col t) →
               isNew t = false
               ∧ letterShare b placedTiles t = lt_value t
               ∧ wordShare b placedTiles t = 1).
Proof.
  intros Hwords.
  destruct (getFormedWords_reads _ _ _ Hwords) as (tb & Htb & Hall).
  assert (Hscore : calculateScore b placedTiles = Some (moveValue b placedTiles ws)).
  { unfold calculateScore. rewrite Hwords. cbn [mbind option_bind].
    rewrite (sumWords_share b tb placedTiles ws 0 Htb Hall).
    cbn [mbind option_bind]. unfold moveValue. f_equal.
    case_bool_decide; lia. }
  split; [exact Hscore|]. split; [exact Hscore|].
  intros w Hw. rewrite Forall_forall in Hall. specialize (Hall w Hw).
  split; [by eapply wordScoreOf_share|].
  intros t Ht. rewrite Forall_forall in Hall. specialize (Hall t Ht).
  pose proof (reads_isNew tb placedTiles t Hall) as Hnew.
  assert (Hplaced : placedAtCell placedTiles (lt_row t) (lt_col t) →
            placedAtB placedTiles (lt_row t) (lt_col t) = true)
    by apply placedAtB_spec.
  assert (Hnot : ¬ placedAtCell placedTiles (lt_row t) (lt_col t) →
            placedAtB placedTiles (lt_row t) (lt_col t) = false).
  { intros Hno. apply not_true_iff_false. by rewrite placedAtB_spec. }
  unfold letterShare, wordShare.
  split; [by rewrite Hnew, placedAtB_spec|]. split; [|split].
  - intros Hp. by rewrite (Hplaced Hp).
  - intros Hno. rewrite (Hnot Hno). split; [lia|done].
  - intros isFirstMove Hvalid Hocc.
    pose proof (accepted_cells_were_free _ _ _ _ _ Hvalid Hocc) as Hno.
    rewrite Hnew, (Hnot Hno). split; [done|]. split; [lia|done].
Qed.

(** Instance of C6: on the board that holds CAT through the center, a T put
    under the A spells AT; the A, a tile of the earlier move on the center
    cell, counts 1 and does not double the word, and the move scores 2. *)
Lemma premium_applies_to_new_tiles_only_witness :
  getFormedWords boardWithCat hookTiles = Some [wordAT]
  ∧ calculateScore boardWithCat hookTiles = Some 2
  ∧ calculateMoveScore boardWithCat hookTiles = Some 2
  ∧ premiumAt boardWithCat 7 7 = CENTER.
Proof.
  assert (Hwords : getFormedWords boardWithCat hookTiles = Some [wordAT])
    by (vm_compute; reflexivity).
  split; [exact Hwords|].
  destruct (premium_applies_to_new_tiles_only boardWithCat hookTiles [wordAT]
              Hwords) as (Hscore & Hmove & _).
  split; [rewrite Hscore; vm_compute; reflexivity|].
  split; [rewrite Hmove; vm_compute; reflexivity|].
  vm_compute; reflexivity.
Defined.

(** ** Scores exist for formed words *)

Lemma sumWords_total (b : Board) (ws : list FormedWord) (total : Z) :
  Forall (fun w => is_Some (wordScoreOf b w)) ws →
  is_Some (sumWords b total ws).
Proof.
  intros Hall. revert total. induction Hall as [|w ws [s Hs] _ IH]; intros total.
  - by eexists.
  - cbn [sumWords]. rewrite Hs. cbn [mbind option_bind]. apply IH.
Qed.

Lemma calculateScore_total (b : Board) (placedTiles : list PlacedTile)
    (ws : list FormedWord) :
  getFormedWords b placedTiles = Some ws →
  is_Some (calculateScore b placedTiles).
Proof.
  intros Hwords. unfold calculateScore. rewrite Hwords. cbn [mbind option_bind].
  destruct (getFormedWords_reads _ _ _ Hwords) as (tb & Htb & Hall).
  destruct (sumWords_total b ws 0) as [total ->]; [|by eexists].
  eapply Forall_impl; [exact Hall|]. intros w Hw. cbn beta in Hw.
  rewrite (wordScoreOf_share b tb placedTiles w Htb Hw). by eexists.
Qed.

Lemma drawTiles_empty_bag (count : Z) : drawTiles [] count = ([], []).
Proof.
  unfold drawTiles, sliceTo. cbn [length]. case_bool_decide; by rewrite take_nil.
Qed.

Lemma filter_all_played (placedTiles : list PlacedTile) (rack : list Tile) :
  Forall (fun t => Exists (fun pt => tid (ptile pt) = tid t) placedTiles) rack →
  filter (fun t => ¬ Exists (fun pt => tid (ptile pt) = tid t) placedTiles) rack = [].
Proof.
  induction 1 as [|t rack Ht _ IH]; [done|].
  rewrite filter_cons_False by (intros Hno; by apply Hno). exact IH.
Qed.

Lemma no_invalid_word (ws : list FormedWord) :
  Forall (fun v => isValidWord (word v) = true) ws →
  filter (fun w => isValidWord (word w) = false) ws = [].
Proof.
  induction 1 as [|w ws Hw _ IH]; [done|].
  rewrite filter_cons_False; [exact IH|]. rewrite Hw. intros Habs. inversion Habs.
Qed.

(** ** Accepted moves *)

Section AcceptedMoves.

Variable wsOpen : nat → bool.

(** A message that passes every test is committed. *)
Lemma handlePlaceTiles_accepted (room : GameRoom) (playerId : string)
    (sender : Player) (placedTiles : list PlacedTile) (ws : list FormedWord) :
  started room = true → gameOver room = false →
  findIndexById room playerId = currentTurnIndex room →
  playerAt room (findIndexById room playerId) = Some sender →
  placedTiles ≠ [] →
  tilesOwned (rack sender) placedTiles →
  validatePlacement (board room) placedTiles (isFirstMove room) = Some Valid →
  getFormedWords (board room) placedTiles = Some ws →
  Forall (fun v => isValidWord (word v) = true) ws →
  handlePlaceTiles wsOpen room playerId placedTiles
  = commitMove wsOpen room playerId (findIndexById room playerId) sender
      placedTiles ws.
Proof.
  intros Hstarted Hover Hturn Hsender Hne Hown Hvalid Hwords Hall.
  unfold handlePlaceTiles. rewrite Hstarted, Hover. cbn [negb orb].
  rewrite bool_decide_eq_false_2 by (intros Hx; exact (Hx Hturn)).
  rewrite Hsender. cbn [mbind option_bind].
  rewrite bool_decide_eq_false_2 by (intros Hl; apply Hne; by apply nil_length_inv).
  apply unowned_test in Hown. rewrite Hown, Hvalid. cbn [mbind option_bind].
  rewrite Hwords. cbn [mbind option_bind].
  by rewrite no_invalid_word.
Qed.

(** The seat of a player of a two-player room. *)
Lemma two_seats (room : GameRoom) (playerId : string) (sender p0 p1 : Player) :
  players room = [p0; p1] →
  playerAt room (findIndexById room playerId) = Some sender →
  (findIndexById room playerId = 0 ∧ sender = p0 ∧ pid p0 = playerId)
  ∨ (findIndexById room playerId = 1 ∧ sender = p1
     ∧ pid p0 ≠ playerId ∧ pid p1 = playerId).
Proof.
  intros Hplayers. unfold findIndexById, playerAt. rewrite Hplayers.
  cbn [list_find]. case_decide as H0.
  - cbn. intros [= <-]. by left.
  - cbn [fmap option_fmap option_map]. case_decide as H1.
    + cbn. intros [= <-]. by right.
    + cbn. done.
Qed.

(** The multiplayer half of the settlement. *)
Lemma room_rack_out (room : GameRoom) (playerId : string)
    (sender opponent p0 p1 : Player) (placedTiles : list PlacedTile) :
  players room = [p0; p1] → pid p0 ≠ pid p1 →
  moveAccepted room playerId sender placedTiles →
  playerAt room (1 - findIndexById room playerId) = Some opponent →
  tileBag room = [] →
  Forall (fun t => Exists (fun pt => tid (ptile pt) = tid t) placedTiles)
         (rack sender) →
  ∃ room' out points,
    handlePlaceTiles wsOpen room playerId placedTiles = Some (room', out)
    ∧ calculateScore (board room) placedTiles = Some points
    ∧ gameOver room' = true
    ∧ playerAt room' (findIndexById room playerId)
      = Some (mkPlayer (ws sender) (pid sender) (name sender) []
                (score sender + points + calculateEndgameDeductions (rack opponent))
                (connected sender))
    ∧ playerAt room' (1 - findIndexById room playerId)
      = Some (setScore opponent
                (score opponent - calculateEndgameDeductions (rack opponent))).
Proof.
  intros Hplayers Hids (Hstarted & Hover & Hturn & Hsender & Hne & Hown & Hvalid
                        & ws & Hwords & Hall) Hopp Hbag Hplayed.
  rewrite (handlePlaceTiles_accepted room playerId sender placedTiles ws) by done.
  unfold commitMove.
  destruct (calculateScore_total _ _ _ Hwords) as [points Hpoints].
  destruct (getFormedWords_reads _ _ _ Hwords) as (tb & Htb & _).
  rewrite Hpoints, Htb. cbn [mbind option_bind].
  rewrite (filter_all_played _ _ Hplayed), Hbag, drawTiles_empty_bag.
  cbn [app length rack]. rewrite !bool_decide_eq_true_2 by done. cbn [andb].
  destruct (two_seats room playerId sender p0 p1 Hplayers Hsender)
    as [(Hidx & -> & Hp0)|(Hidx & -> & Hp0 & Hp1)];
    rewrite Hidx in *; unfold playerAt in Hopp; rewrite Hplayers in *;
    cbn in Hopp; injection Hopp as <-.
  - simpl.
    rewrite decide_False by (intros Hx; by apply Hx).
    rewrite decide_True by congruence.
    simpl. eexists _, _, points. repeat split.
  - simpl.
    rewrite decide_True by done.
    simpl. eexists _, _, points. repeat split.
Qed.

End AcceptedMoves.

(** ** Settlement when a rack is emptied *)

(** The single-player half, for the player's own move. *)
Lemma solo_rack_out (gameState : GameState) (pendingTiles : list PlacedTile)
    (ws : list FormedWord) :
  pendingTiles ≠ [] →
  validatePlacement (gs_board gameState) pendingTiles (gs_isFirstMove gameState)
  = Some Valid →
  getFormedWords (gs_board gameState) pendingTiles = Some ws →
  Forall (fun v => isValidWord (word v) = true) ws →
  gs_playerRack gameState = [] → gs_tileBag gameState = [] →
  ∃ gameState' points,
    submitMove gameState pendingTiles = Some (gameState', SubmitOk points)
    ∧ calculateMoveScore (gs_board gameState) pendingTiles = Some points
    ∧ gs_gameOver gameState' = true
    ∧ gs_playerScore gameState'
      = gs_playerScore gameState + points
        + calculateEndgameDeductions (gs_aiRack gameState)
    ∧ gs_aiScore gameState'
      = gs_aiScore gameState - calculateEndgameDeductions (gs_aiRack gameState).
Proof.
  intros Hne Hvalid Hwords Hall Hrack Hbag. unfold submitMove.
  rewrite bool_decide_eq_false_2 by (intros Hl; apply Hne; by apply nil_length_inv).
  rewrite Hvalid. cbn [mbind option_bind]. rewrite Hwords. cbn [mbind option_bind].
  rewrite (no_invalid_word _ Hall).
  destruct (calculateScore_total _ _ _ Hwords) as [points Hpoints].
  destruct (getFormedWords_reads _ _ _ Hwords) as (tb & Htb & _).
  unfold calculateMoveScore. rewrite Hpoints, Htb. cbn [mbind option_bind].
  rewrite Hrack, Hbag, drawTiles_empty_bag. cbn.
  eexists _, points. repeat split.
Qed.

(** The single-player half, for the move of the AI. *)
Lemma ai_rack_out (prev : GameState) (aiMove : list PlacedTile)
    (ws : list FormedWord) :
  getFormedWords (gs_board prev) aiMove = Some ws →
  gs_tileBag prev = [] →
  Forall (fun t => Exists (fun a => tid (ptile a) = tid t) aiMove) (gs_aiRack prev) →
  ∃ gameState' points,
    applyAiMove prev aiMove = Some gameState'
    ∧ calculateMoveScore (gs_board prev) aiMove = Some points
    ∧ gs_gameOver gameState' = true
    ∧ gs_aiScore gameState'
      = gs_aiScore prev + points + calculateEndgameDeductions (gs_playerRack prev)
    ∧ gs_playerScore gameState'
      = gs_playerScore prev - calculateEndgameDeductions (gs_playerRack prev).
Proof.
  intros Hwords Hbag Hplayed. unfold applyAiMove.
  destruct (calculateScore_total _ _ _ Hwords) as [points Hpoints].
  destruct (getFormedWords_reads _ _ _ Hwords) as (tb & Htb & _).
  unfold calculateMoveScore. rewrite Hpoints, Htb, Hwords. cbn [mbind option_bind].
  rewrite (filter_all_played _ _ Hplayed), Hbag, drawTiles_empty_bag. cbn.
  eexists _, points. repeat split.
Qed.

(** C8: when an accepted play empties the mover's rack while the bag is
    empty, the game is over and the mover's score is the old score plus the
    points of the move plus the value [v] of the tiles left on the opponent's
    rack, while the opponent's score is the old score minus [v]: in a room of
    two players, in the single-player game for the player's move, and for the
    move of the AI. *)
Theorem rack_out_settlement :
  (∀ (wsOpen : nat → bool) (room : GameRoom) (playerId : string)
     (sender opponent p0 p1 : Player) (placedTiles : list PlacedTile),
     players room = [p0; p1] → pid p0 ≠ pid p1 →
     moveAccepted room playerId sender placedTiles →
     playerAt room (1 - findIndexById room playerId) = Some opponent →
     tileBag room = [] →
     Forall (fun t => Exists (fun pt => tid (ptile pt) = tid t) placedTiles)
            (rack sender) →
     ∃ room' out points,
       handlePlaceTiles wsOpen room playerId placedTiles = Some (room', out)
       ∧ calculateScore (board room) placedTiles = Some points
       ∧ gameOver room' = true
       ∧ playerAt room' (findIndexById room playerId)
         = Some (mkPlayer (ws sender) (pid sender) (name sender) []
                   (score sender + points
                    + calculateEndgameDeductions (rack opponent))
                   (connected sender))
       ∧ playerAt room' (1 - findIndexById room playerId)
         = Some (setScore opponent
                   (score opponent - calculateEndgameDeductions (rack opponent))))
  ∧ (∀ (gameState : GameState) (pendingTiles : list PlacedTile)
       (ws : list FormedWord),
       pendingTiles ≠ [] →
       validatePlacement (gs_board gameState) pendingTiles
         (gs_isFirstMove gameState) = Some Valid →
       getFormedWords (gs_board gameState) pendingTiles = Some ws →
       Forall (fun v => isValidWord (word v) = true) ws →
       gs_playerRack gameState = [] → gs_tileBag gameState = [] →
       ∃ gameState' points,
         submitMove gameState pendingTiles = Some (gameState', SubmitOk points)
         ∧ calculateMoveScore (gs_board gameState) pendingTiles = Some points
         ∧ gs_gameOver gameState' = true
         ∧ gs_playerScore gameState'
           = gs_playerScore gameState + points
             + calculateEndgameDeductions (gs_aiRack gameState)
         ∧ gs_aiScore gameState'
           = gs_aiScore gameState
             - calculateEndgameDeductions (gs_aiRack gameState))
  ∧ (∀ (prev : GameState) (aiMove : list PlacedTile) (ws : list FormedWord),
       getFormedWords (gs_board prev) aiMove = Some ws →
       gs_tileBag prev = [] →
       Forall (fun t => Exists (fun a => tid (ptile a) = tid t) aiMove)
              (gs_aiRack prev) →
       ∃ gameState' points,
         applyAiMove prev aiMove = Some gameState'
         ∧ calculateMoveScore (gs_board prev) aiMove = Some points
         ∧ gs_gameOver gameState' = true
         ∧ gs_aiScore gameState'
           = gs_aiScore prev + points
             + calculateEndgameDeductions (gs_playerRack prev)
         ∧ gs_playerScore gameState'
           = gs_playerScore prev
             - calculateEndgameDeductions (gs_playerRack prev)).
Proof.
  split; [|split].
  - intros wsOpen. apply room_rack_out.
  - apply solo_rack_out.
  - apply ai_rack_out.
Qed.

Lemma hook_is_accepted : moveAccepted endgameRoom "ann" ann hookTiles.
Proof.
  repeat split; try done.
  - intros pt Hpt. apply list_elem_of_singleton in Hpt as ->. left.
  - exists [wordAT]. split; [vm_compute; reflexivity|].
    constructor; [vm_compute; reflexivity|constructor].
Qed.

Lemma hook_plays_rack (r : list Tile) :
  r = rack ann →
  Forall (fun t => Exists (fun pt => tid (ptile pt) = tid t) hookTiles) r.
Proof. intros ->. constructor; [|constructor]. by left. Qed.

(** Instance of C8: Ann plays her last tile, the T under the A of CAT, with
    the bag empty; Bob is left with Q and Z, worth 20. Ann had 12 and the
    move scores 2: she ends with 34; Bob had 30 and ends with 10. The same
    figures hold in the single-player game, for the player and for the AI. *)
Lemma rack_out_settlement_witness :
  (∃ room' out,
     handlePlaceTiles (fun _ => true) endgameRoom "ann" hookTiles = Some (room', out)
     ∧ gameOver room' = true
     ∧ (score <$> playerAt room' 0) = Some 34
     ∧ (score <$> playerAt room' 1) = Some 10)
  ∧ (∃ gameState',
       submitMove endgameSolo hookTiles = Some (gameState', SubmitOk 2)
       ∧ gs_playerScore gameState' = 34 ∧ gs_aiScore gameState' = 10)
  ∧ (∃ gameState',
       applyAiMove endgameAi hookTiles = Some gameState'
       ∧ gs_aiScore gameState' = 34 ∧ gs_playerScore gameState' = 10).
Proof.
  destruct rack_out_settlement as (Hroom & Hsolo & Hai).
  assert (Hwords : getFormedWords boardWithCat hookTiles = Some [wordAT])
    by (vm_compute; reflexivity).
  assert (Hvalid : Forall (fun v => isValidWord (word v) = true) [wordAT])
    by (constructor; [vm_compute; reflexivity|constructor]).
  assert (Hpoints : calculateScore boardWithCat hookTiles = Some 2)
    by (vm_compute; reflexivity).
  split; [|split].
  - destruct (Hroom (fun _ => true) endgameRoom "ann" ann bob ann bob hookTiles)
      as (room' & out & points & Hrun & Hscore & Hover & Hmover & Hopp).
    + reflexivity.
    + intros Heq. inversion Heq.
    + apply hook_is_accepted.
    + reflexivity.
    + reflexivity.
    + by apply hook_plays_rack.
    + exists room', out. split; [exact Hrun|]. split; [exact Hover|].
      change (findIndexById endgameRoom "ann") with 0 in Hmover, Hopp.
      change (1 - 0) with 1 in Hopp.
      change (calculateScore (board endgameRoom) hookTiles)
        with (calculateScore boardWithCat hookTiles) in Hscore.
      rewrite Hpoints in Hscore. injection Hscore as <-.
      rewrite Hmover, Hopp. split; reflexivity.
  - destruct (Hsolo endgameSolo hookTiles [wordAT])
      as (gameState' & points & Hrun & Hscore & _ & Hplayer & Hopp).
    + intros Heq. inversion Heq.
    + vm_compute. reflexivity.
    + exact Hwords.
    + exact Hvalid.
    + reflexivity.
    + reflexivity.
    + change (calculateMoveScore (gs_board endgameSolo) hookTiles)
        with (calculateScore boardWithCat hookTiles) in Hscore.
      rewrite Hpoints in Hscore. injection Hscore as <-.
      exists gameState'. split; [exact Hrun|]. split.
      * rewrite Hplayer. reflexivity.
      * rewrite Hopp. reflexivity.
  - destruct (Hai endgameAi hookTiles [wordAT])
      as (gameState' & points & Hrun & Hscore & _ & Hmover & Hopp).
    + exact Hwords.
    + reflexivity.
    + by apply hook_plays_rack.
    + change (calculateMoveScore (gs_board endgameAi) hookTiles)
        with (calculateScore boardWithCat hookTiles) in Hscore.
      rewrite Hpoints in Hscore. injection Hscore as <-.
      exists gameState'. split; [exact Hrun|]. split.
      * rewrite Hmover. reflexivity.
      * rewrite Hopp. reflexivity.
Defined.

(** Instance of C9: with three passes counted, Ann's pass ends the game; she
    keeps 12 - 1 = 11, Bob 30 - 20 = 10, and Ann is the winner. *)
Lemma fourth_pass_ends_game_witness :
  ∃ room' out,
    handlePassTurn (fun _ => true) stalledRoom "ann" = Some (room', out)
    ∧ gameOver room' = true
    ∧ winner room' = Some "Ann"
    ∧ ∀ msgs, runGameMsgs (fun _ => true) room' msgs = Some room'.
Proof.
  destruct (fourth_pass_ends_game (fun _ => true) stalledRoom "ann" ann ann bob)
    as (room' & out & Hrun & _ & Hover & (_ & Hwin & _) & Hstays);
    try reflexivity.
  exists room', out. split; [exact Hrun|]. split; [exact Hover|].
  split; [|exact Hstays]. apply Hwin. reflexivity.
Defined.

(** Instance of C10: Bob sends a move while it is Ann's turn. *)
Lemma rejected_move_keeps_room_witness :
  ∃ out,
    handlePlaceTiles (fun _ => true) endgameRoom "bob" hookTiles
    = Some (endgameRoom, out)
    ∧ out = [(2%nat, ErrorMsg "Not your turn")].
Proof.
  destruct (rejected_move_keeps_room (fun _ => true) endgameRoom "bob" bob
              hookTiles OutOfTurn) as (out & Hrun & Hout & _).
  - reflexivity.
  - reflexivity.
  - reflexivity.
  - intros Heq. inversion Heq.
  - exists out. split; [exact Hrun|]. rewrite Hout. reflexivity.
Defined.

(** ** A room from its creation *)

Lemma openingRoom_joined :
  ∃ out,
    handleJoinRoom demoIds allOpen createdRoom 2 "Bob" 101
    = Some (openingRoom, Some "t102", out).
Proof. eexists. vm_compute. reflexivity. Qed.

(** C1, the failing input: in the room that Ann created and Bob joined, where
    bag, racks and board hold 100 tiles, Ann's first message names her tile
    ["t2"] on two cells. The server accepts it as the word AA: the board gains
    two tiles, her rack loses one and is refilled from the bag, and the room
    holds 101 tiles. A message that puts two of her tiles on one cell is
    accepted as well and leaves 99. *)
Theorem tile_total_not_kept :
  started openingRoom = true ∧ length (players openingRoom) = 2%nat
  ∧ totalTiles openingRoom = 100%nat
  ∧ (∃ room' out,
       handlePlaceTiles allOpen openingRoom "t1" doubledTile = Some (room', out)
       ∧ totalTiles room' = 101%nat)
  ∧ (∃ room' out,
       handlePlaceTiles allOpen openingRoom "t1" stackedTiles = Some (room', out)
       ∧ totalTiles room' = 99%nat).
Proof.
  split; [reflexivity|]. split; [reflexivity|]. split; [vm_compute; reflexivity|].
  split.
  - destruct (handlePlaceTiles allOpen openingRoom "t1" doubledTile)
      as [[room' out]|] eqn:Hrun; [|vm_compute in Hrun; discriminate].
    exists room', out. split; [reflexivity|].
    assert (Htotal : (totalTiles ∘ fst) <$> handlePlaceTiles allOpen openingRoom
                       "t1" doubledTile = Some 101%nat) by (vm_compute; reflexivity).
    rewrite Hrun in Htotal. clear Hrun. injection Htotal as Htotal. exact Htotal.
  - destruct (handlePlaceTiles allOpen openingRoom "t1" stackedTiles)
      as [[room' out]|] eqn:Hrun; [|vm_compute in Hrun; discriminate].
    exists room', out. split; [reflexivity|].
    assert (Htotal : (totalTiles ∘ fst) <$> handlePlaceTiles allOpen openingRoom
                       "t1" stackedTiles = Some 99%nat) by (vm_compute; reflexivity).
    rewrite Hrun in Htotal. clear Hrun. injection Htotal as Htotal. exact Htotal.
Qed.

(** C2, the failing input: in the same room Ann names her tiles ["t2"] and
    ["t3"], each an A worth 1 in her server-side rack, and describes the first
    as a Z worth 10. The server accepts the word ZA, writes the Z worth 10 on
    the center cell and adds 22 points to her score. *)
Theorem client_tile_data_committed :
  (∃ ann0, playerAt openingRoom 0 = Some ann0 ∧ pid ann0 = "t1"
           ∧ mkTile "t2" "A" 1 false ∈ rack ann0
           ∧ ∀ t, t ∈ rack ann0 → tid t = "t2" → t = mkTile "t2" "A" 1 false)
  ∧ ∃ room' out,
      handlePlaceTiles allOpen openingRoom "t1" forgedTiles = Some (room', out)
      ∧ (tile <$> getCell (board room') 7 7) = Some (Some (mkTile "t2" "Z" 10 false))
      ∧ (score <$> playerAt room' 0) = Some 22.
Proof.
  split.
  - eexists. split; [vm_compute; reflexivity|]. split; [reflexivity|].
    split; [left|]. intros t Ht Hid. cbn in Ht.
    repeat (apply elem_of_cons in Ht as [->|Ht]; [done || (cbn in Hid; discriminate)|]).
    by apply elem_of_nil in Ht.
  - destruct (handlePlaceTiles allOpen openingRoom "t1" forgedTiles)
      as [[room' out]|] eqn:Hrun; [|vm_compute in Hrun; discriminate].
    exists room', out. split; [reflexivity|].
    assert (Hcell : (fun res => (tile <$> getCell (board res.1) 7 7,
                                 score <$> playerAt res.1 0))
                    <$> handlePlaceTiles allOpen openingRoom "t1" forgedTiles
                    = Some (Some (Some (mkTile "t2" "Z" 10 false)), Some 22))
      by (vm_compute; reflexivity).
    rewrite Hrun in Hcell. cbn in Hcell. clear Hrun.
    injection Hcell as Htile Hscore. split; assumption.
Qed.

(** * Further properties of the code *)

(** ** Shuffling and drawing *)

Lemma swapAt_Permutation {A} (xs : list A) (i j : nat) : swapAt xs i j ≡ₚ xs.
Proof.
  unfold swapAt.
  destruct (xs !! i) as [a|] eqn:Hi; [|reflexivity].
  destruct (xs !! j) as [b|] eqn:Hj; [|reflexivity].
  by apply Permutation_insert_swap.
Qed.

Lemma shuffleFrom_Permutation {A} (i : nat) (draws : list nat) (xs : list A) :
  shuffleFrom i draws xs ≡ₚ xs.
Proof.
  revert draws xs. induction i as [|i IH]; intros draws xs; [reflexivity|].
  cbn [shuffleFrom]. rewrite IH. apply swapAt_Permutation.
Qed.

Lemma shuffleArray_Permutation {A} (draws : list nat) (xs : list A) :
  shuffleArray draws xs ≡ₚ xs.
Proof. apply shuffleFrom_Permutation. Qed.

Lemma shuffleArray_length {A} (draws : list nat) (xs : list A) :
  length (shuffleArray draws xs) = length xs.
Proof. by rewrite shuffleArray_Permutation. Qed.

(** The Fisher-Yates loop of [createTileBag], [shuffleArray], [shuffleRack]
    and [exchange_tiles] rearranges its array: whatever [Math.random]
    returns, the result holds the same elements, each as often as before. *)
Theorem shuffle_is_permutation {A} (draws : list nat) (xs : list A) :
  shuffleArray draws xs ≡ₚ xs ∧ length (shuffleArray draws xs) = length xs.
Proof.
  split; [apply shuffleArray_Permutation|apply shuffleArray_length].
Qed.

Lemma sliceTo_is_take {A} (xs : list A) (e : Z) :
  sliceTo xs e
  = take (Z.to_nat (if bool_decide (e < 0) then Z.of_nat (length xs) + e else e)) xs.
Proof. unfold sliceTo. by case_bool_decide. Qed.

Lemma take_drop_taken {A} (xs : list A) (n : nat) :
  take n xs ++ drop (length (take n xs)) xs = xs.
Proof.
  rewrite length_take. destruct (decide (n ≤ length xs)%nat).
  - rewrite Nat.min_l by done. apply take_drop.
  - rewrite Nat.min_r by lia. rewrite take_ge, drop_all by lia. apply app_nil_r.
Qed.

Lemma drawTiles_app (bag : list Tile) (count : Z) :
  (drawTiles bag count).1 ++ (drawTiles bag count).2 = bag.
Proof.
  unfold drawTiles. cbn [fst snd]. rewrite sliceTo_is_take. apply take_drop_taken.
Qed.

(** [drawTiles] splits the bag: the drawn tiles followed by the remaining
    ones are the bag, in order; with a count that is not negative it draws
    [count] tiles, or the whole bag when the bag is shorter, and never
    fails. *)
Theorem drawTiles_splits_bag (bag : list Tile) (count : Z) :
  (drawTiles bag count).1 ++ (drawTiles bag count).2 = bag
  ∧ (drawTiles bag count).1
    = take (Z.to_nat (if bool_decide (count < 0)
                      then Z.of_nat (length bag) + count else count)) bag.
Proof.
  split; [apply drawTiles_app|].
  unfold drawTiles. cbn [fst snd]. rewrite sliceTo_is_take.
  repeat case_bool_decide; try lia.
  - f_equal. lia.
  - destruct (decide (count <= Z.of_nat (length bag))).
    + f_equal. lia.
    + rewrite !take_ge by lia. done.
Qed.

Lemma drawTiles_lengths (bag : list Tile) (count : Z) :
  0 <= count →
  length (drawTiles bag count).1 = Nat.min (Z.to_nat count) (length bag)
  ∧ (length (drawTiles bag count).1 + length (drawTiles bag count).2)%nat
    = length bag.
Proof.
  intros Hc. pose proof (drawTiles_app bag count) as Happ.
  split.
  - unfold drawTiles. cbn [fst]. rewrite sliceTo_is_take, length_take.
    rewrite bool_decide_eq_false_2 by lia. lia.
  - rewrite <- length_app. by rewrite Happ.
Qed.

(** ** The tile bag *)

Lemma tilesOfLetter_content (genTileId : nat → string) (counter : nat)
    (l : string) (count : nat) (v : Z) :
  map tileContent (tilesOfLetter genTileId counter l count v)
  = replicate count (if decide (l = "?") then "" else l, v, bool_decide (l = "?"))
  ∧ map tid (tilesOfLetter genTileId counter l count v)
    = map genTileId (seq (S counter) count).
Proof.
  revert counter. induction count as [|n IH]; intros counter; [done|].
  cbn [tilesOfLetter map replicate seq]. destruct (IH (S counter)) as [-> ->].
  done.
Qed.

Lemma unshuffledBag_content (genTileId : nat → string) (counter : nat)
    (dist : list (string * (nat * Z))) :
  map tileContent (unshuffledBag genTileId counter dist) = tableContent dist
  ∧ map tid (unshuffledBag genTileId counter dist)
    = map genTileId (seq (S counter) (tableSize dist)).
Proof.
  revert counter. induction dist as [|[l [count v]] rest IH]; intros counter; [done|].
  cbn [unshuffledBag tableContent tableSize flat_map foldr].
  rewrite !map_app.
  destruct (tilesOfLetter_content genTileId counter l count v) as [-> ->].
  destruct (IH (counter + count)%nat) as [-> ->].
  split; [done|]. rewrite seq_app, map_app. repeat f_equal; lia.
Qed.

Lemma createTileBag_tiles (genTileId : nat → string) (counter : nat)
    (draws : list nat) :
  map tileContent (createTileBag genTileId counter draws)
  ≡ₚ tableContent TILE_DISTRIBUTION.
Proof.
  unfold createTileBag.
  destruct (unshuffledBag_content genTileId counter TILE_DISTRIBUTION) as [<- _].
  apply Permutation_map, shuffleArray_Permutation.
Qed.

Lemma createTileBag_length (genTileId : nat → string) (counter : nat)
    (draws : list nat) :
  length (createTileBag genTileId counter draws) = 100%nat.
Proof.
  by rewrite <- (length_map tileContent), createTileBag_tiles.
Qed.

(** [createTileBag] yields, for every id generator and every outcome of the
    shuffle, exactly 100 tiles whose letters, values and blank flags are
    those of the distribution table, each as often as the table says, and
    whose ids are the 100 ids generated during the call. *)
Theorem createTileBag_content (genTileId : nat → string) (counter : nat)
    (draws : list nat) :
  length (createTileBag genTileId counter draws) = 100%nat
  ∧ map tileContent (createTileBag genTileId counter draws)
    ≡ₚ tableContent TILE_DISTRIBUTION
  ∧ map tid (createTileBag genTileId counter draws)
    ≡ₚ map genTileId (seq (S counter) 100).
Proof.
  unfold createTileBag.
  pose proof (shuffleArray_Permutation draws
                (unshuffledBag genTileId counter TILE_DISTRIBUTION)) as Hperm.
  pose proof (shuffleArray_length draws
                (unshuffledBag genTileId counter TILE_DISTRIBUTION)) as Hlen.
  destruct (unshuffledBag_content genTileId counter TILE_DISTRIBUTION) as [Hc Hi].
  split; [|split].
  - rewrite Hlen, <- (length_map tileContent), Hc. reflexivity.
  - rewrite <- Hc. by apply Permutation_map.
  - replace (map genTileId (seq (S counter) 100))
      with (map tid (unshuffledBag genTileId counter TILE_DISTRIBUTION))
      by exact Hi.
    by apply Permutation_map.
Qed.

(** Every tile of a fresh bag is worth what [getLetterValue] gives for its
    letter, and for each key of the table the bag holds [getTileCount] tiles
    of that key: so many of each letter, and two blanks for ["?"]. *)
Theorem createTileBag_agrees_with_table (genTileId : nat → string)
    (counter : nat) (draws : list nat) :
  Forall (fun t => value t = getLetterValue (letter t))
         (createTileBag genTileId counter draws)
  ∧ Forall (fun kv => countOfKey kv.1 (createTileBag genTileId counter draws)
                      = getTileCount kv.1)
           TILE_DISTRIBUTION.
Proof.
  pose proof (createTileBag_tiles genTileId counter draws) as Hperm.
  split.
  - assert (Hall : Forall (fun c : string * Z * bool => c.1.2 = getLetterValue c.1.1)
                     (map tileContent (createTileBag genTileId counter draws))).
    { rewrite Hperm. apply Forall_forall. intros c Hc.
      assert (Hb : forallb (fun c : string * Z * bool =>
                              bool_decide (c.1.2 = getLetterValue c.1.1))
                     (tableContent TILE_DISTRIBUTION) = true)
        by (vm_compute; reflexivity).
      rewrite forallb_forall in Hb. apply list_elem_of_In, Hb in Hc.
      by apply bool_decide_eq_true in Hc. }
    apply Forall_forall. intros t Ht. rewrite Forall_forall in Hall.
    apply (Hall (tileContent t)). apply list_elem_of_In, in_map, list_elem_of_In, Ht.
  - apply Forall_forall. intros kv Hkv. unfold countOfKey. rewrite Hperm.
    assert (Hb : forallb (fun kv : string * (nat * Z) =>
                   bool_decide (length (filter (fun c => contentOfKey kv.1 c = true)
                                          (tableContent TILE_DISTRIBUTION))
                                = getTileCount kv.1)) TILE_DISTRIBUTION = true)
      by (vm_compute; reflexivity).
    rewrite forallb_forall in Hb. apply list_elem_of_In, Hb in Hkv.
    by apply bool_decide_eq_true in Hkv.
Qed.

Lemma drawTiles_enough (bag : list Tile) (count : Z) :
  0 <= count <= Z.of_nat (length bag) →
  drawTiles bag count = (take (Z.to_nat count) bag, drop (Z.to_nat count) bag).
Proof.
  intros Hc. unfold drawTiles. rewrite sliceTo_is_take.
  rewrite bool_decide_eq_false_2 by lia. rewrite Z.min_l by lia.
  rewrite length_take, Nat.min_l by lia. done.
Qed.

(** ** From creation to the first move *)

Lemma emptyBoard_holds_no_tile : tilesOnBoard createEmptyBoard = 0%nat.
Proof. vm_compute. reflexivity. Qed.

(** When a second player joins a room that was just created, the game
    starts: both racks hold seven tiles, the bag 86, and the first rack, the
    second rack and the bag are, in this order, the shuffled bag of the
    creation; the board is empty, the scores are 0, the creator is to move,
    and bag, racks and board hold 100 tiles. *)
Theorem game_starts_with_full_racks (genTileId : nat → string)
    (wsOpen : nat → bool) (roomCode : string) (sock1 : nat) (given1 : string)
    (counter : nat) (draws : list nat) (now : Z) (sock2 : nat)
    (given2 : string) (counter2 : nat) :
  ∃ room out p0 p1,
    handleJoinRoom genTileId wsOpen
      (handleCreateRoom genTileId wsOpen roomCode sock1 given1 counter draws now).1.1
      sock2 given2 counter2
    = Some (room, Some (genTileId (S counter2)), out)
    ∧ players room = [p0; p1]
    ∧ pid p0 = genTileId (S counter) ∧ pid p1 = genTileId (S counter2)
    ∧ length (rack p0) = 7%nat ∧ length (rack p1) = 7%nat
    ∧ length (tileBag room) = 86%nat
    ∧ rack p0 ++ rack p1 ++ tileBag room = createTileBag genTileId (S counter) draws
    ∧ score p0 = 0 ∧ score p1 = 0
    ∧ board room = createEmptyBoard
    ∧ started room = true ∧ gameOver room = false
    ∧ currentTurnIndex room = 0 ∧ isFirstMove room = true
    ∧ consecutivePasses room = 0
    ∧ totalTiles room = 100%nat.
Proof.
  pose proof (createTileBag_length genTileId (S counter) draws) as Hlen.
  unfold handleCreateRoom.
  set (bag := createTileBag genTileId (S counter) draws) in *. clearbody bag.
  rewrite (drawTiles_enough bag 7) by lia. cbn [fst snd].
  unfold handleJoinRoom. cbn [players length tileBag].
  rewrite bool_decide_eq_false_2 by lia.
  rewrite (drawTiles_enough (drop (Z.to_nat 7) bag) 7)
    by (rewrite length_drop; lia).
  cbn [players app lookup list_lookup mbind option_bind].
  eexists _, _, _, _. split; [reflexivity|].
  change (Z.to_nat 7) with 7%nat.
  assert (H7 : length (take 7 bag) = 7%nat) by (rewrite length_take; lia).
  assert (H14 : length (take 7 (drop 7 bag)) = 7%nat)
    by (rewrite length_take, length_drop; lia).
  assert (H86 : length (drop 7 (drop 7 bag)) = 86%nat)
    by (rewrite !length_drop; lia).
  unfold totalTiles.
  cbn [code players board tileBag currentTurnIndex isFirstMove consecutivePasses
       gameOver winner moveHistory createdAt started
       ws pid name rack score connected foldr].
  rewrite H7, H14, H86, emptyBoard_holds_no_tile.
  repeat split; try reflexivity; cbn [rack]; try assumption.
  by rewrite !take_drop.
Qed.

(** ** Turn discipline *)

Lemma findIndexById_seat (room : GameRoom) (playerId : string) (p : Player) :
  playerAt room (findIndexById room playerId) = Some p →
  p ∈ players room ∧ pid p = playerId.
Proof.
  unfold findIndexById, playerAt.
  destruct (list_find _ (players room)) as [[i q]|] eqn:Hfind; [|done].
  rewrite bool_decide_eq_true_2 by lia. rewrite Nat2Z.id.
  apply list_find_Some in Hfind as (Hq & Hpid & _). intros Hp.
  rewrite Hq in Hp. injection Hp as <-.
  split; [by eapply list_elem_of_lookup_2|done].
Qed.

(** Only the player to move changes a room. A place_tiles, pass_turn or
    exchange_tiles message from a connection whose player is not the one to
    move leaves the room exactly as it was; nothing is sent, except for an
    error message to the sender's own seat (["Not your turn"], or ["Not
    enough tiles to exchange"]). *)
Theorem only_mover_changes_room (wsOpen : nat → bool) (room room' : GameRoom)
    (playerId : string) (msg : ClientMsg) (out : list (nat * ServerMsg)) :
  handleGameMsg wsOpen room playerId msg = Some (room', out) →
  findIndexById room playerId ≠ currentTurnIndex room →
  room' = room
  ∧ (out = []
     ∨ ∃ sender text, sender ∈ players room ∧ pid sender = playerId
                      ∧ out = sendToPlayer wsOpen sender (ErrorMsg text)).
Proof.
  intros Hrun Hturn. destruct msg as [placedTiles| |tileIds draws];
    cbn [handleGameMsg] in Hrun.
  - unfold handlePlaceTiles in Hrun.
    destruct (negb (started room) || gameOver room).
    { injection Hrun as <- <-. by split; [|left]. }
    rewrite bool_decide_eq_true_2 in Hrun by done.
    apply bind_Some in Hrun as (sender & Hsender & Hrun).
    injection Hrun as <- <-. split; [done|]. right.
    destruct (findIndexById_seat _ _ _ Hsender). by exists sender, "Not your turn".
  - unfold handlePassTurn in Hrun.
    destruct (negb (started room) || gameOver room).
    { injection Hrun as <- <-. by split; [|left]. }
    rewrite bool_decide_eq_true_2 in Hrun by done.
    injection Hrun as <- <-. by split; [|left].
  - unfold handleExchangeTiles in Hrun.
    destruct (negb (started room) || gameOver room).
    { injection Hrun as <- <-. by split; [|left]. }
    case_bool_decide.
    + apply bind_Some in Hrun as ([i sender] & Hfind & Hrun).
      injection Hrun as <- <-. split; [done|]. right.
      apply list_find_Some in Hfind as (Hi & Hpid & _).
      exists sender, "Not enough tiles to exchange".
      split; [by eapply list_elem_of_lookup_2|done].
    + rewrite bool_decide_eq_true_2 in Hrun by done.
      injection Hrun as <- <-. by split; [|left].
Qed.

(** Instance: Bob's pass while Ann is to move. *)
Lemma only_mover_changes_room_witness :
  handleGameMsg allOpen endgameRoom "bob" PassTurn = Some (endgameRoom, [])
  ∧ findIndexById endgameRoom "bob" ≠ currentTurnIndex endgameRoom.
Proof.
  assert (Hrun : handleGameMsg allOpen endgameRoom "bob" PassTurn
                 = Some (endgameRoom, [])) by reflexivity.
  assert (Hturn : findIndexById endgameRoom "bob" ≠ currentTurnIndex endgameRoom)
    by (intros Heq; inversion Heq).
  destruct (only_mover_changes_room allOpen endgameRoom endgameRoom "bob"
              PassTurn [] Hrun Hturn) as [_ _].
  split; [exact Hrun|exact Hturn].
Defined.

(** ** The shape of a room after a message *)

Lemma sameSeat_refl (p : Player) : sameSeat p p.
Proof. by repeat split. Qed.

Lemma sameSeat_setScore (p : Player) (s : Z) : sameSeat (setScore p s) p.
Proof. by repeat split. Qed.

Lemma sameSeat_trans (p q r : Player) : sameSeat p q → sameSeat q r → sameSeat p r.
Proof.
  intros (? & ? & ? & ? & ?) (? & ? & ? & ? & ?). repeat split; congruence.
Qed.

Lemma Forall2_sameSeat_refl (ps : list Player) : Forall2 sameSeat ps ps.
Proof. induction ps; constructor; [apply sameSeat_refl|done]. Qed.

Lemma Forall2_sameSeat_trans (ps qs rs : list Player) :
  Forall2 sameSeat ps qs → Forall2 sameSeat qs rs → Forall2 sameSeat ps rs.
Proof.
  intros H. revert rs. induction H as [|p q ps qs Hpq _ IH]; intros rs Hr.
  - by inversion Hr.
  - inversion Hr as [|? r ? rs' Hqr Hrest]; subst. constructor.
    + by eapply sameSeat_trans.
    + by apply IH.
Qed.

(** Changing the score of the player at an index keeps every seat. *)
Lemma Forall2_sameSeat_rescore (ps : list Player) (i : nat) (p : Player) (s : Z) :
  ps !! i = Some p → Forall2 sameSeat (<[i := setScore p s]> ps) ps.
Proof.
  revert i. induction ps as [|q ps IH]; intros i Hi; [done|].
  destruct i as [|i]; simplify_eq/=.
  - constructor; [apply sameSeat_setScore|apply Forall2_sameSeat_refl].
  - constructor; [apply sameSeat_refl|by apply IH].
Qed.

Lemma Forall2_sameSeat_map_rescore (ps : list Player) (f : Player → Z) :
  Forall2 sameSeat (map (fun p => setScore p (f p)) ps) ps.
Proof. induction ps; constructor; [apply sameSeat_setScore|done]. Qed.

Lemma sameSeat_racks (ps qs : list Player) :
  Forall2 sameSeat ps qs → flat_map rack ps = flat_map rack qs.
Proof.
  induction 1 as [|p q ps qs (_ & _ & _ & Hr & _) _ IH]; [done|].
  cbn [flat_map]. by rewrite Hr, IH.
Qed.

Lemma sameSeat_length (ps qs : list Player) :
  Forall2 sameSeat ps qs → length ps = length qs.
Proof. apply Forall2_length. Qed.

Lemma sameSeat_bounded (ps qs : list Player) (n : nat) :
  Forall2 sameSeat ps qs →
  Forall (fun p => (length (rack p) <= n)%nat) qs →
  Forall (fun p => (length (rack p) <= n)%nat) ps.
Proof.
  induction 1 as [|p q ps qs (_ & _ & _ & Hr & _) _ IH]; [done|].
  intros Hq. apply Forall_cons in Hq as [Hq Hqs]. constructor; [|by apply IH].
  by rewrite Hr.
Qed.

(** The racks of a list of players when one rack is replaced. *)
Lemma racks_after_insert (ps : list Player) (i : nat) (p p' : Player) :
  ps !! i = Some p →
  ∃ before after,
    flat_map rack ps = before ++ rack p ++ after
    ∧ flat_map rack (<[i := p']> ps) = before ++ rack p' ++ after.
Proof.
  revert i. induction ps as [|q ps IH]; intros i Hi; [done|].
  destruct i as [|i]; simplify_eq/=.
  - by exists [], (flat_map rack ps).
  - destruct (IH i Hi) as (before & after & -> & ->).
    exists (rack q ++ before), after. by rewrite <- !app_assoc.
Qed.

Lemma bounded_after_insert (ps : list Player) (i : nat) (p' : Player) (n : nat) :
  Forall (fun p => (length (rack p) <= n)%nat) ps →
  (length (rack p') <= n)%nat →
  Forall (fun p => (length (rack p) <= n)%nat) (<[i := p']> ps).
Proof. intros Hall Hp. by apply Forall_insert. Qed.

Lemma Forall2_sameSeat_insert (ps : list Player) (i : nat) (p q : Player) :
  sameSeat p q → Forall2 sameSeat (<[i := p]> ps) (<[i := q]> ps).
Proof.
  intros Hpq. revert i. induction ps as [|r ps IH]; intros i; [constructor|].
  destruct i as [|i]; cbn.
  - constructor; [done|apply Forall2_sameSeat_refl].
  - constructor; [apply sameSeat_refl|apply IH].
Qed.

(** What a committed move makes of the room. *)
Lemma commitMove_shape (wsOpen : nat → bool) (room room' : GameRoom)
    (playerId : string) (idx : Z) (player : Player)
    (placedTiles : list PlacedTile) (ws : list FormedWord)
    (out : list (nat * ServerMsg)) :
  commitMove wsOpen room playerId idx player placedTiles ws = Some (room', out) →
  ∃ points board',
    calculateScore (board room) placedTiles = Some points
    ∧ placeAll (board room) placedTiles = Some board'
    ∧ board room' = board'
    ∧ tileBag room'
      = (drawTiles (tileBag room)
           (Z.max 0 (7 - Z.of_nat (length (keptTiles (rack player) placedTiles))))).2
    ∧ Forall2 sameSeat (players room')
        (<[Z.to_nat idx :=
             setRack player
               (keptTiles (rack player) placedTiles
                ++ (drawTiles (tileBag room)
                      (Z.max 0 (7 - Z.of_nat (length (keptTiles (rack player)
                                                        placedTiles))))).1)]>
           (players room))
    ∧ currentTurnIndex room' = Z.rem (currentTurnIndex room + 1) 2
    ∧ isFirstMove room' = false ∧ consecutivePasses room' = 0
    ∧ (gameOver room' = true
       ∨ gameOver room' = gameOver room ∧ winner room' = winner room)
    ∧ moveHistory room'
      = moveHistory room
        ++ [mkMove (name player) (match ws with w :: _ => word w | [] => "" end)
              points Play]
    ∧ code room' = code room ∧ createdAt room' = createdAt room
    ∧ started room' = started room.
Proof.
  unfold commitMove, keptTiles. intros Hrun.
  apply bind_Some in Hrun as (points & Hpoints & Hrun).
  apply bind_Some in Hrun as (board' & Hboard & Hrun).
  destruct (drawTiles _ _) as [drawn remaining] eqn:Hdraw.
  apply bind_Some in Hrun as ([[players' over] win] & Hfinal & Hrun).
  injection Hrun as <- <-. cbn [fst snd].
  exists points, board'.
  cbn [board tileBag players currentTurnIndex isFirstMove consecutivePasses
       gameOver winner moveHistory code createdAt started].
  repeat split; try done.
  - set (mover := mkPlayer _ _ _ (_ ++ drawn) _ _) in *.
    assert (Hmover : sameSeat mover
              (setRack player
                 (filter (fun t => ¬ Exists (fun pt => tid (ptile pt) = tid t)
                                       placedTiles) (rack player) ++ drawn)))
      by (by repeat split).
    destruct (_ && _) in Hfinal.
    + apply bind_Some in Hfinal as ([j opponent] & Hfind & Hfinal).
      apply bind_Some in Hfinal as (mover2 & Hmover2 & Hfinal).
      apply bind_Some in Hfinal as (opponent3 & _ & Hfinal).
      injection Hfinal as <- _ _.
      apply list_find_Some in Hfind as (Hj & _).
      eapply Forall2_sameSeat_trans;
        [by apply Forall2_sameSeat_rescore|].
      eapply Forall2_sameSeat_trans;
        [by apply Forall2_sameSeat_rescore|].
      by apply Forall2_sameSeat_insert.
    + injection Hfinal as <- _ _. by apply Forall2_sameSeat_insert.
  - destruct (_ && _) in Hfinal.
    + apply bind_Some in Hfinal as ([j opponent] & Hfind & Hfinal).
      apply bind_Some in Hfinal as (mover2 & Hmover2 & Hfinal).
      apply bind_Some in Hfinal as (opponent3 & _ & Hfinal).
      injection Hfinal as _ <- _. by left.
    + injection Hfinal as _ <- <-. by right.
Qed.

Lemma all_words_valid (ws : list FormedWord) :
  filter (fun w => isValidWord (word w) = false) ws = [] →
  Forall (fun v => isValidWord (word v) = true) ws.
Proof.
  induction ws as [|w ws IH]; [constructor|].
  destruct (isValidWord (word w)) eqn:Hw.
  - rewrite filter_cons_False by (rewrite Hw; intros Habs; inversion Habs).
    intros Hrest. constructor; [exact Hw|by apply IH].
  - rewrite filter_cons_True by exact Hw. intros Habs. inversion Habs.
Qed.

(** A place_tiles message either leaves the room as it is or is an accepted
    move that is committed. *)
Lemma handlePlaceTiles_cases (wsOpen : nat → bool) (room room' : GameRoom)
    (playerId : string) (placedTiles : list PlacedTile)
    (out : list (nat * ServerMsg)) :
  handlePlaceTiles wsOpen room playerId placedTiles = Some (room', out) →
  room' = room
  ∨ ∃ sender ws,
      moveAccepted room playerId sender placedTiles
      ∧ getFormedWords (board room) placedTiles = Some ws
      ∧ commitMove wsOpen room playerId (findIndexById room playerId) sender
          placedTiles ws = Some (room', out).
Proof.
  unfold handlePlaceTiles. intros Hrun.
  destruct (started room) eqn:Hstarted; cbn [negb orb] in Hrun;
    [|injection Hrun as <- <-; by left].
  destruct (gameOver room) eqn:Hover; [injection Hrun as <- <-; by left|].
  case_bool_decide as Hturn.
  { apply bind_Some in Hrun as (sender & _ & Hrun). injection Hrun as <- <-. by left. }
  apply bind_Some in Hrun as (sender & Hsender & Hrun).
  case_bool_decide as Hlen; [injection Hrun as <- <-; by left|].
  destruct (existsb _ placedTiles) eqn:Hown; [injection Hrun as <- <-; by left|].
  apply unowned_test in Hown.
  apply bind_Some in Hrun as (validation & Hvalid & Hrun).
  destruct validation as [|e]; [|injection Hrun as <- <-; by left].
  apply bind_Some in Hrun as (ws & Hwords & Hrun).
  destruct (filter _ ws) as [|bad rest] eqn:Hfilter;
    [|injection Hrun as <- <-; by left].
  right. exists sender, ws. split; [|by split].
  repeat split; try done.
  - intros ->. by apply Hlen.
  - exists ws. split; [done|]. by apply all_words_valid.
Qed.

(** ** What every room of the server satisfies *)

Lemma inventory_step {A} (before after kept rack drawn remaining : list A) :
  kept ⊆+ rack →
  (before ++ (kept ++ drawn) ++ after) ++ remaining
  ⊆+ (before ++ rack ++ after) ++ (drawn ++ remaining).
Proof.
  intros Hkept. rewrite <- !app_assoc. apply submseteq_skips_l.
  apply submseteq_app; [done|].
  apply Permutation_submseteq. rewrite !app_assoc.
  apply Permutation_app_tail, Permutation_app_comm.
Qed.

Lemma playerAt_lookup (room : GameRoom) (i : Z) (p : Player) :
  playerAt room i = Some p → players room !! Z.to_nat i = Some p.
Proof. unfold playerAt. by case_bool_decide. Qed.

Lemma premiumAt_placeAll (placedTiles : list PlacedTile) (b b' : Board) (r c : Z) :
  placeAll b placedTiles = Some b' → premiumAt b' r c = premiumAt b r c.
Proof.
  intros H. unfold premiumAt.
  pose proof (placeAll_premium _ _ _ r c H) as Hp.
  destruct (getCell b' r c), (getCell b r c); simplify_eq/=; done.
Qed.

Lemma next_turn (t : Z) : t = 0 ∨ t = 1 → Z.rem (t + 1) 2 = 1 - t.
Proof. by intros [-> | ->]. Qed.

Lemma refill_bounded (rack bag : list Tile) (placedTiles : list PlacedTile) :
  (length rack <= 7)%nat →
  (length (keptTiles rack placedTiles
           ++ (drawTiles bag
                 (Z.max 0 (7 - Z.of_nat (length (keptTiles rack placedTiles))))).1)
   <= 7)%nat.
Proof.
  intros Hrack.
  pose proof (length_filter
                (fun t => ¬ Exists (fun pt => tid (ptile pt) = tid t) placedTiles) rack)
    as Hkept.
  fold (keptTiles rack placedTiles) in Hkept.
  destruct (drawTiles_lengths bag
              (Z.max 0 (7 - Z.of_nat (length (keptTiles rack placedTiles)))))
    as [Hdrawn _]; [lia|].
  rewrite length_app, Hdrawn. lia.
Qed.

Lemma place_keeps_invariant (wsOpen : nat → bool) (bag0 : list Tile)
    (room room' : GameRoom) (playerId : string) (placedTiles : list PlacedTile)
    (out : list (nat * ServerMsg)) :
  roomInvariant bag0 room →
  handlePlaceTiles wsOpen room playerId placedTiles = Some (room', out) →
  roomInvariant bag0 room'.
Proof.
  intros Hinv Hrun.
  destruct (handlePlaceTiles_cases _ _ _ _ _ _ Hrun)
    as [->|(sender & ws & Hacc & Hwords & Hcommit)]; [done|].
  destruct Hacc as (_ & Hover & _ & Hsender & _).
  apply playerAt_lookup in Hsender.
  destruct (commitMove_shape _ _ _ _ _ _ _ _ _ Hcommit)
    as (points & board' & _ & Hboard & Hb & Hbag & Hseats & Hturn & Hfirst
        & Hpasses & _ & _ & _ & _ & Hstarted).
  destruct Hinv as (Hlen & Hst & Hwf & Hprem & Hracks & Hidx & Hp & Hp4 & Hempty
                    & Hinventory).
  set (kept := keptTiles (rack sender) placedTiles) in *.
  set (draw := drawTiles (tileBag room) (Z.max 0 (7 - Z.of_nat (length kept)))) in *.
  assert (Hlen' : length (players room') = length (players room))
    by (rewrite (sameSeat_length _ _ Hseats); apply length_insert).
  unfold roomInvariant. rewrite Hlen', Hstarted, Hb, Hturn, Hfirst, Hpasses.
  split; [done|]. split; [done|]. split; [by eapply placeAll_wf|].
  split; [intros r c; by rewrite (premiumAt_placeAll _ _ _ r c Hboard)|].
  split.
  { eapply sameSeat_bounded; [exact Hseats|].
    apply bounded_after_insert; [done|]. cbn [setRack rack].
    apply refill_bounded. rewrite Forall_forall in Hracks.
    apply Hracks. by eapply list_elem_of_lookup_2. }
  split; [rewrite next_turn by done; lia|]. split; [lia|]. split; [lia|].
  split; [done|].
  unfold rackTiles. rewrite (sameSeat_racks _ _ Hseats), Hbag.
  destruct (racks_after_insert (players room) (Z.to_nat (findIndexById room playerId))
              sender (setRack sender (kept ++ draw.1)) Hsender)
    as (before & after & Hold & ->).
  cbn [setRack rack]. etrans; [|exact Hinventory].
  unfold rackTiles. rewrite Hold.
  pose proof (drawTiles_app (tileBag room) (Z.max 0 (7 - Z.of_nat (length kept))))
    as Hsplit.
  change (draw.1 ++ draw.2 = tileBag room) in Hsplit. rewrite <- Hsplit.
  apply inventory_step. apply sublist_submseteq, sublist_filter.
Qed.

Lemma pass_keeps_invariant (wsOpen : nat → bool) (bag0 : list Tile)
    (room room' : GameRoom) (playerId : string) (out : list (nat * ServerMsg)) :
  roomInvariant bag0 room →
  handlePassTurn wsOpen room playerId = Some (room', out) →
  roomInvariant bag0 room'.
Proof.
  intros Hinv. unfold handlePassTurn.
  destruct (started room) eqn:Hstarted; cbn [negb orb];
    [|by intros [= <- <-]].
  destruct (gameOver room) eqn:Hover; [by intros [= <- <-]|].
  case_bool_decide as Hturn; [by intros [= <- <-]|].
  intros Hrun. apply bind_Some in Hrun as (player & _ & Hrun).
  apply bind_Some in Hrun as ([[players' over] win] & Hfinal & Hrun).
  injection Hrun as <- <-.
  destruct Hinv as (Hlen & Hst & Hwf & Hprem & Hracks & Hidx & Hp & Hp4 & Hempty
                    & Hinventory).
  specialize (Hp4 Hover).
  assert (Hseats : Forall2 sameSeat players' (players room)
                   ∧ (over = false → consecutivePasses room + 1 < 4)).
  { case_bool_decide as Hfour.
    - apply bind_Some in Hfinal as (p0 & _ & Hfinal).
      apply bind_Some in Hfinal as (p1 & _ & Hfinal).
      injection Hfinal as <- <- _. split; [|done].
      apply Forall2_sameSeat_map_rescore.
    - injection Hfinal as <- <- _. split; [apply Forall2_sameSeat_refl|lia]. }
  destruct Hseats as [Hseats Hless].
  unfold roomInvariant.
  cbn [players started board currentTurnIndex consecutivePasses gameOver
       isFirstMove tileBag].
  rewrite (sameSeat_length _ _ Hseats). unfold rackTiles.
  cbn [players]. rewrite (sameSeat_racks _ _ Hseats).
  split; [done|]. split; [split; [intros _; by apply Hst|done]|]. split; [done|]. split; [done|].
  split; [by eapply sameSeat_bounded|].
  split; [rewrite next_turn by done; lia|].
  split; [lia|]. split; [exact Hless|]. split; done.
Qed.

Lemma exchange_keeps_invariant (wsOpen : nat → bool) (bag0 : list Tile)
    (room room' : GameRoom) (playerId : string) (tileIds : list string)
    (draws : list nat) (out : list (nat * ServerMsg)) :
  roomInvariant bag0 room →
  handleExchangeTiles wsOpen room playerId tileIds draws = Some (room', out) →
  roomInvariant bag0 room'.
Proof.
  intros Hinv. unfold handleExchangeTiles.
  destruct (started room) eqn:Hstarted; cbn [negb orb];
    [|by intros [= <- <-]].
  destruct (gameOver room) eqn:Hover; [by intros [= <- <-]|].
  case_bool_decide as Hbag.
  { intros Hrun. apply bind_Some in Hrun as ([i sender] & _ & Hrun).
    by injection Hrun as <- <-. }
  case_bool_decide as Hturn; [by intros [= <- <-]|].
  intros Hrun. apply bind_Some in Hrun as (player & Hplayer & Hrun).
  apply playerAt_lookup in Hplayer.
  set (swapped := filter (fun t => tid t ∈ tileIds) (rack player)) in *.
  set (kept := filter (fun t => tid t ∉ tileIds) (rack player)) in *.
  destruct (drawTiles_lengths (tileBag room) (Z.of_nat (length swapped)))
    as [Hdrawn _]; [lia|].
  pose proof (drawTiles_app (tileBag room) (Z.of_nat (length swapped)))
    as Hsplit.
  destruct (drawTiles (tileBag room) (Z.of_nat (length swapped)))
    as [drawn remaining] eqn:Hdraw.
  cbn [fst snd] in Hdrawn, Hsplit.
  injection Hrun as <- <-.
  destruct Hinv as (Hlen & Hst & Hwf & Hprem & Hracks & Hidx & Hp & Hp4 & Hempty
                    & Hinventory).
  assert (Hparts : swapped ++ kept ≡ₚ rack player)
    by apply filter_app_complement.
  unfold roomInvariant.
  cbn [players started board currentTurnIndex consecutivePasses gameOver
       isFirstMove tileBag].
  rewrite length_insert.
  split; [done|]. split; [split; [intros _; by apply Hst|done]|]. split; [done|]. split; [done|].
  split.
  { apply bounded_after_insert; [done|]. cbn [setRack rack].
    rewrite Forall_forall in Hracks.
    pose proof (Hracks player (list_elem_of_lookup_2 _ _ _ Hplayer)) as Hrack.
    rewrite <- Hparts, length_app in Hrack. rewrite length_app. lia. }
  split; [rewrite next_turn by done; lia|].
  split; [lia|]. split; [intros _; lia|]. split; [done|].
  - unfold rackTiles. cbn [players].
    destruct (racks_after_insert (players room)
                (Z.to_nat (findIndexById room playerId)) player
                (setRack player (kept ++ drawn)) Hplayer)
      as (before & after & Hold & ->).
    cbn [setRack rack]. etrans; [|exact Hinventory].
    unfold rackTiles. rewrite Hold. apply Permutation_submseteq.
    rewrite (shuffleArray_Permutation draws (remaining ++ swapped)).
    rewrite <- Hsplit, <- Hparts. rewrite <- !app_assoc.
    apply Permutation_app_head.
    etrans; [|apply Permutation_app_comm]. rewrite <- !app_assoc.
    apply Permutation_app_head. rewrite !app_assoc.
    apply Permutation_app_tail. rewrite <- !app_assoc.
    apply Permutation_app_swap_app.
Qed.

Lemma racks_same_after_insert (ps : list Player) (i : nat) (p p' : Player) :
  ps !! i = Some p → rack p' = rack p →
  flat_map rack (<[i := p']> ps) = flat_map rack ps.
Proof.
  intros Hi Hr.
  destruct (racks_after_insert ps i p p' Hi) as (before & after & -> & ->).
  by rewrite Hr.
Qed.

Lemma create_has_invariant (genTileId : nat → string) (wsOpen : nat → bool)
    (roomCode : string) (sock : nat) (given : string) (counter : nat)
    (draws : list nat) (now : Z) :
  roomInvariant (createTileBag genTileId (S counter) draws)
    (handleCreateRoom genTileId wsOpen roomCode sock given counter draws now).1.1.
Proof.
  pose proof (createTileBag_length genTileId (S counter) draws) as Hlen.
  unfold handleCreateRoom.
  set (bag := createTileBag genTileId (S counter) draws) in *. clearbody bag.
  rewrite (drawTiles_enough bag 7) by lia. cbn [fst snd].
  change (Z.to_nat 7) with 7%nat. unfold roomInvariant, rackTiles.
  cbn [players started board currentTurnIndex consecutivePasses gameOver
       isFirstMove tileBag length flat_map rack].
  split; [lia|]. split; [split; [done|lia]|].
  split; [apply createEmptyBoard_wf|]. split; [done|].
  split; [constructor; [cbn [rack]; rewrite length_take; lia|constructor]|].
  split; [by left|]. split; [lia|]. split; [lia|]. split; [done|].
  rewrite app_nil_r, take_drop. done.
Qed.

Lemma join_keeps_invariant (genTileId : nat → string) (wsOpen : nat → bool)
    (bag0 : list Tile) (room room' : GameRoom) (sock : nat) (given : string)
    (counter : nat) (newId : option string) (out : list (nat * ServerMsg)) :
  roomInvariant bag0 room →
  handleJoinRoom genTileId wsOpen room sock given counter = Some (room', newId, out) →
  roomInvariant bag0 room'.
Proof.
  intros Hinv. unfold handleJoinRoom.
  pose proof Hinv as (Hlen & Hst & Hwf & Hprem & Hracks & Hidx & Hp & Hp4 & Hempty
                      & Hinventory).
  case_bool_decide as Hfull.
  - destruct (list_find _ (players room)) as [[i slot]|] eqn:Hfind.
    + intros [= <- _ _]. apply list_find_Some in Hfind as (Hi & _).
      unfold roomInvariant, rackTiles, setPlayers.
      cbn [players started board currentTurnIndex consecutivePasses gameOver
           isFirstMove tileBag].
      rewrite length_insert, (racks_same_after_insert _ _ slot) by done.
      split; [done|]. split; [done|]. split; [done|]. split; [done|].
      split.
      { apply bounded_after_insert; [done|]. cbn [rack].
        rewrite Forall_forall in Hracks. apply Hracks.
        by eapply list_elem_of_lookup_2. }
      done.
    + intros [= <- _ _]. exact Hinv.
  - destruct (drawTiles_lengths (tileBag room) 7) as [Hdrawn _]; [lia|].
    pose proof (drawTiles_app (tileBag room) 7) as Hsplit.
    destruct (drawTiles (tileBag room) 7) as [drawn remaining].
    cbn [fst snd] in Hdrawn, Hsplit.
    intros Hrun. apply bind_Some in Hrun as (second & _ & Hrun).
    injection Hrun as <- _ _.
    unfold roomInvariant, rackTiles.
    cbn [players started board currentTurnIndex consecutivePasses gameOver
         isFirstMove tileBag].
    rewrite length_app, flat_map_app. cbn [length flat_map rack].
    split; [lia|]. split; [split; [lia|done]|]. split; [done|]. split; [done|].
    split.
    { apply Forall_app. split; [done|]. constructor; [|constructor].
      cbn [rack]. lia. }
    split; [done|]. split; [done|]. split; [done|]. split; [done|].
    etrans; [|exact Hinventory]. apply Permutation_submseteq.
    unfold rackTiles. rewrite <- Hsplit, app_nil_r, <- !app_assoc. done.
Qed.

Lemma close_keeps_invariant (wsOpen : nat → bool) (bag0 : list Tile)
    (room : GameRoom) (playerId : string) :
  roomInvariant bag0 room →
  roomInvariant bag0 (handleClose wsOpen room playerId).1.1.
Proof.
  intros Hinv. unfold handleClose.
  destruct (list_find _ (players room)) as [[i player]|] eqn:Hfind; [|done].
  cbn [fst snd].
  apply list_find_Some in Hfind as (Hi & _).
  destruct Hinv as (Hlen & Hst & Hwf & Hprem & Hracks & Hidx & Hp & Hp4 & Hempty
                    & Hinventory).
  unfold roomInvariant, rackTiles, setPlayers.
  cbn [players started board currentTurnIndex consecutivePasses gameOver
       isFirstMove tileBag].
  rewrite length_insert, (racks_same_after_insert _ _ player) by done.
  split; [done|]. split; [done|]. split; [done|]. split; [done|].
  split; [|done].
  apply bounded_after_insert; [done|]. cbn [rack].
  rewrite Forall_forall in Hracks. apply Hracks. by eapply list_elem_of_lookup_2.
Qed.

(** Every room that the server can hold satisfies the room invariant: one
    or two players, and two exactly when the game has started; a board of 15
    rows of 15 cells with the premium layout of the empty board; racks of at
    most seven tiles; a turn index that is 0 or 1; a pass counter between 0
    and 4, below 4 while the game is not over; an empty board as long as the
    first move is awaited; and racks and bag that hold only tiles of the bag
    shuffled at creation, none of them twice. No message, well-formed or not,
    breaks any of these. *)
Theorem reachable_rooms_keep_invariant (bag0 : list Tile) (room : GameRoom) :
  reachable bag0 room → roomInvariant bag0 room.
Proof.
  induction 1 as [genTileId wsOpen roomCode sock given counter draws now
                 |bag0 room genTileId wsOpen sock given counter room' newId out _ IH Hjoin
                 |bag0 room wsOpen playerId msg room' out _ IH Hmsg
                 |bag0 room wsOpen playerId _ IH].
  - apply create_has_invariant.
  - by eapply join_keeps_invariant.
  - destruct msg as [placedTiles| |tileIds draws]; cbn [handleGameMsg] in Hmsg.
    + by eapply place_keeps_invariant.
    + by eapply pass_keeps_invariant.
    + by eapply exchange_keeps_invariant.
  - by apply close_keeps_invariant.
Qed.

(** Instance: the room that Ann created and Bob joined. *)
Lemma reachable_rooms_keep_invariant_witness :
  reachable (createTileBag demoIds 1 stillDraws) openingRoom
  ∧ roomInvariant (createTileBag demoIds 1 stillDraws) openingRoom.
Proof.
  assert (Hreach : reachable (createTileBag demoIds 1 stillDraws) openingRoom).
  { destruct openingRoom_joined as [out Hjoin].
    eapply reach_join; [|exact Hjoin].
    apply (reach_create demoIds allOpen "ABCDEF" 1 "Ann" 0 stillDraws 0). }
  split; [exact Hreach|].
  apply (reachable_rooms_keep_invariant _ _ Hreach).
Defined.

(** ** Passing and exchanging *)

(** The tiles on the racks, counted as [totalTiles] counts them. *)
Lemma rack_count (ps : list Player) :
  foldr (fun p n => (length (rack p) + n)%nat) 0%nat ps
  = length (flat_map rack ps).
Proof.
  induction ps as [|p ps IH]; [done|]. cbn [foldr flat_map].
  by rewrite length_app, IH.
Qed.

Lemma totalTiles_alt (room : GameRoom) :
  totalTiles room
  = (length (tileBag room) + length (rackTiles room)
     + tilesOnBoard (board room))%nat.
Proof. unfold totalTiles, rackTiles. by rewrite rack_count. Qed.

(** Neither pass_turn nor exchange_tiles creates or loses a tile, whoever
    sends it and whatever it names: the board is untouched, and the tiles of
    the racks and the bag after the message are those before it, each as
    often; so the total of bag, racks and board is the same. *)
Theorem pass_and_exchange_keep_tiles (wsOpen : nat → bool)
    (room room' : GameRoom) (playerId : string) (msg : ClientMsg)
    (out : list (nat * ServerMsg)) :
  (∀ placedTiles, msg ≠ PlaceTiles placedTiles) →
  handleGameMsg wsOpen room playerId msg = Some (room', out) →
  board room' = board room
  ∧ rackTiles room' ++ tileBag room' ≡ₚ rackTiles room ++ tileBag room
  ∧ totalTiles room' = totalTiles room.
Proof.
  intros Hmsg Hrun.
  assert (Hgoal : board room' = board room
                  ∧ rackTiles room' ++ tileBag room' ≡ₚ rackTiles room ++ tileBag room).
  { destruct msg as [placedTiles| |tileIds draws]; cbn [handleGameMsg] in Hrun.
    - by destruct (Hmsg placedTiles).
    - unfold handlePassTurn in Hrun.
      destruct (negb (started room) || gameOver room); [by injection Hrun as <- <-|].
      case_bool_decide; [by injection Hrun as <- <-|].
      apply bind_Some in Hrun as (player & _ & Hrun).
      apply bind_Some in Hrun as ([[players' over] win] & Hfinal & Hrun).
      injection Hrun as <- <-. unfold rackTiles. cbn [board players tileBag].
      split; [done|].
      assert (Hseats : Forall2 sameSeat players' (players room)).
      { case_bool_decide.
        - apply bind_Some in Hfinal as (p0 & _ & Hfinal).
          apply bind_Some in Hfinal as (p1 & _ & Hfinal).
          injection Hfinal as <- _ _. apply Forall2_sameSeat_map_rescore.
        - injection Hfinal as <- _ _. apply Forall2_sameSeat_refl. }
      by rewrite (sameSeat_racks _ _ Hseats).
    - unfold handleExchangeTiles in Hrun.
      destruct (negb (started room) || gameOver room); [by injection Hrun as <- <-|].
      case_bool_decide.
      { apply bind_Some in Hrun as ([i sender] & _ & Hrun). by injection Hrun as <- <-. }
      case_bool_decide; [by injection Hrun as <- <-|].
      apply bind_Some in Hrun as (player & Hplayer & Hrun).
      apply playerAt_lookup in Hplayer.
      set (swapped := filter (fun t => tid t ∈ tileIds) (rack player)) in *.
      set (kept := filter (fun t => tid t ∉ tileIds) (rack player)) in *.
      pose proof (drawTiles_app (tileBag room) (Z.of_nat (length swapped)))
        as Hsplit.
      destruct (drawTiles (tileBag room) (Z.of_nat (length swapped)))
        as [drawn remaining].
      cbn [fst snd] in Hsplit. injection Hrun as <- <-.
      unfold rackTiles. cbn [board players tileBag]. split; [done|].
      destruct (racks_after_insert (players room)
                  (Z.to_nat (findIndexById room playerId)) player
                  (setRack player (kept ++ drawn)) Hplayer)
        as (before & after & -> & ->).
      cbn [setRack rack].
      assert (Hparts : swapped ++ kept ≡ₚ rack player) by apply filter_app_complement.
      rewrite (shuffleArray_Permutation draws (remaining ++ swapped)).
      rewrite <- Hsplit, <- Hparts. rewrite <- !app_assoc.
      apply Permutation_app_head.
      etrans; [|apply Permutation_app_comm]. rewrite <- !app_assoc.
      apply Permutation_app_head. rewrite !app_assoc.
      apply Permutation_app_tail. rewrite <- !app_assoc.
      apply Permutation_app_swap_app. }
  destruct Hgoal as [Hboard Hperm]. split; [done|]. split; [done|].
  rewrite !totalTiles_alt, Hboard.
  apply Permutation_length in Hperm. rewrite !length_app in Hperm. lia.
Qed.

(** Instance: Ann's pass in the endgame room. *)
Lemma pass_and_exchange_keep_tiles_witness :
  ∃ room' out,
    handleGameMsg allOpen endgameRoom "ann" PassTurn = Some (room', out)
    ∧ totalTiles room' = totalTiles endgameRoom.
Proof.
  destruct (handleGameMsg allOpen endgameRoom "ann" PassTurn)
    as [[room' out]|] eqn:Hrun; [|vm_compute in Hrun; inversion Hrun].
  exists room', out. split; [reflexivity|].
  destruct (pass_and_exchange_keep_tiles allOpen endgameRoom room' "ann" PassTurn out)
    as (_ & _ & Htotal); [intros placedTiles Heq; inversion Heq|exact Hrun|].
  exact Htotal.
Defined.

Lemma playerAt_after_insert (room room' : GameRoom) (i : Z) (p p' : Player) :
  playerAt room i = Some p →
  players room' = <[Z.to_nat i := p']> (players room) →
  playerAt room' i = Some p'.
Proof.
  unfold playerAt. case_bool_decide; [|done]. intros Hp ->.
  apply list_lookup_insert_eq. by eapply lookup_lt_Some.
Qed.

(** An exchange by the player to move, with seven tiles or more in the bag:
    the rack keeps its size and so does the bag; every tile of the rack whose
    id is named goes to the bag, every other tile stays on the rack; the score
    and the board do not change, the pass counter is reset to 0 and the turn
    goes to the other player. *)
Theorem exchange_swaps_tiles (wsOpen : nat → bool) (room : GameRoom)
    (playerId : string) (player : Player) (tileIds : list string)
    (draws : list nat) :
  started room = true → gameOver room = false →
  (7 <= length (tileBag room))%nat →
  findIndexById room playerId = currentTurnIndex room →
  playerAt room (findIndexById room playerId) = Some player →
  (length (rack player) <= 7)%nat →
  currentTurnIndex room = 0 ∨ currentTurnIndex room = 1 →
  ∃ room' out player',
    handleExchangeTiles wsOpen room playerId tileIds draws = Some (room', out)
    ∧ playerAt room' (findIndexById room playerId) = Some player'
    ∧ length (rack player') = length (rack player)
    ∧ length (tileBag room') = length (tileBag room)
    ∧ (∀ t, t ∈ rack player → tid t ∈ tileIds → t ∈ tileBag room')
    ∧ (∀ t, t ∈ rack player → tid t ∉ tileIds → t ∈ rack player')
    ∧ score player' = score player
    ∧ board room' = board room
    ∧ consecutivePasses room' = 0
    ∧ currentTurnIndex room' = 1 - currentTurnIndex room.
Proof.
  intros Hstarted Hover Hbag Hturn Hplayer Hrack Hidx.
  unfold handleExchangeTiles. rewrite Hstarted, Hover. cbn [negb orb].
  rewrite bool_decide_eq_false_2 by lia.
  rewrite bool_decide_eq_false_2 by (intros Hx; exact (Hx Hturn)).
  rewrite Hplayer. cbn [mbind option_bind].
  set (swapped := filter (fun t => tid t ∈ tileIds) (rack player)).
  set (kept := filter (fun t => tid t ∉ tileIds) (rack player)).
  assert (Hparts : swapped ++ kept ≡ₚ rack player) by apply filter_app_complement.
  assert (Hlen : (length swapped + length kept = length (rack player))%nat)
    by (rewrite <- length_app; by apply Permutation_length).
  rewrite (drawTiles_enough (tileBag room) (Z.of_nat (length swapped))) by lia.
  rewrite Nat2Z.id.
  eexists _, _, (setRack player (kept ++ take (length swapped) (tileBag room))).
  split; [reflexivity|].
  cbn [players tileBag board consecutivePasses currentTurnIndex].
  pose proof (shuffleArray_Permutation draws
                (drop (length swapped) (tileBag room) ++ swapped)) as Hperm.
  pose proof (shuffleArray_length draws
                (drop (length swapped) (tileBag room) ++ swapped)) as Hshuffled.
  split; [by eapply playerAt_after_insert|].
  cbn [setRack rack score].
  split; [rewrite length_app, length_take; lia|].
  split; [rewrite Hshuffled, length_app, length_drop; lia|].
  split.
  { intros t Ht Hid. rewrite Hperm. apply elem_of_app. right.
    by apply list_elem_of_filter. }
  split.
  { intros t Ht Hid. apply elem_of_app. left. by apply list_elem_of_filter. }
  split; [done|]. split; [done|]. split; [done|]. by apply next_turn.
Qed.

(** Instance: in the opening room Ann exchanges her tiles ["t2"] and
    ["t3"]. *)
Lemma exchange_swaps_tiles_witness :
  ∃ room' out player',
    handleExchangeTiles allOpen openingRoom "t1" ["t2"; "t3"] [] = Some (room', out)
    ∧ playerAt room' 0 = Some player'
    ∧ length (rack player') = 7%nat
    ∧ length (tileBag room') = 86%nat.
Proof.
  destruct (playerAt openingRoom 0) as [player|] eqn:Hplayer;
    [|vm_compute in Hplayer; inversion Hplayer].
  assert (Hrack : length (rack player) = 7%nat).
  { assert (H : (fun p => length (rack p)) <$> playerAt openingRoom 0 = Some 7%nat)
      by (vm_compute; reflexivity).
    rewrite Hplayer in H. by injection H. }
  destruct (exchange_swaps_tiles allOpen openingRoom "t1" player ["t2"; "t3"] [])
    as (room' & out & player' & Hrun & Hat & Hr & Hb & _).
  - reflexivity.
  - reflexivity.
  - vm_compute. lia.
  - reflexivity.
  - exact Hplayer.
  - lia.
  - by left.
  - exists room', out, player'. split; [exact Hrun|].
    split; [exact Hat|]. split; [lia|].
    rewrite Hb. vm_compute. reflexivity.
Defined.

(** ** Counting the tiles of a move *)

Lemma count_after_insert {A} (P : A → Prop) `{∀ x, Decision (P x)}
    (l : list A) (i : nat) (old x : A) :
  l !! i = Some old → ¬ P old → P x →
  length (filter P (<[i := x]> l)) = S (length (filter P l)).
Proof.
  intros Hi Hold Hx.
  rewrite insert_take_drop by (by eapply lookup_lt_Some).
  rewrite <- (take_drop_middle l i old Hi) at 3.
  rewrite !filter_app, !length_app.
  rewrite filter_cons_True, filter_cons_False by done. cbn [length]. lia.
Qed.

Lemma alter_as_insert {A} (f : A → A) (l : list A) (i : nat) (y : A) :
  l !! i = Some y → alter f i l = <[i := f y]> l.
Proof.
  revert i. induction l as [|x l IH]; intros i Hi; [done|].
  destruct i as [|i]; simplify_eq/=; [done|]. f_equal. by apply IH.
Qed.

Lemma tilesOnBoard_setCell (b : Board) (r c : Z) (old x : BoardCell) :
  getCell b r c = Some old → tile old = None → is_Some (tile x) →
  tilesOnBoard (setCell b r c x) = S (tilesOnBoard b).
Proof.
  unfold getCell, setCell, tilesOnBoard.
  destruct (bool_decide (0 <= r) && bool_decide (0 <= c)); [|done].
  destruct (b !! Z.to_nat r) as [line|] eqn:Hline; [|done]. cbn [mbind option_bind].
  intros Hcell Hold Hx.
  rewrite (alter_as_insert _ _ _ line Hline).
  rewrite insert_take_drop by (by eapply lookup_lt_Some).
  rewrite <- (take_drop_middle b (Z.to_nat r) line Hline) at 3.
  rewrite !concat_app. cbn [concat]. rewrite !filter_app, !length_app.
  rewrite (count_after_insert _ line (Z.to_nat c) old x Hcell); [lia| |done].
  rewrite Hold. by intros [? ?].
Qed.

Lemma tilesOnBoard_placeAll (placedTiles : list PlacedTile) (b b' : Board) :
  placeAll b placedTiles = Some b' →
  NoDup (map (fun t => (row t, col t)) placedTiles) →
  (∀ t, t ∈ placedTiles → ¬ occupiedOn b (row t) (col t)) →
  tilesOnBoard b' = (tilesOnBoard b + length placedTiles)%nat.
Proof.
  revert b. induction placedTiles as [|t rest IH]; intros b Hrun Hnd Hfree.
  - injection Hrun as <-. cbn [length]. lia.
  - cbn [placeAll] in Hrun. apply bind_Some in Hrun as (b1 & H1 & Hrun).
    apply NoDup_cons in Hnd as [Hfresh Hnd]. cbn [map] in Hfresh.
    rewrite (IH b1 Hrun Hnd).
    + assert (Hcount : tilesOnBoard b1 = S (tilesOnBoard b)).
      { unfold placeTile in H1.
        destruct (getCell b (row t) (col t)) as [old|] eqn:Hold; [|done].
        injection H1 as <-. eapply tilesOnBoard_setCell; [exact Hold| |by eexists].
        destruct (tile old) as [tl|] eqn:Htile; [|done].
        exfalso. apply (Hfree t); [left|]. by exists old, tl. }
      rewrite Hcount. cbn [length]. lia.
    + intros t' Ht' (cell & tl & Hcell & Htile).
      rewrite (placeTile_lookup _ _ _ (row t') (col t') H1) in Hcell.
      case_decide as Hsame.
      * apply Hfresh. rewrite <- Hsame.
        apply list_elem_of_In, (in_map (fun t => (row t, col t))), list_elem_of_In, Ht'.
      * apply (Hfree t'); [by right|]. by exists cell, tl.
Qed.

Lemma keptTiles_length (rack : list Tile) (placedTiles : list PlacedTile) :
  NoDup (map tid rack) →
  NoDup (map (fun pt => tid (ptile pt)) placedTiles) →
  tilesOwned rack placedTiles →
  (length (keptTiles rack placedTiles) + length placedTiles = length rack)%nat.
Proof.
  intros Hrack Hids Howned.
  set (played := fun t : Tile => Exists (fun pt => tid (ptile pt) = tid t) placedTiles).
  pose proof (filter_app_complement played rack) as Hparts.
  apply Permutation_length in Hparts. rewrite length_app in Hparts.
  change (filter (fun x => ¬ played x) rack) with (keptTiles rack placedTiles) in Hparts.
  assert (Hsame : map tid (filter played rack)
                  ≡ₚ map (fun pt => tid (ptile pt)) placedTiles).
  { apply list.NoDup_Permutation; [|exact Hids|].
    - assert (Hsub : map tid (filter played rack) `sublist_of` map tid rack).
      { clear. induction rack as [|t rack IH]; [constructor|].
        rewrite filter_cons. destruct (decide (played t)); cbn [map].
        - by constructor.
        - by apply sublist_cons. }
      eapply sublist_NoDup; [exact Hrack|exact Hsub].
    - intros x. rewrite !list_elem_of_In, !in_map_iff. split.
      + intros (t & <- & Ht). apply list_elem_of_In, list_elem_of_filter in Ht as [Hp _].
        apply Exists_exists in Hp as (pt & Hpt & Heq).
        exists pt. split; [done|]. by apply list_elem_of_In.
      + intros (pt & <- & Hpt). apply list_elem_of_In in Hpt.
        pose proof (Howned pt Hpt) as Hin.
        apply list_elem_of_In, in_map_iff in Hin as (t & Heq & Ht).
        exists t. split; [done|]. apply list_elem_of_In, list_elem_of_filter.
        split; [|by apply list_elem_of_In].
        apply Exists_exists. by exists pt. }
  apply Permutation_length in Hsame. rewrite !length_map in Hsame. lia.
Qed.

(** A place_tiles message whose tiles name pairwise distinct cells and
    pairwise distinct tile ids, sent to a room whose racks hold no id twice,
    neither creates nor loses a tile: when the move is committed the board
    gains as many tiles as the message holds, the mover's rack and the bag
    together lose as many, and the total of bag, racks and board stays. *)
Theorem well_formed_move_keeps_tiles (wsOpen : nat → bool)
    (room room' : GameRoom) (playerId : string) (placedTiles : list PlacedTile)
    (out : list (nat * ServerMsg)) :
  handlePlaceTiles wsOpen room playerId placedTiles = Some (room', out) →
  NoDup (map (fun t => (row t, col t)) placedTiles) →
  NoDup (map (fun t => tid (ptile t)) placedTiles) →
  Forall (fun p => NoDup (map tid (rack p))) (players room) →
  totalTiles room' = totalTiles room
  ∧ (room' = room
     ∨ tilesOnBoard (board room')
       = (tilesOnBoard (board room) + length placedTiles)%nat
       ∧ (length (tileBag room') + length (rackTiles room') + length placedTiles
          = length (tileBag room) + length (rackTiles room))%nat).
Proof.
  intros Hrun Hcells Hids Hracks.
  destruct (handlePlaceTiles_cases _ _ _ _ _ _ Hrun)
    as [->|(sender & ws & Hacc & Hwords & Hcommit)]; [split; [done|by left]|].
  destruct Hacc as (_ & _ & _ & Hsender & _ & Howned & Hvalid & _).
  apply playerAt_lookup in Hsender.
  destruct (commitMove_shape _ _ _ _ _ _ _ _ _ Hcommit)
    as (points & board' & _ & Hboard & Hb & Hbag & Hseats & _).
  assert (Hgain : tilesOnBoard (board room')
                  = (tilesOnBoard (board room) + length placedTiles)%nat).
  { rewrite Hb. apply tilesOnBoard_placeAll; [done|done|].
    intros t Ht Hocc.
    apply (accepted_cells_were_free _ _ _ _ _ Hvalid Hocc). by exists t. }
  assert (Hkept : (length (keptTiles (rack sender) placedTiles) + length placedTiles
                   = length (rack sender))%nat).
  { apply keptTiles_length; [|done|done].
    rewrite Forall_forall in Hracks. apply Hracks.
    by eapply list_elem_of_lookup_2. }
  set (kept := keptTiles (rack sender) placedTiles) in *.
  set (draw := drawTiles (tileBag room) (Z.max 0 (7 - Z.of_nat (length kept)))) in *.
  assert (Hrest : (length (tileBag room') + length (rackTiles room')
                   + length placedTiles
                   = length (tileBag room) + length (rackTiles room))%nat).
  { unfold rackTiles. rewrite (sameSeat_racks _ _ Hseats), Hbag.
    destruct (racks_after_insert (players room)
                (Z.to_nat (findIndexById room playerId))
                sender (setRack sender (kept ++ draw.1)) Hsender)
      as (before & after & -> & ->).
    cbn [setRack rack].
    pose proof (drawTiles_app (tileBag room)
                  (Z.max 0 (7 - Z.of_nat (length kept)))) as Hsplit.
    change (draw.1 ++ draw.2 = tileBag room) in Hsplit.
    apply (f_equal length) in Hsplit. rewrite !length_app in *. lia. }
  split; [|right; by split].
  rewrite !totalTiles_alt. lia.
Qed.

Lemma well_formed_move_keeps_tiles_witness :
  ∃ room' out,
    handlePlaceTiles allOpen openingRoom "t1" honestTiles = Some (room', out)
    ∧ totalTiles room' = totalTiles openingRoom.
Proof.
  destruct (handlePlaceTiles allOpen openingRoom "t1" honestTiles)
    as [[room' out]|] eqn:Hrun; [|vm_compute in Hrun; discriminate].
  exists room', out. split; [reflexivity|].
  refine (proj1 (well_formed_move_keeps_tiles allOpen openingRoom room' "t1"
                   honestTiles out Hrun _ _ _)).
  - clear Hrun. apply (bool_decide_unpack _). vm_compute. exact I.
  - clear Hrun. apply (bool_decide_unpack _). vm_compute. exact I.
  - clear Hrun. apply (bool_decide_unpack _). vm_compute. exact I.
Defined.

(** ** What [validatePlacement] decides *)

Lemma checkCells_decides (b : Board) (placedTiles : list PlacedTile) :
  wf_board b →
  (checkCells b placedTiles = Some None
   ∧ ∀ t, t ∈ placedTiles →
       0 <= row t <= 14 ∧ 0 <= col t <= 14 ∧ ¬ occupiedOn b (row t) (col t))
  ∨ (∃ e, checkCells b placedTiles = Some (Some e)
          ∧ ∃ t, t ∈ placedTiles
                 ∧ ¬ (0 <= row t <= 14 ∧ 0 <= col t <= 14
                      ∧ ¬ occupiedOn b (row t) (col t))).
Proof.
  intros Hwf. induction placedTiles as [|t rest IH].
  - left. split; [done|]. intros t Ht. by apply elem_of_nil in Ht.
  - cbn [checkCells].
    destruct (decide (0 <= row t <= 14 ∧ 0 <= col t <= 14)) as [[Hr Hc]|Hout].
    + rewrite !bool_decide_eq_false_2 by lia. cbn [orb].
      destruct (occupied_cases b (row t) (col t) Hwf) as [[-> Hocc]|[-> Hfree]];
        [lia|lia| |]; cbn [mbind option_bind].
      * right. exists CellOccupied. split; [done|]. exists t. split; [left|].
        intros (_ & _ & Hfree). by apply Hfree.
      * destruct IH as [[-> Hall]|(e & -> & t' & Ht' & Hbad)].
        -- left. split; [done|]. intros t' Ht'.
           apply elem_of_cons in Ht' as [->|Ht']; [done|by apply Hall].
        -- right. exists e. split; [done|]. exists t'. split; [by right|done].
    + right. exists OutOfBounds. split.
      * destruct (bool_decide (row t < 0)) eqn:E1; [done|].
        destruct (bool_decide (row t > 14)) eqn:E2; [done|].
        destruct (bool_decide (col t < 0)) eqn:E3; [done|].
        destruct (bool_decide (col t > 14)) eqn:E4; [done|].
        apply bool_decide_eq_false in E1, E2, E3, E4. exfalso. apply Hout. lia.
      * exists t. split; [left|]. intros (Hr & Hc & _). by apply Hout.
Qed.

(** Either a rule tested before the gap rule fails, and [validatePlacement]
    answers with its error, or all of them pass. *)
Lemma validatePlacement_stages (b : Board) (placedTiles : list PlacedTile)
    (isFirstMove : bool) :
  wf_board b →
  (∃ e, validatePlacement b placedTiles isFirstMove = Some (Invalid e)
        ∧ e ≠ GapsInPlacement
        ∧ ¬ passesEarlierRules b placedTiles isFirstMove)
  ∨ passesEarlierRules b placedTiles isFirstMove.
Proof.
  intros Hwf. destruct placedTiles as [|p0 rest].
  { left. exists NoTilesPlaced. split; [done|]. split; [done|]. by intros [? _]. }
  unfold validatePlacement. set (pts := p0 :: rest) in *.
  destruct (negb (sameRowOf pts) && negb (sameColOf pts)) eqn:Hline.
  { left. exists NotSingleLine. split; [done|]. split; [done|].
    intros (_ & Hl & _). apply andb_true_iff in Hline as [Hr Hc].
    apply negb_true_iff in Hr, Hc.
    destruct Hl as [[r Hrow]|[c Hcol]].
    - pose proof (allInRow_first _ _ _ Hrow) as ->.
      apply sameRowOf_spec in Hrow. fold pts in Hrow. congruence.
    - pose proof (allInCol_first _ _ _ Hcol) as ->.
      apply sameColOf_spec in Hcol. fold pts in Hcol. congruence. }
  assert (Hl : (∃ r, allInRow pts r) ∨ (∃ c, allInCol pts c)).
  { destruct (sameRowOf pts) eqn:Hr.
    - left. exists (row p0). by apply sameRowOf_spec.
    - destruct (sameColOf pts) eqn:Hc; [|done].
      right. exists (col p0). by apply sameColOf_spec. }
  destruct (checkCells_decides b pts Hwf)
    as [[Hcheck Hcells]|(e & Hcheck & t & Ht & Hbad)];
    rewrite Hcheck; cbn [mbind option_bind].
  2:{ left. exists e. split; [done|]. split.
      - intros ->. revert Hcheck. clear. generalize pts.
        induction pts0 as [|x l IH]; [done|]. cbn [checkCells].
        destruct (_ || _); [done|].
        destruct (occupied b (row x) (col x)) as [[|]|]; done.
      - intros (_ & _ & Hall & _). by apply Hbad, Hall. }
  destruct isFirstMove; rewrite ?andb_true_l, ?andb_false_l.
  - destruct (existsb _ pts) eqn:Hcenter; cbn [negb].
    2:{ left. exists MustCoverCenter. split; [done|]. split; [done|].
        intros (_ & _ & _ & (t & Ht & Hr & Hc) & _).
        apply not_true_iff_false in Hcenter. apply Hcenter, existsb_exists.
        exists t. split; [by apply list_elem_of_In|].
        by rewrite !bool_decide_eq_true_2. }
    case_bool_decide as Hlen.
    { left. exists FirstWordTooShort. split; [done|]. split; [done|].
      intros (_ & _ & _ & _ & Hl2). lia. }
    right. split; [done|]. split; [done|]. split; [done|].
    split; [|lia].
    apply existsb_exists in Hcenter as (t & Ht & Hrc).
    apply andb_true_iff in Hrc as [Hr Hc].
    apply bool_decide_eq_true in Hr, Hc.
    exists t. split; [by apply list_elem_of_In|done].
  - destruct (touchesExisting_spec b pts Hwf) as (bo & -> & Hbo).
    cbn [mbind option_bind]. destruct bo; cbn [negb].
    + right. split; [done|]. split; [done|]. split; [done|]. by apply Hbo.
    + left. exists MustConnect. split; [done|]. split; [done|].
      intros (_ & _ & _ & Htouch). by apply Hbo in Htouch.
Qed.

Lemma validatePlacement_decides_total (b : Board)
    (placedTiles : list PlacedTile) (isFirstMove : bool) :
  wf_board b → is_Some (validatePlacement b placedTiles isFirstMove).
Proof.
  intros Hwf.
  destruct (validatePlacement_stages b placedTiles isFirstMove Hwf)
    as [(e & -> & _)|Hrules]; [by eexists|].
  destruct (validatePlacement_after_rules b placedTiles isFirstMove Hwf Hrules)
    as (gap & -> & _). by eexists.
Qed.

(** For tiles with integer coordinates and a 15 by 15 board,
    [validatePlacement] answers, and it answers [valid] exactly for the
    placements that keep every rule. *)
Lemma validatePlacement_rules_on_integers (b : Board)
    (placedTiles : list PlacedTile) (isFirstMove : bool) :
  wf_board b →
  ∃ v, validatePlacement b placedTiles isFirstMove = Some v
       ∧ (v = Valid ↔ passesEarlierRules b placedTiles isFirstMove
                      ∧ ¬ hasGap b placedTiles).
Proof.
  intros Hwf.
  destruct (validatePlacement_stages b placedTiles isFirstMove Hwf)
    as [(e & -> & _ & Hfails)|Hrules].
  - exists (Invalid e). split; [done|]. split; [done|]. by intros [? _].
  - destruct (validatePlacement_after_rules b placedTiles isFirstMove Hwf Hrules)
      as (gap & -> & Hgap).
    destruct gap.
    + exists (Invalid GapsInPlacement). split; [done|]. split; [done|].
      intros [_ Hno]. exfalso. by apply Hno, Hgap.
    + exists Valid. split; [done|]. split; [|done]. intros _. split; [done|].
      intros Hg. by apply Hgap in Hg.
Qed.

(** ** The words that [getWordAt] reads *)

Lemma lineCell_start (h : bool) (r c : Z) : lineCell h r c (linePos h r c) = (r, c).
Proof. by destruct h. Qed.

Lemma lineCell_same_line (h : bool) (r c k j : Z) :
  lineCell h (lineCell h r c k).1 (lineCell h r c k).2 j = lineCell h r c j.
Proof. by destruct h. Qed.

Lemma linePos_lineCell (h : bool) (r c k : Z) :
  linePos h (lineCell h r c k).1 (lineCell h r c k).2 = k.
Proof. by destruct h. Qed.

Lemma lineCell_in_grid (h : bool) (r c k : Z) :
  0 <= r <= 14 → 0 <= c <= 14 → 0 <= k <= 14 →
  0 <= (lineCell h r c k).1 < 15 ∧ 0 <= (lineCell h r c k).2 < 15.
Proof. destruct h; cbn; lia. Qed.

Lemma occAt_cases (b : Board) (rc : Z * Z) :
  wf_board b → 0 <= rc.1 < 15 → 0 <= rc.2 < 15 →
  (occupied b rc.1 rc.2 = Some true ∧ occAt b rc)
  ∨ (occupied b rc.1 rc.2 = Some false ∧ ¬ occAt b rc).
Proof. intros Hwf Hr Hc. by apply occupied_cases. Qed.

(** The first loop of [getWordAt] stops on the first cell of the run of
    tiles that ends before the start. *)
Lemma walkBack_spec (fuel : nat) (tb : Board) (h : bool) (r c : Z) :
  wf_board tb → 0 <= r <= 14 → 0 <= c <= 14 →
  linePos h r c <= Z.of_nat fuel →
  ∃ lo, walkBack fuel tb h r c = Some (lineCell h r c lo)
        ∧ 0 <= lo <= linePos h r c
        ∧ (∀ k, lo <= k < linePos h r c → occAt tb (lineCell h r c k))
        ∧ (lo = 0 ∨ ¬ occAt tb (lineCell h r c (lo - 1))).
Proof.
  intros Hwf. revert r c. induction fuel as [|n IH]; intros r c Hr Hc Hfuel.
  - exists (linePos h r c). rewrite lineCell_start. split; [done|].
    assert (linePos h r c = 0) as -> by (destruct h; cbn in *; lia).
    split; [lia|]. split; [intros k Hk; lia|by left].
  - cbn [walkBack]. fold (linePos h r c).
    case_bool_decide as Hpos.
    2:{ exists (linePos h r c). rewrite lineCell_start. split; [done|].
        assert (linePos h r c = 0) as -> by (destruct h; cbn in *; lia).
        split; [lia|]. split; [intros k Hk; lia|by left]. }
    set (prev := lineCell h r c (linePos h r c - 1)).
    assert (Hprev : (if h then r else r - 1, if h then c - 1 else c) = prev)
      by (by destruct h).
    assert (Hin : 0 <= prev.1 < 15 ∧ 0 <= prev.2 < 15).
    { apply lineCell_in_grid; [done|done|]. destruct h; cbn in *; lia. }
    replace (if h then r else r - 1) with prev.1 by (by rewrite <- Hprev).
    replace (if h then c - 1 else c) with prev.2 by (by rewrite <- Hprev).
    destruct (occAt_cases tb prev Hwf) as [[-> Hocc]|[-> Hfree]]; [tauto|tauto| |];
      cbn [mbind option_bind].
    + destruct (IH prev.1 prev.2) as (lo & -> & Hlo & Hrun & Hstop); [lia|lia| |].
      { unfold prev. rewrite linePos_lineCell. lia. }
      unfold prev in *. rewrite linePos_lineCell in *.
      exists lo. rewrite lineCell_same_line. split; [done|]. split; [lia|].
      split.
      * intros k Hk. destruct (decide (k = linePos h r c - 1)) as [->|Hne];
          [exact Hocc|].
        specialize (Hrun k). rewrite lineCell_same_line in Hrun. apply Hrun. lia.
      * by rewrite lineCell_same_line in Hstop.
    + exists (linePos h r c). rewrite lineCell_start. split; [done|].
      split; [lia|]. split; [intros k Hk; lia|by right].
Qed.


(** The second loop collects the entries of the cells from the start up to
    the last cell of the run. *)
Lemma collect_spec (fuel : nat) (tb : Board) (ps : gset (Z * Z)) (h : bool)
    (r c : Z) :
  wf_board tb → 0 <= r <= 15 → 0 <= c <= 15 →
  linePos (negb h) r c <= 14 →
  15 - linePos h r c <= Z.of_nat fuel →
  ∃ hi ts, collect fuel tb ps h r c = Some ts
           ∧ linePos h r c - 1 <= hi <= 14
           ∧ Forall2 (fun k t => letterAt tb ps (lineCell h r c k) = Some t)
                     (seqZ (linePos h r c) (hi - linePos h r c + 1)) ts
           ∧ (hi = 14 ∨ ¬ occAt tb (lineCell h r c (hi + 1))).
Proof.
  intros Hwf. revert r c. induction fuel as [|n IH]; intros r c Hr Hc Hline Hfuel.
  - exists 14, []. split; [done|].
    assert (linePos h r c = 15) as -> by (destruct h; cbn in *; lia).
    split; [lia|]. split; [constructor|by left].
  - cbn [collect]. fold (linePos h r c).
    case_bool_decide as Hpos.
    2:{ exists 14, []. split; [done|].
        assert (linePos h r c = 15) as -> by (destruct h; cbn in *; lia).
        split; [lia|]. split; [constructor|by left]. }
    assert (Hr' : 0 <= r < 15) by (destruct h; cbn in *; lia).
    assert (Hc' : 0 <= c < 15) by (destruct h; cbn in *; lia).
    destruct (getCell_wf tb r c Hwf Hr' Hc') as [cell Hcell]. rewrite Hcell.
    cbn [mbind option_bind].
    destruct (tile cell) as [tl|] eqn:Htl.
    + set (next := lineCell h r c (linePos h r c + 1)).
      assert (Hnext : (if h then r else r + 1, if h then c + 1 else c) = next)
        by (by destruct h).
      replace (if h then r else r + 1) with next.1 by (by rewrite <- Hnext).
      replace (if h then c + 1 else c) with next.2 by (by rewrite <- Hnext).
      destruct (IH next.1 next.2) as (hi & rest & -> & Hhi & Hrun & Hstop).
      { unfold next. destruct h; cbn in *; lia. }
      { unfold next. destruct h; cbn in *; lia. }
      { unfold next. destruct h; cbn in *; lia. }
      { unfold next. rewrite linePos_lineCell. lia. }
      unfold next in *. rewrite linePos_lineCell in *.
      cbn [mbind option_bind]. eexists hi, _. split; [reflexivity|].
      split; [lia|]. split.
      * rewrite seqZ_cons by lia. constructor.
        -- rewrite lineCell_start. unfold letterAt. cbn [fst snd].
           rewrite Hcell. cbn [mbind option_bind]. by rewrite Htl.
        -- replace (Z.succ (linePos h r c)) with (linePos h r c + 1) by lia.
           replace (Z.pred (hi - linePos h r c + 1))
             with (hi - (linePos h r c + 1) + 1) by lia.
           eapply Forall2_impl; [exact Hrun|].
           intros k t. cbn beta. by rewrite lineCell_same_line.
      * by rewrite lineCell_same_line in Hstop.
    + exists (linePos h r c - 1), []. split; [done|]. split; [lia|].
      split; [rewrite seqZ_nil by lia; constructor|]. right.
      replace (linePos h r c - 1 + 1) with (linePos h r c) by lia.
      rewrite lineCell_start. intros (cell' & tl & Hcell' & Htl').
      cbn [fst snd] in Hcell'. congruence.
Qed.

(** [getWordAt] from a cell that holds a tile reads the run of tiles
    through that cell, and keeps it when its text has two characters or
    more. *)
Lemma getWordAt_spec (tb : Board) (ps : gset (Z * Z)) (r c : Z) (h : bool) :
  wf_board tb → 0 <= r <= 14 → 0 <= c <= 14 → occAt tb (r, c) →
  ∃ lo hi ts,
    runOn tb ps h r c lo hi ts
    ∧ lo <= linePos h r c <= hi
    ∧ getWordAt tb ps r c h
      = Some (if bool_decide (2 <= String.length (wordOf ts))%nat
              then [mkWord (wordOf ts) ts] else []).
Proof.
  intros Hwf Hr Hc Hocc. unfold getWordAt. fold (linePos h r c).
  destruct (walkBack_spec (Z.to_nat (linePos h r c)) tb h r c Hwf Hr Hc)
    as (lo & -> & Hlo & Hback & Hstop).
  { destruct h; cbn; lia. }
  cbn [mbind option_bind].
  assert (Hpos : 0 <= linePos h r c <= 14) by (destruct h; cbn; lia).
  destruct (lineCell h r c lo) as [r0 c0] eqn:Hcell.
  assert (Hr0 : r0 = (lineCell h r c lo).1) by (by rewrite Hcell).
  assert (Hc0 : c0 = (lineCell h r c lo).2) by (by rewrite Hcell).
  fold (linePos h r0 c0).
  assert (Hlo0 : linePos h r0 c0 = lo) by (subst r0 c0; apply linePos_lineCell).
  destruct (collect_spec (Z.to_nat (15 - linePos h r0 c0)) tb ps h r0 c0 Hwf)
    as (hi & ts & -> & Hhi & Hrun & Hend).
  { subst r0. destruct h; cbn; lia. }
  { subst c0. destruct h; cbn; lia. }
  { subst r0 c0. destruct h; cbn; lia. }
  { lia. }
  cbn [mbind option_bind]. rewrite Hlo0 in *.
  assert (Hline : ∀ k, lineCell h r0 c0 k = lineCell h r c k).
  { intros k. subst r0 c0. apply lineCell_same_line. }
  assert (Hreach : linePos h r c <= hi).
  { destruct (decide (linePos h r c <= hi)) as [|Hshort]; [done|].
    exfalso. destruct Hend as [->|Hfree]; [lia|]. apply Hfree.
    rewrite Hline.
    destruct (decide (hi + 1 = linePos h r c)) as [->|Hne].
    - by rewrite lineCell_start.
    - apply Hback. lia. }
  exists lo, hi, ts. split; [|split; [lia|done]].
  split; [lia|]. split; [lia|]. split; [lia|]. split; [|split; [done|]].
  - eapply Forall2_impl; [exact Hrun|]. intros k t. cbn beta. by rewrite Hline.
  - by rewrite Hline in Hend.
Qed.

Lemma runOn_occ (tb : Board) (ps : gset (Z * Z)) (h : bool) (r c lo hi k : Z)
    (ts : list LetterTile) :
  runOn tb ps h r c lo hi ts → lo <= k <= hi →
  ∃ t, t ∈ ts ∧ letterAt tb ps (lineCell h r c k) = Some t.
Proof.
  intros (Hlo & Hle & Hhi & Hrun & _) Hk.
  assert (Hidx : seqZ lo (hi - lo + 1) !! Z.to_nat (k - lo) = Some k).
  { apply lookup_seqZ. split; lia. }
  destruct (Forall2_lookup_l _ _ _ _ _ Hrun Hidx) as (t & Ht & Hletter).
  exists t. split; [by eapply list_elem_of_lookup_2|done].
Qed.

Lemma runOn_nonempty (tb : Board) (ps : gset (Z * Z)) (h : bool)
    (r c lo hi : Z) (ts : list LetterTile) :
  runOn tb ps h r c lo hi ts → ts ≠ [].
Proof.
  intros Hrun ->. destruct (runOn_occ _ _ _ _ _ _ _ lo _ Hrun) as (t & Ht & _).
  { destruct Hrun as (? & ? & _). lia. }
  by apply elem_of_nil in Ht.
Qed.


Lemma runOn_has_new (tb : Board) (placedTiles : list PlacedTile) (h : bool)
    (t : PlacedTile) (lo hi : Z) (ts : list LetterTile) :
  t ∈ placedTiles →
  runOn tb (placedSetOf placedTiles) h (row t) (col t) lo hi ts →
  lo <= linePos h (row t) (col t) <= hi →
  Exists (fun l => isNew l = true) ts.
Proof.
  intros Ht Hrun Hpos.
  destruct (runOn_occ _ _ _ _ _ _ _ _ _ Hrun Hpos) as (l & Hl & Hletter).
  apply Exists_exists. exists l. split; [done|].
  rewrite lineCell_start in Hletter. unfold letterAt in Hletter.
  apply bind_Some in Hletter as (cell & _ & Hletter).
  apply bind_Some in Hletter as (tl & _ & Hletter).
  injection Hletter as <-. cbn [isNew fst snd].
  apply bool_decide_eq_true, elem_of_placedSetOf. by exists t.
Qed.

Lemma placeAll_total (placedTiles : list PlacedTile) (b : Board) :
  wf_board b →
  (∀ t, t ∈ placedTiles → 0 <= row t <= 14 ∧ 0 <= col t <= 14) →
  ∃ tb, placeAll b placedTiles = Some tb ∧ wf_board tb.
Proof.
  revert b. induction placedTiles as [|t rest IH]; intros b Hwf Hin.
  - by exists b.
  - cbn [placeAll]. unfold placeTile.
    destruct (getCell_wf b (row t) (col t) Hwf) as [cell Hcell].
    { destruct (Hin t); [left|lia]. }
    { destruct (Hin t); [left|lia]. }
    rewrite Hcell. cbn [mbind option_bind].
    apply IH; [by apply setCell_wf|]. intros t' Ht'. apply Hin. by right.
Qed.

Lemma getWordAt_through (tb : Board) (placedTiles : list PlacedTile)
    (t : PlacedTile) (h : bool) :
  wf_board tb → t ∈ placedTiles →
  0 <= row t <= 14 → 0 <= col t <= 14 → occAt tb (row t, col t) →
  ∃ ws, getWordAt tb (placedSetOf placedTiles) (row t) (col t) h = Some ws
        ∧ Forall (wordThrough tb placedTiles) ws.
Proof.
  intros Hwf Ht Hr Hc Hocc.
  destruct (getWordAt_spec tb (placedSetOf placedTiles) (row t) (col t) h
              Hwf Hr Hc Hocc) as (lo & hi & ts & Hrun & Hpos & ->).
  eexists. split; [reflexivity|].
  case_bool_decide as Hlen; [|constructor].
  constructor; [|constructor]. by exists t, h, lo, hi.
Qed.

Lemma crossWords_through (tb : Board) (placedTiles l : list PlacedTile)
    (sameRow single : bool) :
  wf_board tb →
  (∀ t, t ∈ l → t ∈ placedTiles ∧ 0 <= row t <= 14 ∧ 0 <= col t <= 14
                ∧ occAt tb (row t, col t)) →
  ∃ ws, crossWords tb (placedSetOf placedTiles) sameRow single l = Some ws
        ∧ Forall (wordThrough tb placedTiles) ws.
Proof.
  intros Hwf. induction l as [|t rest IH]; intros Hall.
  - exists []. by split.
  - destruct (Hall t) as (Ht & Hr & Hc & Hocc); [left|].
    destruct IH as (more & Hmore & Hgood).
    { intros t' Ht'. apply Hall. by right. }
    cbn [crossWords]. rewrite Hmore.
    destruct (getWordAt_through tb placedTiles t false Hwf Ht Hr Hc Hocc)
      as (down & -> & Hdown).
    destruct (getWordAt_through tb placedTiles t true Hwf Ht Hr Hc Hocc)
      as (across & -> & Hacross).
    destruct (sameRow || single), (negb sameRow || single);
      cbn [mbind option_bind]; eexists; (split; [reflexivity|]);
      rewrite ?Forall_app; repeat split; done || constructor.
Qed.

Lemma wordKey_through (tb : Board) (placedTiles : list PlacedTile) (w : FormedWord) :
  wordThrough tb placedTiles w → is_Some (wordKey w).
Proof.
  intros (t & h & lo & hi & _ & Hrun & _). apply runOn_nonempty in Hrun.
  unfold wordKey. destruct (tiles w) as [|a rest] eqn:Hts; [done|].
  cbn [head mbind option_bind].
  destruct (last (a :: rest)) as [z|] eqn:Hlast; [by eexists|].
  by apply last_None in Hlast.
Qed.

(** The loop that removes repeated spans keeps the keys of its map pairwise
    distinct and takes every entry from the words it is given. *)
Lemma uniqueWords_spec (words : list FormedWord)
    (unique : list (((Z * Z) * (Z * Z)) * FormedWord)) :
  Forall (fun w => is_Some (wordKey w)) words →
  NoDup (map fst unique) →
  Forall (fun kw => wordKey kw.2 = Some kw.1) unique →
  ∃ result, uniqueWords unique words = Some result
            ∧ NoDup (map fst result)
            ∧ Forall (fun kw => wordKey kw.2 = Some kw.1) result
            ∧ (∀ kw, kw ∈ result → kw ∈ unique ∨ kw.2 ∈ words)
            ∧ (∀ w key, w ∈ words → wordKey w = Some key → key ∈ map fst result)
            ∧ (∀ kw, kw ∈ unique → kw ∈ result).
Proof.
  intros Hkeys. revert unique.
  induction Hkeys as [|w rest [key Hkey] _ IH]; intros unique Hnd Hown.
  - exists unique. split; [done|]. split; [done|]. split; [done|].
    split; [by left|]. split; [|done]. intros w key Hw. by apply elem_of_nil in Hw.
  - cbn [uniqueWords]. rewrite Hkey. cbn [mbind option_bind].
    case_bool_decide as Hmem.
    + destruct (IH unique Hnd Hown) as (result & -> & Hnd' & Hown' & Hfrom & Hall & Hkeep).
      exists result. split; [done|]. split; [done|]. split; [done|]. split; [|split].
      * intros kw Hkw. destruct (Hfrom kw Hkw); [by left|right; by right].
      * intros w' key' Hw' Hkey'. apply elem_of_cons in Hw' as [->|Hw'].
        -- assert (key' = key) as -> by congruence.
           apply list_elem_of_In, in_map_iff in Hmem as (kw & <- & Hkw).
           apply list_elem_of_In, in_map_iff. exists kw. split; [done|].
           apply list_elem_of_In, Hkeep. by apply list_elem_of_In.
        -- by eapply Hall.
      * done.
    + destruct (IH (unique ++ [(key, w)])) as (result & -> & Hnd' & Hown' & Hfrom & Hall & Hkeep).
      { rewrite map_app. cbn [map fst]. apply NoDup_app. split; [done|].
        split; [|apply NoDup_singleton].
        intros k Hk Hk'. apply list_elem_of_singleton in Hk'. by subst k. }
      { apply Forall_app. split; [done|]. by constructor. }
      exists result. split; [done|]. split; [done|]. split; [done|]. split; [|split].
      * intros kw Hkw. destruct (Hfrom kw Hkw) as [Hin|Hin]; [|right; by right].
        apply elem_of_app in Hin as [Hin|Hin]; [by left|].
        apply list_elem_of_singleton in Hin. subst kw. right. left.
      * intros w' key' Hw' Hkey'. apply elem_of_cons in Hw' as [->|Hw'].
        -- assert (key' = key) as -> by congruence.
           apply list_elem_of_In, in_map_iff. exists (key, w). split; [done|].
           apply list_elem_of_In, Hkeep, elem_of_app. right. left.
        -- by eapply Hall.
      * intros kw Hkw. apply Hkeep, elem_of_app. by left.
Qed.

(** What [getFormedWords] returns for tiles on the grid. *)
Lemma getFormedWords_spec (b : Board) (placedTiles : list PlacedTile) :
  wf_board b → placedTiles ≠ [] →
  (∀ t, t ∈ placedTiles → 0 <= row t <= 14 ∧ 0 <= col t <= 14) →
  ∃ tb ws, placeAll b placedTiles = Some tb
           ∧ getFormedWords b placedTiles = Some ws
           ∧ Forall (wordThrough tb placedTiles) ws
           ∧ NoDup (map wordKey ws).
Proof.
  intros Hwf Hne Hin.
  destruct (placeAll_total placedTiles b Hwf Hin) as (tb & Htb & Hwf').
  assert (Hplaced : ∀ t, t ∈ placedTiles →
            t ∈ placedTiles ∧ 0 <= row t <= 14 ∧ 0 <= col t <= 14
            ∧ occAt tb (row t, col t)).
  { intros t Ht. split; [done|]. destruct (Hin t Ht) as [Hr Hc].
    split; [done|]. split; [done|].
    destruct (placeAll_written placedTiles b tb (row t) (col t) Htb)
      as (cell & t' & Hcell & Htile & _); [by exists t|].
    by exists cell, (ptile t'). }
  exists tb. unfold getFormedWords. rewrite Htb. cbn [mbind option_bind].
  destruct placedTiles as [|p0 rest] eqn:Hpts; [done|]. rewrite <- Hpts in *.
  assert (Hp0 : p0 ∈ placedTiles) by (rewrite Hpts; left).
  destruct (Hplaced p0 Hp0) as (_ & Hr0 & Hc0 & Hocc0).
  destruct (getWordAt_through tb placedTiles p0 true Hwf' Hp0 Hr0 Hc0 Hocc0)
    as (across & Hacross & Hgood1).
  destruct (getWordAt_through tb placedTiles p0 false Hwf' Hp0 Hr0 Hc0 Hocc0)
    as (down & Hdown & Hgood2).
  destruct (crossWords_through tb placedTiles placedTiles
              (sameRowOf placedTiles) (bool_decide (length placedTiles = 1%nat))
              Hwf' Hplaced) as (cross & Hcross & Hgood3).
  set (sameRow := sameRowOf placedTiles) in *.
  set (single := bool_decide (length placedTiles = 1%nat)) in *.
  assert (Hmain1 : ∃ main1,
    (if sameRow || single
     then getWordAt tb (placedSetOf placedTiles) (row p0) (col p0) true
     else Some []) = Some main1 ∧ Forall (wordThrough tb placedTiles) main1).
  { destruct (sameRow || single); [by exists across|by exists []]. }
  assert (Hmain2 : ∃ main2,
    (if negb sameRow || single
     then getWordAt tb (placedSetOf placedTiles) (row p0) (col p0) false
     else Some []) = Some main2 ∧ Forall (wordThrough tb placedTiles) main2).
  { destruct (negb sameRow || single); [by exists down|by exists []]. }
  destruct Hmain1 as (main1 & -> & Hg1). destruct Hmain2 as (main2 & -> & Hg2).
  cbn [mbind option_bind]. rewrite Hcross. cbn [mbind option_bind].
  assert (Hall : Forall (wordThrough tb placedTiles) (main1 ++ main2 ++ cross)).
  { rewrite !Forall_app. by repeat split. }
  destruct (uniqueWords_spec (main1 ++ main2 ++ cross) [])
    as (result & -> & Hnd & Hown & Hfrom & _); [|constructor|constructor|].
  { eapply Forall_impl; [exact Hall|]. intros w. apply wordKey_through. }
  cbn [mbind option_bind]. eexists. split; [reflexivity|].
  split; [reflexivity|]. split.
  - apply Forall_forall. intros w Hw.
    apply list_elem_of_In, in_map_iff in Hw as (kw & <- & Hkw).
    apply list_elem_of_In in Hkw.
    destruct (Hfrom kw Hkw) as [Hnil|Hw]; [by apply elem_of_nil in Hnil|].
    rewrite Forall_forall in Hall. by apply Hall.
  - rewrite map_map.
    assert (Heq : map (fun x => wordKey x.2) result = map Some (map fst result)).
    { rewrite map_map. apply map_ext_in. intros kw Hkw.
      rewrite Forall_forall in Hown. apply Hown. by apply list_elem_of_In. }
    rewrite Heq. apply (NoDup_fmap_2 Some). exact Hnd.
Qed.

(** For tiles on the grid of a 15 by 15 board [getFormedWords] returns, and
    what it returns are words read through the move: each is the text, two
    characters or more, of a run of tiles of the board with the tiles placed,
    across or down, that cannot be extended at either end and that passes
    through the cell of a placed tile, so that one of its letters is marked
    new; and no two of the words span the same cells. *)
Theorem formed_words_run_through_move (b : Board) (placedTiles : list PlacedTile) :
  wf_board b → placedTiles ≠ [] →
  (∀ t, t ∈ placedTiles → 0 <= row t <= 14 ∧ 0 <= col t <= 14) →
  ∃ tb ws, placeAll b placedTiles = Some tb
           ∧ getFormedWords b placedTiles = Some ws
           ∧ Forall (fun w => wordThrough tb placedTiles w
                              ∧ Exists (fun l => isNew l = true) (tiles w)) ws
           ∧ NoDup (map wordKey ws).
Proof.
  intros Hwf Hne Hin.
  destruct (getFormedWords_spec b placedTiles Hwf Hne Hin)
    as (tb & ws & Htb & Hws & Hgood & Hnd).
  exists tb, ws. split; [done|]. split; [done|]. split; [|done].
  eapply Forall_impl; [exact Hgood|]. intros w Hw. split; [done|].
  destruct Hw as (t & h & lo & hi & Ht & Hrun & Hpos & _).
  by eapply runOn_has_new.
Qed.

Lemma formed_words_run_through_move_witness :
  ∃ tb ws, placeAll createEmptyBoard catTiles = Some tb
           ∧ getFormedWords createEmptyBoard catTiles = Some ws
           ∧ Forall (fun w => wordThrough tb catTiles w
                              ∧ Exists (fun l => isNew l = true) (tiles w)) ws
           ∧ NoDup (map wordKey ws).
Proof.
  apply (formed_words_run_through_move createEmptyBoard catTiles).
  - apply createEmptyBoard_wf.
  - discriminate.
  - intros t Ht. unfold catTiles in Ht.
    repeat (apply elem_of_cons in Ht as [->|Ht]; [cbn; lia|]).
    by apply elem_of_nil in Ht.
Defined.

(** ** The handlers of a game message return *)

Lemma seated_player (room : GameRoom) (playerId : string) :
  playerId ∈ map pid (players room) →
  ∃ (i : nat) p, list_find (fun p => pid p = playerId) (players room) = Some (i, p)
                 ∧ findIndexById room playerId = Z.of_nat i
                 ∧ playerAt room (findIndexById room playerId) = Some p
                 ∧ players room !! i = Some p ∧ pid p = playerId.
Proof.
  intros Hin. apply list_elem_of_In, in_map_iff in Hin as (q & Hq & Hin).
  apply list_elem_of_In in Hin.
  destruct (list_find_elem_of (fun p => pid p = playerId) (players room) q Hin Hq)
    as [[i p] Hfind].
  exists i, p. unfold findIndexById, playerAt. rewrite Hfind.
  apply list_find_Some in Hfind as (Hp & Hpid & _).
  rewrite bool_decide_eq_true_2 by lia. by rewrite Nat2Z.id.
Qed.

Lemma other_player (ps : list Player) (i : nat) (p : Player) (playerId : string) :
  length ps = 2%nat → NoDup (map pid ps) → ps !! i = Some p → pid p = playerId →
  ∃ j q, j ≠ i ∧ ps !! j = Some q ∧ pid q ≠ playerId.
Proof.
  intros Hlen Hnd Hp Hpid.
  destruct ps as [|p0 [|p1 [|]]]; try done.
  apply NoDup_cons in Hnd as [Hne _]. cbn [map] in Hne.
  rewrite list_elem_of_singleton in Hne.
  destruct i as [|[|i]]; simplify_eq/=.
  - exists 1%nat, p1. split; [done|]. split; [done|]. congruence.
  - exists 0%nat, p0. by split.
Qed.

Lemma commitMove_total (wsOpen : nat → bool) (room : GameRoom)
    (playerId : string) (i : nat) (player : Player)
    (placedTiles : list PlacedTile) (ws : list FormedWord) :
  getFormedWords (board room) placedTiles = Some ws →
  length (players room) = 2%nat → NoDup (map pid (players room)) →
  players room !! i = Some player → pid player = playerId →
  is_Some (commitMove wsOpen room playerId (Z.of_nat i) player placedTiles ws).
Proof.
  intros Hwords Hlen Hnd Hp Hpid. unfold commitMove.
  destruct (calculateScore_total _ _ _ Hwords) as [points ->].
  destruct (getFormedWords_reads _ _ _ Hwords) as (tb & -> & _).
  cbn [mbind option_bind]. rewrite Nat2Z.id.
  destruct (drawTiles (tileBag room) _) as [drawn remaining].
  destruct (_ && _); [|by eexists].
  destruct (other_player _ _ _ _ Hlen Hnd Hp Hpid) as (j & q & Hji & Hq & Hqid).
  set (mover := mkPlayer _ _ _ _ _ _).
  destruct (list_find_elem_of (fun p => pid p ≠ playerId)
              (<[i := mover]> (players room)) q) as [[j' opponent] Hfind]; [|done|].
  { eapply list_elem_of_lookup_2. rewrite list_lookup_insert_ne by done. exact Hq. }
  rewrite Hfind. cbn [mbind option_bind].
  apply list_find_Some in Hfind as (Hj' & _).
  assert (Hi : (i < length (players room))%nat) by (by eapply lookup_lt_Some).
  assert (Hj : (j' < length (players room))%nat).
  { apply lookup_lt_Some in Hj'. by rewrite length_insert in Hj'. }
  destruct (lookup_lt_is_Some_2
              (<[j' := setScore opponent
                         (score opponent - calculateEndgameDeductions (rack opponent))]>
                 (<[i := mover]> (players room))) i) as [mover2 ->].
  { by rewrite !length_insert. }
  cbn [mbind option_bind].
  match goal with
  | |- context [?l !! j'] =>
      destruct (lookup_lt_is_Some_2 l j') as [opponent3 ->];
        [by rewrite !length_insert|]
  end.
  by eexists.
Qed.

Lemma valid_tiles_on_grid (b : Board) (placedTiles : list PlacedTile)
    (isFirstMove : bool) :
  validatePlacement b placedTiles isFirstMove = Some Valid →
  placedTiles ≠ []
  ∧ ∀ t, t ∈ placedTiles → 0 <= row t <= 14 ∧ 0 <= col t <= 14.
Proof.
  intros Hvalid. destruct placedTiles as [|p0 rest]; [done|]. split; [done|].
  unfold validatePlacement in Hvalid.
  destruct (negb _ && negb _); [done|].
  apply bind_Some in Hvalid as (cells & Hcells & Hvalid).
  destruct cells as [e|]; [done|].
  intros t Ht. by destruct (checkCells_inv _ _ Hcells t Ht) as (? & ? & _).
Qed.

(** A message whose tiles have integer coordinates is handled: in a room
    that the server can hold, whose two players have different ids, the
    handler of a place_tiles, pass_turn or exchange_tiles message of a seated
    player returns a room and the messages to send. *)
Lemma integer_message_is_handled (wsOpen : nat → bool) (bag0 : list Tile)
    (room : GameRoom) (playerId : string) (msg : ClientMsg) :
  roomInvariant bag0 room →
  NoDup (map pid (players room)) →
  playerId ∈ map pid (players room) →
  is_Some (handleGameMsg wsOpen room playerId msg).
Proof.
  intros (Hlen & Hst & Hwf & _) Hnd Hseat.
  destruct (seated_player room playerId Hseat)
    as (i & player & Hfind & Hidx & Hat & Hp & Hpid).
  destruct msg as [placedTiles| |tileIds draws]; cbn [handleGameMsg].
  - unfold handlePlaceTiles.
    destruct (started room) eqn:Hstarted; cbn [negb orb]; [|by eexists].
    destruct (gameOver room); [by eexists|].
    rewrite Hat. cbn [mbind option_bind].
    case_bool_decide; [by eexists|].
    case_bool_decide; [by eexists|].
    destruct (existsb _ placedTiles); [by eexists|].
    destruct (validatePlacement_decides_total (board room) placedTiles
                (isFirstMove room) Hwf) as [v Hv].
    rewrite Hv. cbn [mbind option_bind]. destruct v as [|e]; [|by eexists].
    destruct (valid_tiles_on_grid _ _ _ Hv) as [Hne Hgrid].
    destruct (getFormedWords_spec (board room) placedTiles Hwf Hne Hgrid)
      as (tb & ws & _ & Hws & _).
    rewrite Hws. cbn [mbind option_bind].
    destruct (filter _ ws); [|by eexists].
    rewrite Hidx. apply commitMove_total; try done. by apply Hst.
  - unfold handlePassTurn.
    destruct (started room) eqn:Hstarted; cbn [negb orb]; [|by eexists].
    destruct (gameOver room); [by eexists|].
    case_bool_decide; [by eexists|].
    rewrite Hat. cbn [mbind option_bind].
    case_bool_decide; [|by eexists].
    assert (Hl2 : length (players room) = 2%nat) by (by apply Hst).
    destruct (players room) as [|p0 [|p1 [|]]]; try done.
  - unfold handleExchangeTiles.
    destruct (started room) eqn:Hstarted; cbn [negb orb]; [|by eexists].
    destruct (gameOver room); [by eexists|].
    case_bool_decide.
    { rewrite Hfind. by eexists. }
    case_bool_decide; [by eexists|].
    rewrite Hat. cbn [mbind option_bind].
    destruct (drawTiles _ _). by eexists.
Qed.

Lemma openingRoom_invariant :
  roomInvariant (createTileBag demoIds 1 stillDraws) openingRoom.
Proof.
  destruct openingRoom_joined as [out Hjoin].
  eapply join_keeps_invariant; [|exact Hjoin].
  apply (create_has_invariant demoIds allOpen "ABCDEF" 1 "Ann" 0 stillDraws 0).
Qed.

(** ** The words of an accepted placement *)

Lemma getFormedWords_candidates (b : Board) (placedTiles : list PlacedTile) :
  getFormedWords b placedTiles
  = tb ← placeAll b placedTiles;
    words ← candidateWords tb placedTiles;
    unique ← uniqueWords [] words;
    Some (map snd unique).
Proof.
  unfold getFormedWords, candidateWords.
  destruct (placeAll b placedTiles) as [tb|]; [|done]. cbn [mbind option_bind].
  destruct placedTiles as [|p0 rest]; [done|].
  destruct (if sameRowOf (p0 :: rest) || _ then _ else _) as [main1|]; [|done].
  cbn [mbind option_bind].
  destruct (if negb (sameRowOf (p0 :: rest)) || _ then _ else _) as [main2|]; [|done].
  cbn [mbind option_bind].
  by destruct (crossWords tb _ _ _ (p0 :: rest)) as [cross|].
Qed.

Lemma string_length_app (s1 s2 : string) :
  String.length (s1 +:+ s2) = (String.length s1 + String.length s2)%nat.
Proof.
  induction s1 as [|a s1 IH]; [done|].
  change (String a s1 +:+ s2) with (String a (s1 +:+ s2)).
  cbn [String.length]. by rewrite IH.
Qed.

Lemma shownLetter_length (t : Tile) : (1 <= String.length (shownLetter t))%nat.
Proof.
  unfold shownLetter. case_decide as Hl; [cbn; lia|].
  destruct (letter t); [done|cbn; lia].
Qed.

Lemma letterAt_length (tb : Board) (ps : gset (Z * Z)) (rc : Z * Z) (l : LetterTile) :
  letterAt tb ps rc = Some l → (1 <= String.length (lt_letter l))%nat.
Proof.
  unfold letterAt. intros H.
  apply bind_Some in H as (cell & _ & H). apply bind_Some in H as (tl & _ & H).
  injection H as <-. apply shownLetter_length.
Qed.

Lemma wordOf_length (ts : list LetterTile) :
  Forall (fun l => (1 <= String.length (lt_letter l))%nat) ts →
  (length ts <= String.length (wordOf ts))%nat.
Proof.
  induction 1 as [|l ts Hl _ IH]; [done|].
  cbn [wordOf foldr length]. rewrite string_length_app. fold (wordOf ts). lia.
Qed.

Lemma runOn_length (tb : Board) (ps : gset (Z * Z)) (h : bool)
    (r c lo hi : Z) (ts : list LetterTile) :
  runOn tb ps h r c lo hi ts →
  length ts = Z.to_nat (hi - lo + 1)
  ∧ (Z.to_nat (hi - lo + 1) <= String.length (wordOf ts))%nat.
Proof.
  intros (_ & _ & _ & Hrun & _).
  assert (Hlen : length ts = Z.to_nat (hi - lo + 1)).
  { rewrite <- (Forall2_length _ _ _ Hrun). apply length_seqZ. }
  split; [done|]. rewrite <- Hlen. apply wordOf_length.
  apply Forall_forall. intros l Hl.
  apply list_elem_of_lookup_1 in Hl as [i Hi].
  destruct (Forall2_lookup_r _ _ _ _ _ Hrun Hi) as (k & _ & Hk).
  by eapply letterAt_length.
Qed.

(** A run contains every cell that is joined to one of its cells by
    cells that hold tiles. *)
Lemma run_extends (tb : Board) (ps : gset (Z * Z)) (h : bool)
    (r c lo hi pos k : Z) (ts : list LetterTile) :
  runOn tb ps h r c lo hi ts → lo <= pos <= hi → 0 <= k <= 14 →
  (∀ j, Z.min pos k <= j <= Z.max pos k → occAt tb (lineCell h r c j)) →
  lo <= k <= hi.
Proof.
  intros (Hlo & Hle & Hhi & _ & Hstart & Hend) Hpos Hk Hocc. split.
  - destruct (decide (lo <= k)) as [|Hlt]; [done|].
    destruct Hstart as [->|Hfree]; [lia|]. exfalso. apply Hfree, Hocc. lia.
  - destruct (decide (k <= hi)) as [|Hgt]; [done|].
    destruct Hend as [->|Hfree]; [lia|]. exfalso. apply Hfree, Hocc. lia.
Qed.


Lemma valid_keeps_rules (b : Board) (placedTiles : list PlacedTile)
    (isFirstMove : bool) :
  wf_board b → validatePlacement b placedTiles isFirstMove = Some Valid →
  passesEarlierRules b placedTiles isFirstMove ∧ ¬ hasGap b placedTiles.
Proof.
  intros Hwf Hvalid.
  destruct (validatePlacement_stages b placedTiles isFirstMove Hwf)
    as [(e & He & _)|Hrules]; [congruence|].
  split; [done|].
  destruct (validatePlacement_after_rules b placedTiles isFirstMove Hwf Hrules)
    as (gap & Hgap & Hiff).
  rewrite Hvalid in Hgap. destruct gap; [done|].
  intros Hg. by apply Hiff in Hg.
Qed.

Lemma occupiedOn_cases (b : Board) (r c : Z) :
  occupiedOn b r c ∨ ¬ occupiedOn b r c.
Proof.
  unfold occupiedOn. destruct (getCell b r c) as [cell|] eqn:Hcell.
  - destruct (tile cell) as [t|] eqn:Ht.
    + left. by exists cell, t.
    + right. intros (cell' & t & [= <-] & Ht'). congruence.
  - right. by intros (cell' & t & [=] & _).
Qed.

(** A cell that holds a tile before the tiles are placed, or that one of
    them is placed on, holds a tile afterwards. *)
Lemma placeAll_occ (placedTiles : list PlacedTile) (b tb : Board) (r c : Z) :
  placeAll b placedTiles = Some tb →
  placedAtCell placedTiles r c ∨ occupiedOn b r c → occupiedOn tb r c.
Proof.
  intros Htb Hor.
  destruct (placedAtB_cases placedTiles r c) as [Hp|Hnp].
  - destruct (placeAll_written _ _ _ r c Htb Hp) as (cell & t & Hcell & Ht & _).
    by exists cell, (ptile t).
  - destruct Hor as [Hp|Hocc]; [done|].
    destruct Hocc as (cell & t & Hcell & Ht).
    exists cell, t. split; [|done].
    by rewrite (placeAll_elsewhere _ _ _ r c Htb Hnp).
Qed.

(** Without a gap, the cells between two placed tiles all hold a tile once
    the tiles are on the board. *)
Lemma placed_tiles_joined (placedTiles : list PlacedTile) (b tb : Board)
    (h : bool) (t t' : PlacedTile) (j : Z) :
  placeAll b placedTiles = Some tb → ¬ hasGap b placedTiles →
  t ∈ placedTiles → t' ∈ placedTiles →
  (if h then allInRow placedTiles (row t) else allInCol placedTiles (col t)) →
  Z.min (linePos h (row t) (col t)) (linePos h (row t') (col t')) <= j
  <= Z.max (linePos h (row t) (col t)) (linePos h (row t') (col t')) →
  occAt tb (lineCell h (row t) (col t) j).
Proof.
  intros Htb Hnogap Ht Ht' Hline Hj.
  assert (Hne : placedTiles ≠ []) by (intros ->; by apply elem_of_nil in Ht).
  set (f := if h then col else row).
  assert (Hf : ∀ x, linePos h (row x) (col x) = f x) by (intros x; by destruct h).
  rewrite !Hf in Hj.
  assert (Hne' : map f placedTiles ≠ []) by (by destruct placedTiles).
  destruct (spanMin_spec _ Hne') as [_ Hmin].
  destruct (spanMax_spec _ Hne') as [_ Hmax].
  assert (Hin : ∀ x, x ∈ placedTiles → f x ∈ map f placedTiles).
  { intros x Hx. apply list_elem_of_In, in_map, list_elem_of_In, Hx. }
  pose proof (Hmin _ (Hin t Ht)). pose proof (Hmin _ (Hin t' Ht')).
  pose proof (Hmax _ (Hin t Ht)). pose proof (Hmax _ (Hin t' Ht')).
  assert (Hspan : spanCell placedTiles (lineCell h (row t) (col t) j).1
                    (lineCell h (row t) (col t) j).2).
  { unfold spanCell. destruct h; subst f; cbn [lineCell fst snd] in *.
    - left. split; [done|]. lia.
    - right. split; [done|]. lia. }
  unfold occAt. eapply placeAll_occ; [exact Htb|].
  destruct (placedAtB_cases placedTiles (lineCell h (row t) (col t) j).1
              (lineCell h (row t) (col t) j).2) as [Hp|Hnp]; [by left|].
  destruct (occupiedOn_cases b (lineCell h (row t) (col t) j).1
              (lineCell h (row t) (col t) j).2) as [Ho|Hno]; [by right|].
  exfalso. apply Hnogap. by eexists _, _.
Qed.

(** A run through two different cells makes a word. *)
Lemma getWordAt_two_cells (tb : Board) (ps : gset (Z * Z)) (h : bool)
    (r c k : Z) :
  wf_board tb → 0 <= r <= 14 → 0 <= c <= 14 → 0 <= k <= 14 →
  k ≠ linePos h r c →
  (∀ j, Z.min (linePos h r c) k <= j <= Z.max (linePos h r c) k →
        occAt tb (lineCell h r c j)) →
  ∃ w, getWordAt tb ps r c h = Some [w].
Proof.
  intros Hwf Hr Hc Hk Hne Hocc.
  assert (Ho : occAt tb (r, c)).
  { rewrite <- (lineCell_start h r c). apply Hocc. lia. }
  destruct (getWordAt_spec tb ps r c h Hwf Hr Hc Ho)
    as (lo & hi & ts & Hrun & Hpos & ->).
  assert (Hin : lo <= k <= hi) by (by eapply run_extends).
  destruct (runOn_length _ _ _ _ _ _ _ _ Hrun) as [_ Hlen].
  rewrite bool_decide_eq_true_2 by lia. by eexists.
Qed.

Lemma uniqueWords_none_left (words : list FormedWord)
    (unique : list (((Z * Z) * (Z * Z)) * FormedWord)) :
  uniqueWords unique words = Some [] → unique = [] ∧ words = [].
Proof.
  revert unique. induction words as [|w rest IH]; intros unique.
  - cbn. by intros [= ->].
  - cbn [uniqueWords]. intros H. apply bind_Some in H as (key & Hkey & H).
    case_bool_decide as Hmem.
    + destruct (IH _ H) as [-> _]. by apply elem_of_nil in Hmem.
    + destruct (IH _ H) as [Hnil _]. by destruct unique.
Qed.

Lemma placed_cell_occ (placedTiles : list PlacedTile) (b tb : Board) (t : PlacedTile) :
  placeAll b placedTiles = Some tb → t ∈ placedTiles → occAt tb (row t, col t).
Proof.
  intros Htb Ht. unfold occAt. cbn [fst snd].
  eapply placeAll_occ; [exact Htb|]. left. by exists t.
Qed.

(** An accepted placement on pairwise distinct cells forms a word: the list
    that [getFormedWords] returns for it is not empty, so some word is
    looked up in the lexicon and scored. *)
Theorem accepted_placement_forms_a_word (b : Board)
    (placedTiles : list PlacedTile) (isFirstMove : bool) :
  wf_board b →
  validatePlacement b placedTiles isFirstMove = Some Valid →
  NoDup (map (fun t => (row t, col t)) placedTiles) →
  ∃ ws, getFormedWords b placedTiles = Some ws ∧ ws ≠ [].
Proof.
  intros Hwf Hvalid Hnd.
  destruct (valid_keeps_rules b placedTiles isFirstMove Hwf Hvalid)
    as [(Hne & Hline & Hcells & Hmove) Hnogap].
  assert (Hgrid : ∀ t, t ∈ placedTiles → 0 <= row t <= 14 ∧ 0 <= col t <= 14).
  { intros t Ht. by destruct (Hcells t Ht) as (? & ? & _). }
  destruct (getFormedWords_spec b placedTiles Hwf Hne Hgrid)
    as (tb & ws & Htb & Hws & _).
  exists ws. split; [done|]. intros ->.
  assert (Hwf' : wf_board tb) by (by eapply placeAll_wf).
  rewrite getFormedWords_candidates, Htb in Hws. cbn [mbind option_bind] in Hws.
  apply bind_Some in Hws as (words & Hwords & Hws).
  apply bind_Some in Hws as (unique & Hunique & Hws).
  injection Hws as Hws. apply map_eq_nil in Hws. subst unique.
  apply uniqueWords_none_left in Hunique as [_ ->].
  destruct placedTiles as [|p0 [|p1 rest]]; [done| |].
  - (* one tile, next to a tile of the board *)
    destruct isFirstMove; [cbn in Hmove; lia|].
    destruct Hmove as (t & nr & nc & Ht & Hadj & Hocc).
    apply list_elem_of_singleton in Ht. subst t.
    destruct (Hgrid p0) as [Hr Hc]; [left|].
    assert (Hn : 0 <= nr < 15 ∧ 0 <= nc < 15).
    { destruct Hocc as (cell & tl & Hcell & _).
      apply (getCell_Some_range b nr nc cell Hwf Hcell). }
    assert (Hocc' : occupiedOn tb nr nc) by (eapply placeAll_occ; [exact Htb|by right]).
    assert (Hp0 : occAt tb (row p0, col p0)) by (eapply placed_cell_occ; [exact Htb|left]).
    assert (Hword : ∃ h w, getWordAt tb (placedSetOf [p0]) (row p0) (col p0) h
                           = Some [w]).
    { unfold neighbours in Hadj.
      repeat (apply elem_of_cons in Hadj as [Hadj|Hadj]); [| | | |by apply elem_of_nil in Hadj];
        injection Hadj as -> ->.
      - exists false. apply (getWordAt_two_cells tb _ false _ _ (row p0 - 1));
          [done|done|done|lia|cbn; lia|].
        intros j Hj. cbn [linePos] in Hj.
        destruct (decide (j = row p0)) as [->|]; [done|].
        replace j with (row p0 - 1) by lia. exact Hocc'.
      - exists false. apply (getWordAt_two_cells tb _ false _ _ (row p0 + 1));
          [done|done|done|lia|cbn; lia|].
        intros j Hj. cbn [linePos] in Hj.
        destruct (decide (j = row p0)) as [->|]; [done|].
        replace j with (row p0 + 1) by lia. exact Hocc'.
      - exists true. apply (getWordAt_two_cells tb _ true _ _ (col p0 - 1));
          [done|done|done|lia|cbn; lia|].
        intros j Hj. cbn [linePos] in Hj.
        destruct (decide (j = col p0)) as [->|]; [done|].
        replace j with (col p0 - 1) by lia. exact Hocc'.
      - exists true. apply (getWordAt_two_cells tb _ true _ _ (col p0 + 1));
          [done|done|done|lia|cbn; lia|].
        intros j Hj. cbn [linePos] in Hj.
        destruct (decide (j = col p0)) as [->|]; [done|].
        replace j with (col p0 + 1) by lia. exact Hocc'. }
    destruct Hword as (h & w & Hw).
    unfold candidateWords in Hwords.
    replace (sameRowOf [p0]) with true in Hwords
      by (cbn; by rewrite bool_decide_eq_true_2).
    rewrite bool_decide_eq_true_2 in Hwords by done.
    cbn [orb negb] in Hwords.
    apply bind_Some in Hwords as (main1 & H1 & Hwords).
    apply bind_Some in Hwords as (main2 & H2 & Hwords).
    apply bind_Some in Hwords as (cross & _ & Hwords).
    injection Hwords as Hwords.
    apply app_eq_nil in Hwords as [-> Hwords].
    apply app_eq_nil in Hwords as [-> _].
    destruct h; congruence.
  - (* two tiles or more, on different cells of one line *)
    set (pts := p0 :: p1 :: rest) in *.
    assert (H0 : p0 ∈ pts) by left.
    assert (H1 : p1 ∈ pts) by (right; left).
    destruct (Hgrid p0 H0) as [Hr0 Hc0]. destruct (Hgrid p1 H1) as [Hr1 Hc1].
    assert (Hdiff : (row p0, col p0) ≠ (row p1, col p1)).
    { subst pts. cbn [map] in Hnd. apply NoDup_cons in Hnd as [Hnot _].
      intros Heq. apply Hnot. rewrite Heq. left. }
    unfold candidateWords in Hwords. fold pts in Hwords.
    rewrite (bool_decide_eq_false_2 (length pts = 1%nat)) in Hwords by done.
    rewrite !orb_false_r in Hwords.
    apply bind_Some in Hwords as (main1 & Hm1 & Hwords).
    apply bind_Some in Hwords as (main2 & Hm2 & Hwords).
    apply bind_Some in Hwords as (cross & _ & Hwords).
    injection Hwords as Hwords.
    apply app_eq_nil in Hwords as [-> Hwords].
    apply app_eq_nil in Hwords as [-> _].
    destruct (sameRowOf pts) eqn:Hsame; cbn [negb] in Hm1, Hm2.
    + apply sameRowOf_spec in Hsame. fold pts in Hsame.
      destruct (getWordAt_two_cells tb (placedSetOf pts) true (row p0) (col p0)
                  (col p1)) as (w & Hw); try done.
      { cbn [linePos]. intros Heq. apply Hdiff. f_equal; [|done].
        symmetry. by apply Hsame. }
      { intros j Hj.
        apply (placed_tiles_joined pts b tb true p0 p1 j Htb Hnogap H0 H1 Hsame Hj). }
      congruence.
    + assert (Hcol : allInCol pts (col p0)).
      { destruct Hline as [[r Hr]|[c Hc]].
        - pose proof (allInRow_first _ _ _ Hr) as ->.
          apply sameRowOf_spec in Hr. fold pts in Hr. congruence.
        - by pose proof (allInCol_first _ _ _ Hc) as ->. }
      destruct (getWordAt_two_cells tb (placedSetOf pts) false (row p0) (col p0)
                  (row p1)) as (w & Hw); try done.
      { cbn [linePos]. intros Heq. apply Hdiff. f_equal; [done|].
        symmetry. by apply Hcol. }
      { intros j Hj.
        apply (placed_tiles_joined pts b tb false p0 p1 j Htb Hnogap H0 H1 Hcol Hj). }
      congruence.
Qed.

Lemma accepted_placement_forms_a_word_witness :
  ∃ ws, getFormedWords createEmptyBoard catTiles = Some ws ∧ ws ≠ [].
Proof.
  apply (accepted_placement_forms_a_word createEmptyBoard catTiles true).
  - apply createEmptyBoard_wf.
  - vm_compute. reflexivity.
  - apply (bool_decide_unpack _). vm_compute. exact I.
Defined.

(** ** The order of the tiles in a message *)


























(** ** Connections and views *)

Lemma sameHand_refl (p : Player) : sameHand p p.
Proof. by repeat split. Qed.

Lemma Forall2_sameHand_refl (ps : list Player) : Forall2 sameHand ps ps.
Proof. induction ps; constructor; [apply sameHand_refl|done]. Qed.

Lemma Forall2_sameHand_insert (ps : list Player) (i : nat) (p p' : Player) :
  ps !! i = Some p → sameHand p p' → Forall2 sameHand ps (<[i := p']> ps).
Proof.
  revert i. induction ps as [|q ps IH]; intros i Hi Hpp; [constructor|].
  destruct i as [|i]; simplify_eq/=.
  - constructor; [done|apply Forall2_sameHand_refl].
  - constructor; [apply sameHand_refl|by apply IH].
Qed.

Lemma sameGame_refl (room : GameRoom) : sameGame room room.
Proof. split; [apply Forall2_sameHand_refl|]. by repeat split. Qed.

(** Connections coming and going never touch the game. A [close], and a
    join_room on a room that already has its two players, leave every hand
    (id, name, rack, score) and the board, the bag, the turn, the counters,
    the result and the history as they were. The join either is refused
    with ["Room is full"], sent to the new socket only, when every seat is
    connected, or takes the first seat of [room.players] that is not
    connected: every seat before it is connected, the seat gets the new
    socket and is connected again, no other seat changes, and the connection
    carries the id of the seat from then on. *)
Theorem connection_events_keep_game (genTileId : nat → string)
    (wsOpen : nat → bool) (room : GameRoom) :
  (∀ playerId, sameGame room (handleClose wsOpen room playerId).1.1)
  ∧ ∀ sock given counter room' newId out,
      (2 <= length (players room))%nat →
      handleJoinRoom genTileId wsOpen room sock given counter
      = Some (room', newId, out) →
      sameGame room room'
      ∧ ((newId = None ∧ room' = room ∧ out = [(sock, ErrorMsg "Room is full")]
          ∧ Forall (fun p => connected p = true) (players room))
         ∨ ∃ i seat, players room !! i = Some seat ∧ connected seat = false
                     ∧ (∀ j earlier, players room !! j = Some earlier →
                                     (j < i)%nat → connected earlier = true)
                     ∧ newId = Some (pid seat)
                     ∧ players room'
                       = <[i := mkPlayer sock (pid seat) (name seat) (rack seat)
                                  (score seat) true]> (players room)).
Proof.
  split.
  - intros playerId. unfold handleClose.
    destruct (list_find _ (players room)) as [[i player]|] eqn:Hfind.
    + cbn [fst]. apply list_find_Some in Hfind as (Hi & _).
      split; [|by repeat split]. cbn [setPlayers players].
      apply (Forall2_sameHand_insert _ _ player); [done|]. by repeat split.
    + cbn [fst]. apply sameGame_refl.
  - intros sock given counter room' newId out Hfull. unfold handleJoinRoom.
    rewrite bool_decide_eq_true_2 by done.
    destruct (list_find _ (players room)) as [[i slot]|] eqn:Hfind.
    + intros [= <- <- _]. apply list_find_Some in Hfind as (Hi & Hoff & Hfirst).
      split.
      * split; [|by repeat split]. cbn [setPlayers players].
        apply (Forall2_sameHand_insert _ _ slot); [done|]. by repeat split.
      * right. exists i, slot. split; [done|]. split; [done|].
        split; [|by split].
        intros j earlier Hj Hlt. specialize (Hfirst j earlier Hj Hlt).
        by destruct (connected earlier).
    + intros [= <- <- <-]. split; [apply sameGame_refl|]. left.
      split; [done|]. split; [done|]. split; [done|].
      apply Forall_forall. intros p Hp.
      apply list_find_None in Hfind. rewrite Forall_forall in Hfind.
      specialize (Hfind p Hp). by destruct (connected p).
Qed.

Lemma leftRoom_full : (2 <= length (players leftRoom))%nat.
Proof. vm_compute. lia. Qed.

(** After Ann's connection has closed, a join on socket 3 takes her seat,
    the first of the room, and the connection carries her id. *)
Lemma connection_events_keep_game_witness :
  ∃ room' out,
    handleJoinRoom demoIds allOpen leftRoom 3 "Eve" 102
    = Some (room', Some "t1", out)
    ∧ sameGame leftRoom room'.
Proof.
  destruct (handleJoinRoom demoIds allOpen leftRoom 3 "Eve" 102)
    as [[[room' newId] out]|] eqn:Hjoin; [|vm_compute in Hjoin; discriminate].
  assert (Hid : (fun res : GameRoom * option string * list (nat * ServerMsg) =>
                   res.1.2)
                <$> handleJoinRoom demoIds allOpen leftRoom 3 "Eve" 102
                = Some (Some "t1")) by (vm_compute; reflexivity).
  rewrite Hjoin in Hid. injection Hid as Hid. cbn [fst snd] in Hid. subst newId.
  exists room', out. split; [reflexivity|].
  exact (proj1 (proj2 (connection_events_keep_game demoIds allOpen leftRoom)
                   3%nat "Eve" 102%nat room' (Some "t1") out leftRoom_full Hjoin)).
Defined.

Lemma list_find_related {A} (P Q : A → Prop) `{∀ x, Decision (P x)}
    `{∀ x, Decision (Q x)} (R : A → A → Prop) (l l' : list A) :
  Forall2 (fun x y => R x y ∧ (P x ↔ Q y)) l l' →
  option_Forall2 (fun a b => a.1 = b.1 ∧ R a.2 b.2) (list_find P l) (list_find Q l').
Proof.
  induction 1 as [|x y l l' [HR Hiff] _ IH]; [constructor|].
  cbn [list_find]. destruct (decide (P x)) as [Hp|Hp].
  - rewrite decide_True by (by apply Hiff). by constructor.
  - rewrite decide_False by (by rewrite <- Hiff).
    destruct IH as [[i a] [j b] [Hij Hab]|]; cbn in *; constructor.
    cbn. split; [by f_equal|done].
Qed.

Lemma getPublicBoard_same (b b' : Board) :
  Forall2 (Forall2 (fun cell cell' =>
     premium cell = premium cell'
     ∧ option_Forall2 (fun t t' => letter t = letter t' ∧ value t = value t')
         (tile cell) (tile cell'))) b b' →
  getPublicBoard b = getPublicBoard b'.
Proof.
  unfold getPublicBoard. induction 1 as [|line line' b b' Hline _ IH]; [done|].
  cbn [map]. f_equal; [|exact IH].
  induction Hline as [|cell cell' line line' [Hp Ht] _ IHl]; [done|].
  cbn [map]. f_equal; [|exact IHl].
  rewrite Hp. f_equal. destruct Ht as [t t' [Hl Hv]|]; [|done]. by rewrite Hl, Hv.
Qed.

Lemma lookup_related {A} (R : A → A → Prop) (l l' : list A) (i : nat) :
  Forall2 R l l' → option_Forall2 R (l !! i) (l' !! i).
Proof.
  intros H. revert i. induction H as [|x y l l' HR _ IH]; intros i.
  - rewrite !lookup_nil. constructor.
  - destruct i as [|i]; cbn; [by constructor|apply IH].
Qed.

(** The state message hides what a player must not see. The view
    [getRoomState] computes for a player is the same in two rooms that differ
    only in the tiles of the other racks, in the tiles of the bag, and in the
    ids and blank flags of the tiles on the board: it shows of them only the
    number of tiles of the opponent's rack, the number of tiles left, and the
    letters and values on the board. *)
Theorem view_hides_opponent_tiles (forPlayerId : string) (room room' : GameRoom) :
  sameFor forPlayerId room room' →
  getRoomState room forPlayerId = getRoomState room' forPlayerId.
Proof.
  intros (Hseats & Hcode & Hboard & Hbag & Hturn & Hfirst & Hover & Hwin & Hhist
          & Hstarted).
  assert (Hme : option_Forall2 (fun a b => a.1 = b.1 ∧ sameSeatFor forPlayerId a.2 b.2)
                  (list_find (fun p => pid p = forPlayerId) (players room))
                  (list_find (fun p => pid p = forPlayerId) (players room'))).
  { apply list_find_related. eapply Forall2_impl; [exact Hseats|].
    intros x y Hxy. split; [done|]. destruct Hxy as (Hid & _). by rewrite Hid. }
  assert (Hopp : option_Forall2 (fun a b => a.1 = b.1 ∧ sameSeatFor forPlayerId a.2 b.2)
                   (list_find (fun p => pid p ≠ forPlayerId) (players room))
                   (list_find (fun p => pid p ≠ forPlayerId) (players room'))).
  { apply list_find_related. eapply Forall2_impl; [exact Hseats|].
    intros x y Hxy. split; [done|]. destruct Hxy as (Hid & _). by rewrite Hid. }
  assert (Hmover : pid <$> playerAt room (currentTurnIndex room)
                   = pid <$> playerAt room' (currentTurnIndex room')).
  { rewrite <- Hturn. unfold playerAt. case_bool_decide; [|done].
    destruct (lookup_related _ _ _ (Z.to_nat (currentTurnIndex room)) Hseats)
      as [x y (Hid & _)|]; [|done].
    cbn. by rewrite Hid. }
  unfold getRoomState.
  rewrite <- Hcode, <- (getPublicBoard_same _ _ Hboard), <- Hbag, <- Hfirst,
          <- Hover, <- Hwin, <- Hhist, <- Hstarted, <- Hmover,
          <- (Forall2_length _ _ _ Hseats).
  inversion Hme as [[i p] [j q] [_ Hpq] Ea Eb|Ea Eb];
    inversion Hopp as [[i' p'] [j' q'] [_ Hpq'] Ea' Eb'|Ea' Eb'];
    cbn [fmap option_fmap option_map snd from_option].
  - symmetry in Ea. apply list_find_Some in Ea as (_ & Hp & _).
    destruct Hpq as (_ & Hname & Hscore & _ & Hrack).
    destruct Hpq' as (_ & Hname' & Hscore' & Hlen' & _). cbn [snd] in *.
    by rewrite <- (Hrack Hp), <- Hname, <- Hscore, <- Hname', <- Hscore', <- Hlen'.
  - symmetry in Ea. apply list_find_Some in Ea as (_ & Hp & _).
    destruct Hpq as (_ & Hname & Hscore & _ & Hrack). cbn [snd] in *.
    by rewrite <- (Hrack Hp), <- Hname, <- Hscore.
  - destruct Hpq' as (_ & Hname' & Hscore' & Hlen' & _). cbn [snd] in *.
    by rewrite <- Hname', <- Hscore', <- Hlen'.
  - done.
Qed.

Lemma view_hides_opponent_tiles_witness :
  getRoomState openingRoom "t1" = getRoomState maskedRoom "t1".
Proof.
  apply (view_hides_opponent_tiles "t1" openingRoom maskedRoom).
  unfold sameFor. split; [|split; [reflexivity|split]].
  - unfold maskedRoom. cbn [players].
    generalize (players openingRoom). intros ps.
    induction ps as [|p ps IH]; [constructor|]. cbn [map]. constructor; [|exact IH].
    case_decide as Hp; [by repeat split|].
    unfold sameSeatFor. cbn [setRack pid name score rack].
    split; [done|]. split; [done|]. split; [done|].
    split; [by rewrite length_map|]. intros Hid. by destruct Hp.
  - unfold maskedRoom. cbn [board].
    generalize (board openingRoom). intros b.
    induction b as [|line b IH]; constructor; [|exact IH].
    induction line as [|cell line IHl]; constructor; [|exact IHl].
    split; [done|]. destruct (tile cell); by constructor.
  - unfold maskedRoom. cbn [tileBag currentTurnIndex isFirstMove gameOver winner
                             moveHistory started].
    by rewrite length_map.
Defined.

(** * The single-player game *)

(** A new single-player game is dealt from a full bag: the player's rack,
    the AI's rack and the bag are, in this order, the shuffled bag of 100
    tiles, with seven, seven and 86 tiles; the board is empty, the scores
    are 0, the player is to move and the first move is awaited. *)
Theorem solo_game_is_dealt (generateTileId : nat → string) (counter : nat)
    (draws : list nat) :
  let game := initializeGame generateTileId counter draws in
  gs_playerRack game ++ gs_aiRack game ++ gs_tileBag game
  = createTileBag generateTileId counter draws
  ∧ length (gs_playerRack game) = 7%nat ∧ length (gs_aiRack game) = 7%nat
  ∧ length (gs_tileBag game) = 86%nat
  ∧ gs_board game = createEmptyBoard
  ∧ gs_playerScore game = 0 ∧ gs_aiScore game = 0
  ∧ gs_currentTurn game = SidePlayer ∧ gs_isFirstMove game = true
  ∧ gs_consecutivePasses game = 0 ∧ gs_gameOver game = false
  ∧ soloTotal (mkSolo game [] None) = 100%nat.
Proof.
  pose proof (createTileBag_length generateTileId counter draws) as Hlen.
  unfold initializeGame.
  set (bag := createTileBag generateTileId counter draws) in *. clearbody bag.
  rewrite (drawTiles_enough bag 7) by lia.
  rewrite (drawTiles_enough (drop (Z.to_nat 7) bag) 7)
    by (rewrite length_drop; lia).
  change (Z.to_nat 7) with 7%nat.
  assert (H7 : length (take 7 bag) = 7%nat) by (rewrite length_take; lia).
  assert (H14 : length (take 7 (drop 7 bag)) = 7%nat)
    by (rewrite length_take, length_drop; lia).
  assert (H86 : length (drop 7 (drop 7 bag)) = 86%nat)
    by (rewrite !length_drop; lia).
  unfold soloTotal.
  cbn [ui_game ui_pending gs_board gs_playerRack gs_aiRack gs_tileBag
       gs_playerScore gs_aiScore gs_currentTurn gs_isFirstMove
       gs_consecutivePasses gs_gameOver length].
  rewrite H7, H14, H86, emptyBoard_holds_no_tile.
  repeat split; try reflexivity. by rewrite !take_drop.
Qed.

(** ** Arranging tiles before a move *)

Lemma only_one_with_id (rack : list Tile) (i : nat) (tile : Tile) (sel : string) :
  NoDup (map tid rack) →
  list_find (fun t => tid t = sel) rack = Some (i, tile) →
  filter (fun t => tid t = sel) rack = [tile].
Proof.
  revert i. induction rack as [|t rack IH]; intros i Hnd Hfind; [done|].
  cbn [map] in Hnd. apply NoDup_cons in Hnd as [Hfresh Hnd].
  cbn [list_find] in Hfind. destruct (decide (tid t = sel)) as [Ht|Ht].
  - injection Hfind as <- <-. rewrite filter_cons_True by done. f_equal.
    clear IH. induction rack as [|u rack IHr]; [done|].
    cbn [map] in Hfresh, Hnd. apply not_elem_of_cons in Hfresh as [Hne Hfresh].
    apply NoDup_cons in Hnd as [_ Hnd].
    rewrite filter_cons_False by congruence. by apply IHr.
  - rewrite filter_cons_False by done.
    destruct (list_find _ rack) as [[j u]|] eqn:Hrest; [|done].
    injection Hfind as <- <-. by eapply IH.
Qed.

Lemma placeTileOnBoard_cases (st st' : SoloState) (r c : Z) :
  placeTileOnBoard st r c = Some st' →
  st' = st
  ∨ ∃ sel i tile,
      ui_selected st = Some sel
      ∧ occupied (gs_board (ui_game st)) r c = Some false
      ∧ ¬ placedAtCell (ui_pending st) r c
      ∧ list_find (fun t => tid t = sel) (gs_playerRack (ui_game st)) = Some (i, tile)
      ∧ st' = mkSolo (withPlayerRack (ui_game st)
                        (filter (fun t => tid t ≠ sel) (gs_playerRack (ui_game st))))
                     (ui_pending st ++ [mkPlaced tile r c]) None.
Proof.
  unfold placeTileOnBoard. intros Hrun.
  destruct (ui_selected st) as [sel|] eqn:Hsel; [|injection Hrun as <-; by left].
  case_decide as Hempty; [injection Hrun as <-; by left|].
  destruct (negb _); [injection Hrun as <-; by left|].
  apply bind_Some in Hrun as (occ & Hocc & Hrun).
  destruct occ; [injection Hrun as <-; by left|].
  destruct (existsb _ (ui_pending st)) eqn:Hat; [injection Hrun as <-; by left|].
  destruct (list_find _ (gs_playerRack (ui_game st))) as [[i tile]|] eqn:Hfind;
    [|injection Hrun as <-; by left].
  injection Hrun as <-. right. exists sel, i, tile.
  split; [done|]. split; [done|]. split; [|by split].
  intros Hp. apply placedAtB_spec in Hp. unfold placedAtB in Hp. congruence.
Qed.

Lemma arrange_keeps_hand (st st' : SoloState) (a : Arrange) :
  wf_board (gs_board (ui_game st)) → pendingApart st →
  NoDup (map tid (hand st)) →
  arrange st a = Some st' →
  pendingApart st' ∧ hand st' ≡ₚ hand st
  ∧ withPlayerRack (ui_game st') [] = withPlayerRack (ui_game st) []
  ∧ soloTotal st' = soloTotal st.
Proof.
  intros Hwf [Hcells Hfree] Hids Hrun.
  destruct a as [tileId|r c| |draws]; cbn [arrange] in Hrun.
  - injection Hrun as <-. split; [by split|]. split; [done|]. by split.
  - destruct (placeTileOnBoard_cases _ _ _ _ Hrun)
      as [->|(sel & i & tile & Hsel & Hocc & Hnew & Hfind & ->)];
      [split; [by split|]; split; [done|]; by split|].
    set (rack := gs_playerRack (ui_game st)) in *.
    assert (Hone : filter (fun t => tid t = sel) rack = [tile]).
    { eapply only_one_with_id; [|exact Hfind].
      unfold hand in Hids. rewrite map_app in Hids.
      by apply NoDup_app in Hids as (? & _). }
    assert (Hparts : [tile] ++ filter (fun t => tid t ≠ sel) rack ≡ₚ rack).
    { rewrite <- Hone. apply filter_app_complement. }
    split; [|split; [|split]].
    + split; cbn [ui_pending ui_game withPlayerRack gs_board].
      * rewrite map_app. cbn [map row col]. apply NoDup_app.
        split; [done|]. split; [|apply NoDup_singleton].
        intros rc Hin Hrc. apply list_elem_of_singleton in Hrc. subst rc.
        apply Hnew. apply list_elem_of_In, in_map_iff in Hin as (t & Heq & Ht).
        exists t. split; [by apply list_elem_of_In|]. by simplify_eq.
      * intros t Ht. apply elem_of_app in Ht as [Ht|Ht]; [by apply Hfree|].
        apply list_elem_of_singleton in Ht. subst t. cbn [row col].
        assert (Hrange : 0 <= r < 15 ∧ 0 <= c < 15).
        { unfold occupied in Hocc. apply bind_Some in Hocc as (cell & Hcell & _).
          by eapply getCell_Some_range. }
        split; [lia|]. split; [lia|]. by apply occupied_false.
    + unfold hand. cbn [ui_game ui_pending withPlayerRack gs_playerRack].
      fold rack. rewrite map_app. cbn [map ptile].
      etrans; [|apply Permutation_app_tail; exact Hparts].
      rewrite app_assoc. cbn [app]. symmetry. apply Permutation_cons_append.
    + done.
    + unfold soloTotal. cbn [ui_game ui_pending withPlayerRack gs_board
                             gs_playerRack gs_aiRack gs_tileBag].
      fold rack. apply Permutation_length in Hparts.
      rewrite length_app in *. cbn [length] in *. lia.
  - injection Hrun as <-. unfold recallTiles, runUpdates, recallUpdate.
    cbn [foldl]. split; [|split; [|split]].
    + split; cbn [ui_pending]; [constructor|]. intros t Ht. by apply elem_of_nil in Ht.
    + unfold hand. cbn [ui_game ui_pending withPlayerRack gs_playerRack map].
      by rewrite app_nil_r.
    + done.
    + unfold soloTotal. cbn [ui_game ui_pending withPlayerRack gs_board
                             gs_playerRack gs_aiRack gs_tileBag length].
      rewrite length_app, length_map. lia.
  - injection Hrun as <-. unfold shuffleRack, runUpdates. cbn [foldl].
    split; [done|]. split; [|split].
    + unfold hand. cbn [ui_game ui_pending withPlayerRack gs_playerRack].
      apply Permutation_app_tail, shuffleArray_Permutation.
    + done.
    + unfold soloTotal. cbn [ui_game ui_pending withPlayerRack gs_board
                             gs_playerRack gs_aiRack gs_tileBag].
      by rewrite shuffleArray_length.
Qed.

(** Arranging tiles loses nothing. Whatever the player selects, places,
    recalls and shuffles before a move is sent, from a screen whose pending
    tiles lie on distinct empty cells and whose hand (rack and pending tiles)
    holds no id twice: the pending tiles still lie on pairwise distinct empty
    cells of the grid, the hand holds the same tiles, each as often as before,
    and nothing else of the game has changed. *)
Theorem arranging_tiles_keeps_hand (st st' : SoloState) (steps : list Arrange) :
  wf_board (gs_board (ui_game st)) → pendingApart st →
  NoDup (map tid (hand st)) →
  arrangeAll st steps = Some st' →
  pendingApart st' ∧ hand st' ≡ₚ hand st
  ∧ withPlayerRack (ui_game st') [] = withPlayerRack (ui_game st) []
  ∧ soloTotal st' = soloTotal st.
Proof.
  revert st. induction steps as [|a rest IH]; intros st Hwf Hapart Hids Hrun.
  - injection Hrun as <-. split; [done|]. split; [done|]. by split.
  - cbn [arrangeAll] in Hrun. apply bind_Some in Hrun as (st1 & H1 & Hrun).
    destruct (arrange_keeps_hand st st1 a Hwf Hapart Hids H1)
      as (Hapart1 & Hhand1 & Hgame1 & Htotal1).
    assert (Hboard : gs_board (ui_game st1) = gs_board (ui_game st)).
    { by apply (f_equal gs_board) in Hgame1. }
    destruct (IH st1) as (Hapart' & Hhand' & Hgame' & Htotal'); try done.
    { by rewrite Hboard. }
    { assert (Hm : map tid (hand st1) ≡ₚ map tid (hand st))
        by (by apply Permutation_map).
      by rewrite Hm. }
    split; [done|]. split; [by etrans|]. split; [congruence|lia].
Qed.

Lemma freshSolo_board : gs_board (ui_game freshSolo) = createEmptyBoard.
Proof. vm_compute. reflexivity. Qed.

Lemma freshSolo_wf : wf_board (gs_board (ui_game freshSolo)).
Proof. rewrite freshSolo_board. apply createEmptyBoard_wf. Qed.

Lemma freshSolo_apart : pendingApart freshSolo.
Proof. split; [constructor|]. intros t Ht. by apply elem_of_nil in Ht. Qed.

Lemma freshSolo_ids : NoDup (map tid (hand freshSolo)).
Proof. apply (bool_decide_unpack _). vm_compute. exact I. Qed.

Lemma freshSolo_arranged :
  is_Some (arrangeAll freshSolo
             [DoSelect (Some "t1"); DoPlace 7 7; DoSelect (Some "t2"); DoPlace 7 8;
              DoShuffle [3%nat; 1%nat]; DoRecall]).
Proof. vm_compute. eexists. reflexivity. Qed.

Lemma arranging_tiles_keeps_hand_witness :
  ∃ st', arrangeAll freshSolo
           [DoSelect (Some "t1"); DoPlace 7 7; DoSelect (Some "t2"); DoPlace 7 8;
            DoShuffle [3%nat; 1%nat]; DoRecall] = Some st'
         ∧ hand st' ≡ₚ hand freshSolo.
Proof.
  destruct freshSolo_arranged as [st' Hrun]. exists st'. split; [exact Hrun|].
  exact (proj1 (proj2 (arranging_tiles_keeps_hand freshSolo st' _
                         freshSolo_wf freshSolo_apart freshSolo_ids Hrun))).
Defined.

(** ** Moves of the single-player game *)

Lemma submitMove_cases (gameState gameState' : GameState)
    (pendingTiles : list PlacedTile) (result : SubmitResult) :
  submitMove gameState pendingTiles = Some (gameState', result) →
  (gameState' = gameState ∧ ∃ e, result = SubmitError e)
  ∨ ∃ points tb count,
      result = SubmitOk points
      ∧ validatePlacement (gs_board gameState) pendingTiles
          (gs_isFirstMove gameState) = Some Valid
      ∧ placeAll (gs_board gameState) pendingTiles = Some tb
      ∧ gs_board gameState' = tb
      ∧ gs_playerRack gameState'
        = gs_playerRack gameState ++ (drawTiles (gs_tileBag gameState) count).1
      ∧ gs_tileBag gameState' = (drawTiles (gs_tileBag gameState) count).2
      ∧ gs_aiRack gameState' = gs_aiRack gameState.
Proof.
  unfold submitMove. intros Hrun.
  case_bool_decide; [injection Hrun as <- <-; left; split; [done|by eexists]|].
  apply bind_Some in Hrun as (v & Hv & Hrun).
  destruct v as [|e]; [|injection Hrun as <- <-; left; split; [done|by eexists]].
  apply bind_Some in Hrun as (ws & Hws & Hrun).
  destruct (filter _ ws);
    [|injection Hrun as <- <-; left; split; [done|by eexists]].
  apply bind_Some in Hrun as (points & Hpoints & Hrun).
  apply bind_Some in Hrun as (tb & Htb & Hrun).
  destruct (drawTiles (gs_tileBag gameState) _) as [drawn remaining] eqn:Hdraw.
  injection Hrun as <- <-. right.
  exists points, tb, (Z.max 0 (7 - Z.of_nat (length (gs_playerRack gameState)))).
  rewrite Hdraw. by repeat split.
Qed.

(** The update of [doAiTurn] for a move keeps the number of tiles. *)
Lemma applyAiMove_keeps_tiles (prev next : GameState) (aiMove : list PlacedTile) :
  validatePlacement (gs_board prev) aiMove (gs_isFirstMove prev) = Some Valid →
  NoDup (map (fun t => (row t, col t)) aiMove) →
  NoDup (map (fun t => tid (ptile t)) aiMove) →
  NoDup (map tid (gs_aiRack prev)) →
  tilesOwned (gs_aiRack prev) aiMove →
  applyAiMove prev aiMove = Some next →
  soloTotal (mkSolo next [] None) = soloTotal (mkSolo prev [] None).
Proof.
  intros Hvalid Hcells Hids Hrack Howned Hrun.
  unfold applyAiMove in Hrun.
  apply bind_Some in Hrun as (tb & Htb & Hrun).
  apply bind_Some in Hrun as (points & _ & Hrun).
  apply bind_Some in Hrun as (ws & _ & Hrun).
  destruct (drawTiles (gs_tileBag prev) _) as [drawn remaining] eqn:Hdraw.
  injection Hrun as <-.
  unfold soloTotal. cbn [ui_game ui_pending gs_board gs_playerRack gs_aiRack
                         gs_tileBag length].
  rewrite (tilesOnBoard_placeAll _ _ _ Htb Hcells).
  2:{ intros t Ht Hocc.
      apply (accepted_cells_were_free _ _ _ _ _ Hvalid Hocc). by exists t. }
  pose proof (keptTiles_length (gs_aiRack prev) aiMove Hrack Hids Howned) as Hkept.
  unfold keptTiles in Hkept. rewrite length_app.
  match type of Hdraw with
  | drawTiles ?bag ?n = _ => pose proof (drawTiles_app bag n) as Hsplit
  end.
  rewrite Hdraw in Hsplit. cbn [fst snd] in Hsplit.
  apply (f_equal length) in Hsplit. rewrite length_app in Hsplit. lia.
Qed.

(** A move of the single-player game neither creates nor loses a tile.
    When the player submits pending tiles that lie on pairwise distinct empty
    cells, the tiles on the board, on the two racks, in the bag and pending
    are as many after the call as before, whether the move is accepted or
    refused, and an accepted move leaves no tile pending. The same holds for
    the move of the AI when [generateAIMove] returned an accepted placement
    of tiles of the AI's rack, on distinct cells and with distinct ids. *)
Theorem solo_moves_keep_tiles :
  (∀ st st' result,
     pendingApart st → submitPending st = Some (st', result) →
     soloTotal st' = soloTotal st
     ∧ ((∃ points, result = SubmitOk points) → ui_pending st' = []))
  ∧ ∀ prev next aiMove,
      wf_board (gs_board prev) →
      validatePlacement (gs_board prev) aiMove (gs_isFirstMove prev) = Some Valid →
      NoDup (map (fun t => (row t, col t)) aiMove) →
      NoDup (map (fun t => tid (ptile t)) aiMove) →
      NoDup (map tid (gs_aiRack prev)) →
      tilesOwned (gs_aiRack prev) aiMove →
      applyAiMove prev aiMove = Some next →
      soloTotal (mkSolo next [] None) = soloTotal (mkSolo prev [] None).
Proof.
  split.
  - intros st st' result [Hcells Hfree] Hrun. unfold submitPending in Hrun.
    apply bind_Some in Hrun as ([game res] & Hsubmit & Hrun).
    destruct (submitMove_cases _ _ _ _ Hsubmit)
      as [[-> [e ->]]|(points & tb & count & -> & _ & Htb & Hb & Hrack & Hbag & Hai)].
    + injection Hrun as <- <-. split; [done|]. by intros [points [=]].
    + injection Hrun as <- <-. split; [|done].
      unfold soloTotal. cbn [ui_game ui_pending length].
      rewrite Hb, Hrack, Hbag, Hai, length_app.
      rewrite (tilesOnBoard_placeAll _ _ _ Htb Hcells)
        by (intros t Ht; by apply Hfree).
      pose proof (drawTiles_app (gs_tileBag (ui_game st)) count) as Hsplit.
      apply (f_equal length) in Hsplit. rewrite length_app in Hsplit. lia.
  - intros prev next aiMove Hwf Hvalid Hcells Hids Hrack Howned Hrun.
    by apply (applyAiMove_keeps_tiles prev next aiMove).
Qed.

Lemma placedSolo_apart : pendingApart placedSolo.
Proof.
  split.
  - apply (bool_decide_unpack _). vm_compute. exact I.
  - assert (Hb : gs_board (ui_game placedSolo) = createEmptyBoard)
      by (vm_compute; reflexivity).
    rewrite Hb.
    assert (Hp : ui_pending placedSolo
                 = [mkPlaced (mkTile "t1" "A" 1 false) 7 7;
                    mkPlaced (mkTile "t2" "A" 1 false) 7 8])
      by (vm_compute; reflexivity).
    rewrite Hp. clear Hb Hp. intros t Ht.
    repeat (apply elem_of_cons in Ht as [->|Ht];
            [cbn [row col]; split; [lia|]; split; [lia|];
             apply createEmptyBoard_free|]).
    by apply elem_of_nil in Ht.
Qed.

Lemma placedSolo_submitted : is_Some (submitPending placedSolo).
Proof. vm_compute. eexists. reflexivity. Qed.

Lemma solo_moves_keep_tiles_witness :
  ∃ st' result, submitPending placedSolo = Some (st', result)
                ∧ soloTotal st' = soloTotal placedSolo.
Proof.
  destruct placedSolo_submitted as [[st' result] Hrun].
  exists st', result. split; [exact Hrun|].
  exact (proj1 (proj1 solo_moves_keep_tiles placedSolo st' result
                  placedSolo_apart Hrun)).
Defined.

(** ** Passing and exchanging in the single-player game *)

(** What [passTurn] and [exchangeTiles] make of the tiles. Both leave no
    tile pending. With no tile pending they keep every tile of the game. The
    tiles that are pending when they are called go back to the rack only in
    the pass that ends the game, the fourth in a row; any other pass, and
    every exchange, sets a state built from the rack as it is without them,
    and the game holds that many tiles less. An exchange with fewer than
    seven tiles in the bag does nothing. *)
Theorem solo_pass_and_exchange_totals (st : SoloState) (tileIds : list string)
    (draws : list nat) :
  ui_pending (passTurn st) = []
  ∧ (gs_consecutivePasses (ui_game st) + 1 >= 4 →
     soloTotal (passTurn st) = soloTotal st
     ∧ gs_playerRack (ui_game (passTurn st))
       = gs_playerRack (ui_game st) ++ map ptile (ui_pending st)
     ∧ gs_gameOver (ui_game (passTurn st)) = true)
  ∧ (gs_consecutivePasses (ui_game st) + 1 < 4 →
     (soloTotal (passTurn st) + length (ui_pending st))%nat = soloTotal st
     ∧ gs_playerRack (ui_game (passTurn st)) = gs_playerRack (ui_game st)
     ∧ gs_currentTurn (ui_game (passTurn st)) = SideAi)
  ∧ ((7 <= length (gs_tileBag (ui_game st)))%nat →
     ui_pending (exchangeTiles st tileIds draws) = []
     ∧ (soloTotal (exchangeTiles st tileIds draws) + length (ui_pending st))%nat
       = soloTotal st)
  ∧ ((length (gs_tileBag (ui_game st)) < 7)%nat →
     exchangeTiles st tileIds draws = st).
Proof.
  split; [done|]. split; [|split; [|split]].
  - intros Hlast. unfold passTurn, runUpdates, recallUpdate.
    rewrite bool_decide_eq_true_2 by done. cbn [foldl].
    unfold soloTotal.
    cbn [ui_game ui_pending withPlayerRack gs_board gs_playerRack gs_aiRack
         gs_tileBag gs_gameOver length].
    rewrite length_app, length_map. split; [lia|done].
  - intros Hnot. unfold passTurn, runUpdates, recallUpdate.
    rewrite bool_decide_eq_false_2 by lia. cbn [foldl].
    unfold soloTotal.
    cbn [ui_game ui_pending gs_board gs_playerRack gs_aiRack gs_tileBag
         gs_currentTurn length].
    split; [lia|done].
  - intros Hbag. unfold exchangeTiles.
    rewrite bool_decide_eq_false_2 by lia.
    set (rack := gs_playerRack (ui_game st)).
    set (swapped := filter (fun t => tid t ∈ tileIds) rack).
    set (kept := filter (fun t => tid t ∉ tileIds) rack).
    assert (Hparts : swapped ++ kept ≡ₚ rack) by apply filter_app_complement.
    apply Permutation_length in Hparts. rewrite length_app in Hparts.
    pose proof (drawTiles_app (gs_tileBag (ui_game st)) (Z.of_nat (length swapped)))
      as Hsplit.
    destruct (drawTiles (gs_tileBag (ui_game st)) (Z.of_nat (length swapped)))
      as [drawn remaining].
    cbn [fst snd] in Hsplit.
    apply (f_equal length) in Hsplit. rewrite length_app in Hsplit.
    unfold runUpdates. cbn [foldl]. unfold soloTotal.
    cbn [ui_game ui_pending gs_board gs_playerRack gs_aiRack gs_tileBag length].
    rewrite shuffleArray_length, !length_app.
    fold rack. split; [done|]. lia.
  - intros Hbag. unfold exchangeTiles. by rewrite bool_decide_eq_true_2.
Qed.

Lemma placedSolo_passes : gs_consecutivePasses (ui_game placedSolo) + 1 < 4.
Proof. vm_compute. reflexivity. Qed.

Lemma solo_pass_and_exchange_totals_witness :
  (soloTotal (passTurn placedSolo) + length (ui_pending placedSolo))%nat
  = soloTotal placedSolo.
Proof.
  exact (proj1 (proj1 (proj2 (proj2 (solo_pass_and_exchange_totals placedSolo [] [])))
                  placedSolo_passes)).
Defined.

(** * The move of the AI *)

Lemma pushAll_elem {A B} (f : A → option (list B)) (xs : list A) (out : list B) :
  pushAll f xs = Some out →
  ∀ m, m ∈ out ↔ ∃ x found, x ∈ xs ∧ f x = Some found ∧ m ∈ found.
Proof.
  revert out. induction xs as [|x rest IH]; intros out Hrun m.
  - injection Hrun as <-. split; [by intros ?%elem_of_nil|].
    intros (x & found & Hx & _). by apply elem_of_nil in Hx.
  - cbn [pushAll] in Hrun. apply bind_Some in Hrun as (found & Hfound & Hrun).
    apply bind_Some in Hrun as (more & Hmore & Hrun). injection Hrun as <-.
    rewrite elem_of_app, (IH more Hmore m). split.
    + intros [Hm|(y & fy & Hy & Hfy & Hm)].
      * exists x, found. split; [left|done].
      * exists y, fy. split; [by right|done].
    + intros (y & fy & [->|Hy]%elem_of_cons & Hfy & Hm).
      * left. congruence.
      * right. by exists y, fy.
Qed.

Lemma pushAll_total {A B} (f : A → option (list B)) (xs : list A) :
  (∀ x, x ∈ xs → is_Some (f x)) → is_Some (pushAll f xs).
Proof.
  induction xs as [|x rest IH]; intros Hall; [by eexists|].
  cbn [pushAll]. destruct (Hall x) as [found ->]; [left|].
  destruct IH as [more ->]; [intros y Hy; apply Hall; by right|].
  by eexists.
Qed.

Lemma insertByScore_perm (m : list PlacedTile * Z) (sorted : list (list PlacedTile * Z)) :
  insertByScore m sorted ≡ₚ m :: sorted.
Proof.
  induction sorted as [|x rest IH]; [done|]. cbn [insertByScore].
  case_bool_decide; [|done]. rewrite IH. apply perm_swap.
Qed.

Lemma sortByScore_perm (moves : list (list PlacedTile * Z)) :
  sortByScore moves ≡ₚ moves.
Proof.
  induction moves as [|m rest IH]; [done|]. unfold sortByScore in *.
  cbn [foldr]. rewrite insertByScore_perm. by constructor.
Qed.

Lemma moveIndex_in_range (difficulty : Difficulty) (n rnd : nat) :
  (0 < n)%nat → (moveIndex difficulty n rnd < n)%nat.
Proof.
  intros Hn. destruct difficulty; cbn [moveIndex].
  - lia.
  - assert (Hlt : (rnd `mod` Nat.min n 3 < Nat.min n 3)%nat)
      by (apply Nat.mod_upper_bound; lia).
    lia.
  - done.
Qed.

(** What [generateAIMove] returns is one of the moves it found, and it
    returns [null] only when it found none. *)
Lemma generateAIMove_picks (b : Board) (aiRack : list Tile)
    (difficulty : Difficulty) (isFirstMove : bool) (rnd : nat)
    (possibleMoves : list (list PlacedTile * Z)) :
  (if isFirstMove then firstMoves b (findWordsFromRack aiRack 2 7)
   else laterMoves b aiRack) = Some possibleMoves →
  (possibleMoves = []
   ∧ generateAIMove b aiRack difficulty isFirstMove rnd = Some None)
  ∨ ∃ tiles points,
      (tiles, points) ∈ possibleMoves
      ∧ generateAIMove b aiRack difficulty isFirstMove rnd = Some (Some tiles).
Proof.
  intros Hfound. unfold generateAIMove. rewrite Hfound. cbn [mbind option_bind].
  case_bool_decide as Hlen.
  - left. split; [by apply nil_length_inv|done].
  - right.
    assert (Hin : (moveIndex difficulty (length possibleMoves) rnd
                   < length (sortByScore possibleMoves))%nat).
    { rewrite (Permutation_length (sortByScore_perm possibleMoves)).
      apply moveIndex_in_range. lia. }
    destruct (lookup_lt_is_Some_2 _ _ Hin) as [[tiles points] Hpick].
    exists tiles, points. rewrite Hpick. split; [|done].
    rewrite <- (sortByScore_perm possibleMoves). by eapply list_elem_of_lookup_2.
Qed.

Lemma first_unused_index (k n : nat) :
  (k < n)%nat →
  list_find (fun idx => idx ∉ seq 0 k) (seq 0 n) = Some (k, k).
Proof.
  intros Hk. apply list_find_Some. split; [|split].
  - by apply lookup_seq_lt.
  - rewrite elem_of_seq. lia.
  - intros j y Hj Hlt Hnot. apply lookup_seq in Hj as [-> _].
    apply Hnot. rewrite elem_of_seq. lia.
Qed.

(** The innermost loop of [tryExtendFromPosition] takes the tiles of the
    rack in their order and lays them on consecutive empty cells. *)
Lemma layTiles_spec (b : Board) (rack : list Tile) (h : bool)
    (r0 c0 offset : Z) (n k : nat) (tiles : list PlacedTile) :
  wf_board b → (k + n <= length rack)%nat →
  map ptile tiles = take k rack →
  map (fun t => (row t, col t)) tiles
  = extendCell h r0 c0 offset <$> seqZ 0 (Z.of_nat k) →
  ∃ res, layTiles b rack h r0 c0 offset n (Z.of_nat k) tiles (seq 0 k) = Some res
         ∧ ∀ out, res = Some out →
             map ptile out = take (k + n) rack
             ∧ map (fun t => (row t, col t)) out
               = extendCell h r0 c0 offset <$> seqZ 0 (Z.of_nat (k + n)).
Proof.
  intros Hwf. revert k tiles. induction n as [|n IH]; intros k tiles Hlen Htiles Hcells.
  - exists (Some tiles). split; [done|]. intros out [= <-].
    by rewrite Nat.add_0_r.
  - cbn [layTiles].
    set (r := if h then r0 else r0 + offset + Z.of_nat k).
    set (c := if h then c0 + offset + Z.of_nat k else c0).
    destruct (bool_decide (r < 0) || bool_decide (r >= 15)
              || bool_decide (c < 0) || bool_decide (c >= 15)) eqn:Hout.
    { exists None. by split. }
    assert (Hr : 0 <= r < 15 ∧ 0 <= c < 15).
    { repeat (apply orb_false_iff in Hout as [Hout ?]).
      repeat match goal with
             | H : bool_decide _ = false |- _ => apply bool_decide_eq_false in H
             end. lia. }
    destruct (occupied_wf b r c Hwf) as [occ Hocc]; [lia|lia|].
    rewrite Hocc. cbn [mbind option_bind].
    destruct occ; [exists None; by split|].
    rewrite (first_unused_index k (length rack)) by lia.
    destruct (lookup_lt_is_Some_2 rack k) as [tile Htile]; [lia|].
    rewrite Htile. cbn [mbind option_bind].
    replace (Z.of_nat k + 1) with (Z.of_nat (S k)) by lia.
    replace (seq 0 k ++ [k]) with (seq 0 (S k)) by (by rewrite seq_S).
    destruct (IH (S k) (tiles ++ [mkPlaced tile r c])) as (res & Hres & Hspec).
    + lia.
    + rewrite map_app, Htiles. cbn [map ptile]. by rewrite (take_S_r _ _ _ Htile).
    + rewrite map_app, Hcells, seqZ_S, fmap_app. cbn [map row col fmap list_fmap].
      f_equal.
    + exists res. split; [done|]. intros out Hout'.
      replace (k + S n)%nat with (S k + n)%nat by lia. by apply Hspec.
Qed.

(** What one round of the loop over the offsets pushes: a placement of the
    first tiles of the rack on consecutive cells that is accepted, forms
    words, all of them in the lexicon, and carries its score. *)
Lemma tryOffset_spec (b : Board) (rack : list Tile) (r0 c0 : Z) (len : nat)
    (h : bool) (offset : Z) :
  wf_board b → (len <= length rack)%nat →
  ∃ found, tryOffset b rack r0 c0 len h offset = Some found
    ∧ ∀ tiles points, (tiles, points) ∈ found →
        map ptile tiles = take len rack
        ∧ map (fun t => (row t, col t)) tiles
          = extendCell h r0 c0 offset <$> seqZ 0 (Z.of_nat len)
        ∧ tiles ≠ []
        ∧ validatePlacement b tiles false = Some Valid
        ∧ calculateMoveScore b tiles = Some points
        ∧ ∃ ws, getFormedWords b tiles = Some ws ∧ ws ≠ []
                ∧ Forall (fun w => isValidWord (word w) = true) ws.
Proof.
  intros Hwf Hlen. unfold tryOffset.
  destruct (layTiles_spec b rack h r0 c0 offset len 0 [] Hwf) as (res & Hres & Hspec);
    [lia|done|done|].
  change (Z.of_nat 0) with 0 in Hres. cbn [seq] in Hres.
  rewrite Hres. cbn [mbind option_bind].
  destruct res as [tiles|]; [|exists []; split; [done|by intros ?? ?%elem_of_nil]].
  destruct (Hspec tiles eq_refl) as [Hptiles Hcells]. cbn [Nat.add] in *.
  case_bool_decide as Hnil; [exists []; split; [done|by intros ?? ?%elem_of_nil]|].
  destruct (validatePlacement_decides_total b tiles false Hwf) as [v Hv].
  rewrite Hv. cbn [mbind option_bind].
  destruct v as [|e]; [|exists []; split; [done|by intros ?? ?%elem_of_nil]].
  destruct (valid_tiles_on_grid _ _ _ Hv) as [Hne Hgrid].
  destruct (getFormedWords_spec b tiles Hwf Hne Hgrid) as (tb & ws & _ & Hws & _).
  rewrite Hws. cbn [mbind option_bind].
  destruct (forallb _ ws && _) eqn:Hok;
    [|exists []; split; [done|by intros ?? ?%elem_of_nil]].
  destruct (calculateScore_total b tiles ws Hws) as [points Hpoints].
  unfold calculateMoveScore. rewrite Hpoints. cbn [mbind option_bind].
  eexists. split; [reflexivity|]. intros tiles' points' Hin.
  apply list_elem_of_singleton in Hin. injection Hin as -> ->.
  apply andb_true_iff in Hok as [Hall Hsome].
  apply bool_decide_eq_true in Hsome.
  split; [done|]. split; [done|]. split; [done|]. split; [done|]. split; [done|].
  exists ws. split; [exact Hws|]. split.
  { intros ->. cbn [length] in Hsome. lia. }
  apply Forall_forall. intros w Hw.
  rewrite forallb_forall in Hall. apply Hall, list_elem_of_In, Hw.
Qed.

Lemma tryExtendFromPosition_spec (b : Board) (rack : list Tile) (r0 c0 : Z) :
  wf_board b →
  ∃ found, tryExtendFromPosition b rack r0 c0 = Some found
    ∧ ∀ tiles points, (tiles, points) ∈ found →
        ∃ len h offset,
          (1 <= len <= 4)%nat ∧ (len <= length rack)%nat
          ∧ map ptile tiles = take len rack
          ∧ map (fun t => (row t, col t)) tiles
            = extendCell h r0 c0 offset <$> seqZ 0 (Z.of_nat len)
          ∧ validatePlacement b tiles false = Some Valid
          ∧ calculateMoveScore b tiles = Some points
          ∧ ∃ ws, getFormedWords b tiles = Some ws ∧ ws ≠ []
                  ∧ Forall (fun w => isValidWord (word w) = true) ws.
Proof.
  intros Hwf. unfold tryExtendFromPosition.
  assert (Hinner : ∀ len h, (len <= length rack)%nat →
            is_Some (pushAll (fun offset => tryOffset b rack r0 c0 len h offset)
                       (seqZ (- Z.of_nat len) (Z.of_nat len + 1)))).
  { intros len h Hlen. apply pushAll_total. intros offset _.
    destruct (tryOffset_spec b rack r0 c0 len h offset Hwf Hlen) as (found & -> & _).
    by eexists. }
  assert (Hmid : ∀ len, (len <= length rack)%nat →
            is_Some (pushAll (fun h =>
                       pushAll (fun offset => tryOffset b rack r0 c0 len h offset)
                         (seqZ (- Z.of_nat len) (Z.of_nat len + 1)))
                       [true; false])).
  { intros len Hlen. apply pushAll_total. intros h _. by apply Hinner. }
  destruct (pushAll_total
              (fun len => pushAll (fun h =>
                 pushAll (fun offset => tryOffset b rack r0 c0 len h offset)
                   (seqZ (- Z.of_nat len) (Z.of_nat len + 1))) [true; false])
              (seq 1 (Nat.min (length rack) 4))) as [found Hfound].
  { intros len Hlen. apply elem_of_seq in Hlen. apply Hmid. lia. }
  exists found. split; [done|]. intros tiles points Hin.
  apply (pushAll_elem _ _ _ Hfound) in Hin as (len & f1 & Hlen & H1 & Hin).
  apply (pushAll_elem _ _ _ H1) in Hin as (h & f2 & _ & H2 & Hin).
  apply (pushAll_elem _ _ _ H2) in Hin as (offset & f3 & _ & H3 & Hin).
  apply elem_of_seq in Hlen.
  destruct (tryOffset_spec b rack r0 c0 len h offset Hwf) as (f3' & H3' & Hspec);
    [lia|].
  rewrite H3 in H3'. injection H3' as <-.
  destruct (Hspec tiles points Hin) as (Hp & Hc & _ & Hv & Hs & Hw).
  exists len, h, offset. split; [lia|]. split; [lia|]. by repeat split.
Qed.

Lemma laterMoves_spec (b : Board) (rack : list Tile) :
  wf_board b →
  ∃ found, laterMoves b rack = Some found
    ∧ ∀ tiles points, (tiles, points) ∈ found →
        ∃ len h r0 c0 offset,
          (1 <= len <= 4)%nat ∧ (len <= length rack)%nat
          ∧ map ptile tiles = take len rack
          ∧ map (fun t => (row t, col t)) tiles
            = extendCell h r0 c0 offset <$> seqZ 0 (Z.of_nat len)
          ∧ validatePlacement b tiles false = Some Valid
          ∧ calculateMoveScore b tiles = Some points
          ∧ ∃ ws, getFormedWords b tiles = Some ws ∧ ws ≠ []
                  ∧ Forall (fun w => isValidWord (word w) = true) ws.
Proof.
  intros Hwf. unfold laterMoves.
  match goal with
  | |- ∃ found, pushAll ?f allCells = Some found ∧ _ =>
      destruct (pushAll_total f allCells) as [found Hfound]
  end.
  { intros [r c] Hrc. apply allCells_spec in Hrc as [Hr Hc]. cbn [fst snd].
    destruct (occupied_wf b r c Hwf Hr Hc) as [occ ->]. cbn [mbind option_bind].
    destruct occ; [|by eexists].
    destruct (tryExtendFromPosition_spec b rack r c Hwf) as (f & -> & _).
    by eexists. }
  exists found. split; [done|]. intros tiles points Hin.
  apply (pushAll_elem _ _ _ Hfound) in Hin as ([r c] & f1 & _ & H1 & Hin).
  cbn [fst snd] in H1. apply bind_Some in H1 as (occ & _ & H1).
  destruct occ; [|injection H1 as <-; by apply elem_of_nil in Hin].
  destruct (tryExtendFromPosition_spec b rack r c Hwf) as (f & Hf & Hspec).
  rewrite H1 in Hf. injection Hf as <-.
  destruct (Hspec tiles points Hin) as (len & h & offset & Hrest).
  by exists len, h, r, c, offset.
Qed.

Lemma extendCell_apart (h : bool) (r0 c0 offset : Z) (len : nat)
    (tiles : list PlacedTile) :
  map (fun t => (row t, col t)) tiles
  = extendCell h r0 c0 offset <$> seqZ 0 (Z.of_nat len) →
  NoDup (map (fun t => (row t, col t)) tiles).
Proof.
  intros ->. apply NoDup_fmap_2_strong; [|apply NoDup_seqZ].
  intros x y _ _. unfold extendCell. destruct h; intros [=]; lia.
Qed.

(** ** The first move of the AI *)

(** One round of the loop over the characters takes a tile of the rack,
    or a blank of the rack with the character as its letter, whose id is not
    among the tiles taken before. *)
Lemma useLetter_spec (rack : list Tile) (available available' : list string)
    (usedTiles usedTiles' : list Tile) (ch : string) :
  useLetter rack (available, usedTiles) ch = Some (available', usedTiles') →
  ∃ t u, usedTiles' = usedTiles ++ [t] ∧ u ∈ rack ∧ tid t = tid u
         ∧ ¬ usedId usedTiles u
         ∧ (toUpperCase (letter t) = ch ∨ letter t = ch).
Proof.
  unfold useLetter. intros Hrun.
  destruct (indexOf available ch) as [idx|].
  - destruct (list_find _ rack) as [[i t]|] eqn:Hfind; [|done].
    injection Hrun as <- <-.
    apply list_find_Some in Hfind as (Hi & [Hletter Hfresh] & _).
    exists t, t. split; [done|]. split; [by eapply list_elem_of_lookup_2|].
    split; [done|]. split; [done|by left].
  - destruct (indexOf available "") as [blankIdx|]; [|done].
    destruct (list_find _ rack) as [[i u]|] eqn:Hfind; [|done].
    injection Hrun as <- <-.
    apply list_find_Some in Hfind as (Hi & [_ Hfresh] & _).
    eexists _, u. split; [reflexivity|]. split; [by eapply list_elem_of_lookup_2|].
    split; [done|]. split; [done|by right].
Qed.

Lemma useLetters_spec (rack : list Tile) (chs : list string)
    (available available' : list string) (usedTiles usedTiles' : list Tile) :
  useLetters rack (available, usedTiles) chs = Some (available', usedTiles') →
  NoDup (map tid usedTiles) →
  (∀ t, t ∈ usedTiles → tid t ∈ map tid rack) →
  NoDup (map tid usedTiles')
  ∧ (∀ t, t ∈ usedTiles' → tid t ∈ map tid rack)
  ∧ ∃ new, usedTiles' = usedTiles ++ new
           ∧ Forall2 (fun t ch => toUpperCase (letter t) = ch ∨ letter t = ch) new chs.
Proof.
  revert available usedTiles. induction chs as [|ch rest IH];
    intros available usedTiles Hrun Hnd Hown.
  - injection Hrun as <- <-. split; [done|]. split; [done|].
    exists []. split; [by rewrite app_nil_r|constructor].
  - cbn [useLetters] in Hrun. apply bind_Some in Hrun as ([a1 u1] & H1 & Hrun).
    destruct (useLetter_spec _ _ _ _ _ _ H1) as (t & u & -> & Hu & Hid & Hfresh & Hl).
    destruct (IH a1 (usedTiles ++ [t]) Hrun) as (Hnd' & Hown' & new & -> & Hnew).
    + rewrite map_app. cbn [map]. apply NoDup_app. split; [done|].
      split; [|apply NoDup_singleton].
      intros x Hx Hx'. apply list_elem_of_singleton in Hx'. subst x.
      apply Hfresh. apply list_elem_of_In, in_map_iff in Hx as (ut & Hut & Hin).
      apply Exists_exists. exists ut. split; [by apply list_elem_of_In|congruence].
    + intros x Hx. apply elem_of_app in Hx as [Hx|Hx]; [by apply Hown|].
      apply list_elem_of_singleton in Hx. subst x. rewrite Hid.
      apply list_elem_of_In, in_map, list_elem_of_In, Hu.
    + split; [done|]. split; [done|]. exists (t :: new).
      split; [by rewrite <- app_assoc|]. by constructor.
Qed.

Lemma spellWord_spec (rack : list Tile) (minLen maxLen : nat) (w : string)
    (usedTiles : list Tile) :
  spellWord rack minLen maxLen w = Some usedTiles →
  NoDup (map tid usedTiles)
  ∧ (∀ t, t ∈ usedTiles → tid t ∈ map tid rack)
  ∧ (minLen <= length usedTiles <= maxLen)%nat
  ∧ Forall2 (fun t ch => toUpperCase (letter t) = ch ∨ letter t = ch)
            usedTiles (charsOf w).
Proof.
  unfold spellWord.
  destruct (bool_decide (String.length w < minLen)%nat) eqn:E1; [done|].
  destruct (bool_decide (maxLen < String.length w)%nat) eqn:E2; [done|].
  cbn [orb]. intros Hrun.
  apply bind_Some in Hrun as ([available used] & Huse & Hrun).
  case_bool_decide as Hlen; [|done]. injection Hrun as <-.
  apply bool_decide_eq_false in E1, E2.
  destruct (useLetters_spec _ _ _ _ _ _ Huse) as (Hnd & Hown & new & Hnew & Hl);
    [constructor|by intros t ?%elem_of_nil|].
  cbn [app] in Hnew. subst new.
  split; [done|]. split; [done|]. split; [lia|done].
Qed.

Lemma centerTiles_spec (w : list Tile) :
  map ptile (centerTiles w) = w
  ∧ NoDup (map (fun t => (row t, col t)) (centerTiles w))
  ∧ Forall (fun t => row t = 7) (centerTiles w).
Proof.
  unfold centerTiles. split; [|split].
  - apply list_eq. intros i.
    rewrite list_lookup_fmap, list_lookup_imap. by destruct (w !! i).
  - apply NoDup_alt. intros i j rc Hi Hj.
    rewrite list_lookup_fmap, list_lookup_imap in Hi, Hj.
    destruct (w !! i) as [ti|]; [|done]. destruct (w !! j) as [tj|]; [|done].
    cbn in Hi, Hj. simplify_eq. lia.
  - apply Forall_forall. intros t Ht.
    apply list_elem_of_lookup_1 in Ht as [i Hi].
    rewrite list_lookup_imap in Hi. destruct (w !! i); [|done].
    by injection Hi as <-.
Qed.

Lemma firstMoves_spec (b : Board) (words : list (list Tile)) :
  wf_board b →
  ∃ found, firstMoves b words = Some found
    ∧ ∀ tiles points, (tiles, points) ∈ found →
        ∃ w, w ∈ words ∧ tiles = centerTiles w
             ∧ validatePlacement b tiles true = Some Valid
             ∧ calculateMoveScore b tiles = Some points.
Proof.
  intros Hwf. induction words as [|w rest (more & Hmore & Hspec)].
  - exists []. split; [done|]. by intros ?? ?%elem_of_nil.
  - cbn [firstMoves]. rewrite Hmore.
    destruct (validatePlacement_decides_total b (centerTiles w) true Hwf) as [v Hv].
    rewrite Hv. cbn [mbind option_bind]. destruct v as [|e].
    + destruct (valid_tiles_on_grid _ _ _ Hv) as [Hne Hgrid].
      destruct (getFormedWords_spec b _ Hwf Hne Hgrid) as (tb & ws & _ & Hws & _).
      destruct (calculateScore_total b _ ws Hws) as [points Hpoints].
      unfold calculateMoveScore at 1. rewrite Hpoints. cbn [mbind option_bind].
      eexists. split; [reflexivity|]. intros tiles points' Hin.
      apply elem_of_cons in Hin as [[= -> ->]|Hin].
      * exists w. split; [left|]. by repeat split.
      * destruct (Hspec _ _ Hin) as (w' & Hw' & Hrest).
        exists w'. split; [by right|done].
    + cbn [mbind option_bind app]. exists more. split; [done|].
      intros tiles points Hin. destruct (Hspec _ _ Hin) as (w' & Hw' & Hrest).
      exists w'. split; [by right|done].
Qed.


(** What [findWordsFromRack] returns is spelled with distinct tiles of the
    rack and has an allowed length. *)
Lemma findWordsIn_spelled (entries : list string) (rack : list Tile)
    (minLen maxLen : nat) (w : list Tile) :
  w ∈ findWordsIn entries rack minLen maxLen →
  NoDup (map tid w) ∧ (∀ t, t ∈ w → tid t ∈ map tid rack)
  ∧ (minLen <= length w <= maxLen)%nat.
Proof.
  intros Hw. apply list_elem_of_omap in Hw as (entry & _ & Hspell).
  destruct (spellWord_spec _ _ _ _ _ Hspell) as (Hnd & Hown & Hlen & _).
  done.
Qed.

Lemma findWordsFromRack_spelled (rack : list Tile) (minLen maxLen : nat)
    (w : list Tile) :
  w ∈ findWordsFromRack rack minLen maxLen →
  NoDup (map tid w) ∧ (∀ t, t ∈ w → tid t ∈ map tid rack)
  ∧ (minLen <= length w <= maxLen)%nat.
Proof. exact (findWordsIn_spelled COMMON_WORDS_entries rack minLen maxLen w). Qed.

(** The first move that [generateAIMove] returns is a word spelled from
    the rack, laid through the center, that [validatePlacement] accepts. *)
Lemma picked_first_move (b : Board) (aiRack : list Tile)
    (difficulty : Difficulty) (rnd : nat) (aiMove : list PlacedTile) :
  wf_board b →
  generateAIMove b aiRack difficulty true rnd = Some (Some aiMove) →
  ∃ w, w ∈ findWordsFromRack aiRack 2 7 ∧ aiMove = centerTiles w
       ∧ validatePlacement b aiMove true = Some Valid.
Proof.
  intros Hwf Hrun.
  destruct (firstMoves_spec b (findWordsFromRack aiRack 2 7) Hwf)
    as (found & Hfound & Hspec).
  destruct (generateAIMove_picks b aiRack difficulty true rnd found Hfound)
    as [[_ Hnone]|(tiles & points & Hin & Hpick)]; [congruence|].
  rewrite Hrun in Hpick. injection Hpick as <-.
  destruct (Hspec _ _ Hin) as (w & Hw & Htiles & Hvalid & _).
  by exists w.
Qed.

(** A later move that it returns is one that [tryExtendFromPosition]
    pushed. *)
Lemma picked_later_move (b : Board) (aiRack : list Tile)
    (difficulty : Difficulty) (rnd : nat) (aiMove : list PlacedTile) :
  wf_board b →
  generateAIMove b aiRack difficulty false rnd = Some (Some aiMove) →
  ∃ len h r0 c0 offset,
    (1 <= len <= 4)%nat
    ∧ map ptile aiMove = take len aiRack
    ∧ map (fun t => (row t, col t)) aiMove
      = extendCell h r0 c0 offset <$> seqZ 0 (Z.of_nat len)
    ∧ validatePlacement b aiMove false = Some Valid
    ∧ ∃ ws, getFormedWords b aiMove = Some ws ∧ ws ≠ []
            ∧ Forall (fun w => isValidWord (word w) = true) ws.
Proof.
  intros Hwf Hrun.
  destruct (laterMoves_spec b aiRack Hwf) as (found & Hfound & Hspec).
  destruct (generateAIMove_picks b aiRack difficulty false rnd found Hfound)
    as [[_ Hnone]|(tiles & points & Hin & Hpick)]; [congruence|].
  rewrite Hrun in Hpick. injection Hpick as <-.
  destruct (Hspec _ _ Hin)
    as (len & h & r0 & c0 & offset & Hlen & Hfit & Hp & Hcells & Hvalid & _ & Hws).
  by exists len, h, r0, c0, offset.
Qed.

Lemma placed_ids (tiles : list PlacedTile) :
  map (fun t => tid (ptile t)) tiles = map tid (map ptile tiles).
Proof. by rewrite map_map. Qed.

(** The tiles of a word spelled from the rack, laid through the center. *)
Lemma centered_word_tiles (aiRack : list Tile) (w : list Tile) :
  w ∈ findWordsFromRack aiRack 2 7 →
  NoDup (map (fun t => (row t, col t)) (centerTiles w))
  ∧ NoDup (map (fun t => tid (ptile t)) (centerTiles w))
  ∧ tilesOwned aiRack (centerTiles w)
  ∧ Forall (fun t => row t = 7) (centerTiles w)
  ∧ (2 <= length (centerTiles w) <= 7)%nat.
Proof.
  intros Hw.
  destruct (findWordsFromRack_spelled _ _ _ _ Hw) as (Hnd & Hown & Hlen).
  clear Hw.
  destruct (centerTiles_spec w) as (Hp & Hcells & Hrow).
  split; [done|]. split; [by rewrite placed_ids, Hp|].
  split; [|split; [done|]].
  - intros pt Hpt. apply Hown. rewrite <- Hp.
    apply list_elem_of_In, in_map, list_elem_of_In, Hpt.
  - rewrite <- (length_map ptile), Hp. exact Hlen.
Qed.

(** The first tiles of the rack, laid along a line. *)
Lemma extended_tiles (aiRack : list Tile) (tiles : list PlacedTile)
    (len : nat) (h : bool) (r0 c0 offset : Z) :
  NoDup (map tid aiRack) →
  map ptile tiles = take len aiRack →
  map (fun t => (row t, col t)) tiles
  = extendCell h r0 c0 offset <$> seqZ 0 (Z.of_nat len) →
  NoDup (map (fun t => (row t, col t)) tiles)
  ∧ NoDup (map (fun t => tid (ptile t)) tiles)
  ∧ tilesOwned aiRack tiles.
Proof.
  intros Hrack Hp Hcells.
  split; [by eapply extendCell_apart|]. split.
  - rewrite placed_ids, Hp. rewrite <- (take_drop len aiRack), map_app in Hrack.
    by apply NoDup_app in Hrack as (? & _).
  - intros pt Hpt.
    assert (Hin' : ptile pt ∈ take len aiRack).
    { rewrite <- Hp. apply list_elem_of_In, in_map, list_elem_of_In, Hpt. }
    apply list_elem_of_In, in_map, list_elem_of_In.
    by apply (subseteq_take len aiRack).
Qed.

(** * Numbers in a message *)

(** ** Integers among the numbers *)

Lemma asIndex_ofInteger (z : Z) : asIndex (ofInteger z) = Some z.
Proof. reflexivity. Qed.

Lemma asIndex_Some (a : JsNumber) (z : Z) : asIndex a = Some z → a = ofInteger z.
Proof.
  destruct a as [q| |]; try done. cbn [asIndex].
  case_bool_decide as Hden; [|done]. intros [= <-].
  unfold ofInteger. f_equal. apply Qcanon.Qc_is_canon.
  destruct q as [[n d] Hc]. cbn in *. subst d. reflexivity.
Qed.

Lemma strictEq_ofInteger (a b : Z) :
  strictEq (ofInteger a) (ofInteger b) = bool_decide (a = b).
Proof.
  cbn [strictEq ofInteger]. apply bool_decide_ext.
  split; [apply Z2Qc_inj|by intros ->].
Qed.

Lemma lessThan_ofInteger (a k : Z) :
  lessThan (ofInteger a) k = bool_decide (a < k).
Proof.
  cbn [lessThan ofInteger]. apply bool_decide_ext. symmetry. apply Z2Qc_inj_lt.
Qed.

Lemma greaterThan_ofInteger (a k : Z) :
  greaterThan (ofInteger a) k = bool_decide (a > k).
Proof.
  cbn [greaterThan ofInteger]. apply bool_decide_ext.
  rewrite <- Z2Qc_inj_lt. lia.
Qed.

Lemma integerTile_ofPlaced (p : PlacedTile) : integerTile (ofPlaced p) = Some p.
Proof. by destruct p. Qed.

Lemma integerTile_Some (t : JsPlacedTile) (p : PlacedTile) :
  integerTile t = Some p → t = ofPlaced p.
Proof.
  unfold integerTile. intros H.
  apply bind_Some in H as (r & Hr & H). apply bind_Some in H as (c & Hc & [= <-]).
  apply asIndex_Some in Hr, Hc. destruct t as [tl jr jc]. cbn in *.
  by rewrite Hr, Hc.
Qed.

Lemma mapM_integerTile_ofPlaced (pts : list PlacedTile) :
  mapM integerTile (map ofPlaced pts) = Some pts.
Proof.
  apply mapM_Some. induction pts as [|p pts IH]; constructor; [|done].
  apply integerTile_ofPlaced.
Qed.

Lemma mapM_integerTile_Some (tiles : list JsPlacedTile) (pts : list PlacedTile) :
  mapM integerTile tiles = Some pts → tiles = map ofPlaced pts.
Proof.
  intros H. apply mapM_Some in H.
  induction H as [|t p tiles pts Ht _ IH]; [done|].
  cbn [map]. by rewrite (integerTile_Some t p Ht), IH.
Qed.

Lemma sameRowJs_ofPlaced (pts : list PlacedTile) :
  sameRowJs (map ofPlaced pts) = sameRowOf pts.
Proof.
  destruct pts as [|p0 rest]; [done|].
  unfold sameRowJs, sameRowOf. cbn [map].
  change (ofPlaced p0 :: map ofPlaced rest) with (map ofPlaced (p0 :: rest)).
  generalize (p0 :: rest). intros l.
  induction l as [|t l IH]; [done|].
  cbn [map forallb]. rewrite IH. f_equal. apply strictEq_ofInteger.
Qed.

Lemma sameColJs_ofPlaced (pts : list PlacedTile) :
  sameColJs (map ofPlaced pts) = sameColOf pts.
Proof.
  destruct pts as [|p0 rest]; [done|].
  unfold sameColJs, sameColOf. cbn [map].
  change (ofPlaced p0 :: map ofPlaced rest) with (map ofPlaced (p0 :: rest)).
  generalize (p0 :: rest). intros l.
  induction l as [|t l IH]; [done|].
  cbn [map forallb]. rewrite IH. f_equal. apply strictEq_ofInteger.
Qed.

Lemma checkCellsJs_ofPlaced (b : Board) (pts : list PlacedTile) :
  checkCellsJs b (map ofPlaced pts) = checkCells b pts.
Proof.
  induction pts as [|p pts IH]; [done|].
  cbn [map checkCellsJs checkCells ofPlaced jrow jcol].
  rewrite !lessThan_ofInteger, !greaterThan_ofInteger, IH. done.
Qed.

(** [validatePlacement] with its first tests set apart. *)
Lemma validatePlacement_first_tests (b : Board) (p0 : PlacedTile)
    (rest : list PlacedTile) (isFirstMove : bool) :
  validatePlacement b (p0 :: rest) isFirstMove
  = if negb (sameRowOf (p0 :: rest)) && negb (sameColOf (p0 :: rest))
    then Some (Invalid NotSingleLine)
    else
      cells ← checkCells b (p0 :: rest);
      match cells with
      | Some e => Some (Invalid e)
      | None => validatePlacement b (p0 :: rest) isFirstMove
      end.
Proof.
  unfold validatePlacement.
  destruct (negb _ && negb _) eqn:Hline; [done|].
  destruct (checkCells b (p0 :: rest)) as [[e|]|] eqn:Hcells; done.
Qed.

(** On integer coordinates the reading on numbers is the reading on
    integers. *)
Lemma validatePlacementJs_ofPlaced (b : Board) (pts : list PlacedTile)
    (isFirstMove : bool) :
  validatePlacementJs b (map ofPlaced pts) isFirstMove
  = validatePlacement b pts isFirstMove.
Proof.
  destruct pts as [|p0 rest]; [done|].
  rewrite validatePlacement_first_tests.
  unfold validatePlacementJs. cbn [map].
  change (ofPlaced p0 :: map ofPlaced rest) with (map ofPlaced (p0 :: rest)).
  rewrite sameRowJs_ofPlaced, sameColJs_ofPlaced, checkCellsJs_ofPlaced,
    mapM_integerTile_ofPlaced.
  done.
Qed.

(** ** Where the cell loop throws *)

Lemma passesBounds_ofInteger (z : Z) : passesBounds (ofInteger z) ↔ 0 <= z <= 14.
Proof.
  unfold passesBounds. rewrite lessThan_ofInteger, greaterThan_ofInteger.
  rewrite !bool_decide_eq_false. lia.
Qed.

Lemma bounds_test_passes (t : JsPlacedTile) :
  lessThan (jrow t) 0 || greaterThan (jrow t) 14
  || lessThan (jcol t) 0 || greaterThan (jcol t) 14 = false
  ↔ passesBounds (jrow t) ∧ passesBounds (jcol t).
Proof.
  unfold passesBounds. rewrite !orb_false_iff. tauto.
Qed.

Lemma occupiedJs_Some (b : Board) (t : JsPlacedTile) (occ : bool) :
  occupiedJs b (jrow t) (jcol t) = Some occ →
  ∃ p, t = ofPlaced p ∧ occupied b (row p) (col p) = Some occ.
Proof.
  unfold occupiedJs. intros H.
  apply bind_Some in H as (r & Hr & H). apply bind_Some in H as (c & Hc & H).
  exists (mkPlaced (jtile t) r c). split; [|done].
  apply integerTile_Some. unfold integerTile. by rewrite Hr, Hc.
Qed.

Lemma occupiedJs_ofPlaced (b : Board) (p : PlacedTile) :
  occupiedJs b (jrow (ofPlaced p)) (jcol (ofPlaced p)) = occupied b (row p) (col p).
Proof. done. Qed.

(** A tile that the loop passes has integer coordinates on the grid and lies
    on an empty cell. *)
Lemma passed_tile (b : Board) (t : JsPlacedTile) :
  wf_board b → occupiedJs b (jrow t) (jcol t) = Some false →
  ∃ p, t = ofPlaced p ∧ 0 <= row p <= 14 ∧ 0 <= col p <= 14
       ∧ ¬ occupiedOn b (row p) (col p).
Proof.
  intros Hwf Hocc. destruct (occupiedJs_Some b t false Hocc) as (p & -> & Hp).
  exists p. split; [done|].
  assert (Hcell : is_Some (getCell b (row p) (col p))).
  { unfold occupied in Hp. destruct (getCell b (row p) (col p)); [by eexists|done]. }
  destruct Hcell as [cell Hcell].
  destruct (getCell_Some_range b (row p) (col p) cell Hwf Hcell) as [Hr Hc].
  split; [lia|]. split; [lia|].
  destruct (occupied_cases b (row p) (col p) Hwf Hr Hc) as [[Ht _]|[_ Hno]];
    [congruence|done].
Qed.

(** The loop ends without a return only on integer coordinates. *)
Lemma checkCellsJs_done (b : Board) (tiles : list JsPlacedTile) :
  checkCellsJs b tiles = Some None → ∃ pts, tiles = map ofPlaced pts.
Proof.
  induction tiles as [|t tiles IH]; [by exists []|].
  cbn [checkCellsJs]. destruct (_ || _); [done|].
  destruct (occupiedJs b (jrow t) (jcol t)) as [[|]|] eqn:Hocc; try done.
  cbn [mbind option_bind]. intros Hrest.
  destruct (IH Hrest) as (pts & ->).
  destruct (occupiedJs_Some b t false Hocc) as (p & -> & _).
  by exists (p :: pts).
Qed.

(** The loop throws exactly when it comes to a tile whose coordinates pass
    the bounds test without both being integers. *)
Lemma checkCellsJs_throws (b : Board) (tiles : list JsPlacedTile) :
  wf_board b →
  checkCellsJs b tiles = None ↔ ∃ i, throwsAtTile b tiles i.
Proof.
  intros Hwf. induction tiles as [|t tiles IH].
  { split; [done|]. intros (i & u & Hu & _). by rewrite lookup_nil in Hu. }
  cbn [checkCellsJs].
  destruct (_ || _) eqn:Hbounds.
  { split; [done|]. intros ([|i] & u & Hu & Hr & Hc & Hint & Hbefore).
    - injection Hu as <-.
      assert (Hpass : passesBounds (jrow t) ∧ passesBounds (jcol t)) by done.
      apply bounds_test_passes in Hpass. congruence.
    - destruct (Hbefore 0%nat t) as (p & -> & Hrow & Hcol & _); [lia|done|].
      assert (Hpass : passesBounds (jrow (ofPlaced p)) ∧ passesBounds (jcol (ofPlaced p))).
      { split; by apply passesBounds_ofInteger. }
      apply bounds_test_passes in Hpass. congruence. }
  apply bounds_test_passes in Hbounds as [Hr Hc].
  destruct (occupiedJs b (jrow t) (jcol t)) as [[|]|] eqn:Hocc;
    cbn [mbind option_bind].
  - split; [done|]. intros ([|i] & u & Hu & _ & _ & Hint & Hbefore).
    + injection Hu as <-. destruct (occupiedJs_Some b t true Hocc) as (p & -> & _).
      by rewrite integerTile_ofPlaced in Hint.
    + destruct (Hbefore 0%nat t) as (p & -> & Hrow & Hcol & Hfree); [lia|done|].
      rewrite occupiedJs_ofPlaced in Hocc.
      destruct (occupied_cases b (row p) (col p) Hwf) as [[_ Hon]|[Hoff _]];
        [lia|lia|done|congruence].
  - rewrite IH. split.
    + intros (i & u & Hu & Hru & Hcu & Hint & Hbefore).
      exists (S i), u. split; [done|]. split; [done|]. split; [done|].
      split; [done|]. intros [|j] v Hj Hv.
      * injection Hv as <-. by apply passed_tile.
      * apply (Hbefore j v); [lia|done].
    + intros ([|i] & u & Hu & Hru & Hcu & Hint & Hbefore).
      * injection Hu as <-. destruct (occupiedJs_Some b t false Hocc) as (p & -> & _).
        by rewrite integerTile_ofPlaced in Hint.
      * exists i, u. split; [done|]. split; [done|]. split; [done|].
        split; [done|]. intros j v Hj Hv. apply (Hbefore (S j) v); [lia|done].
  - split; [intros _|done]. exists 0%nat, t.
    split; [done|]. split; [done|]. split; [done|]. split; [|intros j v Hj; lia].
    destruct (integerTile t) as [p|] eqn:Hint; [|done]. exfalso.
    apply integerTile_Some in Hint as ->.
    rewrite occupiedJs_ofPlaced in Hocc.
    apply passesBounds_ofInteger in Hr, Hc.
    destruct (occupied_cases b (row p) (col p) Hwf) as [[Hon _]|[Hoff _]];
      [lia|lia|congruence|congruence].
Qed.

(** ** [validatePlacement] on numbers *)

Lemma validatePlacementJs_throws (b : Board) (tiles : list JsPlacedTile)
    (isFirstMove : bool) :
  wf_board b →
  validatePlacementJs b tiles isFirstMove = None
  ↔ tiles ≠ [] ∧ (sameRowJs tiles = true ∨ sameColJs tiles = true)
    ∧ ∃ i, throwsAtTile b tiles i.
Proof.
  intros Hwf. destruct tiles as [|t0 rest].
  { split; [done|]. by intros [? _]. }
  unfold validatePlacementJs. set (tiles := t0 :: rest).
  destruct (sameRowJs tiles) eqn:Hrow; cbn [negb andb].
  2:{ destruct (sameColJs tiles) eqn:Hcol; cbn [negb].
      2:{ split; [done|]. by intros (_ & [?|?] & _). }
      destruct (checkCellsJs b tiles) as [[e|]|] eqn:Hcells; cbn [mbind option_bind].
      - split; [done|]. intros (_ & _ & Hthrow).
        apply (checkCellsJs_throws b tiles Hwf) in Hthrow. congruence.
      - destruct (checkCellsJs_done b tiles Hcells) as (pts & Hpts).
        rewrite Hpts, mapM_integerTile_ofPlaced. cbn [mbind option_bind].
        destruct (validatePlacement_decides_total b pts isFirstMove Hwf) as [v ->].
        split; [done|]. intros (_ & _ & Hthrow). rewrite <- Hpts in Hthrow.
        apply (checkCellsJs_throws b tiles Hwf) in Hthrow. congruence.
      - split; [intros _|done]. split; [done|]. split; [by right|].
        by apply (checkCellsJs_throws b tiles Hwf). }
  destruct (checkCellsJs b tiles) as [[e|]|] eqn:Hcells; cbn [mbind option_bind].
  - split; [done|]. intros (_ & _ & Hthrow).
    apply (checkCellsJs_throws b tiles Hwf) in Hthrow. congruence.
  - destruct (checkCellsJs_done b tiles Hcells) as (pts & Hpts).
    rewrite Hpts, mapM_integerTile_ofPlaced. cbn [mbind option_bind].
    destruct (validatePlacement_decides_total b pts isFirstMove Hwf) as [v ->].
    split; [done|]. intros (_ & _ & Hthrow). rewrite <- Hpts in Hthrow.
    apply (checkCellsJs_throws b tiles Hwf) in Hthrow. congruence.
  - split; [intros _|done]. split; [done|]. split; [by left|].
    by apply (checkCellsJs_throws b tiles Hwf).
Qed.

Lemma validatePlacementJs_accepts_integers (b : Board)
    (tiles : list JsPlacedTile) (isFirstMove : bool) :
  validatePlacementJs b tiles isFirstMove = Some Valid →
  ∃ placedTiles, tiles = map ofPlaced placedTiles.
Proof.
  destruct tiles as [|t0 rest]; [done|].
  unfold validatePlacementJs. destruct (negb _ && negb _); [done|].
  destruct (checkCellsJs b (t0 :: rest)) as [[e|]|] eqn:Hcells; try done.
  intros _. by apply (checkCellsJs_done b).
Qed.

(** [validatePlacement] on the numbers a message can carry. On a 15 by 15
    board it throws exactly when its loop over the tiles comes to a tile
    whose coordinates pass the bounds test (each from 0 to 14, or NaN)
    without both being integers, as row 7.5 is: the tiles lie in one row or
    one column by [===], every tile listed before it has integer coordinates
    on the grid and lies on an empty cell, and for this tile
    [board[t.row][t.col]] is [undefined]. When every coordinate is an
    integer it answers, as the reading on integers does, and it answers
    [valid] exactly for the placements that keep every rule: at least one
    tile, one row or one column, every tile on the grid and on an empty cell,
    the first move over the center with two tiles or more and a later move
    next to a tile of the board, and no cell of the span left empty. What it
    accepts has integer coordinates. *)
Theorem validatePlacement_decides_rules (b : Board)
    (tiles : list JsPlacedTile) (isFirstMove : bool) :
  wf_board b →
  (validatePlacementJs b tiles isFirstMove = None
   ↔ tiles ≠ [] ∧ (sameRowJs tiles = true ∨ sameColJs tiles = true)
     ∧ ∃ i, throwsAtTile b tiles i)
  ∧ (∀ placedTiles, tiles = map ofPlaced placedTiles →
       ∃ v, validatePlacementJs b tiles isFirstMove = Some v
            ∧ validatePlacement b placedTiles isFirstMove = Some v
            ∧ (v = Valid ↔ passesEarlierRules b placedTiles isFirstMove
                           ∧ ¬ hasGap b placedTiles))
  ∧ (validatePlacementJs b tiles isFirstMove = Some Valid →
     ∃ placedTiles, tiles = map ofPlaced placedTiles).
Proof.
  intros Hwf. split; [by apply validatePlacementJs_throws|].
  split; [|apply validatePlacementJs_accepts_integers].
  intros placedTiles ->. rewrite validatePlacementJs_ofPlaced.
  destruct (validatePlacement_rules_on_integers b placedTiles isFirstMove Hwf)
    as (v & Hv & Hrules).
  by exists v.
Qed.

(** The first move with its tiles on row 7.5: the loop throws on the first
    tile. *)
Lemma validatePlacement_decides_rules_witness :
  validatePlacementJs createEmptyBoard halfwayTiles true = None.
Proof.
  apply (validatePlacement_decides_rules createEmptyBoard halfwayTiles true
           createEmptyBoard_wf).
  split; [intros H; inversion H|]. split; [left; vm_compute; reflexivity|].
  exists 0%nat. eexists. split; [reflexivity|].
  split; [split; vm_compute; reflexivity|].
  split; [split; vm_compute; reflexivity|].
  split; [vm_compute; reflexivity|].
  intros j u Hj. inversion Hj.
Defined.

(** ** A game message with numbers *)

Lemma rack_test (rk : list Tile) (tiles : list JsPlacedTile) :
  existsb (fun pt => negb (bool_decide
                             (tid (jtile pt) ∈ (list_to_set (map tid rk) : gset string))))
          tiles = false
  ↔ Forall (fun t => tid (jtile t) ∈ map tid rk) tiles.
Proof.
  induction tiles as [|t tiles IH].
  { split; [constructor|done]. }
  cbn [existsb]. rewrite orb_false_iff, Forall_cons, IH, negb_false_iff,
    bool_decide_eq_true, elem_of_list_to_set.
  done.
Qed.

Lemma rack_test_ofPlaced (ids : gset string) (pts : list PlacedTile) :
  existsb (fun pt => negb (bool_decide (tid (jtile pt) ∈ ids))) (map ofPlaced pts)
  = existsb (fun pt => negb (bool_decide (tid (ptile pt) ∈ ids))) pts.
Proof. induction pts as [|p pts IH]; [done|]. cbn [map existsb]. by rewrite IH. Qed.

Lemma handlePlaceTilesJs_ofPlaced (wsOpen : nat → bool) (room : GameRoom)
    (playerId : string) (pts : list PlacedTile) :
  handlePlaceTilesJs wsOpen room playerId (map ofPlaced pts)
  = handlePlaceTiles wsOpen room playerId pts.
Proof.
  unfold handlePlaceTilesJs, handlePlaceTiles.
  destruct (negb (started room) || gameOver room); [done|].
  case_bool_decide; [done|].
  destruct (playerAt room (findIndexById room playerId)) as [player|]; [|done].
  cbn [mbind option_bind]. rewrite length_map.
  case_bool_decide; [done|].
  rewrite rack_test_ofPlaced. destruct (existsb _ pts); [done|].
  rewrite validatePlacementJs_ofPlaced.
  destruct (validatePlacement (board room) pts (isFirstMove room)) as [[|e]|];
    [|done|done].
  cbn [mbind option_bind]. by rewrite mapM_integerTile_ofPlaced.
Qed.

(** When a game message makes its handler throw. In a room that the server
    can hold, whose two players have different ids, the handler of a message
    of a seated player throws in one case only: the message is a place_tiles
    that gets as far as [validatePlacement] (the game is running, the sender
    is to move, every tile named has the id of a tile of the sender's rack),
    its tiles lie in one row or one column, and the loop over the tiles comes
    to a tile whose coordinates pass the bounds test without both being
    integers. A pass_turn, an exchange_tiles, and a place_tiles whose
    coordinates are all integers are always handled, and handled as the
    reading on integers has it. *)
Theorem game_message_throws_only_on_bad_cell (wsOpen : nat → bool)
    (bag0 : list Tile) (room : GameRoom) (playerId : string)
    (msg : JsClientMsg) :
  roomInvariant bag0 room →
  NoDup (map pid (players room)) →
  playerId ∈ map pid (players room) →
  (handleGameMsgJs wsOpen room playerId msg = None
   ↔ ∃ tiles, msg = JsPlaceTiles tiles
              ∧ reachesValidation room playerId tiles
              ∧ (sameRowJs tiles = true ∨ sameColJs tiles = true)
              ∧ ∃ i, throwsAtTile (board room) tiles i)
  ∧ ∀ typed, msg = ofClientMsg typed →
      handleGameMsgJs wsOpen room playerId msg
      = handleGameMsg wsOpen room playerId typed
      ∧ is_Some (handleGameMsg wsOpen room playerId typed).
Proof.
  intros Hinv Hnd Hseat.
  assert (Hwf : wf_board (board room)) by (by destruct Hinv as (_ & _ & ? & _)).
  assert (Htyped : ∀ typed, handleGameMsgJs wsOpen room playerId (ofClientMsg typed)
                            = handleGameMsg wsOpen room playerId typed).
  { intros [pts| |tileIds draws]; cbn [ofClientMsg handleGameMsgJs handleGameMsg];
      [apply handlePlaceTilesJs_ofPlaced|done|done]. }
  assert (Hsome : ∀ typed, is_Some (handleGameMsg wsOpen room playerId typed)).
  { intros typed. by apply (integer_message_is_handled wsOpen bag0). }
  split; [|intros typed ->; by split].
  split.
  - intros Hnone.
    destruct msg as [tiles| |tileIds draws].
    2:{ destruct (Hsome PassTurn) as [x Hx].
        cbn [handleGameMsg] in Hx. cbn [handleGameMsgJs] in Hnone. congruence. }
    2:{ destruct (Hsome (ExchangeTiles tileIds draws)) as [x Hx].
        cbn [handleGameMsg] in Hx. cbn [handleGameMsgJs] in Hnone. congruence. }
    exists tiles. split; [done|].
    destruct (mapM integerTile tiles) as [pts|] eqn:Hint.
    { apply mapM_integerTile_Some in Hint as ->.
      change (JsPlaceTiles (map ofPlaced pts)) with (ofClientMsg (PlaceTiles pts))
        in Hnone.
      rewrite (Htyped (PlaceTiles pts)) in Hnone.
      destruct (Hsome (PlaceTiles pts)) as [x Hx]. congruence. }
    cbn [handleGameMsgJs] in Hnone. unfold handlePlaceTilesJs in Hnone.
    destruct (seated_player room playerId Hseat)
      as (i & player & _ & _ & Hat & _ & _).
    destruct (started room) eqn:Hstarted; cbn [negb orb] in Hnone; [|done].
    destruct (gameOver room) eqn:Hover; [done|].
    rewrite Hat in Hnone. cbn [mbind option_bind] in Hnone.
    case_bool_decide as Hturn; [done|].
    case_bool_decide as Hlen; [done|].
    destruct (existsb _ tiles) eqn:Hids; [done|].
    apply rack_test in Hids.
    destruct (validatePlacementJs (board room) tiles (isFirstMove room))
      as [[|e]|] eqn:Hv; cbn [mbind option_bind] in Hnone.
    + apply validatePlacementJs_accepts_integers in Hv as (pts & ->).
      by rewrite mapM_integerTile_ofPlaced in Hint.
    + done.
    + apply (validatePlacementJs_throws _ _ _ Hwf) in Hv as (Hne & Hline & Hthrow).
      split; [|by split].
      split; [done|]. split; [done|].
      split; [done|].
      split; [done|]. by exists player.
  - intros (tiles & -> & (Hstarted & Hover & Hturn & Hne & player & Hat & Hids)
            & Hline & Hthrow).
    cbn [handleGameMsgJs]. unfold handlePlaceTilesJs.
    rewrite Hstarted, Hover. cbn [negb orb].
    rewrite bool_decide_eq_false_2 by (intros Hno; by apply Hno).
    rewrite Hat. cbn [mbind option_bind].
    rewrite bool_decide_eq_false_2 by (by destruct tiles).
    apply rack_test in Hids. rewrite Hids.
    assert (Hv : validatePlacementJs (board room) tiles (isFirstMove room) = None)
      by (by apply validatePlacementJs_throws).
    by rewrite Hv.
Qed.

(** Ann, who is to move in the room she created and Bob joined, names her
    tiles ["t2"] and ["t3"] on row 7.5: the handler throws. *)
Lemma game_message_throws_only_on_bad_cell_witness :
  handleGameMsgJs allOpen openingRoom "t1" (JsPlaceTiles halfwayTiles) = None.
Proof.
  apply (game_message_throws_only_on_bad_cell allOpen
           (createTileBag demoIds 1 stillDraws) openingRoom "t1"
           (JsPlaceTiles halfwayTiles)).
  - apply openingRoom_invariant.
  - apply (bool_decide_unpack _). vm_compute. exact I.
  - apply (bool_decide_unpack _). vm_compute. exact I.
  - exists halfwayTiles. split; [reflexivity|]. split.
    + split; [vm_compute; reflexivity|]. split; [vm_compute; reflexivity|].
      split; [vm_compute; reflexivity|]. split; [intros H; inversion H|].
      eexists. split; [vm_compute; reflexivity|].
      repeat constructor; apply (bool_decide_unpack _); vm_compute; exact I.
    + split; [left; vm_compute; reflexivity|].
      exists 0%nat. eexists. split; [reflexivity|].
      split; [split; vm_compute; reflexivity|].
      split; [split; vm_compute; reflexivity|].
      split; [vm_compute; reflexivity|].
      intros j u Hj. inversion Hj.
Defined.


Lemma boardWithCat_wf : wf_board boardWithCat.
Proof. split; [reflexivity|]. vm_compute. repeat constructor. Qed.

Lemma aiSampleRack_ids : NoDup (map tid aiSampleRack).
Proof. apply (bool_decide_unpack _). vm_compute. exact I. Qed.


(** ** The turn of the AI *)

Lemma applyAiMove_total (prev : GameState) (aiMove : list PlacedTile) :
  wf_board (gs_board prev) →
  validatePlacement (gs_board prev) aiMove (gs_isFirstMove prev) = Some Valid →
  ∃ next, applyAiMove prev aiMove = Some next
          ∧ gs_currentTurn next = SidePlayer
          ∧ gs_playerRack next = gs_playerRack prev
          ∧ placeAll (gs_board prev) aiMove = Some (gs_board next)
          ∧ gs_isFirstMove next = false
          ∧ gs_consecutivePasses next = 0.
Proof.
  intros Hwf Hvalid.
  destruct (valid_tiles_on_grid _ _ _ Hvalid) as [Hne Hgrid].
  destruct (getFormedWords_spec (gs_board prev) aiMove Hwf Hne Hgrid)
    as (tb & ws & Htb & Hws & _).
  destruct (calculateScore_total _ _ _ Hws) as [points Hpoints].
  unfold applyAiMove, calculateMoveScore. rewrite Htb, Hpoints, Hws.
  cbn [mbind option_bind].
  destruct (drawTiles (gs_tileBag prev) _) as [drawn remaining].
  eexists. split; [reflexivity|]. by repeat split.
Qed.

(** The turn of the AI. In a game with a 15 by 15 board where the tiles of
    the AI's rack have different ids, [doAiTurn] always arrives at a next
    state, whatever the difficulty and the random draw; the turn passes to
    the player, the player's rack is untouched, and the tiles on the board,
    on the racks and in the bag are as many as before. Either the AI passed:
    board, racks and bag are the same and one more pass is counted. Or it
    played a placement that [validatePlacement] accepts, made of tiles of its
    rack, which is now on the board. *)
Theorem ai_turn_completes (state : GameState) (difficulty : Difficulty)
    (rnd : nat) :
  wf_board (gs_board state) → NoDup (map tid (gs_aiRack state)) →
  ∃ next,
    doAiTurn state difficulty rnd = Some next
    ∧ gs_currentTurn next = SidePlayer
    ∧ gs_playerRack next = gs_playerRack state
    ∧ soloTotal (mkSolo next [] None) = soloTotal (mkSolo state [] None)
    ∧ ((gs_board next = gs_board state ∧ gs_aiRack next = gs_aiRack state
        ∧ gs_tileBag next = gs_tileBag state
        ∧ gs_consecutivePasses next = gs_consecutivePasses state + 1)
       ∨ ∃ aiMove,
           validatePlacement (gs_board state) aiMove (gs_isFirstMove state)
           = Some Valid
           ∧ tilesOwned (gs_aiRack state) aiMove
           ∧ placeAll (gs_board state) aiMove = Some (gs_board next)
           ∧ gs_isFirstMove next = false
           ∧ gs_consecutivePasses next = 0).
Proof.
  intros Hwf Hrack. unfold doAiTurn.
  assert (Hfound : ∃ found,
            (if gs_isFirstMove state
             then firstMoves (gs_board state) (findWordsFromRack (gs_aiRack state) 2 7)
             else laterMoves (gs_board state) (gs_aiRack state)) = Some found).
  { destruct (gs_isFirstMove state).
    - destruct (firstMoves_spec (gs_board state)
                  (findWordsFromRack (gs_aiRack state) 2 7) Hwf) as (f & Hf & _).
      by exists f.
    - destruct (laterMoves_spec (gs_board state) (gs_aiRack state) Hwf)
        as (f & Hf & _).
      by exists f. }
  destruct Hfound as [found Hfound].
  destruct (generateAIMove_picks _ _ difficulty _ rnd found Hfound)
    as [[_ Hnone]|(tiles & points & _ & Hpick)].
  - rewrite Hnone. cbn [mbind option_bind].
    exists (applyAiPass state). split; [done|].
    unfold applyAiPass. case_bool_decide; cbn; (split; [done|]); (split; [done|]);
      (split; [done|]); left; by repeat split.
  - rewrite Hpick. cbn [mbind option_bind].
    assert (Hmove : validatePlacement (gs_board state) tiles (gs_isFirstMove state)
                    = Some Valid
                    ∧ NoDup (map (fun t => (row t, col t)) tiles)
                    ∧ NoDup (map (fun t => tid (ptile t)) tiles)
                    ∧ tilesOwned (gs_aiRack state) tiles).
    { destruct (gs_isFirstMove state).
      - destruct (picked_first_move _ _ _ _ _ Hwf Hpick) as (w & Hw & -> & Hvalid).
        destruct (centered_word_tiles _ w Hw) as (Hcells & Hids & Hown & _).
        done.
      - destruct (picked_later_move _ _ _ _ _ Hwf Hpick)
          as (len & h & r0 & c0 & offset & _ & Hp & Hline & Hvalid & _).
        destruct (extended_tiles _ _ len h r0 c0 offset Hrack Hp Hline)
          as (Hcells & Hids & Hown).
        done. }
    destruct Hmove as (Hvalid & Hcells & Hids & Howned).
    destruct (applyAiMove_total state tiles Hwf Hvalid)
      as (next & Hnext & Hturn & Hplayer & Hboard & Hfirst & Hpasses).
    exists next. split; [done|]. split; [done|]. split; [done|].
    split; [by apply (applyAiMove_keeps_tiles state next tiles)|].
    right. by exists tiles.
Qed.

(** On the board with CAT the AI plays its T and the game still holds its
    eight tiles. *)
Lemma ai_turn_completes_witness :
  ∃ next, doAiTurn aiSampleGame Medium 1 = Some next
          ∧ gs_currentTurn next = SidePlayer
          ∧ soloTotal (mkSolo next [] None) = 8%nat.
Proof.
  destruct (ai_turn_completes aiSampleGame Medium 1 boardWithCat_wf
              aiSampleRack_ids) as (next & Hrun & Hturn & _ & Htotal & _).
  exists next. split; [exact Hrun|]. split; [exact Hturn|].
  rewrite Htotal. vm_compute. reflexivity.
Defined.
